(** * Sparse-matrix kernels of scipy/sparse/sparsetools/sparsetools.h

    A shallow embedding of the CSR/CSC/COO conversion routines, of the
    accumulator-based kernels (matrix product, elementwise binary operation,
    duplicate summation) and of the remaining kernels of the file (diagonal,
    matrix-vector products, dense conversion, submatrix extraction, diagonal
    construction, row sorting), followed by the properties proved about them.

    Conventions of the embedding:
    - the index type [I] of the templates is [Z]: index arithmetic is exact,
      the wrap-around of a machine integer is not modelled (on well-formed
      inputs every counter and cursor stays within the array sizes). The
      value type [T] is any type carrying the operations of the [Scalar]
      class ([0], [+], [*] and the test [x != 0]); no law is assumed of
      them unless a theorem says so;
    - a C array or a [std::vector] is a [list]; [a[i]] is [aget]/[idx]/[val]
      and [a[i] = v] is [aset]. An access outside the array is undefined
      behaviour in the source; here a read gives the default value and a
      write changes nothing. The theorems assume well-formed inputs, for
      which every access is in range;
    - a loop [for (I i = lo; i < hi; i++)] is a left fold over
      [seqZ lo (hi - lo)] ([for_range]); the [while] loop of
      [sum_csr_duplicates] is a recursion on a fuel counter and returns [None]
      when the fuel runs out;
    - the call of [std::sort] in [csr_sort_indices] is an argument of the
      embedding; the theorems about it hold for every function that keeps
      the promise of [std::sort] ([sorts_by_key]). *)

From Stdlib Require Import ZArith List Lia Permutation Sorted.
From stdpp Require Import base tactics option list list_numbers sorting.

Open Scope Z_scope.

(** ** Scalars: the value type [T] of the templates *)

Class Scalar (T : Type) := {
  zero : T;
  add : T -> T -> T;
  mul : T -> T -> T;
  nonzero : T -> bool
}.

#[export] Instance Z_Scalar : Scalar Z := {|
  zero := 0;
  add := Z.add;
  mul := Z.mul;
  nonzero := fun x => negb (x =? 0)
|}.

(** ** Arrays indexed by [Z] *)

Definition aget {A : Type} (d : A) (a : list A) (i : Z) : A :=
  if 0 <=? i then default d (a !! Z.to_nat i) else d.

Definition aset {A : Type} (a : list A) (i : Z) (v : A) : list A :=
  if 0 <=? i then <[Z.to_nat i := v]> a else a.

(** [idx] reads an index array, [val] a value array. *)
Definition idx (a : list Z) (i : Z) : Z := aget 0 a i.

Definition val {T : Type} `{Scalar T} (a : list T) (i : Z) : T := aget zero a i.

(** [std::vector<X> v(n, d)] *)
Definition vec_new {A : Type} (n : Z) (d : A) : list A := replicate (Z.to_nat n) d.

(** [v->resize(n, d)] *)
Definition vec_resize {A : Type} (n : Z) (d : A) (v : list A) : list A :=
  take (Z.to_nat n) v ++ replicate (Z.to_nat n - length v) d.

(** [std::copy(src, src + n, dst.begin())] *)
Definition array_copy {A : Type} (src : list A) (n : Z) (dst : list A) : list A :=
  take (Z.to_nat n) src ++ drop (Z.to_nat n) dst.

(** [v->size()] *)
Definition vec_size {A : Type} (v : list A) : Z := Z.of_nat (length v).

(** [for (I i = lo; i < hi; i++) s = body(s, i);] *)
Definition for_range {S : Type} (lo hi : Z) (body : S -> Z -> S) (s : S) : S :=
  foldl body s (seqZ lo (hi - lo)).

Section kernels.
Context {T : Type} `{!Scalar T}.

(** ** Format conversion: [csr_tocsc] and [csc_tocsr] *)

(** The counting loop [temp[Aj[i]]++] over the first [nnz] column indices. *)
Definition count_loop (nnz : Z) (Aj temp : list Z) : list Z :=
  for_range 0 nnz (fun temp i =>
    aset temp (idx Aj i) (idx temp (idx Aj i) + 1)) temp.

(** The prefix-sum loop [Bp[i] = cumsum; cumsum += temp[i]]. *)
Definition cumsum_loop (n : Z) (temp Bp : list Z) : list Z * Z :=
  for_range 0 n (fun '(Bp, cumsum) i =>
    (aset Bp i cumsum, cumsum + idx temp i)) (Bp, 0).

(** One placement of the scatter loop of [csr_tocsc]: entry [j] of row [i]. *)
Definition tocsc_place (i : Z) (Aj : list Z) (Ax : list T)
    (st : list Z * list Z * list T) (j : Z) : list Z * list Z * list T :=
  let '(temp, Bi, Bx) := st in
  let col := idx Aj j in
  let k := idx temp col in
  let Bi := aset Bi k i in
  let Bx := aset Bx k (val Ax j) in
  (aset temp col (idx temp col + 1), Bi, Bx).

Definition csr_tocsc (n_row n_col : Z) (Ap Aj : list Z) (Ax : list T)
    (Bp Bi : list Z) (Bx : list T) : list Z * list Z * list T :=
  let nnz := idx Ap n_row in
  let temp := vec_new n_col 0 in
  let temp := count_loop nnz Aj temp in
  let '(Bp, _) := cumsum_loop n_col temp Bp in
  let Bp := aset Bp n_col nnz in
  let temp := array_copy Bp n_col temp in
  let '(_, Bi, Bx) :=
    for_range 0 n_row (fun st i =>
      let row_start := idx Ap i in
      let row_end := idx Ap (i + 1) in
      for_range row_start row_end (tocsc_place i Aj Ax) st)
    (temp, Bi, Bx) in
  (Bp, Bi, Bx).

Definition csc_tocsr (n_row n_col : Z) (Ap Ai : list Z) (Ax : list T)
    (Bp Bj : list Z) (Bx : list T) : list Z * list Z * list T :=
  csr_tocsc n_col n_row Ap Ai Ax Bp Bj Bx.

(** ** Matrix product: the symbolic pass *)

Definition pass1_row (Ap Aj Bp Bj : list Z)
    (st : list Z * list Z) (i : Z) : list Z * list Z :=
  let '(next, Cp) := st in
  let head := -2 in
  let len := 0 in
  let jj_start := idx Ap i in
  let jj_end := idx Ap (i + 1) in
  let '(next, head, len) :=
    for_range jj_start jj_end (fun st jj =>
      let j := idx Aj jj in
      let kk_start := idx Bp j in
      let kk_end := idx Bp (j + 1) in
      for_range kk_start kk_end (fun '(next, head, len) kk =>
        let k := idx Bj kk in
        if idx next k =? -1
        then (aset next k head, k, len + 1)
        else (next, head, len)) st)
    (next, head, len) in
  let '(next, head) :=
    for_range 0 len (fun '(next, head) _ =>
      let temp := head in
      let head := idx next head in
      (aset next temp (-1), head)) (next, head) in
  (next, aset Cp (i + 1) (idx Cp i + len)).

Definition csr_matmat_pass1 (n_row n_col : Z) (Ap Aj Bp Bj Cp : list Z) : list Z :=
  let next := vec_new n_col (-1) in
  let Cp := aset Cp 0 0 in
  snd (for_range 0 n_row (pass1_row Ap Aj Bp Bj) (next, Cp)).

(** ** Matrix product: the numeric pass *)

(** State carried from row to row: [next], [sums], [nnz], [Cp], [Cj], [Cx]. *)
Definition pass2_state : Type := list Z * list T * Z * list Z * list Z * list T.

Definition pass2_row (Ap Aj : list Z) (Ax : list T) (Bp Bj : list Z) (Bx : list T)
    (st : pass2_state) (i : Z) : pass2_state :=
  let '(next, sums, nnz, Cp, Cj, Cx) := st in
  let head := -2 in
  let len := 0 in
  let jj_start := idx Ap i in
  let jj_end := idx Ap (i + 1) in
  let '(next, sums, head, len) :=
    for_range jj_start jj_end (fun st jj =>
      let j := idx Aj jj in
      let v := val Ax jj in
      let kk_start := idx Bp j in
      let kk_end := idx Bp (j + 1) in
      for_range kk_start kk_end (fun '(next, sums, head, len) kk =>
        let k := idx Bj kk in
        let sums := aset sums k (add (val sums k) (mul v (val Bx kk))) in
        if idx next k =? -1
        then (aset next k head, sums, k, len + 1)
        else (next, sums, head, len)) st)
    (next, sums, head, len) in
  let '(next, sums, head, nnz, Cj, Cx) :=
    for_range 0 len (fun '(next, sums, head, nnz, Cj, Cx) _ =>
      let '(nnz, Cj, Cx) :=
        if nonzero (val sums head)
        then (nnz + 1, aset Cj nnz head, aset Cx nnz (val sums head))
        else (nnz, Cj, Cx) in
      let temp := head in
      let head := idx next head in
      (aset next temp (-1), aset sums temp zero, head, nnz, Cj, Cx))
    (next, sums, head, nnz, Cj, Cx) in
  (next, sums, nnz, aset Cp (i + 1) nnz, Cj, Cx).

Definition csr_matmat_pass2 (n_row n_col : Z)
    (Ap Aj : list Z) (Ax : list T) (Bp Bj : list Z) (Bx : list T)
    (Cp Cj : list Z) (Cx : list T) : list Z * list Z * list T :=
  let next := vec_new n_col (-1) in
  let sums := vec_new n_col zero in
  let nnz := 0 in
  let Cp := aset Cp 0 0 in
  let '(_, _, _, Cp, Cj, Cx) :=
    for_range 0 n_row (pass2_row Ap Aj Ax Bp Bj Bx) (next, sums, nnz, Cp, Cj, Cx) in
  (Cp, Cj, Cx).

(** ** Matrix product with growable output: [csrmucsr] *)

(** State carried from row to row: [next], [sums], [Cp], [Cj], [Cx]. *)
Definition mu_state : Type := list Z * list T * list Z * list Z * list T.

Definition csrmucsr_row (Ap Aj : list Z) (Ax : list T) (Bp Bj : list Z) (Bx : list T)
    (st : mu_state) (i : Z) : mu_state :=
  let '(next, sums, Cp, Cj, Cx) := st in
  let head := -2 in
  let len := 0 in
  let jj_start := idx Ap i in
  let jj_end := idx Ap (i + 1) in
  let '(next, sums, head, len) :=
    for_range jj_start jj_end (fun st jj =>
      let j := idx Aj jj in
      let kk_start := idx Bp j in
      let kk_end := idx Bp (j + 1) in
      for_range kk_start kk_end (fun '(next, sums, head, len) kk =>
        let k := idx Bj kk in
        let sums := aset sums k (add (val sums k) (mul (val Ax jj) (val Bx kk))) in
        if idx next k =? -1
        then (aset next k head, sums, k, len + 1)
        else (next, sums, head, len)) st)
    (next, sums, head, len) in
  let '(next, sums, head, Cj, Cx) :=
    for_range 0 len (fun '(next, sums, head, Cj, Cx) _ =>
      let '(Cj, Cx) :=
        if nonzero (val sums head)
        then (Cj ++ [head], Cx ++ [val sums head])
        else (Cj, Cx) in
      let temp := head in
      let head := idx next head in
      (aset next temp (-1), aset sums temp zero, head, Cj, Cx))
    (next, sums, head, Cj, Cx) in
  (next, sums, aset Cp (i + 1) (vec_size Cx), Cj, Cx).

(** The loop of [csrmucsr] stopped after the rows [0 .. i-1]: the state at
    the start of iteration [i]. *)
Definition csrmucsr_rows (i n_row n_col : Z)
    (Ap Aj : list Z) (Ax : list T) (Bp Bj : list Z) (Bx : list T)
    (Cp Cj : list Z) (Cx : list T) : mu_state :=
  let Cp := vec_resize (n_row + 1) 0 Cp in
  let next := vec_new n_col (-1) in
  let sums := vec_new n_col zero in
  for_range 0 i (csrmucsr_row Ap Aj Ax Bp Bj Bx) (next, sums, Cp, Cj, Cx).

Definition csrmucsr (n_row n_col : Z)
    (Ap Aj : list Z) (Ax : list T) (Bp Bj : list Z) (Bx : list T)
    (Cp Cj : list Z) (Cx : list T) : list Z * list Z * list T :=
  let '(_, _, Cp, Cj, Cx) :=
    csrmucsr_rows n_row n_row n_col Ap Aj Ax Bp Bj Bx Cp Cj Cx in
  (Cp, Cj, Cx).

(** ** Elementwise binary operation: [csr_binop_csr] *)

(** State carried from row to row: [next], [A_row], [B_row], [Cp], [Cj], [Cx]. *)
Definition binop_state : Type :=
  list Z * list T * list T * list Z * list Z * list T.

(** The two loops that add row [i] of [A] to [A_row] and row [i] of [B] to
    [B_row]; the result is [next], [A_row], [B_row], [head], [length]. *)
Definition binop_touch (Ap Aj : list Z) (Ax : list T) (Bp Bj : list Z) (Bx : list T)
    (next : list Z) (A_row B_row : list T) (i : Z)
    : list Z * list T * list T * Z * Z :=
  let head := -2 in
  let len := 0 in
  let i_start := idx Ap i in
  let i_end := idx Ap (i + 1) in
  let '(next, A_row, head, len) :=
    for_range i_start i_end (fun '(next, A_row, head, len) jj =>
      let j := idx Aj jj in
      let A_row := aset A_row j (add (val A_row j) (val Ax jj)) in
      if idx next j =? -1
      then (aset next j head, A_row, j, len + 1)
      else (next, A_row, head, len))
    (next, A_row, head, len) in
  let i_start := idx Bp i in
  let i_end := idx Bp (i + 1) in
  let '(next, B_row, head, len) :=
    for_range i_start i_end (fun '(next, B_row, head, len) jj =>
      let j := idx Bj jj in
      let B_row := aset B_row j (add (val B_row j) (val Bx jj)) in
      if idx next j =? -1
      then (aset next j head, B_row, j, len + 1)
      else (next, B_row, head, len))
    (next, B_row, head, len) in
  (next, A_row, B_row, head, len).

(** The candidate value [result = op(A_row[head], B_row[head])]. *)
Definition binop_result (op : T -> T -> T) (A_row B_row : list T) (head : Z) : T :=
  op (val A_row head) (val B_row head).

(** One iteration of the loop that empties the list of seen columns. *)
Definition binop_drain_step (op : T -> T -> T)
    (st : list Z * list T * list T * Z * list Z * list T)
    : list Z * list T * list T * Z * list Z * list T :=
  let '(next, A_row, B_row, head, Cj, Cx) := st in
  let result := binop_result op A_row B_row head in
  let '(Cj, Cx) :=
    if nonzero result then (Cj ++ [head], Cx ++ [result]) else (Cj, Cx) in
  let temp := head in
  let head := idx next head in
  (aset next temp (-1), aset A_row temp zero, aset B_row temp zero, head, Cj, Cx).

Definition csr_binop_row (op : T -> T -> T)
    (Ap Aj : list Z) (Ax : list T) (Bp Bj : list Z) (Bx : list T)
    (st : binop_state) (i : Z) : binop_state :=
  let '(next, A_row, B_row, Cp, Cj, Cx) := st in
  let '(next, A_row, B_row, head, len) :=
    binop_touch Ap Aj Ax Bp Bj Bx next A_row B_row i in
  let '(next, A_row, B_row, head, Cj, Cx) :=
    for_range 0 len (fun st _ => binop_drain_step op st)
      (next, A_row, B_row, head, Cj, Cx) in
  (next, A_row, B_row, aset Cp (i + 1) (vec_size Cx), Cj, Cx).

(** The loop of [csr_binop_csr] stopped after the rows [0 .. i-1]: the state
    at the start of iteration [i]. *)
Definition csr_binop_rows (i n_row n_col : Z)
    (Ap Aj : list Z) (Ax : list T) (Bp Bj : list Z) (Bx : list T)
    (Cp Cj : list Z) (Cx : list T) (op : T -> T -> T) : binop_state :=
  let Cp := vec_resize (n_row + 1) 0 Cp in
  let next := vec_new n_col (-1) in
  let A_row := vec_new n_col zero in
  let B_row := vec_new n_col zero in
  for_range 0 i (csr_binop_row op Ap Aj Ax Bp Bj Bx) (next, A_row, B_row, Cp, Cj, Cx).

Definition csr_binop_csr (n_row n_col : Z)
    (Ap Aj : list Z) (Ax : list T) (Bp Bj : list Z) (Bx : list T)
    (Cp Cj : list Z) (Cx : list T) (op : T -> T -> T)
    : list Z * list Z * list T :=
  let '(_, _, _, Cp, Cj, Cx) :=
    csr_binop_rows n_row n_row n_col Ap Aj Ax Bp Bj Bx Cp Cj Cx op in
  (Cp, Cj, Cx).

(** The emptying loop of row [i] stopped after [m] iterations: the state at
    the start of its iteration [m], together with the bound [length]. *)
Definition binop_drain_at (i m n_row n_col : Z)
    (Ap Aj : list Z) (Ax : list T) (Bp Bj : list Z) (Bx : list T)
    (Cp Cj : list Z) (Cx : list T) (op : T -> T -> T)
    : (list Z * list T * list T * Z * list Z * list T) * Z :=
  let '(next, A_row, B_row, Cp, Cj, Cx) :=
    csr_binop_rows i n_row n_col Ap Aj Ax Bp Bj Bx Cp Cj Cx op in
  let '(next, A_row, B_row, head, len) :=
    binop_touch Ap Aj Ax Bp Bj Bx next A_row B_row i in
  (for_range 0 m (fun st _ => binop_drain_step op st)
     (next, A_row, B_row, head, Cj, Cx), len).

(** [std::plus<T>()] is the [add] of the scalar type. *)
Definition csr_plus_csr (n_row n_col : Z)
    (Ap Aj : list Z) (Ax : list T) (Bp Bj : list Z) (Bx : list T)
    (Cp Cj : list Z) (Cx : list T) : list Z * list Z * list T :=
  csr_binop_csr n_row n_col Ap Aj Ax Bp Bj Bx Cp Cj Cx add.

Definition csr_elmul_csr (n_row n_col : Z)
    (Ap Aj : list Z) (Ax : list T) (Bp Bj : list Z) (Bx : list T)
    (Cp Cj : list Z) (Cx : list T) : list Z * list Z * list T :=
  csr_binop_csr n_row n_col Ap Aj Ax Bp Bj Bx Cp Cj Cx mul.

(** ** Duplicate summation in place: [sum_csr_duplicates] *)

(** The reading loop of one row: [next], [sums] and [head] after the entries
    [row_start .. row_end-1] of [Aj], [Ax] have been added. *)
Definition scd_touch (Aj : list Z) (Ax : list T) (row_start row_end : Z)
    (next : list Z) (sums : list T) : list Z * list T * Z :=
  let head := -2 in
  for_range row_start row_end (fun '(next, sums, head) jj =>
    let j := idx Aj jj in
    let sums := aset sums j (add (val sums j) (val Ax jj)) in
    if idx next j =? -1
    then (aset next j head, sums, j)
    else (next, sums, head))
  (next, sums, head).

(** State of the [while] loop: [next], [sums], [head], [nnz], [Aj], [Ax]. *)
Definition scd_drain_state : Type := list Z * list T * Z * Z * list Z * list T.

(** The body of [while (head != -2)]. *)
Definition scd_drain_step (st : scd_drain_state) : scd_drain_state :=
  let '(next, sums, head, nnz, Aj, Ax) := st in
  let curr := head in
  let head := idx next curr in
  let '(nnz, Aj, Ax) :=
    if nonzero (val sums curr)
    then (nnz + 1, aset Aj nnz curr, aset Ax nnz (val sums curr))
    else (nnz, Aj, Ax) in
  (aset next curr (-1), aset sums curr zero, head, nnz, Aj, Ax).

Fixpoint scd_drain (fuel : nat) (st : scd_drain_state) : option scd_drain_state :=
  let '(_, _, head, _, _, _) := st in
  if head =? -2 then Some st
  else match fuel with
       | O => None
       | S fuel => scd_drain fuel (scd_drain_step st)
       end.

(** The states in which the body of the [while] loop is entered, in order. *)
Fixpoint scd_drain_trace (fuel : nat) (st : scd_drain_state) : list scd_drain_state :=
  let '(_, _, head, _, _, _) := st in
  if head =? -2 then []
  else match fuel with
       | O => []
       | S fuel => st :: scd_drain_trace fuel (scd_drain_step st)
       end.

(** State carried from row to row:
    [next], [sums], [nnz], [row_end], [Ap], [Aj], [Ax]. *)
Definition scd_state : Type :=
  list Z * list T * Z * Z * list Z * list Z * list T.

(** One row. The [while] loop gets as much fuel as the row has entries. *)
Definition scd_row (st : scd_state) (i : Z) : option scd_state :=
  let '(next, sums, nnz, row_end, Ap, Aj, Ax) := st in
  let row_start := row_end in
  let row_end := idx Ap (i + 1) in
  let '(next, sums, head) := scd_touch Aj Ax row_start row_end next sums in
  match scd_drain (Z.to_nat (row_end - row_start)) (next, sums, head, nnz, Aj, Ax) with
  | None => None
  | Some (next, sums, _, nnz, Aj, Ax) =>
      Some (next, sums, nnz, row_end, aset Ap (i + 1) nnz, Aj, Ax)
  end.

(** The loop of [sum_csr_duplicates] stopped after the rows [0 .. i-1]. *)
Definition scd_rows (i n_col : Z) (Ap Aj : list Z) (Ax : list T) : option scd_state :=
  let next := vec_new n_col (-1) in
  let sums := vec_new n_col zero in
  let nnz := 0 in
  let row_end := 0 in
  for_range 0 i (fun st i => st ≫= fun st => scd_row st i)
    (Some (next, sums, nnz, row_end, Ap, Aj, Ax)).

(** The states in which the [while] loop of row [i] enters its body. *)
Definition scd_row_trace (i n_col : Z) (Ap Aj : list Z) (Ax : list T)
    : list scd_drain_state :=
  match scd_rows i n_col Ap Aj Ax with
  | None => []
  | Some (next, sums, nnz, row_end, Ap, Aj, Ax) =>
      let row_start := row_end in
      let row_end := idx Ap (i + 1) in
      let '(next, sums, head) := scd_touch Aj Ax row_start row_end next sums in
      scd_drain_trace (Z.to_nat (row_end - row_start)) (next, sums, head, nnz, Aj, Ax)
  end.

Definition sum_csr_duplicates (n_row n_col : Z) (Ap Aj : list Z) (Ax : list T)
    : option (list Z * list Z * list T) :=
  match scd_rows n_row n_col Ap Aj Ax with
  | None => None
  | Some (_, _, _, _, Ap, Aj, Ax) => Some (Ap, Aj, Ax)
  end.

(** ** Coordinate format to CSR: [coo_tocsr] *)

Definition coo_tocsr (n_row n_col nnz : Z) (Ai Aj : list Z) (Ax : list T)
    (Bp Bj : list Z) (Bx : list T) : option (list Z * list Z * list T) :=
  let temp := vec_new n_row 0 in
  let temp := count_loop nnz Ai temp in
  let '(Bp, _) := cumsum_loop n_row temp Bp in
  let Bp := aset Bp n_row nnz in
  let temp := array_copy Bp n_row temp in
  let '(_, Bj, Bx) :=
    for_range 0 nnz (fun '(temp, Bj, Bx) i =>
      let row := idx Ai i in
      let n := idx temp row in
      let Bj := aset Bj n (idx Aj i) in
      let Bx := aset Bx n (val Ax i) in
      (aset temp row (idx temp row + 1), Bj, Bx))
    (temp, Bj, Bx) in
  sum_csr_duplicates n_row n_col Bp Bj Bx.

(** ** Further kernels of the file *)

(** [csr_diagonal]: [Yx[i]] becomes the sum of the entries of row [i] stored
    in column [i], for [i < min(n_row, n_col)]. *)
Definition csr_diagonal (n_row n_col : Z) (Ap Aj : list Z) (Ax Yx : list T) : list T :=
  let N := Z.min n_row n_col in
  for_range 0 N (fun Yx i =>
    let row_start := idx Ap i in
    let row_end := idx Ap (i + 1) in
    let diag := zero in
    let diag :=
      for_range row_start row_end (fun diag jj =>
        if idx Aj jj =? i then add diag (val Ax jj) else diag) diag in
    aset Yx i diag) Yx.

Definition csc_diagonal (n_row n_col : Z) (Ap Aj : list Z) (Ax Yx : list T) : list T :=
  csr_diagonal n_col n_row Ap Aj Ax Yx.

(** [expandptr]: [Bi[jj] = i] for every position [jj] of row [i]. *)
Definition expandptr (n_row : Z) (Ap Bi : list Z) : list Z :=
  for_range 0 n_row (fun Bi i =>
    let row_start := idx Ap i in
    let row_end := idx Ap (i + 1) in
    for_range row_start row_end (fun Bi jj => aset Bi jj i) Bi) Bi.

(** [csr_tocoo]: the calls of [reserve] change no content and are left out. *)
Definition csr_tocoo (n_row n_col : Z) (Ap Aj : list Z) (Ax : list T)
    (Bi Bj : list Z) (Bx : list T) : list Z * list Z * list T :=
  for_range 0 n_row (fun st i =>
    let row_start := idx Ap i in
    let row_end := idx Ap (i + 1) in
    for_range row_start row_end (fun '(Bi, Bj, Bx) jj =>
      (Bi ++ [i], Bj ++ [idx Aj jj], Bx ++ [val Ax jj])) st)
    (Bi, Bj, Bx).

(** [csc_tocoo] exchanges the two dimensions and the two index vectors. *)
Definition csc_tocoo (n_row n_col : Z) (Ap Ai : list Z) (Ax : list T)
    (Bi Bj : list Z) (Bx : list T) : list Z * list Z * list T :=
  let '(Bj, Bi, Bx) := csr_tocoo n_col n_row Ap Ai Ax Bj Bi Bx in
  (Bi, Bj, Bx).

(** [csr_matvec] *)
Definition csr_matvec (n_row n_col : Z) (Ap Aj : list Z) (Ax Xx Yx : list T) : list T :=
  for_range 0 n_row (fun Yx i =>
    let row_start := idx Ap i in
    let row_end := idx Ap (i + 1) in
    let sum := zero in
    let sum :=
      for_range row_start row_end (fun sum jj =>
        add sum (mul (val Ax jj) (val Xx (idx Aj jj)))) sum in
    aset Yx i sum) Yx.

(** [csc_matvec] *)
Definition csc_matvec (n_row n_col : Z) (Ap Ai : list Z) (Ax Xx Yx : list T) : list T :=
  let Yx := for_range 0 n_row (fun Yx i => aset Yx i zero) Yx in
  for_range 0 n_col (fun Yx j =>
    let col_start := idx Ap j in
    let col_end := idx Ap (j + 1) in
    for_range col_start col_end (fun Yx ii =>
      let row := idx Ai ii in
      aset Yx row (add (val Yx row) (mul (val Ax ii) (val Xx j)))) Yx) Yx.

(** [csr_todense]: [Mx] is the row-major dense array. *)
Definition csr_todense (n_row n_col : Z) (Ap Aj : list Z) (Ax Mx : list T) : list T :=
  let row_base := 0 in
  fst (for_range 0 n_row (fun '(Mx, row_base) i =>
    let row_start := idx Ap i in
    let row_end := idx Ap (i + 1) in
    let Mx :=
      for_range row_start row_end (fun Mx jj =>
        let j := idx Aj jj in
        aset Mx (row_base + j) (val Ax jj)) Mx in
    (Mx, row_base + n_col)) (Mx, row_base)).

(** [dense_tocsr]: the pointer [x_ptr] is the offset [x] into [Mx]. *)
Definition dense_tocsr (n_row n_col : Z) (Mx : list T)
    (Ap Aj : list Z) (Ax : list T) : list Z * list Z * list T :=
  let x := 0 in
  let Ap := Ap ++ [0] in
  let '(_, Ap, Aj, Ax) :=
    for_range 0 n_row (fun '(x, Ap, Aj, Ax) i =>
      let '(x, Aj, Ax) :=
        for_range 0 n_col (fun '(x, Aj, Ax) j =>
          let '(Aj, Ax) :=
            if nonzero (val Mx x) then (Aj ++ [j], Ax ++ [val Mx x]) else (Aj, Ax) in
          (x + 1, Aj, Ax)) (x, Aj, Ax) in
      (x, Ap ++ [vec_size Aj], Aj, Ax)) (x, Ap, Aj, Ax) in
  (Ap, Aj, Ax).

(** [get_csr_submatrix]: the counting pass. *)
Definition submatrix_count (Ap Aj : list Z) (ir0 ir1 ic0 ic1 : Z) : Z :=
  let new_n_row := ir1 - ir0 in
  for_range 0 new_n_row (fun new_nnz i =>
    let row_start := idx Ap (ir0 + i) in
    let row_end := idx Ap (ir0 + i + 1) in
    for_range row_start row_end (fun new_nnz jj =>
      if (ic0 <=? idx Aj jj) && (idx Aj jj <? ic1) then new_nnz + 1 else new_nnz)
      new_nnz) 0.

(** [get_csr_submatrix]: the assigning pass; the state is [kk], [Bp], [Bj],
    [Bx]. *)
Definition submatrix_assign (Ap Aj : list Z) (Ax : list T) (ir0 ir1 ic0 ic1 : Z)
    (Bp Bj : list Z) (Bx : list T) : Z * list Z * list Z * list T :=
  let new_n_row := ir1 - ir0 in
  for_range 0 new_n_row (fun '(kk, Bp, Bj, Bx) i =>
    let row_start := idx Ap (ir0 + i) in
    let row_end := idx Ap (ir0 + i + 1) in
    let '(kk, Bj, Bx) :=
      for_range row_start row_end (fun '(kk, Bj, Bx) jj =>
        if (ic0 <=? idx Aj jj) && (idx Aj jj <? ic1)
        then (kk + 1, aset Bj kk (idx Aj jj - ic0), aset Bx kk (val Ax jj))
        else (kk, Bj, Bx)) (kk, Bj, Bx) in
    (kk, aset Bp (i + 1) kk, Bj, Bx)) (0, Bp, Bj, Bx).

Definition get_csr_submatrix (n_row n_col : Z) (Ap Aj : list Z) (Ax : list T)
    (ir0 ir1 ic0 ic1 : Z) (Bp Bj : list Z) (Bx : list T)
    : list Z * list Z * list T :=
  let new_n_row := ir1 - ir0 in
  let new_nnz := submatrix_count Ap Aj ir0 ir1 ic0 ic1 in
  let Bp := vec_resize (new_n_row + 1) 0 Bp in
  let Bj := vec_resize new_nnz 0 Bj in
  let Bx := vec_resize new_nnz zero Bx in
  let Bp := aset Bp 0 0 in
  let '(_, Bp, Bj, Bx) := submatrix_assign Ap Aj Ax ir0 ir1 ic0 ic1 Bp Bj Bx in
  (Bp, Bj, Bx).

(** [spdiags]: [diags] holds the diagonals one after the other, each of
    length [min(n_row, n_col)]. *)
Definition spdiags (n_row n_col n_diag : Z) (offsets : list Z) (diags : list T)
    (Ap Ai : list Z) (Ax : list T) : list Z * list Z * list T :=
  let diags_length := Z.min n_row n_col in
  let Ap := Ap ++ [0] in
  for_range 0 n_col (fun '(Ap, Ai, Ax) i =>
    let '(Ai, Ax) :=
      for_range 0 n_diag (fun '(Ai, Ax) j =>
        if idx offsets j <=? 0 then
          let row := i - idx offsets j in
          if n_row <=? row then (Ai, Ax)
          else (Ai ++ [row], Ax ++ [val diags (j * diags_length + i)])
        else
          let row := i - idx offsets j in
          if (row <? 0) || (n_row <=? row) then (Ai, Ax)
          else (Ai ++ [row], Ax ++ [val diags (j * diags_length + row)]))
        (Ai, Ax) in
    (Ap ++ [vec_size Ai], Ai, Ax)) (Ap, Ai, Ax).

(** Column-major variants by exchange of the roles. *)
Definition coo_tocsc (n_row n_col nnz : Z) (Ai Aj : list Z) (Ax : list T)
    (Bp Bi : list Z) (Bx : list T) : option (list Z * list Z * list T) :=
  coo_tocsr n_col n_row nnz Aj Ai Ax Bp Bi Bx.

Definition cscmucsc (n_row n_col : Z)
    (Ap Ai : list Z) (Ax : list T) (Bp Bi : list Z) (Bx : list T)
    (Cp Ci : list Z) (Cx : list T) : list Z * list Z * list T :=
  csrmucsr n_col n_row Bp Bi Bx Ap Ai Ax Cp Ci Cx.

Definition sum_csc_duplicates (n_row n_col : Z) (Ap Ai : list Z) (Ax : list T)
    : option (list Z * list Z * list T) :=
  sum_csr_duplicates n_col n_row Ap Ai Ax.

(** ** Sorting the rows: [csr_sort_indices] *)

(** The comparison handed to [std::sort]. *)
Definition kv_pair_less (x y : Z * T) : bool := x.1 <? y.1.

(** [csr_sort_indices]: [sort] stands for the call
    [std::sort(temp.begin(), temp.end(), kv_pair_less)], which is not part
    of the file; the row pointer is only read. *)
Definition csr_sort_indices (sort : list (Z * T) -> list (Z * T))
    (n_row n_col : Z) (Ap Aj : list Z) (Ax : list T) : list Z * list T :=
  for_range 0 n_row (fun '(Aj, Ax) i =>
    let row_start := idx Ap i in
    let row_end := idx Ap (i + 1) in
    let temp := [] in
    let temp :=
      for_range row_start row_end (fun temp jj =>
        temp ++ [(idx Aj jj, val Ax jj)]) temp in
    let temp := sort temp in
    let '(Aj, Ax, _) :=
      for_range row_start row_end (fun '(Aj, Ax, n) jj =>
        (aset Aj jj (aget (0, zero) temp n).1,
         aset Ax jj (aget (0, zero) temp n).2,
         n + 1)) (Aj, Ax, 0) in
    (Aj, Ax)) (Aj, Ax).

Definition csc_sort_indices (sort : list (Z * T) -> list (Z * T))
    (n_row n_col : Z) (Ap Ai : list Z) (Ax : list T) : list Z * list T :=
  csr_sort_indices sort n_col n_row Ap Ai Ax.

End kernels.

(** ** Specification vocabulary *)

Section specification.
Context {T : Type} `{!Scalar T}.

(** The stored entries of row [i]: the (inner index, value) pairs at the
    positions [Ap[i] .. Ap[i+1]-1], in storage order. *)
Definition row_entries (Ap Aj : list Z) (Ax : list T) (i : Z) : list (Z * T) :=
  (fun jj => (idx Aj jj, val Ax jj)) <$> seqZ (idx Ap i) (idx Ap (i + 1) - idx Ap i).

(** All stored entries as (outer index, inner index, value) triples. *)
Definition triples (n_row : Z) (Ap Aj : list Z) (Ax : list T) : list (Z * Z * T) :=
  seqZ 0 n_row ≫= fun i => (fun e => (i, e.1, e.2)) <$> row_entries Ap Aj Ax i.

(** Well-formed compressed matrix with [n_row] outer and [n_col] inner
    indices: the pointer array has [n_row + 1] entries, starts at 0 and does
    not decrease; the index and value arrays hold at least [Ap[n_row]]
    entries; every stored inner index is in [0, n_col). *)
Definition valid_csr (n_row n_col : Z) (Ap Aj : list Z) (Ax : list T) : bool :=
  (0 <=? n_row) && (0 <=? n_col)
  && (Z.of_nat (length Ap) =? n_row + 1)
  && (idx Ap 0 =? 0)
  && forallb (fun i => idx Ap i <=? idx Ap (i + 1)) (seqZ 0 n_row)
  && (idx Ap n_row <=? Z.of_nat (length Aj))
  && (idx Ap n_row <=? Z.of_nat (length Ax))
  && forallb (fun jj => (0 <=? idx Aj jj) && (idx Aj jj <? n_col))
       (seqZ 0 (idx Ap n_row)).

(** Well-formed coordinate input: [nnz] entries with indices in range. *)
Definition valid_coo (n_row n_col nnz : Z) (Ai Aj : list Z) (Ax : list T) : bool :=
  (0 <=? n_row) && (0 <=? n_col) && (0 <=? nnz)
  && (nnz <=? Z.of_nat (length Ai))
  && (nnz <=? Z.of_nat (length Aj))
  && (nnz <=? Z.of_nat (length Ax))
  && forallb (fun i => (0 <=? idx Ai i) && (idx Ai i <? n_row)
                       && (0 <=? idx Aj i) && (idx Aj i <? n_col))
       (seqZ 0 nnz).

(** The list of seen columns, most recently linked first, after the columns
    [ks] have been offered to a list that already holds [o]. *)
Definition touch_order (o ks : list Z) : list Z :=
  foldl (fun o k => if decide (k ∈ o) then o else k :: o) o ks.

(** The value accumulated in slot [k] from the start value [s0] by the
    entries [es], in their order. *)
Definition colsum (s0 : T) (es : list (Z * T)) (k : Z) : T :=
  foldl (fun s e => if e.1 =? k then add s e.2 else s) s0 es.

(** The accumulator update shared by the kernels, as a fold over the
    (column, contribution) pairs offered to it. *)
Definition acc_fold (st : list Z * list T * Z * Z) (es : list (Z * T))
    : list Z * list T * Z * Z :=
  foldl (fun '(next, sums, head, len) e =>
    let k := e.1 in
    let sums := aset sums k (add (val sums k) e.2) in
    if idx next k =? -1
    then (aset next k head, sums, k, len + 1)
    else (next, sums, head, len)) st es.

(** [chain next head o]: following [next] from [head] visits exactly the
    columns [o] and then reaches the end marker -2. *)
Fixpoint chain (next : list Z) (head : Z) (o : list Z) : Prop :=
  match o with
  | [] => head = -2
  | k :: o => head = k /\ chain next (idx next k) o
  end.

(** The accumulator invariant for [n] columns with seen columns [o]. *)
Record acc_inv (n : Z) (next : list Z) (head len : Z) (o : list Z) : Prop := {
  acc_length : Z.of_nat (length next) = n;
  acc_chain : chain next head o;
  acc_nodup : NoDup o;
  acc_range : forall k, k ∈ o -> 0 <= k < n;
  acc_unseen : forall k, 0 <= k < n -> k ∉ o -> idx next k = -1;
  acc_len : len = Z.of_nat (length o)
}.

(** What one row of an accumulator kernel emits for the offered entries
    [es]: the seen columns in list order with their sums, zeros dropped. *)
Definition drained (es : list (Z * T)) : list (Z * T) :=
  filter (fun e => nonzero e.2 = true)
    ((fun k => (k, colsum zero es k)) <$> touch_order [] (es.*1)).

(** The contributions offered to the accumulator for row [i] of [A * B]. *)
Definition product_entries (Ap Aj : list Z) (Ax : list T)
    (Bp Bj : list Z) (Bx : list T) (i : Z) : list (Z * T) :=
  seqZ (idx Ap i) (idx Ap (i + 1) - idx Ap i) ≫= fun jj =>
    (fun kk => (idx Bj kk, mul (val Ax jj) (val Bx kk)))
      <$> seqZ (idx Bp (idx Aj jj)) (idx Bp (idx Aj jj + 1) - idx Bp (idx Aj jj)).

(** What [csr_binop_csr] emits for a row with entries [ea] in [A] and [eb]
    in [B]. *)
Definition binop_drained (op : T -> T -> T) (ea eb : list (Z * T)) : list (Z * T) :=
  filter (fun e => nonzero e.2 = true)
    ((fun k => (k, op (colsum zero ea k) (colsum zero eb k)))
       <$> touch_order [] (ea.*1 ++ eb.*1)).

(** The same well-formedness as a proposition, for use in proofs. *)
Record csr_ok (n_row n_col : Z) (Ap Aj : list Z) (Ax : list T) : Prop := {
  ok_rows : 0 <= n_row;
  ok_cols : 0 <= n_col;
  ok_length : Z.of_nat (length Ap) = n_row + 1;
  ok_first : idx Ap 0 = 0;
  ok_mono : forall i, 0 <= i < n_row -> idx Ap i <= idx Ap (i + 1);
  ok_Aj : idx Ap n_row <= Z.of_nat (length Aj);
  ok_Ax : idx Ap n_row <= Z.of_nat (length Ax);
  ok_range : forall jj, 0 <= jj < idx Ap n_row -> 0 <= idx Aj jj < n_col
}.

(** Everything the rows [0 .. i-1] of the product [A * B] emit. *)
Definition product_drained (Ap Aj : list Z) (Ax : list T)
    (Bp Bj : list Z) (Bx : list T) (i : Z) : list (Z * T) :=
  seqZ 0 i ≫= fun r => drained (product_entries Ap Aj Ax Bp Bj Bx r).

(** Everything the rows [0 .. i-1] of [A op B] emit. *)
Definition binop_drained_rows (op : T -> T -> T) (Ap Aj : list Z) (Ax : list T)
    (Bp Bj : list Z) (Bx : list T) (i : Z) : list (Z * T) :=
  seqZ 0 i ≫= fun r =>
    binop_drained op (row_entries Ap Aj Ax r) (row_entries Bp Bj Bx r).

(** Everything the rows [0 .. i-1] of [sum_csr_duplicates] write back. *)
Definition drained_rows (Ap Aj : list Z) (Ax : list T) (i : Z) : list (Z * T) :=
  seqZ 0 i ≫= fun r => drained (row_entries Ap Aj Ax r).

(** The state of [sum_csr_duplicates] at the start of row [i], in terms of
    the input [Ap], [Aj], [Ax]: a cleared accumulator; the write cursor at
    the end of what the rows done so far wrote back, not beyond the read
    position; the pointers of the rows done so far replaced, the others as
    in the input; the written prefix; everything from the read position on
    as in the input. *)
Definition scd_inv (n_col : Z) (Ap Aj : list Z) (Ax : list T) (i : Z)
    (st : scd_state) : Prop :=
  let '(next, sums, nnz, row_end, Ap', Aj', Ax') := st in
  next = vec_new n_col (-1) /\ sums = vec_new n_col zero
  /\ nnz = Z.of_nat (length (drained_rows Ap Aj Ax i))
  /\ row_end = idx Ap i /\ nnz <= row_end
  /\ length Ap' = length Ap /\ length Aj' = length Aj /\ length Ax' = length Ax
  /\ (forall r, 0 <= r < i ->
        idx Ap' (r + 1) = Z.of_nat (length (drained_rows Ap Aj Ax (r + 1))))
  /\ (forall r, ~ (1 <= r <= i) -> idx Ap' r = idx Ap r)
  /\ take (length (drained_rows Ap Aj Ax i)) Aj' = (drained_rows Ap Aj Ax i).*1
  /\ take (length (drained_rows Ap Aj Ax i)) Ax' = (drained_rows Ap Aj Ax i).*2
  /\ (forall jj, idx Ap i <= jj -> idx Aj' jj = idx Aj jj /\ val Ax' jj = val Ax jj).

(** The triples of [E] with inner index [c], in their order, and those with
    an inner index below [c]. *)
Definition bucket (c : Z) (E : list (Z * Z * T)) : list (Z * Z * T) :=
  filter (fun t => t.1.2 = c) E.

Definition before (c : Z) (E : list (Z * Z * T)) : list (Z * Z * T) :=
  filter (fun t => t.1.2 < c) E.

(** One placement of the scatter loop of [csr_tocsc], on a triple. *)
Definition scatter_step (st : list Z * list Z * list T) (t : Z * Z * T)
    : list Z * list Z * list T :=
  let '(temp, Bi, Bx) := st in
  let k := idx temp t.1.2 in
  (aset temp t.1.2 (idx temp t.1.2 + 1), aset Bi k t.1.1, aset Bx k t.2).

(** A triple with the roles of its two indices exchanged. *)
Definition transposed (t : Z * Z * T) : Z * Z * T := (t.1.2, t.1.1, t.2).

(** Every row stores pairwise distinct inner indices. *)
Definition distinct_columns (n_row : Z) (Ap Aj : list Z) (Ax : list T) : bool :=
  forallb (fun r => bool_decide (NoDup (row_entries Ap Aj Ax r).*1)) (seqZ 0 n_row).

(** No row stores a zero. *)
Definition no_stored_zero (n_row : Z) (Ap Aj : list Z) (Ax : list T) : bool :=
  forallb (fun r => forallb (fun e => nonzero e.2) (row_entries Ap Aj Ax r))
    (seqZ 0 n_row).

(** The coordinate entries [0 .. nnz-1] as (row, column, value) triples, in
    input order, and the (column, value) pairs of those with row [r]. *)
Definition coo_entries (nnz : Z) (Ai Aj : list Z) (Ax : list T) : list (Z * Z * T) :=
  (fun i => (idx Ai i, idx Aj i, val Ax i)) <$> seqZ 0 nnz.

Definition coo_row (nnz : Z) (Ai Aj : list Z) (Ax : list T) (r : Z) : list (Z * T) :=
  (fun t => (t.1.2, t.2)) <$> filter (fun t => t.1.1 = r) (coo_entries nnz Ai Aj Ax).

(** The product of a row with the dense vector [Xx]: the sum, from 0 and
    in the order of the entries, of the products [v * Xx[k]]. *)
Definition row_dot (Xx : list T) (es : list (Z * T)) : T :=
  foldl (fun s e => add s (mul e.2 (val Xx e.1))) zero es.

(** The nonzero entries of row [r] of the row-major dense array [Mx] with
    [n_col] columns, by increasing column. *)
Definition dense_row (n_col : Z) (Mx : list T) (r : Z) : list (Z * T) :=
  filter (fun e => nonzero e.2 = true)
    ((fun j => (j, val Mx (r * n_col + j))) <$> seqZ 0 n_col).

(** The entries of a row with a column in [ic0, ic1), in their order, with
    the column counted from [ic0]. *)
Definition submatrix_row (ic0 ic1 : Z) (es : list (Z * T)) : list (Z * T) :=
  (fun e => (e.1 - ic0, e.2)) <$> filter (fun e => ic0 <= e.1 < ic1) es.

(** Column [i] of the matrix with the diagonals [diags] at the offsets
    [offsets]: diagonal [j] contributes the entry of row [i - offsets[j]] if
    that row exists, read at position [min(i, row)] of the diagonal. *)
Definition spdiags_col (n_row n_col n_diag : Z) (offsets : list Z) (diags : list T)
    (i : Z) : list (Z * T) :=
  seqZ 0 n_diag ≫= fun j =>
    let row := i - idx offsets j in
    if (0 <=? row) && (row <? n_row)
    then [(row, val diags (j * Z.min n_row n_col + Z.min i row))]
    else [].

(** [not_after x y]: the comparison of [std::sort] does not put [y] before
    [x]. *)
Definition not_after (x y : Z * T) : Prop := kv_pair_less y x = false.

#[export] Instance not_after_dec : RelDecision not_after.
Proof. intros x y. unfold not_after. apply _. Defined.

(** What [std::sort] promises for a comparison that is a strict weak
    ordering: the result is a rearrangement of the input in which no
    element is less than an earlier one. Equal keys may come out in any
    order. *)
Definition sorts_by_key (sort : list (Z * T) -> list (Z * T)) : Prop :=
  forall l, sort l ≡ₚ l /\ StronglySorted not_after (sort l).

(** A sort that keeps the promise: merge sort on the keys. *)
Definition key_merge_sort : list (Z * T) -> list (Z * T) := merge_sort not_after.

End specification.

(** ** Arrays *)

Section arrays.
Context {A : Type}.
Implicit Types (a : list A) (i j : Z) (d v : A).

Lemma length_aset a i v : length (aset a i v) = length a.
Proof. unfold aset. destruct (0 <=? i); [apply length_insert | done]. Qed.

Lemma aget_aset_eq d a i v :
  0 <= i < Z.of_nat (length a) -> aget d (aset a i v) i = v.
Proof.
  intros Hi. unfold aget, aset.
  destruct (Z.leb_spec 0 i); [|lia].
  rewrite list_lookup_insert_eq by lia. done.
Qed.

Lemma aget_aset_ne d a i j v : i <> j -> aget d (aset a i v) j = aget d a j.
Proof.
  intros Hij. unfold aget, aset.
  destruct (Z.leb_spec 0 j); [|done].
  destruct (Z.leb_spec 0 i); [|done].
  rewrite list_lookup_insert_ne by lia. done.
Qed.

Lemma aget_aset d a i j v :
  0 <= i < Z.of_nat (length a) ->
  aget d (aset a i v) j = if decide (i = j) then v else aget d a j.
Proof.
  intros Hi. case_decide as Hij.
  - subst j. by apply aget_aset_eq.
  - by apply aget_aset_ne.
Qed.

Lemma aset_out a i v : ~ (0 <= i < Z.of_nat (length a)) -> aset a i v = a.
Proof.
  intros Hi. unfold aset. destruct (Z.leb_spec 0 i); [|done].
  apply list_insert_ge. lia.
Qed.

Lemma aget_out d a i : ~ (0 <= i < Z.of_nat (length a)) -> aget d a i = d.
Proof.
  intros Hi. unfold aget. destruct (Z.leb_spec 0 i); [|done].
  rewrite lookup_ge_None_2 by lia. done.
Qed.

Lemma aget_vec_new d (n : Z) v i : 0 <= i < n -> aget d (vec_new n v) i = v.
Proof.
  intros Hi. unfold aget, vec_new.
  destruct (Z.leb_spec 0 i); [|lia].
  rewrite lookup_replicate_2 by lia. done.
Qed.

Lemma length_vec_new (n : Z) v : 0 <= n -> Z.of_nat (length (vec_new n v)) = n.
Proof. intros. unfold vec_new. rewrite length_replicate. lia. Qed.

Lemma aget_lookup d a i v :
  0 <= i -> a !! Z.to_nat i = Some v -> aget d a i = v.
Proof.
  intros Hi Hl. unfold aget. destruct (Z.leb_spec 0 i); [|lia]. by rewrite Hl.
Qed.

Lemma lookup_aget d a i :
  0 <= i < Z.of_nat (length a) -> a !! Z.to_nat i = Some (aget d a i).
Proof.
  intros Hi. unfold aget. destruct (Z.leb_spec 0 i); [|lia].
  destruct (lookup_lt_is_Some_2 a (Z.to_nat i)) as [x Hx]; [lia|].
  by rewrite Hx.
Qed.

(** Two arrays of the same length with the same content are equal. *)
Lemma array_ext d a b :
  length a = length b ->
  (forall i, 0 <= i < Z.of_nat (length a) -> aget d a i = aget d b i) ->
  a = b.
Proof.
  intros Hlen Hget. apply list_eq. intros n.
  destruct (decide (n < length a)%nat) as [Hn|Hn].
  - specialize (Hget (Z.of_nat n) ltac:(lia)).
    rewrite <- (Nat2Z.id n).
    rewrite (lookup_aget d a) by lia.
    rewrite (lookup_aget d b) by lia. by rewrite Hget.
  - rewrite !lookup_ge_None_2 by lia. done.
Qed.

Lemma array_all d a (n : Z) v :
  Z.of_nat (length a) = n ->
  (forall i, 0 <= i < n -> aget d a i = v) ->
  a = vec_new n v.
Proof.
  intros Hlen Hget. apply (array_ext d).
  - unfold vec_new. rewrite length_replicate. lia.
  - intros i Hi. rewrite Hget, aget_vec_new by lia. done.
Qed.

End arrays.

(** ** Loops *)

Lemma for_range_nil {S : Type} (lo hi : Z) (body : S -> Z -> S) (s : S) :
  hi <= lo -> for_range lo hi body s = s.
Proof. intros. unfold for_range. by rewrite seqZ_nil by lia. Qed.

Lemma for_range_first {S : Type} (lo hi : Z) (body : S -> Z -> S) (s : S) :
  lo < hi -> for_range lo hi body s = for_range (lo + 1) hi body (body s lo).
Proof.
  intros. unfold for_range. rewrite seqZ_cons by lia. simpl.
  do 2 f_equal; lia.
Qed.

Lemma for_range_last {S : Type} (lo hi : Z) (body : S -> Z -> S) (s : S) :
  lo <= hi -> for_range lo (hi + 1) body s = body (for_range lo hi body s) hi.
Proof.
  intros. unfold for_range.
  replace (hi + 1 - lo) with ((hi - lo) + 1) by lia.
  rewrite seqZ_app by lia. rewrite foldl_app.
  rewrite (seqZ_cons _ 1), (seqZ_nil _ (Z.pred 1)) by lia. simpl. f_equal. lia.
Qed.

(** Induction over the iterations of a counting loop. *)
Lemma for_range_ind {S : Type} (P : Z -> S -> Prop) (lo hi : Z)
    (body : S -> Z -> S) (s : S) :
  lo <= hi ->
  P lo s ->
  (forall i s, lo <= i < hi -> P i s -> P (i + 1) (body s i)) ->
  P hi (for_range lo hi body s).
Proof.
  intros Hle H0 Hstep.
  assert (Hgen : forall n : nat, lo + Z.of_nat n <= hi ->
            P (lo + Z.of_nat n) (for_range lo (lo + Z.of_nat n) body s)).
  { induction n as [|n IH]; intros Hn.
    - rewrite Z.add_0_r, for_range_nil by lia. done.
    - replace (lo + Z.of_nat (Datatypes.S n)) with (lo + Z.of_nat n + 1) by lia.
      rewrite for_range_last by lia. apply Hstep; [lia|]. apply IH. lia. }
  specialize (Hgen (Z.to_nat (hi - lo)) ltac:(lia)).
  by replace (lo + Z.of_nat (Z.to_nat (hi - lo))) with hi in Hgen by lia.
Qed.


(** ** The list of seen columns *)

Lemma touch_order_app (o ks1 ks2 : list Z) :
  touch_order o (ks1 ++ ks2) = touch_order (touch_order o ks1) ks2.
Proof. unfold touch_order. apply foldl_app. Qed.

Lemma touch_order_cons (o : list Z) (k : Z) (ks : list Z) :
  touch_order o (k :: ks) = touch_order (if decide (k ∈ o) then o else k :: o) ks.
Proof. done. Qed.

Lemma elem_of_touch_order (ks o : list Z) (k : Z) :
  k ∈ touch_order o ks <-> k ∈ o \/ k ∈ ks.
Proof.
  revert o. induction ks as [|k' ks IH]; intros o.
  - simpl. rewrite elem_of_nil. tauto.
  - rewrite touch_order_cons, IH, elem_of_cons.
    case_decide as Hin; [|rewrite elem_of_cons]; [|tauto].
    split; [tauto|]. intros [Ho|[->|Hks]]; tauto.
Qed.

Lemma NoDup_touch_order (ks o : list Z) : NoDup o -> NoDup (touch_order o ks).
Proof.
  revert o. induction ks as [|k ks IH]; intros o Ho; [done|].
  rewrite touch_order_cons. apply IH.
  case_decide; [done|]. by apply NoDup_cons.
Qed.

Lemma length_touch_order (ks o : list Z) :
  (length (touch_order o ks) <= length o + length ks)%nat.
Proof.
  revert o. induction ks as [|k ks IH]; intros o; [simpl; lia|].
  rewrite touch_order_cons. etrans; [apply IH|].
  case_decide; simpl; lia.
Qed.

(** Offering pairwise distinct fresh columns reverses them. *)
Lemma touch_order_fresh (ks o : list Z) :
  NoDup ks -> (forall k, k ∈ ks -> k ∉ o) -> touch_order o ks = reverse ks ++ o.
Proof.
  revert o. induction ks as [|k ks IH]; intros o Hnd Hfresh; [done|].
  apply NoDup_cons in Hnd as [Hk Hnd].
  rewrite touch_order_cons. rewrite decide_False by (apply Hfresh; left).
  rewrite IH; [rewrite reverse_cons; by rewrite <- app_assoc|done|].
  intros k' Hk' [->|Ho]%elem_of_cons; [done|].
  eapply Hfresh; [|done]. by right.
Qed.

(** ** Accumulated sums *)

Section colsum.
Context {T : Type} `{!Scalar T}.
Implicit Types (es : list (Z * T)) (k : Z) (s v : T).

Lemma colsum_app s es1 es2 k :
  colsum s (es1 ++ es2) k = colsum (colsum s es1 k) es2 k.
Proof. unfold colsum. apply foldl_app. Qed.

Lemma colsum_absent s es k : k ∉ es.*1 -> colsum s es k = s.
Proof.
  revert s. induction es as [|[c v] es IH]; intros s Hk; [done|].
  simpl in *. apply not_elem_of_cons in Hk as [Hne Hk].
  destruct (Z.eqb_spec c k); [done|]. by apply IH.
Qed.

(** With pairwise distinct columns, the sum of a stored column is its
    single contribution added to the start value. *)
Lemma colsum_single s es k v :
  NoDup es.*1 -> (k, v) ∈ es -> colsum s es k = add s v.
Proof.
  revert s. induction es as [|[c w] es IH]; intros s Hnd Hin.
  - by apply elem_of_nil in Hin.
  - simpl in *. apply NoDup_cons in Hnd as [Hc Hnd].
    apply elem_of_cons in Hin as [Heq|Hin].
    + injection Heq as <- <-. rewrite Z.eqb_refl.
      by apply colsum_absent.
    + destruct (Z.eqb_spec c k) as [->|].
      * exfalso. apply Hc. apply list_elem_of_fmap. by exists (k, v).
      * by apply IH.
Qed.

End colsum.

(** ** The accumulator invariant *)

Lemma chain_frame (next : list Z) (h k v : Z) (o : list Z) :
  k ∉ o -> chain (aset next k v) h o <-> chain next h o.
Proof.
  revert h. induction o as [|k' o IH]; intros h Hk; [done|].
  apply not_elem_of_cons in Hk as [Hne Hk]. simpl.
  unfold idx. rewrite aget_aset_ne by done. by rewrite IH.
Qed.

(** A seen column never carries the "unseen" mark -1. *)
Lemma chain_marked (next : list Z) (h : Z) (o : list Z) (k : Z) :
  chain next h o -> (forall k', k' ∈ o -> 0 <= k') -> k ∈ o -> idx next k <> -1.
Proof.
  revert h. induction o as [|k0 o IH]; intros h Hch Hpos Hk.
  - by apply elem_of_nil in Hk.
  - destruct Hch as [-> Hch]. apply elem_of_cons in Hk as [->|Hk].
    + destruct o as [|k1 o]; simpl in Hch; [lia|].
      destruct Hch as [-> _]. specialize (Hpos k1). 
      assert (0 <= k1) by (apply Hpos; right; left). lia.
    + eapply IH; [done| |done]. intros k' Hk'. apply Hpos. by right.
Qed.

Lemma acc_inv_init (n : Z) : 0 <= n -> acc_inv n (vec_new n (-1)) (-2) 0 [].
Proof.
  intros Hn. split; simpl; try done.
  - by apply length_vec_new.
  - apply NoDup_nil_2.
  - intros k Hk. by apply elem_of_nil in Hk.
  - intros k Hk _. unfold idx. by apply aget_vec_new.
Qed.

Lemma acc_inv_seen n next head len o k :
  acc_inv n next head len o -> k ∈ o -> idx next k <> -1.
Proof.
  intros [_ Hch _ Hrg _ _] Hk. eapply chain_marked; [done| |done].
  intros k' Hk'. by apply Hrg.
Qed.

Lemma acc_inv_unseen n next head len o k :
  acc_inv n next head len o -> 0 <= k < n -> k ∉ o -> idx next k = -1.
Proof. intros [_ _ _ _ Hun _] ??. by apply Hun. Qed.

(** Linking a fresh column in front of the list. *)
Lemma acc_inv_link n next head len o k :
  acc_inv n next head len o -> 0 <= k < n -> k ∉ o ->
  acc_inv n (aset next k head) k (len + 1) (k :: o).
Proof.
  intros [Hlen Hch Hnd Hrg Hun Hl] Hk Hfresh. split.
  - rewrite length_aset. done.
  - simpl. split; [done|]. unfold idx. rewrite aget_aset_eq by lia.
    by apply chain_frame.
  - by apply NoDup_cons.
  - intros k' [->|Hk']%elem_of_cons; [done|by apply Hrg].
  - intros k' Hk' [Hne Hno]%not_elem_of_cons. unfold idx.
    rewrite aget_aset_ne by done. by apply Hun.
  - simpl. lia.
Qed.

(** Unlinking the head of the list. *)
Lemma acc_inv_unlink n next head len k o :
  acc_inv n next head len (k :: o) ->
  head = k /\ acc_inv n (aset next k (-1)) (idx next k) (len - 1) o.
Proof.
  intros [Hlen [-> Hch] [Hk Hnd]%NoDup_cons Hrg Hun Hl].
  split; [done|]. split.
  - by rewrite length_aset.
  - by apply chain_frame.
  - done.
  - intros k' Hk'. apply Hrg. by right.
  - intros k' Hk' Hno. unfold idx. destruct (decide (k = k')) as [<-|Hne].
    + rewrite aget_aset_eq; [done|]. rewrite Hlen. apply Hrg. by left.
    + rewrite aget_aset_ne by done. apply Hun; [done|].
      by apply not_elem_of_cons.
  - simpl in Hl. lia.
Qed.

(** An accumulator with nothing seen is in its initial state. *)
Lemma acc_inv_empty n next head len :
  acc_inv n next head len [] -> head = -2 /\ len = 0 /\ next = vec_new n (-1).
Proof.
  intros [Hlen Hch Hnd Hrg Hun Hl]. simpl in *. split; [done|]. split; [done|].
  apply (array_all 0); [done|]. intros i Hi. apply Hun; [done|].
  apply not_elem_of_nil.
Qed.

Section acc_fold.
Context {T : Type} `{!Scalar T}.

(** The touch phase keeps the invariant; the seen columns and the
    accumulated sums are those of the specification. *)
Lemma acc_fold_spec n (es : list (Z * T)) next (sums : list T) head len o :
  acc_inv n next head len o ->
  Z.of_nat (length sums) = n ->
  (forall e, e ∈ es -> 0 <= e.1 < n) ->
  exists next' sums' head' len',
    acc_fold (next, sums, head, len) es = (next', sums', head', len')
    /\ acc_inv n next' head' len' (touch_order o es.*1)
    /\ length sums' = length sums
    /\ forall k, val sums' k = colsum (val sums k) es k.
Proof.
  revert next sums head len o.
  induction es as [|[k v] es IH]; intros next sums head len o Hinv Hlen Hrange.
  - by exists next, sums, head, len.
  - assert (Hk : 0 <= k < n) by (apply (Hrange (k, v)); left).
    assert (Hrange' : forall e, e ∈ es -> 0 <= e.1 < n)
      by (intros e He; apply Hrange; by right).
    unfold acc_fold in *. simpl foldl. rewrite fmap_cons, touch_order_cons. simpl fst.
    set (sums1 := aset sums k (add (val sums k) v)).
    assert (Hlen1 : Z.of_nat (length sums1) = n)
      by (unfold sums1; by rewrite length_aset).
    assert (Hsums1 : forall k', colsum (val sums1 k') es k'
                              = colsum (val sums k') ((k, v) :: es) k').
    { intros k'. simpl. unfold sums1, val. destruct (Z.eqb_spec k k') as [->|Hne].
      - rewrite aget_aset_eq by lia. done.
      - rewrite aget_aset_ne by done. done. }
    case_decide as Hin.
    + pose proof (acc_inv_seen _ _ _ _ _ _ Hinv Hin) as Hseen.
      destruct (Z.eqb_spec (idx next k) (-1)); [done|].
      destruct (IH next sums1 head len o Hinv Hlen1 Hrange')
        as (next' & sums' & head' & len' & Heq & Hinv' & Hlen' & Hsums').
      exists next', sums', head', len'. split; [done|]. split; [done|].
      split; [by rewrite Hlen'; unfold sums1; rewrite length_aset|].
      intros k'. by rewrite Hsums', Hsums1.
    + rewrite (acc_inv_unseen _ _ _ _ _ _ Hinv Hk Hin). simpl.
      destruct (IH (aset next k head) sums1 k (len + 1) (k :: o)
                  (acc_inv_link _ _ _ _ _ _ Hinv Hk Hin) Hlen1 Hrange')
        as (next' & sums' & head' & len' & Heq & Hinv' & Hlen' & Hsums').
      exists next', sums', head', len'. split; [done|]. split; [done|].
      split; [by rewrite Hlen'; unfold sums1; rewrite length_aset|].
      intros k'. by rewrite Hsums', Hsums1.
Qed.

End acc_fold.


(** ** More on loops *)

Lemma foldl_bind {A B C : Type} (f : A -> B -> A) (g : C -> list B) (a : A) (l : list C) :
  foldl f a (l ≫= g) = foldl (fun a x => foldl f a (g x)) a l.
Proof.
  revert a. induction l as [|x l IH]; intros a; [done|].
  rewrite bind_cons, foldl_app. simpl. apply IH.
Qed.

Lemma foldl_ext_in {A B : Type} (f g : A -> B -> A) (a : A) (l : list B) :
  (forall a x, x ∈ l -> f a x = g a x) -> foldl f a l = foldl g a l.
Proof.
  revert a. induction l as [|x l IH]; intros a Hfg; [done|].
  simpl. rewrite Hfg by left. apply IH. intros. apply Hfg. by right.
Qed.

(** A loop whose body ignores the counter only depends on the number of
    iterations. *)
Lemma for_range_shift {S : Type} (lo hi : Z) (body : S -> Z -> S) (s : S) :
  (forall s i j, body s i = body s j) ->
  for_range lo hi body s = for_range 0 (hi - lo) body s.
Proof.
  intros Hconst. unfold for_range. rewrite Z.sub_0_r.
  replace (seqZ lo (hi - lo)) with (Z.add lo <$> seqZ 0 (hi - lo))
    by (rewrite fmap_add_seqZ; f_equal; lia).
  rewrite foldl_fmap. apply foldl_ext_in. intros. apply Hconst.
Qed.

Lemma for_range_const_first {S : Type} (len : Z) (body : S -> Z -> S) (s : S) :
  (forall s i j, body s i = body s j) ->
  0 < len ->
  for_range 0 len body s = for_range 0 (len - 1) body (body s 0).
Proof.
  intros Hconst Hlen. rewrite for_range_first by done.
  by rewrite for_range_shift.
Qed.

Lemma seqZ_snoc (n : Z) : 0 <= n -> seqZ 0 (n + 1) = seqZ 0 n ++ [n].
Proof.
  intros. rewrite seqZ_app by lia.
  rewrite (seqZ_cons _ 1), (seqZ_nil _ (Z.pred 1)) by lia. done.
Qed.

(** ** Well-formed compressed matrices *)

Section validity.
Context {T : Type} `{!Scalar T}.
Implicit Types (Ap Aj : list Z) (Ax : list T).

Lemma forallb_seqZ (f : Z -> bool) (lo n : Z) :
  forallb f (seqZ lo n) = true <-> forall i, lo <= i < lo + n -> f i = true.
Proof.
  rewrite forallb_forall. setoid_rewrite <- list_elem_of_In.
  setoid_rewrite elem_of_seqZ. done.
Qed.

Lemma valid_csr_ok n_row n_col Ap Aj Ax :
  valid_csr n_row n_col Ap Aj Ax = true -> csr_ok n_row n_col Ap Aj Ax.
Proof.
  unfold valid_csr. rewrite !andb_true_iff, !forallb_seqZ.
  intros [[[[[[[H1 H2] H3] H4] H5] H6] H7] H8].
  split; try lia.
  - intros i Hi. specialize (H5 i ltac:(lia)). lia.
  - intros jj Hjj. specialize (H8 jj ltac:(lia)). lia.
Qed.

Lemma csr_ok_ptr_le n_row n_col Ap Aj Ax i j :
  csr_ok n_row n_col Ap Aj Ax -> 0 <= i -> i <= j -> j <= n_row ->
  idx Ap i <= idx Ap j.
Proof.
  intros Hok Hi Hij Hj.
  assert (Hgen : forall d : nat, i + Z.of_nat d <= n_row ->
            idx Ap i <= idx Ap (i + Z.of_nat d)).
  { induction d as [|d IH]; intros Hd.
    - rewrite Z.add_0_r. lia.
    - etrans; [apply IH; lia|].
      replace (i + Z.of_nat (S d)) with (i + Z.of_nat d + 1) by lia.
      apply (ok_mono _ _ _ _ _ Hok). lia. }
  specialize (Hgen (Z.to_nat (j - i)) ltac:(lia)).
  by replace (i + Z.of_nat (Z.to_nat (j - i))) with j in Hgen by lia.
Qed.

(** The positions of row [i] lie inside the stored prefix. *)
Lemma csr_ok_row_pos n_row n_col Ap Aj Ax i jj :
  csr_ok n_row n_col Ap Aj Ax -> 0 <= i < n_row ->
  idx Ap i <= jj < idx Ap (i + 1) -> 0 <= jj < idx Ap n_row.
Proof.
  intros Hok Hi Hjj.
  pose proof (csr_ok_ptr_le _ _ _ _ _ 0 i Hok ltac:(lia) ltac:(lia) ltac:(lia)).
  pose proof (csr_ok_ptr_le _ _ _ _ _ (i + 1) n_row Hok ltac:(lia) ltac:(lia) ltac:(lia)).
  rewrite (ok_first _ _ _ _ _ Hok) in *. lia.
Qed.

Lemma row_entries_range n_row n_col Ap Aj Ax i e :
  csr_ok n_row n_col Ap Aj Ax -> 0 <= i < n_row ->
  e ∈ row_entries Ap Aj Ax i -> 0 <= e.1 < n_col.
Proof.
  intros Hok Hi (jj & -> & Hjj%elem_of_seqZ)%list_elem_of_fmap. simpl.
  apply (ok_range _ _ _ _ _ Hok).
  eapply csr_ok_row_pos; [done..|lia].
Qed.

Lemma product_entries_range n_row n_mid n_col Ap Aj Ax Bp Bj (Bx : list T) i e :
  csr_ok n_row n_mid Ap Aj Ax -> csr_ok n_mid n_col Bp Bj Bx -> 0 <= i < n_row ->
  e ∈ product_entries Ap Aj Ax Bp Bj Bx i -> 0 <= e.1 < n_col.
Proof.
  intros HA HB Hi (jj & He & Hjj%elem_of_seqZ)%list_elem_of_bind.
  apply list_elem_of_fmap in He as (kk & -> & Hkk%elem_of_seqZ). simpl.
  assert (0 <= idx Aj jj < n_mid) as Hj.
  { apply (ok_range _ _ _ _ _ HA). eapply csr_ok_row_pos; [done..|lia]. }
  apply (ok_range _ _ _ _ _ HB).
  eapply (csr_ok_row_pos _ _ _ _ _ (idx Aj jj)); [done..|lia].
Qed.

End validity.


(** ** [csrmucsr]: what a row does *)

Section csrmucsr.
Context {T : Type} `{!Scalar T}.
Implicit Types (Ap Aj Bp Bj Cp Cj next : list Z) (Ax Bx Cx sums : list T).

Lemma acc_fold_app st (es1 es2 : list (Z * T)) :
  acc_fold st (es1 ++ es2) = acc_fold (acc_fold st es1) es2.
Proof. unfold acc_fold. apply foldl_app. Qed.

(** The sums of a freshly cleared accumulator are those of [drained]. *)
Lemma colsum_unseen (es : list (Z * T)) k :
  k ∉ touch_order [] es.*1 -> colsum zero es k = zero.
Proof.
  intros Hk. apply colsum_absent. intros Hin. apply Hk.
  apply elem_of_touch_order. by right.
Qed.

(** The emptying loop of [csrmucsr] on a well-formed accumulator: it emits
    the seen columns with their nonzero sums and clears what it visits. *)
Lemma mu_drain n o : forall next sums head len Cj Cx,
  acc_inv n next head len o ->
  Z.of_nat (length sums) = n ->
  (forall k, 0 <= k < n -> k ∉ o -> val sums k = zero) ->
  for_range 0 len (fun '(next, sums, head, Cj, Cx) (_ : Z) =>
      let '(Cj, Cx) :=
        if nonzero (val sums head)
        then (Cj ++ [head], Cx ++ [val sums head])
        else (Cj, Cx) in
      let temp := head in
      let head := idx next head in
      (aset next temp (-1), aset sums temp zero, head, Cj, Cx))
    (next, sums, head, Cj, Cx)
  = let d := filter (fun e => nonzero e.2 = true) ((fun k => (k, val sums k)) <$> o) in
    (vec_new n (-1), vec_new n zero, -2, Cj ++ d.*1, Cx ++ d.*2).
Proof.
  induction o as [|k o IH]; intros next sums head len Cj Cx Hinv Hlen Hclean.
  - apply acc_inv_empty in Hinv as (-> & -> & ->).
    rewrite for_range_nil by lia. simpl. rewrite !app_nil_r.
    do 4 f_equal. apply (array_all zero); [done|].
    intros i Hi. apply Hclean; [done|apply not_elem_of_nil].
  - pose proof (acc_len _ _ _ _ _ Hinv) as Hl. simpl in Hl.
    pose proof (acc_range _ _ _ _ _ Hinv k ltac:(left)) as Hk.
    pose proof (acc_nodup _ _ _ _ _ Hinv) as [Hko _]%NoDup_cons.
    apply acc_inv_unlink in Hinv as [-> Hinv].
    rewrite for_range_const_first; [|by intros [[[[??]?]?]?] ??|lia].
    assert (Hrest : forall k', k' ∈ o -> val (aset sums k zero) k' = val sums k').
    { intros k' Hk'. unfold val. rewrite aget_aset_ne; [done|]. by intros ->. }
    assert (Hmap : (fun k' => (k', val (aset sums k zero) k')) <$> o
                 = (fun k' => (k', val sums k')) <$> o).
    { apply list_fmap_ext. intros _ k' Hk'%list_elem_of_lookup_2. by rewrite Hrest. }
    assert (Hclean' : forall k', 0 <= k' < n -> k' ∉ o ->
              val (aset sums k zero) k' = zero).
    { intros k' Hk' Hno. unfold val. destruct (decide (k = k')) as [<-|Hne].
      - by rewrite aget_aset_eq by lia.
      - rewrite aget_aset_ne by done. apply Hclean; [done|].
        by apply not_elem_of_cons. }
    rewrite fmap_cons, filter_cons. simpl.
    destruct (nonzero (val sums k)) eqn:Hnz.
    + rewrite decide_True by done.
      rewrite (IH _ _ _ _ _ _ Hinv); [|by rewrite length_aset|done].
      simpl. rewrite Hmap, <- !app_assoc. done.
    + rewrite decide_False by done.
      rewrite (IH _ _ _ _ _ _ Hinv); [|by rewrite length_aset|done].
      simpl. rewrite Hmap. done.
Qed.

(** One row of [csrmucsr], started on a cleared accumulator. *)
Lemma csrmucsr_row_spec n_col Ap Aj Ax Bp Bj Bx Cp Cj Cx i :
  0 <= n_col ->
  (forall e, e ∈ product_entries Ap Aj Ax Bp Bj Bx i -> 0 <= e.1 < n_col) ->
  csrmucsr_row Ap Aj Ax Bp Bj Bx
    (vec_new n_col (-1), vec_new n_col zero, Cp, Cj, Cx) i
  = let d := drained (product_entries Ap Aj Ax Bp Bj Bx i) in
    (vec_new n_col (-1), vec_new n_col zero,
     aset Cp (i + 1) (vec_size (Cx ++ d.*2)), Cj ++ d.*1, Cx ++ d.*2).
Proof.
  intros Hn Hrange. unfold csrmucsr_row.
  set (es := product_entries Ap Aj Ax Bp Bj Bx i) in *.
  match goal with
  | |- context [for_range (idx Ap i) (idx Ap (i + 1)) ?f ?s] =>
      assert (Htouch : for_range (idx Ap i) (idx Ap (i + 1)) f s = acc_fold s es)
  end.
  { unfold es, product_entries, acc_fold, for_range.
    rewrite foldl_bind. apply foldl_ext_in. intros st jj _.
    rewrite foldl_fmap. apply foldl_ext_in. by intros [[[??]?]?] kk _. }
  rewrite Htouch. clear Htouch.
  destruct (acc_fold_spec n_col es _ (vec_new n_col zero) _ _ _
              (acc_inv_init n_col Hn) (length_vec_new _ _ Hn) Hrange)
    as (next' & sums' & head' & len' & -> & Hinv & Hlen & Hsums).
  assert (Hsums' : forall k, val sums' k = colsum zero es k).
  { intros k. rewrite Hsums. f_equal. unfold val.
    destruct (decide (0 <= k < n_col)).
    - by apply aget_vec_new.
    - apply aget_out. rewrite length_vec_new; done. }
  rewrite (mu_drain n_col _ _ _ _ _ _ _ Hinv).
  - simpl. unfold drained.
    rewrite (list_fmap_ext (fun k => (k, val sums' k)) (fun k => (k, colsum zero es k)))
      by (intros; by rewrite Hsums').
    done.
  - rewrite Hlen. by apply length_vec_new.
  - intros k Hk Hno. rewrite Hsums'. by apply colsum_unseen.
Qed.

Lemma product_drained_succ Ap Aj Ax Bp Bj Bx i :
  0 <= i ->
  product_drained Ap Aj Ax Bp Bj Bx (i + 1)
  = product_drained Ap Aj Ax Bp Bj Bx i
    ++ drained (product_entries Ap Aj Ax Bp Bj Bx i).
Proof.
  intros Hi. unfold product_drained. rewrite seqZ_snoc by done.
  rewrite bind_app. simpl. by rewrite app_nil_r.
Qed.

(** The state of [csrmucsr] at the start of every row: a cleared
    accumulator, and the output of the rows done so far. *)
Lemma csrmucsr_rows_spec n_row n_mid n_col Ap Aj Ax Bp Bj Bx Cp Cj Cx i :
  csr_ok n_row n_mid Ap Aj Ax -> csr_ok n_mid n_col Bp Bj Bx ->
  0 <= i <= n_row ->
  exists Cp',
    csrmucsr_rows i n_row n_col Ap Aj Ax Bp Bj Bx Cp Cj Cx
    = (vec_new n_col (-1), vec_new n_col zero, Cp',
       Cj ++ (product_drained Ap Aj Ax Bp Bj Bx i).*1,
       Cx ++ (product_drained Ap Aj Ax Bp Bj Bx i).*2).
Proof.
  intros HA HB Hi. unfold csrmucsr_rows.
  pose proof (ok_cols _ _ _ _ _ HB) as Hn.
  apply (for_range_ind (fun i st => 0 <= i <= n_row -> exists Cp',
    st = (vec_new n_col (-1), vec_new n_col zero, Cp',
          Cj ++ (product_drained Ap Aj Ax Bp Bj Bx i).*1,
          Cx ++ (product_drained Ap Aj Ax Bp Bj Bx i).*2))); [lia| | |done].
  - intros _. eexists. unfold product_drained. rewrite seqZ_nil by lia.
    simpl. by rewrite !app_nil_r.
  - intros r st Hr IH _. destruct IH as [Cp' ->]; [lia|].
    rewrite csrmucsr_row_spec; [|done|].
    + simpl. eexists. rewrite product_drained_succ by lia.
      rewrite !fmap_app, !app_assoc. done.
    + intros e. apply (product_entries_range n_row n_mid n_col); [done|done|lia].
Qed.

End csrmucsr.


(** ** [csr_binop_csr]: what a row does *)

Section binop.
Context {T : Type} `{!Scalar T}.
Implicit Types (Ap Aj Bp Bj Cp Cj next : list Z) (Ax Bx Cx A_row B_row : list T).
Implicit Types (op : T -> T -> T).

(** A reading loop over the positions [lo .. hi-1] of a row offers the
    stored (column, value) pairs to the accumulator. *)
Lemma acc_fold_row Aj Ax lo hi st :
  for_range lo hi (fun '(next, sums, head, len) jj =>
      let j := idx Aj jj in
      let sums := aset sums j (add (val sums j) (val Ax jj)) in
      if idx next j =? -1
      then (aset next j head, sums, j, len + 1)
      else (next, sums, head, len)) st
  = acc_fold st ((fun jj => (idx Aj jj, val Ax jj)) <$> seqZ lo (hi - lo)).
Proof.
  unfold acc_fold, for_range. rewrite foldl_fmap.
  apply foldl_ext_in. by intros [[[??]?]?] jj _.
Qed.

Lemma val_vec_new_zero (n : Z) k : val (vec_new n (zero : T)) k = zero.
Proof.
  unfold val. destruct (decide (0 <= k < n)).
  - by apply aget_vec_new.
  - apply aget_out. unfold vec_new. rewrite length_replicate. lia.
Qed.

(** The touch phase of a row, started on a cleared accumulator. *)
Lemma binop_touch_spec n Ap Aj Ax Bp Bj Bx i :
  0 <= n ->
  (forall e, e ∈ row_entries Ap Aj Ax i -> 0 <= e.1 < n) ->
  (forall e, e ∈ row_entries Bp Bj Bx i -> 0 <= e.1 < n) ->
  exists next A_row B_row head len,
    binop_touch Ap Aj Ax Bp Bj Bx
      (vec_new n (-1)) (vec_new n zero) (vec_new n zero) i
    = (next, A_row, B_row, head, len)
    /\ acc_inv n next head len
         (touch_order [] ((row_entries Ap Aj Ax i).*1 ++ (row_entries Bp Bj Bx i).*1))
    /\ Z.of_nat (length A_row) = n /\ Z.of_nat (length B_row) = n
    /\ (forall k, val A_row k = colsum zero (row_entries Ap Aj Ax i) k)
    /\ (forall k, val B_row k = colsum zero (row_entries Bp Bj Bx i) k).
Proof.
  intros Hn HA HB. unfold binop_touch. rewrite acc_fold_row.
  fold (row_entries Ap Aj Ax i).
  destruct (acc_fold_spec n (row_entries Ap Aj Ax i) _ (vec_new n zero) _ _ _
              (acc_inv_init n Hn) (length_vec_new _ _ Hn) HA)
    as (next1 & A_row & head1 & len1 & -> & Hinv1 & HlenA & HsumA).
  cbv beta iota. rewrite acc_fold_row. fold (row_entries Bp Bj Bx i).
  destruct (acc_fold_spec n (row_entries Bp Bj Bx i) _ (vec_new n zero) _ _ _
              Hinv1 (length_vec_new _ _ Hn) HB)
    as (next2 & B_row & head2 & len2 & -> & Hinv2 & HlenB & HsumB).
  cbv beta iota.
  exists next2, A_row, B_row, head2, len2.
  rewrite touch_order_app. split; [done|]. split; [done|].
  pose proof (length_vec_new n (zero : T) Hn).
  split; [lia|]. split; [lia|].
  split; intros k; [rewrite HsumA|rewrite HsumB]; by rewrite val_vec_new_zero.
Qed.

(** The first [length o1] iterations of the emptying loop: the columns [o1]
    are emitted and cleared, the rest of the accumulator is untouched. *)
Lemma binop_drain_prefix op n o1 : forall o2 next A_row B_row head len Cj Cx,
  acc_inv n next head len (o1 ++ o2) ->
  Z.of_nat (length A_row) = n -> Z.of_nat (length B_row) = n ->
  exists next' A_row' B_row' head',
    for_range 0 (Z.of_nat (length o1)) (fun st _ => binop_drain_step op st)
      (next, A_row, B_row, head, Cj, Cx)
    = (next', A_row', B_row', head',
       Cj ++ (filter (fun e => nonzero e.2 = true)
                ((fun k => (k, op (val A_row k) (val B_row k))) <$> o1)).*1,
       Cx ++ (filter (fun e => nonzero e.2 = true)
                ((fun k => (k, op (val A_row k) (val B_row k))) <$> o1)).*2)
    /\ acc_inv n next' head' (len - Z.of_nat (length o1)) o2
    /\ Z.of_nat (length A_row') = n /\ Z.of_nat (length B_row') = n
    /\ (forall k, k ∉ o1 -> val A_row' k = val A_row k /\ val B_row' k = val B_row k)
    /\ (forall k, k ∈ o1 -> val A_row' k = zero /\ val B_row' k = zero).
Proof.
  induction o1 as [|k o1 IH]; intros o2 next A_row B_row head len Cj Cx Hinv HA HB.
  - exists next, A_row, B_row, head. simpl. rewrite for_range_nil by lia.
    rewrite !app_nil_r, Z.sub_0_r.
    split; [done|]. split; [done|]. split; [done|]. split; [done|].
    split; [done|]. by intros ? ?%elem_of_nil.
  - simpl in Hinv.
    pose proof (acc_range _ _ _ _ _ Hinv k ltac:(left)) as Hk.
    pose proof (acc_nodup _ _ _ _ _ Hinv) as [Hko _]%NoDup_cons.
    apply not_elem_of_app in Hko as [Hko1 Hko2].
    apply acc_inv_unlink in Hinv as [-> Hinv].
    rewrite for_range_const_first; [|done|simpl; lia].
    replace (Z.of_nat (length (k :: o1)) - 1) with (Z.of_nat (length o1))
      by (simpl; lia).
    unfold binop_drain_step at 2. unfold binop_result.
    assert (Hmap : (fun k' => (k', op (val (aset A_row k zero) k')
                                     (val (aset B_row k zero) k'))) <$> o1
                 = (fun k' => (k', op (val A_row k') (val B_row k'))) <$> o1).
    { apply list_fmap_ext. intros _ k' Hk'%list_elem_of_lookup_2.
      unfold val. rewrite !aget_aset_ne; [done|by intros ->..]. }
    set (r := op (val A_row k) (val B_row k)).
    assert (Hfin : forall Cj1 Cx1,
      exists next' A_row' B_row' head',
        for_range 0 (Z.of_nat (length o1)) (fun st _ => binop_drain_step op st)
          (aset next k (-1), aset A_row k zero, aset B_row k zero,
           idx next k, Cj1, Cx1)
        = (next', A_row', B_row', head',
           Cj1 ++ (filter (fun e => nonzero e.2 = true)
                    ((fun k => (k, op (val A_row k) (val B_row k))) <$> o1)).*1,
           Cx1 ++ (filter (fun e => nonzero e.2 = true)
                    ((fun k => (k, op (val A_row k) (val B_row k))) <$> o1)).*2)
        /\ acc_inv n next' head' (len - Z.of_nat (length (k :: o1))) o2
        /\ Z.of_nat (length A_row') = n /\ Z.of_nat (length B_row') = n
        /\ (forall k', k' ∉ k :: o1 ->
              val A_row' k' = val A_row k' /\ val B_row' k' = val B_row k')
        /\ (forall k', k' ∈ k :: o1 -> val A_row' k' = zero /\ val B_row' k' = zero)).
    { intros Cj1 Cx1.
      destruct (IH o2 _ (aset A_row k zero) (aset B_row k zero) _ _ Cj1 Cx1 Hinv)
        as (next' & A' & B' & head' & Heq & Hinv' & HA' & HB' & Hout & Hin);
        [by rewrite length_aset..|].
      exists next', A', B', head'. rewrite Heq, Hmap.
      split; [done|]. split.
      { replace (len - Z.of_nat (length (k :: o1)))
          with (len - 1 - Z.of_nat (length o1)) by (simpl; lia). done. }
      split; [done|]. split; [done|]. split.
      - intros k' [Hne Hk']%not_elem_of_cons.
        destruct (Hout k' Hk') as [-> ->]. unfold val.
        by rewrite !aget_aset_ne by done.
      - intros k' [->|Hk']%elem_of_cons; [|by apply Hin].
        destruct (Hout k Hko1) as [-> ->]. unfold val.
        by rewrite !aget_aset_eq by lia. }
    rewrite fmap_cons, filter_cons. simpl. fold r.
    destruct (nonzero r) eqn:Hnz.
    + rewrite decide_True by done.
      destruct (Hfin (Cj ++ [k]) (Cx ++ [r]))
        as (next' & A' & B' & head' & Heq & Hrest).
      exists next', A', B', head'. rewrite Heq. simpl.
      rewrite <- !app_assoc. done.
    + rewrite decide_False by done.
      destruct (Hfin Cj Cx) as (next' & A' & B' & head' & Heq & Hrest).
      exists next', A', B', head'. by rewrite Heq.
Qed.

(** One row of [csr_binop_csr], started on a cleared accumulator. *)
Lemma csr_binop_row_spec op n Ap Aj Ax Bp Bj Bx Cp Cj Cx i :
  0 <= n ->
  (forall e, e ∈ row_entries Ap Aj Ax i -> 0 <= e.1 < n) ->
  (forall e, e ∈ row_entries Bp Bj Bx i -> 0 <= e.1 < n) ->
  csr_binop_row op Ap Aj Ax Bp Bj Bx
    (vec_new n (-1), vec_new n zero, vec_new n zero, Cp, Cj, Cx) i
  = let d := binop_drained op (row_entries Ap Aj Ax i) (row_entries Bp Bj Bx i) in
    (vec_new n (-1), vec_new n zero, vec_new n zero,
     aset Cp (i + 1) (vec_size (Cx ++ d.*2)), Cj ++ d.*1, Cx ++ d.*2).
Proof.
  intros Hn HA HB. unfold csr_binop_row.
  destruct (binop_touch_spec n Ap Aj Ax Bp Bj Bx i Hn HA HB)
    as (next & A_row & B_row & head & len & -> & Hinv & HlA & HlB & HsA & HsB).
  set (o := touch_order [] ((row_entries Ap Aj Ax i).*1 ++ (row_entries Bp Bj Bx i).*1)) in *.
  pose proof (acc_len _ _ _ _ _ Hinv) as ->.
  rewrite <- (app_nil_r o) in Hinv.
  destruct (binop_drain_prefix op n o [] next A_row B_row head _ Cj Cx Hinv HlA HlB)
    as (next' & A' & B' & head' & -> & Hinv' & HlA' & HlB' & Hout & Hin).
  apply acc_inv_empty in Hinv' as (_ & _ & ->).
  assert (Hclean : forall k, val A' k = zero /\ val B' k = zero).
  { intros k. destruct (decide (k ∈ o)) as [Hk|Hk]; [by apply Hin|].
    destruct (Hout k Hk) as [-> ->]. rewrite HsA, HsB.
    assert ((k ∉ (row_entries Ap Aj Ax i).*1) /\ (k ∉ (row_entries Bp Bj Bx i).*1))
      as [??].
    { split; intros Hk'; apply Hk; apply elem_of_touch_order; right;
        apply elem_of_app; [by left|by right]. }
    by rewrite !colsum_absent. }
  rewrite (array_all zero A' n zero HlA') by (intros; apply Hclean).
  rewrite (array_all zero B' n zero HlB') by (intros; apply Hclean).
  simpl. unfold binop_drained. fold o.
  rewrite (list_fmap_ext (fun k => (k, op (val A_row k) (val B_row k)))
             (fun k => (k, op (colsum zero (row_entries Ap Aj Ax i) k)
                              (colsum zero (row_entries Bp Bj Bx i) k))))
    by (intros; by rewrite HsA, HsB).
  done.
Qed.

End binop.


(** ** Rows of a compressed matrix as slices *)

Section slices.
Context {T : Type} `{!Scalar T}.
Implicit Types (Cp Cj : list Z) (Cx : list T) (l d : list (Z * T)).

Lemma length_vec_resize {A : Type} (n : Z) (x : A) (v : list A) :
  0 <= n -> Z.of_nat (length (vec_resize n x v)) = n.
Proof.
  intros. unfold vec_resize.
  rewrite length_app, length_take, length_replicate. lia.
Qed.

Lemma idx_vec_resize_nil (n i : Z) : idx (vec_resize n 0 []) i = 0.
Proof.
  unfold idx, aget, vec_resize. destruct (0 <=? i); [|done].
  rewrite take_nil. simpl.
  destruct (replicate (Z.to_nat n - 0) 0 !! Z.to_nat i) eqn:Hl; [|done].
  by apply lookup_replicate in Hl as [-> _].
Qed.

(** If the stored prefix of the index and value arrays is [l ++ d] and the
    pointers of row [r] delimit [d], then [d] is the content of row [r]. *)
Lemma row_entries_slice Cp Cj Cx r l d :
  idx Cp r = Z.of_nat (length l) ->
  idx Cp (r + 1) = Z.of_nat (length (l ++ d)) ->
  take (length (l ++ d)) Cj = (l ++ d).*1 ->
  take (length (l ++ d)) Cx = (l ++ d).*2 ->
  row_entries Cp Cj Cx r = d.
Proof.
  intros Hr Hr1 Hj Hx. unfold row_entries. rewrite Hr, Hr1.
  rewrite length_app in *.
  replace (Z.of_nat (length l + length d) - Z.of_nat (length l))
    with (Z.of_nat (length d)) by lia.
  apply list_eq. intros n. rewrite list_lookup_fmap.
  destruct (decide (n < length d)%nat) as [Hn|Hn].
  - rewrite lookup_seqZ_lt by lia. simpl.
    destruct (lookup_lt_is_Some_2 d n Hn) as [[c v] Hd]. rewrite Hd.
    assert (Hl : (l ++ d) !! (length l + n)%nat = Some (c, v)).
    { rewrite lookup_app_r by lia. rewrite <- Hd. f_equal. lia. }
    f_equal. f_equal.
    + unfold idx. apply aget_lookup; [lia|].
      replace (Z.to_nat (Z.of_nat (length l) + Z.of_nat n))
        with (length l + n)%nat by lia.
      rewrite <- (lookup_take_lt Cj (length l + length d)) by lia.
      rewrite Hj, list_lookup_fmap, Hl. done.
    + unfold val. apply aget_lookup; [lia|].
      replace (Z.to_nat (Z.of_nat (length l) + Z.of_nat n))
        with (length l + n)%nat by lia.
      rewrite <- (lookup_take_lt Cx (length l + length d)) by lia.
      rewrite Hx, list_lookup_fmap, Hl. done.
  - rewrite lookup_seqZ_ge by lia. rewrite lookup_ge_None_2 by lia. done.
Qed.

Lemma bind_seqZ_split {B : Type} (f : Z -> list B) (n r : Z) :
  0 <= r < n ->
  seqZ 0 n ≫= f = (seqZ 0 r ≫= f) ++ f r ++ (seqZ (r + 1) (n - r - 1) ≫= f).
Proof.
  intros Hr. replace n with (r + (1 + (n - r - 1))) at 1 by lia.
  rewrite seqZ_app, bind_app by lia. f_equal.
  rewrite seqZ_app, bind_app by lia. f_equal.
  rewrite (seqZ_cons _ 1), (seqZ_nil _ (Z.pred 1)) by lia. simpl.
  by rewrite app_nil_r.
Qed.

Lemma bind_seqZ_succ {B : Type} (f : Z -> list B) (i : Z) :
  0 <= i -> seqZ 0 (i + 1) ≫= f = (seqZ 0 i ≫= f) ++ f i.
Proof.
  intros Hi. rewrite seqZ_snoc by done. rewrite bind_app. simpl.
  by rewrite app_nil_r.
Qed.

Lemma bind_ext_in {A B : Type} (f g : A -> list B) (l : list A) :
  (forall x, x ∈ l -> f x = g x) -> l ≫= f = l ≫= g.
Proof.
  induction l as [|x l IH]; intros Hfg; [done|].
  rewrite !bind_cons, Hfg by left. f_equal. apply IH. intros. apply Hfg. by right.
Qed.

Lemma bind_Permutation_in {A B : Type} (f g : A -> list B) (l : list A) :
  (forall x, x ∈ l -> f x ≡ₚ g x) -> l ≫= f ≡ₚ l ≫= g.
Proof.
  induction l as [|x l IH]; intros Hfg; [done|].
  rewrite !bind_cons. rewrite (Hfg x) by left.
  apply Permutation_app_head. apply IH. intros. apply Hfg. by right.
Qed.

Lemma triples_rows n Cp Cj Cx (f : Z -> list (Z * T)) :
  (forall i, 0 <= i < n -> row_entries Cp Cj Cx i = f i) ->
  triples n Cp Cj Cx = seqZ 0 n ≫= fun i => (fun e => (i, e.1, e.2)) <$> f i.
Proof.
  intros Hrows. unfold triples. apply bind_ext_in.
  intros i Hi%elem_of_seqZ. rewrite Hrows by lia. done.
Qed.

End slices.

(** ** [csr_binop_csr]: the whole loop *)

Section binop_rows.
Context {T : Type} `{!Scalar T}.
Implicit Types (Ap Aj Bp Bj Cp Cj next : list Z) (Ax Bx Cx A_row B_row : list T).
Implicit Types (op : T -> T -> T).

(** The state of [csr_binop_csr] at the start of every row: a cleared
    accumulator, the output of the rows done so far, and their end
    positions in the row pointer. *)
Lemma csr_binop_rows_spec op n_row n_col Ap Aj Ax Bp Bj Bx Cp Cj Cx i :
  csr_ok n_row n_col Ap Aj Ax -> csr_ok n_row n_col Bp Bj Bx ->
  0 <= i <= n_row ->
  exists Cp',
    csr_binop_rows i n_row n_col Ap Aj Ax Bp Bj Bx Cp Cj Cx op
    = (vec_new n_col (-1), vec_new n_col zero, vec_new n_col zero, Cp',
       Cj ++ (binop_drained_rows op Ap Aj Ax Bp Bj Bx i).*1,
       Cx ++ (binop_drained_rows op Ap Aj Ax Bp Bj Bx i).*2)
    /\ Z.of_nat (length Cp') = n_row + 1
    /\ (forall r, 0 <= r < i ->
          idx Cp' (r + 1)
          = Z.of_nat (length Cx
                      + length (binop_drained_rows op Ap Aj Ax Bp Bj Bx (r + 1))))
    /\ (forall r, ~ (1 <= r <= i) -> idx Cp' r = idx (vec_resize (n_row + 1) 0 Cp) r).
Proof.
  intros HA HB Hi. unfold csr_binop_rows.
  pose proof (ok_cols _ _ _ _ _ HB) as Hn.
  pose proof (ok_rows _ _ _ _ _ HB) as Hrows.
  set (D := binop_drained_rows op Ap Aj Ax Bp Bj Bx).
  apply (for_range_ind (fun i st => 0 <= i <= n_row -> exists Cp',
    st = (vec_new n_col (-1), vec_new n_col zero, vec_new n_col zero, Cp',
          Cj ++ (D i).*1, Cx ++ (D i).*2)
    /\ Z.of_nat (length Cp') = n_row + 1
    /\ (forall r, 0 <= r < i ->
          idx Cp' (r + 1) = Z.of_nat (length Cx + length (D (r + 1))))
    /\ (forall r, ~ (1 <= r <= i) -> idx Cp' r = idx (vec_resize (n_row + 1) 0 Cp) r)));
    [lia| | |done].
  - intros _. eexists. unfold D, binop_drained_rows. rewrite seqZ_nil by lia.
    simpl. rewrite !app_nil_r. split; [reflexivity|].
    split; [apply length_vec_resize; lia|]. split; [lia|done].
  - intros r st Hr IH _. destruct IH as (Cp' & -> & Hlen & Hdone & Hrest); [lia|].
    rewrite csr_binop_row_spec; [|done|..].
    2,3: intros e; apply (row_entries_range n_row n_col); [done|lia].
    cbv zeta.
    set (d := binop_drained op (row_entries Ap Aj Ax r) (row_entries Bp Bj Bx r)).
    assert (HD : D (r + 1) = D r ++ d).
    { unfold D, binop_drained_rows. by rewrite bind_seqZ_succ by lia. }
    eexists. rewrite HD, !fmap_app, !app_assoc. split; [reflexivity|].
    split; [by rewrite length_aset|]. split.
    + intros r' Hr'. unfold idx. destruct (decide (r' = r)) as [->|Hne].
      * rewrite aget_aset_eq by lia. unfold vec_size.
        rewrite HD, !length_app, !length_fmap. lia.
      * rewrite aget_aset_ne by lia. apply Hdone. lia.
    + intros r' Hr'. unfold idx. rewrite aget_aset_ne by lia. apply Hrest. lia.
Qed.

(** The result of [csr_binop_csr] on empty output vectors, row by row. *)
Lemma csr_binop_csr_rows op n_row n_col Ap Aj Ax Bp Bj Bx :
  csr_ok n_row n_col Ap Aj Ax -> csr_ok n_row n_col Bp Bj Bx ->
  exists Cp Cj Cx,
    csr_binop_csr n_row n_col Ap Aj Ax Bp Bj Bx [] [] [] op = (Cp, Cj, Cx)
    /\ Cx = (binop_drained_rows op Ap Aj Ax Bp Bj Bx n_row).*2
    /\ Z.of_nat (length Cp) = n_row + 1
    /\ (forall r, 0 <= r <= n_row ->
          idx Cp r = Z.of_nat (length (binop_drained_rows op Ap Aj Ax Bp Bj Bx r)))
    /\ (forall r, 0 <= r < n_row ->
          row_entries Cp Cj Cx r
          = binop_drained op (row_entries Ap Aj Ax r) (row_entries Bp Bj Bx r)).
Proof.
  intros HA HB. unfold csr_binop_csr.
  pose proof (ok_rows _ _ _ _ _ HB) as Hrows.
  destruct (csr_binop_rows_spec op n_row n_col Ap Aj Ax Bp Bj Bx [] [] [] n_row HA HB)
    as (Cp & -> & Hlen & Hdone & Hrest); [lia|].
  set (D := binop_drained_rows op Ap Aj Ax Bp Bj Bx) in *.
  exists Cp, (D n_row).*1, (D n_row).*2. simpl.
  assert (Hptr : forall r, 0 <= r <= n_row -> idx Cp r = Z.of_nat (length (D r))).
  { intros r Hr. destruct (decide (r = 0)) as [->|Hne].
    - rewrite Hrest by lia. rewrite idx_vec_resize_nil.
      unfold D, binop_drained_rows. by rewrite seqZ_nil by lia.
    - specialize (Hdone (r - 1) ltac:(lia)).
      replace (r - 1 + 1) with r in Hdone by lia. rewrite Hdone. simpl. done. }
  split; [done|]. split; [done|]. split; [done|]. split; [done|].
  intros r Hr.
  set (d := binop_drained op (row_entries Ap Aj Ax r) (row_entries Bp Bj Bx r)).
  assert (HD1 : D (r + 1) = D r ++ d).
  { unfold D, binop_drained_rows. by rewrite bind_seqZ_succ by lia. }
  assert (HDn : exists rest, D n_row = (D r ++ d) ++ rest).
  { unfold D, binop_drained_rows. rewrite (bind_seqZ_split _ n_row r) by lia.
    eexists. by rewrite app_assoc. }
  destruct HDn as [rest HDn].
  apply (row_entries_slice _ _ _ _ (D r)).
  - apply Hptr. lia.
  - rewrite Hptr by lia. by rewrite HD1.
  - rewrite HDn, fmap_app. rewrite <- (length_fmap fst (D r ++ d)).
    by rewrite take_app_length.
  - rewrite HDn, fmap_app. rewrite <- (length_fmap snd (D r ++ d)).
    by rewrite take_app_length.
Qed.

End binop_rows.


(** ** [sum_csr_duplicates]: what a row does *)

Section scd.
Context {T : Type} `{!Scalar T}.
Implicit Types (Ap Aj next : list Z) (Ax sums : list T).

Lemma take_aset_snoc {A : Type} (a : list A) (n : Z) (v : A) :
  0 <= n < Z.of_nat (length a) ->
  take (S (Z.to_nat n)) (aset a n v) = take (Z.to_nat n) a ++ [v].
Proof.
  intros Hn. unfold aset. destruct (Z.leb_spec 0 n); [|lia].
  rewrite (take_S_r _ _ v) by (apply list_lookup_insert_eq; lia).
  by rewrite take_insert_ge by lia.
Qed.

Lemma length_drained_le (es : list (Z * T)) : (length (drained es) <= length es)%nat.
Proof.
  unfold drained. etrans; [apply length_filter|].
  rewrite length_fmap. etrans; [apply length_touch_order|].
  simpl. by rewrite length_fmap.
Qed.

Lemma length_row_entries Ap Aj Ax i :
  length (row_entries Ap Aj Ax i) = Z.to_nat (idx Ap (i + 1) - idx Ap i).
Proof. unfold row_entries. by rewrite length_fmap, length_seqZ. Qed.

(** The reading loop is the shared accumulator update without the counter. *)
Lemma scd_touch_acc Aj Ax lo hi next sums :
  scd_touch Aj Ax lo hi next sums
  = let '(next', sums', head', _) :=
      acc_fold (next, sums, -2, 0)
        ((fun jj => (idx Aj jj, val Ax jj)) <$> seqZ lo (hi - lo)) in
    (next', sums', head').
Proof.
  unfold scd_touch, acc_fold, for_range. rewrite foldl_fmap.
  generalize (seqZ lo (hi - lo)) as l. generalize 0 as len. generalize (-2) as head.
  intros head len l. revert next sums head len.
  induction l as [|jj l IH]; intros next sums head len; [done|].
  simpl. destruct (idx next (idx Aj jj) =? -1); apply IH.
Qed.

(** The [while] loop on a well-formed accumulator with enough fuel and room:
    it ends, writes the seen columns with nonzero sums from the cursor on,
    and clears the accumulator. *)
Lemma scd_drain_spec n o : forall fuel next sums head len nnz Aj Ax,
  acc_inv n next head len o ->
  Z.of_nat (length sums) = n ->
  (forall k, 0 <= k < n -> k ∉ o -> val sums k = zero) ->
  (length o <= fuel)%nat ->
  0 <= nnz ->
  nnz + Z.of_nat (length o) <= Z.of_nat (length Aj) ->
  nnz + Z.of_nat (length o) <= Z.of_nat (length Ax) ->
  let d := filter (fun e => nonzero e.2 = true) ((fun k => (k, val sums k)) <$> o) in
  exists Aj' Ax',
    scd_drain fuel (next, sums, head, nnz, Aj, Ax)
    = Some (vec_new n (-1), vec_new n zero, -2, nnz + Z.of_nat (length d), Aj', Ax')
    /\ length Aj' = length Aj /\ length Ax' = length Ax
    /\ take (Z.to_nat nnz + length d) Aj' = take (Z.to_nat nnz) Aj ++ d.*1
    /\ take (Z.to_nat nnz + length d) Ax' = take (Z.to_nat nnz) Ax ++ d.*2
    /\ (forall jj, nnz + Z.of_nat (length d) <= jj ->
          idx Aj' jj = idx Aj jj /\ val Ax' jj = val Ax jj).
Proof.
  induction o as [|k o IH];
    intros fuel next sums head len nnz Aj Ax Hinv Hlen Hclean Hfuel Hnnz HAj HAx.
  - apply acc_inv_empty in Hinv as (-> & -> & ->). simpl.
    exists Aj, Ax. destruct fuel; simpl.
    all: rewrite Z.add_0_r, Nat.add_0_r, !app_nil_r.
    all: rewrite (array_all zero sums n zero Hlen)
           by (intros; apply Hclean; [done|apply not_elem_of_nil]).
    all: done.
  - pose proof (acc_range _ _ _ _ _ Hinv k ltac:(left)) as Hk.
    pose proof (acc_nodup _ _ _ _ _ Hinv) as [Hko _]%NoDup_cons.
    apply acc_inv_unlink in Hinv as [-> Hinv].
    destruct fuel as [|fuel]; [simpl in Hfuel; lia|].
    simpl in Hfuel, HAj, HAx. simpl scd_drain.
    destruct (Z.eqb_spec k (-2)) as [?|_]; [lia|].
    assert (Hmap : (fun k' => (k', val (aset sums k zero) k')) <$> o
                 = (fun k' => (k', val sums k')) <$> o).
    { apply list_fmap_ext. intros _ k' Hk'%list_elem_of_lookup_2.
      unfold val. rewrite aget_aset_ne; [done|by intros ->]. }
    assert (Hclean' : forall k', 0 <= k' < n -> k' ∉ o ->
              val (aset sums k zero) k' = zero).
    { intros k' Hk' Hno. unfold val. destruct (decide (k = k')) as [<-|Hne].
      - by rewrite aget_aset_eq by lia.
      - rewrite aget_aset_ne by done. apply Hclean; [done|].
        by apply not_elem_of_cons. }
    rewrite fmap_cons, filter_cons. simpl.
    destruct (nonzero (val sums k)) eqn:Hnz.
    + rewrite decide_True by done.
      destruct (IH fuel _ (aset sums k zero) _ _ (nnz + 1)
                  (aset Aj nnz k) (aset Ax nnz (val sums k)) Hinv)
        as (Aj' & Ax' & -> & HlAj & HlAx & HtAj & HtAx & Hrest);
        [by rewrite length_aset|done|lia|lia|rewrite length_aset; lia..|].
      rewrite Hmap in *. rewrite !length_aset in *.
      set (d := filter (fun e => nonzero e.2 = true)
                  ((fun k' => (k', val sums k')) <$> o)) in *.
      exists Aj', Ax'. simpl.
      replace (nnz + 1 + Z.of_nat (length d)) with (nnz + Z.of_nat (S (length d)))
        in * by lia.
      replace (Z.to_nat (nnz + 1)) with (S (Z.to_nat nnz)) in * by lia.
      replace (Z.to_nat nnz + S (length d))%nat
        with (S (Z.to_nat nnz) + length d)%nat by lia.
      rewrite take_aset_snoc in HtAj by lia. rewrite take_aset_snoc in HtAx by lia.
      rewrite HtAj, HtAx, <- !app_assoc.
      split; [done|]. split; [done|]. split; [done|]. split; [done|].
      split; [done|]. intros jj Hjj. destruct (Hrest jj Hjj) as [-> ->].
      unfold idx, val. rewrite !aget_aset_ne by lia. done.
    + rewrite decide_False by done.
      destruct (IH fuel _ (aset sums k zero) _ _ nnz Aj Ax Hinv)
        as (Aj' & Ax' & -> & HlAj & HlAx & HtAj & HtAx & Hrest);
        [by rewrite length_aset|done|lia|lia|lia..|].
      rewrite Hmap in *. by exists Aj', Ax'.
Qed.

(** Every entry into the body of the [while] loop finds the cursor inside
    the block of [length o] positions that starts at its initial value. *)
Lemma scd_drain_trace_spec n o : forall fuel next sums head len nnz Aj Ax st,
  acc_inv n next head len o ->
  st ∈ scd_drain_trace fuel (next, sums, head, nnz, Aj, Ax) ->
  nnz <= st.1.1.2 < nnz + Z.of_nat (length o).
Proof.
  induction o as [|k o IH]; intros fuel next sums head len nnz Aj Ax st Hinv Hst.
  - apply acc_inv_empty in Hinv as (-> & _ & _).
    destruct fuel; simpl in Hst; by apply elem_of_nil in Hst.
  - apply acc_inv_unlink in Hinv as [-> Hinv].
    destruct fuel as [|fuel]; simpl in Hst.
    { destruct (k =? -2); by apply elem_of_nil in Hst. }
    destruct (k =? -2); [by apply elem_of_nil in Hst|].
    apply elem_of_cons in Hst as [->|Hst]; [simpl; lia|].
    destruct (nonzero (val sums k)).
    + apply (IH _ _ _ _ _ _ _ _ _ Hinv) in Hst. simpl length. lia.
    + apply (IH _ _ _ _ _ _ _ _ _ Hinv) in Hst. simpl length. lia.
Qed.

End scd.


(** ** [sum_csr_duplicates]: the whole loop *)

Section scd_rows.
Context {T : Type} `{!Scalar T}.
Implicit Types (Ap Aj next : list Z) (Ax sums : list T).

Lemma drained_rows_succ Ap Aj Ax i :
  0 <= i ->
  drained_rows Ap Aj Ax (i + 1)
  = drained_rows Ap Aj Ax i ++ drained (row_entries Ap Aj Ax i).
Proof. intros. unfold drained_rows. by rewrite bind_seqZ_succ. Qed.

(** One row keeps the invariant of the loop. *)
Lemma scd_row_spec n_row n_col Ap Aj Ax i st :
  csr_ok n_row n_col Ap Aj Ax -> 0 <= i < n_row ->
  scd_inv n_col Ap Aj Ax i st ->
  exists st', scd_row st i = Some st' /\ scd_inv n_col Ap Aj Ax (i + 1) st'.
Proof.
  intros Hok Hi Hinv.
  destruct st as [[[[[[next sums] nnz] row_end] Ap'] Aj'] Ax'].
  destruct Hinv as (-> & -> & Hnnz & -> & Hle & HlAp & HlAj & HlAx
                    & Hdone & Hrest & HtAj & HtAx & Hunread).
  pose proof (ok_cols _ _ _ _ _ Hok) as Hn.
  set (D := drained_rows Ap Aj Ax i) in *.
  set (es := row_entries Ap Aj Ax i).
  unfold scd_row. rewrite (Hrest (i + 1)) by lia.
  pose proof (ok_mono _ _ _ _ _ Hok i Hi) as Hmono.
  pose proof (csr_ok_ptr_le _ _ _ _ _ 0 i Hok ltac:(lia) ltac:(lia) ltac:(lia)) as H0i.
  rewrite (ok_first _ _ _ _ _ Hok) in H0i.
  pose proof (csr_ok_ptr_le _ _ _ _ _ (i + 1) n_row Hok
                ltac:(lia) ltac:(lia) ltac:(lia)) as Hin.
  pose proof (ok_Aj _ _ _ _ _ Hok) as HAj.
  pose proof (ok_Ax _ _ _ _ _ Hok) as HAx.
  pose proof (ok_length _ _ _ _ _ Hok) as HAp.
  (* the entries read are those of the input *)
  assert (Hread : (fun jj => (idx Aj' jj, val Ax' jj))
                    <$> seqZ (idx Ap i) (idx Ap (i + 1) - idx Ap i) = es).
  { unfold es, row_entries. apply list_fmap_ext.
    intros n jj (-> & Hjj)%lookup_seqZ.
    destruct (Hunread (idx Ap i + Z.of_nat n)) as [-> ->]; [lia|done]. }
  rewrite scd_touch_acc, Hread.
  assert (Hrange : forall e, e ∈ es -> 0 <= e.1 < n_col).
  { intros e. by apply (row_entries_range n_row n_col). }
  destruct (acc_fold_spec n_col es _ (vec_new n_col zero) _ _ _
              (acc_inv_init n_col Hn) (length_vec_new _ _ Hn) Hrange)
    as (next1 & sums1 & head1 & len1 & -> & Hacc & Hlen1 & Hsums1).
  set (o := touch_order [] es.*1) in *.
  assert (Hsums : forall k, val sums1 k = colsum zero es k).
  { intros k. by rewrite Hsums1, val_vec_new_zero. }
  assert (Hlo : (length o <= length es)%nat).
  { unfold o. etrans; [apply length_touch_order|]. simpl. by rewrite length_fmap. }
  assert (Hles : length es = Z.to_nat (idx Ap (i + 1) - idx Ap i))
    by apply length_row_entries.
  destruct (scd_drain_spec n_col o (Z.to_nat (idx Ap (i + 1) - idx Ap i))
              next1 sums1 head1 len1 nnz Aj' Ax' Hacc)
    as (Aj2 & Ax2 & -> & HlAj2 & HlAx2 & HtAj2 & HtAx2 & Hrest2).
  { rewrite Hlen1. by apply length_vec_new. }
  { intros k Hk Hno. rewrite Hsums. by apply colsum_unseen. }
  { lia. }
  { lia. }
  { lia. }
  { lia. }
  assert (Hd : filter (fun e => nonzero e.2 = true)
                 ((fun k => (k, val sums1 k)) <$> o) = drained es).
  { unfold drained. fold o. f_equal. apply list_fmap_ext. intros. by rewrite Hsums. }
  rewrite Hd in *. clear Hd.
  set (d := drained es) in *.
  pose proof (length_drained_le es) as Hld. fold d in Hld.
  assert (HS1 : drained_rows Ap Aj Ax (i + 1) = D ++ d)
    by (apply drained_rows_succ; lia).
  eexists. split; [reflexivity|].
  unfold scd_inv. rewrite HS1, length_app, !fmap_app.
  replace (Z.to_nat nnz) with (length D) in * by lia.
  rewrite HtAj in HtAj2. rewrite HtAx in HtAx2.
  split; [done|]. split; [done|]. split; [lia|]. split; [done|].
  split; [lia|]. split; [by rewrite length_aset|].
  split; [lia|]. split; [lia|]. split; [|split; [|split; [done|split; [done|]]]].
  - intros r Hr. unfold idx. destruct (decide (r = i)) as [->|Hne].
    + rewrite aget_aset_eq by lia. rewrite HS1, length_app. lia.
    + rewrite aget_aset_ne by lia. apply Hdone. lia.
  - intros r Hr. unfold idx. rewrite aget_aset_ne by lia. apply Hrest. lia.
  - intros jj Hjj. destruct (Hrest2 jj) as [-> ->]; [lia|]. apply Hunread. lia.
Qed.

(** The loop reaches the start of every row, and the invariant holds there. *)
Lemma scd_rows_spec n_row n_col Ap Aj Ax i :
  csr_ok n_row n_col Ap Aj Ax -> 0 <= i <= n_row ->
  exists st, scd_rows i n_col Ap Aj Ax = Some st /\ scd_inv n_col Ap Aj Ax i st.
Proof.
  intros Hok Hi. unfold scd_rows.
  apply (for_range_ind (fun i ost => 0 <= i <= n_row ->
           exists st, ost = Some st /\ scd_inv n_col Ap Aj Ax i st)); [lia| | |done].
  - intros _. eexists. split; [reflexivity|].
    unfold scd_inv, drained_rows. rewrite seqZ_nil by lia. simpl.
    rewrite (ok_first _ _ _ _ _ Hok).
    split; [done|]. split; [done|]. split; [done|]. split; [done|].
    split; [done|]. split; [done|]. split; [done|]. split; [done|].
    split; [lia|]. split; [done|]. split; [by rewrite take_0|].
    split; [by rewrite take_0|done].
  - intros r ost Hr IH _. destruct IH as (st & -> & Hinv); [lia|].
    simpl. apply (scd_row_spec n_row); [done|lia|done].
Qed.

(** The result of [sum_csr_duplicates] on a well-formed matrix: it returns;
    the new pointers count what the rows wrote; row [r] holds what the
    accumulator emitted for the input row [r]. *)
Lemma sum_csr_duplicates_spec n_row n_col Ap Aj Ax :
  csr_ok n_row n_col Ap Aj Ax ->
  exists Ap' Aj' Ax',
    sum_csr_duplicates n_row n_col Ap Aj Ax = Some (Ap', Aj', Ax')
    /\ length Ap' = length Ap /\ length Aj' = length Aj /\ length Ax' = length Ax
    /\ (forall r, 0 <= r <= n_row ->
          idx Ap' r = Z.of_nat (length (drained_rows Ap Aj Ax r)))
    /\ idx Ap' n_row <= idx Ap n_row
    /\ take (length (drained_rows Ap Aj Ax n_row)) Aj' = (drained_rows Ap Aj Ax n_row).*1
    /\ take (length (drained_rows Ap Aj Ax n_row)) Ax' = (drained_rows Ap Aj Ax n_row).*2
    /\ (forall r, 0 <= r < n_row ->
          row_entries Ap' Aj' Ax' r = drained (row_entries Ap Aj Ax r)).
Proof.
  intros Hok. pose proof (ok_rows _ _ _ _ _ Hok) as Hrows.
  destruct (scd_rows_spec n_row n_col Ap Aj Ax n_row Hok ltac:(lia))
    as (st & Heq & Hinv).
  destruct st as [[[[[[next sums] nnz] row_end] Ap'] Aj'] Ax'].
  destruct Hinv as (-> & -> & Hnnz & -> & Hle & HlAp & HlAj & HlAx
                    & Hdone & Hrest & HtAj & HtAx & Hunread).
  unfold sum_csr_duplicates. rewrite Heq.
  exists Ap', Aj', Ax'.
  assert (Hptr : forall r, 0 <= r <= n_row ->
            idx Ap' r = Z.of_nat (length (drained_rows Ap Aj Ax r))).
  { intros r Hr. destruct (decide (r = 0)) as [->|Hne].
    - rewrite Hrest by lia. rewrite (ok_first _ _ _ _ _ Hok).
      unfold drained_rows. by rewrite seqZ_nil by lia.
    - specialize (Hdone (r - 1) ltac:(lia)).
      by replace (r - 1 + 1) with r in Hdone by lia. }
  split; [done|]. split; [done|]. split; [done|]. split; [done|].
  split; [done|]. split; [rewrite Hptr by lia; lia|].
  split; [done|]. split; [done|].
  intros r Hr.
  set (d := drained (row_entries Ap Aj Ax r)).
  pose proof (drained_rows_succ Ap Aj Ax r ltac:(lia)) as HS1. fold d in HS1.
  assert (HSn : exists rest, drained_rows Ap Aj Ax n_row
                             = (drained_rows Ap Aj Ax r ++ d) ++ rest).
  { unfold drained_rows. rewrite (bind_seqZ_split _ n_row r) by lia.
    eexists. by rewrite app_assoc. }
  destruct HSn as [rest HSn].
  apply (row_entries_slice _ _ _ _ (drained_rows Ap Aj Ax r)).
  - apply Hptr. lia.
  - rewrite Hptr by lia. by rewrite HS1.
  - replace (take (length (drained_rows Ap Aj Ax r ++ d)) Aj')
      with (take (length (drained_rows Ap Aj Ax r ++ d))
              (take (length (drained_rows Ap Aj Ax n_row)) Aj'))
      by (rewrite take_take; f_equal; rewrite HSn, !length_app; lia).
    rewrite HtAj, HSn, fmap_app.
    rewrite <- (length_fmap fst (drained_rows Ap Aj Ax r ++ d)).
    by rewrite take_app_length.
  - replace (take (length (drained_rows Ap Aj Ax r ++ d)) Ax')
      with (take (length (drained_rows Ap Aj Ax r ++ d))
              (take (length (drained_rows Ap Aj Ax n_row)) Ax'))
      by (rewrite take_take; f_equal; rewrite HSn, !length_app; lia).
    rewrite HtAx, HSn, fmap_app.
    rewrite <- (length_fmap snd (drained_rows Ap Aj Ax r ++ d)).
    by rewrite take_app_length.
Qed.

End scd_rows.


(** ** What a drained row looks like *)

Section drained.
Context {T : Type} `{!Scalar T}.
Implicit Types (es d : list (Z * T)) (op : T -> T -> T).

Lemma filter_all {A : Type} (P : A -> Prop) `{!forall x, Decision (P x)} (l : list A) :
  Forall P l -> filter P l = l.
Proof.
  induction 1 as [|x l Hx Hl IH]; [done|].
  rewrite filter_cons_True by done. by rewrite IH.
Qed.

Lemma Forall_filter_same {A : Type} (P : A -> Prop) `{!forall x, Decision (P x)}
    (l : list A) :
  Forall P (filter P l).
Proof. apply Forall_forall. by intros x [Hx _]%list_elem_of_filter. Qed.

(** The columns kept by a filter on (column, value) pairs computed from
    pairwise distinct columns are pairwise distinct. *)
Lemma NoDup_filter_columns (P : Z * T -> Prop) `{!forall x, Decision (P x)}
    (f : Z -> T) (o : list Z) :
  NoDup o -> NoDup (filter P ((fun k => (k, f k)) <$> o)).*1.
Proof.
  induction 1 as [|k o Hk Ho IH]; [apply NoDup_nil_2|].
  rewrite fmap_cons, filter_cons. case_decide; [|done].
  rewrite fmap_cons. apply NoDup_cons. split; [|done]. simpl.
  intros (e & He1 & [_ (k' & -> & Hk')%list_elem_of_fmap]%list_elem_of_filter)%list_elem_of_fmap.
  simpl in He1. by subst k'.
Qed.

Lemma NoDup_drained es : NoDup (drained es).*1.
Proof. apply NoDup_filter_columns, NoDup_touch_order, NoDup_nil_2. Qed.

Lemma NoDup_binop_drained op ea eb : NoDup (binop_drained op ea eb).*1.
Proof. apply NoDup_filter_columns, NoDup_touch_order, NoDup_nil_2. Qed.

Lemma drained_nonzero es : Forall (fun e => nonzero e.2 = true) (drained es).
Proof. apply Forall_filter_same. Qed.

Lemma binop_drained_nonzero op ea eb :
  Forall (fun e => nonzero e.2 = true) (binop_drained op ea eb).
Proof. apply Forall_filter_same. Qed.

Lemma drained_column es e : e ∈ drained es -> e.1 ∈ es.*1.
Proof.
  intros [_ (k & -> & Hk)%list_elem_of_fmap]%list_elem_of_filter. simpl.
  apply elem_of_touch_order in Hk as [Hk|Hk]; [|done]. by apply elem_of_nil in Hk.
Qed.

(** Draining what has been drained only reverses it, provided [0 + x = x]. *)
Lemma drained_drained es :
  (forall x : T, add zero x = x) ->
  drained (drained es) = reverse (drained es).
Proof.
  intros Hadd. set (d := drained es).
  pose proof (NoDup_drained es) as Hnd. fold d in Hnd.
  pose proof (drained_nonzero es) as Hnz. fold d in Hnz.
  unfold drained at 1.
  rewrite touch_order_fresh; [|done|intros ? ?; apply not_elem_of_nil].
  rewrite app_nil_r, fmap_reverse, filter_reverse. f_equal.
  rewrite <- list_fmap_compose.
  rewrite (list_fmap_ext _ id d).
  - rewrite list_fmap_id. by apply filter_all.
  - intros i [k v] Hkv%list_elem_of_lookup_2. simpl.
    by rewrite (colsum_single _ _ _ v), Hadd.
Qed.

End drained.


(** ** Consequences for [sum_csr_duplicates] *)

Section scd_facts.
Context {T : Type} `{!Scalar T}.
Implicit Types (Ap Aj : list Z) (Ax : list T).

Lemma drained_rows_range n_row n_col Ap Aj Ax i e :
  csr_ok n_row n_col Ap Aj Ax -> 0 <= i <= n_row ->
  e ∈ drained_rows Ap Aj Ax i -> 0 <= e.1 < n_col.
Proof.
  intros Hok Hi (r & He & Hr%elem_of_seqZ)%list_elem_of_bind.
  apply drained_column in He.
  apply list_elem_of_fmap in He as (e' & -> & He').
  apply (row_entries_range n_row n_col Ap Aj Ax r); [done|lia|done].
Qed.

Lemma length_drained_rows_le Ap Aj Ax i j :
  0 <= i <= j ->
  (length (drained_rows Ap Aj Ax i) <= length (drained_rows Ap Aj Ax j))%nat.
Proof.
  intros Hij. unfold drained_rows.
  replace j with (i + (j - i)) by lia.
  rewrite seqZ_app, bind_app, length_app by lia. lia.
Qed.

(** The result of [sum_csr_duplicates] is again a well-formed matrix. *)
Lemma sum_csr_duplicates_ok n_row n_col Ap Aj Ax Ap' Aj' Ax' :
  csr_ok n_row n_col Ap Aj Ax ->
  sum_csr_duplicates n_row n_col Ap Aj Ax = Some (Ap', Aj', Ax') ->
  csr_ok n_row n_col Ap' Aj' Ax'.
Proof.
  intros Hok Heq.
  destruct (sum_csr_duplicates_spec n_row n_col Ap Aj Ax Hok)
    as (Ap1 & Aj1 & Ax1 & Heq1 & HlAp & HlAj & HlAx & Hptr & Hle & HtAj & HtAx & Hrows).
  rewrite Heq in Heq1. injection Heq1 as <- <- <-.
  pose proof (ok_rows _ _ _ _ _ Hok) as Hrows0.
  split.
  - done.
  - apply (ok_cols _ _ _ _ _ Hok).
  - rewrite HlAp. apply (ok_length _ _ _ _ _ Hok).
  - rewrite Hptr by lia. unfold drained_rows. by rewrite seqZ_nil by lia.
  - intros i Hi. rewrite !Hptr by lia.
    pose proof (length_drained_rows_le Ap Aj Ax i (i + 1) ltac:(lia)). lia.
  - rewrite HlAj. pose proof (ok_Aj _ _ _ _ _ Hok). lia.
  - rewrite HlAx. pose proof (ok_Ax _ _ _ _ _ Hok). lia.
  - intros jj Hjj. rewrite Hptr in Hjj by lia.
    set (D := drained_rows Ap Aj Ax n_row) in *.
    destruct (lookup_lt_is_Some_2 D (Z.to_nat jj)) as [e He]; [lia|].
    assert (idx Aj' jj = e.1) as ->.
    { unfold idx. apply aget_lookup; [lia|].
      rewrite <- (lookup_take_lt Aj' (length D)) by lia.
      by rewrite HtAj, list_lookup_fmap, He. }
    apply (drained_rows_range n_row n_col Ap Aj Ax n_row); [done|lia|].
    by apply list_elem_of_lookup_2 in He.
Qed.

(** Whenever the body of the [while] loop of row [i] is entered, the write
    cursor is below the end of the input row [i]. *)
Lemma scd_row_trace_spec n_row n_col Ap Aj Ax i st :
  csr_ok n_row n_col Ap Aj Ax -> 0 <= i < n_row ->
  st ∈ scd_row_trace i n_col Ap Aj Ax ->
  0 <= st.1.1.2 < idx Ap (i + 1).
Proof.
  intros Hok Hi. unfold scd_row_trace.
  destruct (scd_rows_spec n_row n_col Ap Aj Ax i Hok ltac:(lia)) as (st0 & -> & Hinv).
  destruct st0 as [[[[[[next sums] nnz] row_end] Ap'] Aj'] Ax'].
  destruct Hinv as (-> & -> & Hnnz & -> & Hle & HlAp & HlAj & HlAx
                    & Hdone & Hrest & HtAj & HtAx & Hunread).
  pose proof (ok_cols _ _ _ _ _ Hok) as Hn.
  rewrite (Hrest (i + 1)) by lia.
  set (es := row_entries Ap Aj Ax i).
  assert (Hread : (fun jj => (idx Aj' jj, val Ax' jj))
                    <$> seqZ (idx Ap i) (idx Ap (i + 1) - idx Ap i) = es).
  { unfold es, row_entries. apply list_fmap_ext.
    intros n jj (-> & Hjj)%lookup_seqZ.
    destruct (Hunread (idx Ap i + Z.of_nat n)) as [-> ->]; [lia|done]. }
  rewrite scd_touch_acc, Hread.
  assert (Hrange : forall e, e ∈ es -> 0 <= e.1 < n_col).
  { intros e. by apply (row_entries_range n_row n_col). }
  destruct (acc_fold_spec n_col es _ (vec_new n_col zero) _ _ _
              (acc_inv_init n_col Hn) (length_vec_new _ _ Hn) Hrange)
    as (next1 & sums1 & head1 & len1 & -> & Hacc & _ & _).
  intros Hst. apply (scd_drain_trace_spec _ _ _ _ _ _ _ _ _ _ _ Hacc) in Hst.
  pose proof (length_touch_order es.*1 []) as Hlo. simpl in Hlo.
  rewrite length_fmap in Hlo.
  pose proof (length_row_entries Ap Aj Ax i) as Hles. fold es in Hles.
  pose proof (ok_mono _ _ _ _ _ Hok i Hi). lia.
Qed.

End scd_facts.

(** ** Consequences for [csr_binop_csr] *)

Section binop_facts.
Context {T : Type} `{!Scalar T}.
Implicit Types (Ap Aj Bp Bj Cp Cj next : list Z) (Ax Bx Cx A_row B_row : list T).
Implicit Types (op : T -> T -> T).

(** Exchanging the operands of a commutative operator permutes the row. *)
Lemma binop_drained_comm op (ea eb : list (Z * T)) :
  (forall x y, op x y = op y x) ->
  binop_drained op ea eb ≡ₚ binop_drained op eb ea.
Proof.
  intros Hcomm. unfold binop_drained.
  rewrite (list_fmap_ext
             (fun k => (k, op (colsum zero ea k) (colsum zero eb k)))
             (fun k => (k, op (colsum zero eb k) (colsum zero ea k))) _)
    by (intros; by rewrite Hcomm).
  apply filter_Permutation, fmap_Permutation.
  apply NoDup_Permutation; [by apply NoDup_touch_order, NoDup_nil_2..|].
  intros k. rewrite !elem_of_touch_order, !elem_of_app. tauto.
Qed.

(** The emptying loop of row [i] at the start of its iteration [m]: the
    head of the list is the [m]-th seen column, and the two value slots of
    every column not yet visited still hold the sums of the row. *)
Lemma binop_drain_at_spec op n_row n_col Ap Aj Ax Bp Bj Bx Cp Cj Cx i (m : nat) :
  csr_ok n_row n_col Ap Aj Ax -> csr_ok n_row n_col Bp Bj Bx ->
  0 <= i < n_row ->
  let ea := row_entries Ap Aj Ax i in
  let eb := row_entries Bp Bj Bx i in
  let o := touch_order [] (ea.*1 ++ eb.*1) in
  (m <= length o)%nat ->
  exists next A_row B_row head Cj' Cx',
    binop_drain_at i (Z.of_nat m) n_row n_col Ap Aj Ax Bp Bj Bx Cp Cj Cx op
    = ((next, A_row, B_row, head, Cj', Cx'), Z.of_nat (length o))
    /\ chain next head (drop m o)
    /\ (forall k, k ∉ take m o ->
          val A_row k = colsum zero ea k /\ val B_row k = colsum zero eb k).
Proof.
  intros HA HB Hi ea eb o Hm. unfold binop_drain_at.
  pose proof (ok_cols _ _ _ _ _ HB) as Hn.
  destruct (csr_binop_rows_spec op n_row n_col Ap Aj Ax Bp Bj Bx Cp Cj Cx i HA HB)
    as (Cp' & -> & _); [lia|].
  destruct (binop_touch_spec n_col Ap Aj Ax Bp Bj Bx i Hn)
    as (next & A_row & B_row & head & len & -> & Hinv & HlA & HlB & HsA & HsB).
  { intros e. by apply (row_entries_range n_row n_col). }
  { intros e. by apply (row_entries_range n_row n_col). }
  fold ea eb o in Hinv, HsA, HsB.
  pose proof (acc_len _ _ _ _ _ Hinv) as ->.
  rewrite <- (take_drop m o) in Hinv.
  destruct (binop_drain_prefix op n_col (take m o) (drop m o) next A_row B_row head _
              (Cj ++ (binop_drained_rows op Ap Aj Ax Bp Bj Bx i).*1)
              (Cx ++ (binop_drained_rows op Ap Aj Ax Bp Bj Bx i).*2) Hinv HlA HlB)
    as (next' & A' & B' & head' & Heq & Hinv' & _ & _ & Hout & _).
  rewrite length_take_le in Heq by done. rewrite Heq.
  do 6 eexists. split; [reflexivity|]. split; [apply (acc_chain _ _ _ _ _ Hinv')|].
  intros k Hk. destruct (Hout k Hk) as [-> ->]. by rewrite HsA, HsB.
Qed.

End binop_facts.

Lemma Forall_bind_intro {A B : Type} (P : B -> Prop) (f : A -> list B) (l : list A) :
  (forall x, x ∈ l -> Forall P (f x)) -> Forall P (l ≫= f).
Proof.
  intros Hf. apply Forall_forall. intros y (x & Hy & Hx)%list_elem_of_bind.
  specialize (Hf x Hx). rewrite Forall_forall in Hf. by apply Hf.
Qed.

(** ** The two passes of the matrix product *)

Section matmat.
Context {T : Type} `{!Scalar T}.
Implicit Types (Ap Aj Bp Bj Cp Cj next : list Z) (Ax Bx Cx sums : list T).

(** The symbolic pass links the same columns as the shared accumulator
    update run on the contributions of the row, whatever the sums are. *)
Lemma pass1_touch_acc Ap Aj Ax Bp Bj Bx i next sums head len :
  for_range (idx Ap i) (idx Ap (i + 1)) (fun st jj =>
      let j := idx Aj jj in
      let kk_start := idx Bp j in
      let kk_end := idx Bp (j + 1) in
      for_range kk_start kk_end (fun '(next, head, len) kk =>
        let k := idx Bj kk in
        if idx next k =? -1
        then (aset next k head, k, len + 1)
        else (next, head, len)) st)
    (next, head, len)
  = let '(next', _, head', len') :=
      acc_fold (next, sums, head, len) (product_entries Ap Aj Ax Bp Bj Bx i) in
    (next', head', len').
Proof.
  unfold product_entries, acc_fold, for_range. rewrite foldl_bind.
  generalize (seqZ (idx Ap i) (idx Ap (i + 1) - idx Ap i)) as rows.
  intros rows. revert next sums head len.
  induction rows as [|jj rows IH]; intros next sums head len; [done|].
  simpl foldl at 1 3. rewrite foldl_fmap.
  generalize (seqZ (idx Bp (idx Aj jj)) (idx Bp (idx Aj jj + 1) - idx Bp (idx Aj jj)))
    as cols.
  intros cols. revert next sums head len.
  induction cols as [|kk cols IHc]; intros next sums head len; [apply IH|].
  simpl. destruct (idx next (idx Bj kk) =? -1); apply IHc.
Qed.

(** The emptying loop of the symbolic pass. *)
Lemma pass1_drain n o : forall next head len,
  acc_inv n next head len o ->
  for_range 0 len (fun '(next, head) (_ : Z) =>
      let temp := head in
      let head := idx next head in
      (aset next temp (-1), head)) (next, head)
  = (vec_new n (-1), -2).
Proof.
  induction o as [|k o IH]; intros next head len Hinv.
  - apply acc_inv_empty in Hinv as (-> & -> & ->). by rewrite for_range_nil by lia.
  - pose proof (acc_len _ _ _ _ _ Hinv) as Hl. simpl in Hl.
    apply acc_inv_unlink in Hinv as [-> Hinv].
    rewrite for_range_const_first; [|by intros [??] ??|lia].
    by apply IH.
Qed.

(** One row of the symbolic pass, started on a cleared [next]: the row
    count is the number of distinct columns of the product row. *)
Lemma pass1_row_spec n_col Ap Aj Ax Bp Bj Bx Cp i :
  0 <= n_col ->
  (forall e, e ∈ product_entries Ap Aj Ax Bp Bj Bx i -> 0 <= e.1 < n_col) ->
  pass1_row Ap Aj Bp Bj (vec_new n_col (-1), Cp) i
  = (vec_new n_col (-1),
     aset Cp (i + 1)
       (idx Cp i + Z.of_nat (length (touch_order []
                                       (product_entries Ap Aj Ax Bp Bj Bx i).*1)))).
Proof.
  intros Hn Hrange. unfold pass1_row.
  rewrite (pass1_touch_acc Ap Aj Ax Bp Bj Bx i _ (vec_new n_col zero)).
  destruct (acc_fold_spec n_col (product_entries Ap Aj Ax Bp Bj Bx i) _
              (vec_new n_col zero) _ _ _
              (acc_inv_init n_col Hn) (length_vec_new _ _ Hn) Hrange)
    as (next' & sums' & head' & len' & -> & Hinv & _ & _).
  cbv beta iota zeta.
  pose proof (pass1_drain n_col _ _ _ _ Hinv) as Hd. cbv beta iota zeta in Hd.
  rewrite Hd.
  by rewrite (acc_len _ _ _ _ _ Hinv).
Qed.

(** The emptying loop of the numeric pass: the cursor advances by the
    number of seen columns with a nonzero sum. *)
Lemma pass2_drain n o : forall next sums head len nnz Cj Cx,
  acc_inv n next head len o ->
  Z.of_nat (length sums) = n ->
  (forall k, 0 <= k < n -> k ∉ o -> val sums k = zero) ->
  exists Cj' Cx',
    for_range 0 len (fun '(next, sums, head, nnz, Cj, Cx) (_ : Z) =>
        let '(nnz, Cj, Cx) :=
          if nonzero (val sums head)
          then (nnz + 1, aset Cj nnz head, aset Cx nnz (val sums head))
          else (nnz, Cj, Cx) in
        let temp := head in
        let head := idx next head in
        (aset next temp (-1), aset sums temp zero, head, nnz, Cj, Cx))
      (next, sums, head, nnz, Cj, Cx)
    = (vec_new n (-1), vec_new n zero, -2,
       nnz + Z.of_nat (length (filter (fun e => nonzero e.2 = true)
                                 ((fun k => (k, val sums k)) <$> o))),
       Cj', Cx').
Proof.
  induction o as [|k o IH]; intros next sums head len nnz Cj Cx Hinv Hlen Hclean.
  - apply acc_inv_empty in Hinv as (-> & -> & ->).
    rewrite for_range_nil by lia. simpl. rewrite Z.add_0_r.
    exists Cj, Cx. do 5 f_equal. apply (array_all zero); [done|].
    intros i Hi. apply Hclean; [done|apply not_elem_of_nil].
  - pose proof (acc_len _ _ _ _ _ Hinv) as Hl. simpl in Hl.
    pose proof (acc_range _ _ _ _ _ Hinv k ltac:(left)) as Hk.
    pose proof (acc_nodup _ _ _ _ _ Hinv) as [Hko _]%NoDup_cons.
    apply acc_inv_unlink in Hinv as [-> Hinv].
    rewrite for_range_const_first; [|by intros [[[[[??]?]?]?]?] ??|lia].
    assert (Hmap : (fun k' => (k', val (aset sums k zero) k')) <$> o
                 = (fun k' => (k', val sums k')) <$> o).
    { apply list_fmap_ext. intros _ k' Hk'%list_elem_of_lookup_2.
      unfold val. rewrite aget_aset_ne; [done|by intros ->]. }
    assert (Hclean' : forall k', 0 <= k' < n -> k' ∉ o ->
              val (aset sums k zero) k' = zero).
    { intros k' Hk' Hno. unfold val. destruct (decide (k = k')) as [<-|Hne].
      - by rewrite aget_aset_eq by lia.
      - rewrite aget_aset_ne by done. apply Hclean; [done|].
        by apply not_elem_of_cons. }
    rewrite fmap_cons, filter_cons.
    change ((k, val sums k).2) with (val sums k).
    cbv beta iota zeta. cbv beta iota zeta in IH.
    destruct (nonzero (val sums k)) eqn:Hnz; cbv beta iota.
    + rewrite decide_True by done.
      destruct (IH _ (aset sums k zero) _ _ (nnz + 1)
                  (aset Cj nnz k) (aset Cx nnz (val sums k)) Hinv)
        as (Cj' & Cx' & ->); [by rewrite length_aset|done|].
      exists Cj', Cx'. rewrite Hmap. simpl length. do 3 f_equal. lia.
    + rewrite decide_False by done.
      destruct (IH _ (aset sums k zero) _ _ nnz Cj Cx Hinv)
        as (Cj' & Cx' & ->); [by rewrite length_aset|done|].
      exists Cj', Cx'. by rewrite Hmap.
Qed.

(** One row of the numeric pass, started on a cleared accumulator. *)
Lemma pass2_row_spec n_col Ap Aj Ax Bp Bj Bx nnz Cp Cj Cx i :
  0 <= n_col ->
  (forall e, e ∈ product_entries Ap Aj Ax Bp Bj Bx i -> 0 <= e.1 < n_col) ->
  exists Cj' Cx',
    pass2_row Ap Aj Ax Bp Bj Bx
      (vec_new n_col (-1), vec_new n_col zero, nnz, Cp, Cj, Cx) i
    = let w := nnz + Z.of_nat (length (drained (product_entries Ap Aj Ax Bp Bj Bx i))) in
      (vec_new n_col (-1), vec_new n_col zero, w, aset Cp (i + 1) w, Cj', Cx').
Proof.
  intros Hn Hrange. unfold pass2_row.
  set (es := product_entries Ap Aj Ax Bp Bj Bx i) in *.
  match goal with
  | |- context [for_range (idx Ap i) (idx Ap (i + 1)) ?f ?s] =>
      assert (Htouch : for_range (idx Ap i) (idx Ap (i + 1)) f s = acc_fold s es)
  end.
  { unfold es, product_entries, acc_fold, for_range.
    rewrite foldl_bind. apply foldl_ext_in. intros st jj _.
    rewrite foldl_fmap. apply foldl_ext_in. by intros [[[??]?]?] kk _. }
  rewrite Htouch. clear Htouch.
  destruct (acc_fold_spec n_col es _ (vec_new n_col zero) _ _ _
              (acc_inv_init n_col Hn) (length_vec_new _ _ Hn) Hrange)
    as (next' & sums' & head' & len' & -> & Hinv & Hlen & Hsums).
  assert (Hsums' : forall k, val sums' k = colsum zero es k).
  { intros k. by rewrite Hsums, val_vec_new_zero. }
  destruct (pass2_drain n_col _ next' sums' head' len' nnz Cj Cx Hinv)
    as (Cj' & Cx' & Hd).
  - rewrite Hlen. by apply length_vec_new.
  - intros k Hk Hno. rewrite Hsums'. by apply colsum_unseen.
  - cbv beta iota zeta in Hd |- *. rewrite Hd.
    exists Cj', Cx'. unfold drained.
    rewrite (list_fmap_ext (fun k => (k, val sums' k)) (fun k => (k, colsum zero es k)))
      by (intros; by rewrite Hsums').
    done.
Qed.

(** The row counts of the symbolic pass. *)
Lemma csr_matmat_pass1_spec n_row n_mid n_col Ap Aj Ax Bp Bj Bx Cp :
  csr_ok n_row n_mid Ap Aj Ax -> csr_ok n_mid n_col Bp Bj Bx ->
  Z.of_nat (length Cp) = n_row + 1 ->
  forall i, 0 <= i < n_row ->
    idx (csr_matmat_pass1 n_row n_col Ap Aj Bp Bj Cp) (i + 1)
    - idx (csr_matmat_pass1 n_row n_col Ap Aj Bp Bj Cp) i
    = Z.of_nat (length (touch_order [] (product_entries Ap Aj Ax Bp Bj Bx i).*1)).
Proof.
  intros HA HB HCp. unfold csr_matmat_pass1.
  pose proof (ok_cols _ _ _ _ _ HB) as Hn.
  pose proof (ok_rows _ _ _ _ _ HA) as Hrows.
  assert (Hgen : forall m, 0 <= m <= n_row -> exists Cp',
    for_range 0 m (pass1_row Ap Aj Bp Bj) (vec_new n_col (-1), aset Cp 0 0)
    = (vec_new n_col (-1), Cp')
    /\ length Cp' = length Cp
    /\ forall i, 0 <= i < m ->
         idx Cp' (i + 1) - idx Cp' i
         = Z.of_nat (length (touch_order [] (product_entries Ap Aj Ax Bp Bj Bx i).*1))).
  { intros m Hm.
    apply (for_range_ind (fun m st => 0 <= m <= n_row -> exists Cp',
      st = (vec_new n_col (-1), Cp') /\ length Cp' = length Cp
      /\ forall i, 0 <= i < m ->
           idx Cp' (i + 1) - idx Cp' i
           = Z.of_nat (length (touch_order []
                                 (product_entries Ap Aj Ax Bp Bj Bx i).*1))));
      [lia| | |done].
    - intros _. eexists. split; [reflexivity|]. split; [apply length_aset|lia].
    - intros r st Hr IH _. destruct IH as (Cp' & -> & Hlen & Hdone); [lia|].
      rewrite (pass1_row_spec n_col Ap Aj Ax Bp Bj Bx); [|done|].
      2: { intros e. apply (product_entries_range n_row n_mid n_col); [done|done|lia]. }
      eexists. split; [reflexivity|]. split; [by rewrite length_aset|].
      intros i Hi. unfold idx. destruct (decide (i = r)) as [->|Hne].
      + rewrite aget_aset_eq by lia. rewrite aget_aset_ne by lia.
        fold (idx Cp' r). lia.
      + rewrite !aget_aset_ne by lia. apply Hdone. lia. }
  destruct (Hgen n_row ltac:(lia)) as (Cp' & -> & _ & Hdone). apply Hdone.
Qed.

(** The row counts of the numeric pass. *)
Lemma csr_matmat_pass2_spec n_row n_mid n_col Ap Aj Ax Bp Bj Bx Cp Cj Cx :
  csr_ok n_row n_mid Ap Aj Ax -> csr_ok n_mid n_col Bp Bj Bx ->
  Z.of_nat (length Cp) = n_row + 1 ->
  forall i, 0 <= i < n_row ->
    idx (csr_matmat_pass2 n_row n_col Ap Aj Ax Bp Bj Bx Cp Cj Cx).1.1 (i + 1)
    - idx (csr_matmat_pass2 n_row n_col Ap Aj Ax Bp Bj Bx Cp Cj Cx).1.1 i
    = Z.of_nat (length (drained (product_entries Ap Aj Ax Bp Bj Bx i))).
Proof.
  intros HA HB HCp. unfold csr_matmat_pass2.
  pose proof (ok_cols _ _ _ _ _ HB) as Hn.
  pose proof (ok_rows _ _ _ _ _ HA) as Hrows.
  assert (Hgen : forall m, 0 <= m <= n_row -> exists nnz Cp' Cj' Cx',
    for_range 0 m (pass2_row Ap Aj Ax Bp Bj Bx)
      (vec_new n_col (-1), vec_new n_col zero, 0, aset Cp 0 0, Cj, Cx)
    = (vec_new n_col (-1), vec_new n_col zero, nnz, Cp', Cj', Cx')
    /\ length Cp' = length Cp /\ idx Cp' m = nnz
    /\ forall i, 0 <= i < m ->
         idx Cp' (i + 1) - idx Cp' i
         = Z.of_nat (length (drained (product_entries Ap Aj Ax Bp Bj Bx i)))).
  { intros m Hm.
    apply (for_range_ind (fun m st => 0 <= m <= n_row -> exists nnz Cp' Cj' Cx',
      st = (vec_new n_col (-1), vec_new n_col zero, nnz, Cp', Cj', Cx')
      /\ length Cp' = length Cp /\ idx Cp' m = nnz
      /\ forall i, 0 <= i < m ->
           idx Cp' (i + 1) - idx Cp' i
           = Z.of_nat (length (drained (product_entries Ap Aj Ax Bp Bj Bx i)))));
      [lia| | |done].
    - intros _. do 4 eexists. split; [reflexivity|]. split; [apply length_aset|].
      split; [|lia]. unfold idx. apply aget_aset_eq. lia.
    - intros r st Hr IH _.
      destruct IH as (nnz & Cp' & Cj' & Cx' & -> & Hlen & Hnnz & Hdone); [lia|].
      destruct (pass2_row_spec n_col Ap Aj Ax Bp Bj Bx nnz Cp' Cj' Cx' r Hn)
        as (Cj2 & Cx2 & ->).
      { intros e. apply (product_entries_range n_row n_mid n_col); [done|done|lia]. }
      cbv zeta. do 4 eexists. split; [reflexivity|]. split; [by rewrite length_aset|].
      split; [unfold idx; apply aget_aset_eq; lia|].
      intros i Hi. unfold idx. destruct (decide (i = r)) as [->|Hne].
      + rewrite aget_aset_eq by lia. rewrite aget_aset_ne by lia.
        fold (idx Cp' r). lia.
      + rewrite !aget_aset_ne by lia. apply Hdone. lia. }
  destruct (Hgen n_row ltac:(lia)) as (nnz & Cp' & Cj' & Cx' & -> & _ & _ & Hdone).
  apply Hdone.
Qed.

End matmat.

(** ** The stored entries in storage order *)

Section entries.
Context {T : Type} `{!Scalar T}.
Implicit Types (Ap Aj : list Z) (Ax : list T) (E : list (Z * Z * T)).

Lemma fmap_bind_comm {A B C : Type} (g : B -> C) (f : A -> list B) (l : list A) :
  g <$> (l ≫= f) = l ≫= fun x => g <$> f x.
Proof.
  induction l as [|x l IH]; [done|].
  by rewrite !bind_cons, fmap_app, IH.
Qed.

(** The rows of a well-formed matrix tile the positions [0 .. Ap[n]-1]. *)
Lemma row_positions n_row n_col Ap Aj Ax n :
  csr_ok n_row n_col Ap Aj Ax -> 0 <= n <= n_row ->
  seqZ 0 n ≫= (fun r => seqZ (idx Ap r) (idx Ap (r + 1) - idx Ap r))
  = seqZ 0 (idx Ap n).
Proof.
  intros Hok Hn.
  assert (Hgen : forall m : nat, Z.of_nat m <= n_row ->
    seqZ 0 (Z.of_nat m) ≫= (fun r => seqZ (idx Ap r) (idx Ap (r + 1) - idx Ap r))
    = seqZ 0 (idx Ap (Z.of_nat m))).
  { induction m as [|m IH]; intros Hm.
    - change (Z.of_nat 0) with 0. rewrite (ok_first _ _ _ _ _ Hok).
      by rewrite seqZ_nil by lia.
    - replace (Z.of_nat (S m)) with (Z.of_nat m + 1) by lia.
      rewrite bind_seqZ_succ by lia. rewrite IH by lia.
      pose proof (ok_mono _ _ _ _ _ Hok (Z.of_nat m) ltac:(lia)).
      pose proof (csr_ok_ptr_le _ _ _ _ _ 0 (Z.of_nat m) Hok
                    ltac:(lia) ltac:(lia) ltac:(lia)) as H0.
      rewrite (ok_first _ _ _ _ _ Hok) in H0.
      replace (idx Ap (Z.of_nat m + 1))
        with (idx Ap (Z.of_nat m) + (idx Ap (Z.of_nat m + 1) - idx Ap (Z.of_nat m)))
        at 2 by lia.
      by rewrite seqZ_app by lia. }
  specialize (Hgen (Z.to_nat n) ltac:(lia)).
  by rewrite Z2Nat.id in Hgen by lia.
Qed.

(** Inner indices and values of the triples, read off the arrays. *)
Lemma triples_inner n_row n_col Ap Aj Ax :
  csr_ok n_row n_col Ap Aj Ax ->
  (fun t => t.1.2) <$> triples n_row Ap Aj Ax = idx Aj <$> seqZ 0 (idx Ap n_row).
Proof.
  intros Hok. pose proof (ok_rows _ _ _ _ _ Hok).
  rewrite <- (row_positions n_row n_col Ap Aj Ax n_row Hok) by lia.
  unfold triples, row_entries. rewrite !fmap_bind_comm.
  apply bind_ext_in. intros r _.
  rewrite <- !list_fmap_compose. by apply list_fmap_ext.
Qed.

Lemma length_triples n_row n_col Ap Aj Ax :
  csr_ok n_row n_col Ap Aj Ax ->
  Z.of_nat (length (triples n_row Ap Aj Ax)) = idx Ap n_row.
Proof.
  intros Hok.
  rewrite <- (length_fmap (fun t => t.1.2)), (triples_inner n_row n_col) by done.
  rewrite length_fmap, length_seqZ.
  pose proof (csr_ok_ptr_le _ _ _ _ _ 0 n_row Hok ltac:(lia)
                ltac:(apply (ok_rows _ _ _ _ _ Hok)) ltac:(lia)) as H0.
  rewrite (ok_first _ _ _ _ _ Hok) in H0. lia.
Qed.

Lemma triples_range n_row n_col Ap Aj Ax t :
  csr_ok n_row n_col Ap Aj Ax -> t ∈ triples n_row Ap Aj Ax ->
  0 <= t.1.1 < n_row /\ 0 <= t.1.2 < n_col.
Proof.
  intros Hok (r & Ht & Hr%elem_of_seqZ)%list_elem_of_bind.
  apply list_elem_of_fmap in Ht as (e & -> & He). simpl.
  split; [lia|]. apply (row_entries_range n_row n_col Ap Aj Ax r); [done|lia|done].
Qed.

Lemma filter_none {A : Type} (P : A -> Prop) `{!forall x, Decision (P x)} (l : list A) :
  (forall x, x ∈ l -> ~ P x) -> filter P l = [].
Proof.
  induction l as [|x l IH]; intros Hl; [done|].
  rewrite filter_cons_False by (apply Hl; left). apply IH.
  intros y Hy. apply Hl. by right.
Qed.

(** The triples of one row. *)
Lemma triples_row n_row Ap Aj Ax r :
  0 <= r < n_row ->
  filter (fun t => t.1.1 = r) (triples n_row Ap Aj Ax)
  = (fun e => (r, e.1, e.2)) <$> row_entries Ap Aj Ax r.
Proof.
  intros Hr. unfold triples. rewrite (bind_seqZ_split _ n_row r) by lia.
  rewrite !filter_app.
  rewrite (filter_none _ (seqZ 0 r ≫= _)).
  2: { intros t (i & (e & -> & _)%list_elem_of_fmap & Hi%elem_of_seqZ)%list_elem_of_bind.
       simpl. lia. }
  rewrite (filter_none _ (seqZ (r + 1) _ ≫= _)).
  2: { intros t (i & (e & -> & _)%list_elem_of_fmap & Hi%elem_of_seqZ)%list_elem_of_bind.
       simpl. lia. }
  rewrite app_nil_r. simpl. apply filter_all.
  apply Forall_forall. by intros t (e & -> & _)%list_elem_of_fmap.
Qed.

(** Outer indices do not decrease along the storage order. *)
Lemma triples_outer_sorted n_row Ap Aj Ax :
  StronglySorted Z.le ((fun t => t.1.1) <$> triples n_row Ap Aj Ax).
Proof.
  unfold triples.
  assert (Hgen : forall n lo : Z,
    StronglySorted Z.le ((fun t : Z * Z * T => t.1.1) <$>
      (seqZ lo n ≫= fun i => (fun e => (i, e.1, e.2)) <$> row_entries Ap Aj Ax i))
    /\ Forall (Z.le lo) ((fun t : Z * Z * T => t.1.1) <$>
      (seqZ lo n ≫= fun i => (fun e => (i, e.1, e.2)) <$> row_entries Ap Aj Ax i))).
  { intros n. destruct (decide (n <= 0)) as [Hn|Hn].
    { intros lo. rewrite seqZ_nil by lia. split; constructor. }
    rewrite <- (Z2Nat.id n) by lia. generalize (Z.to_nat n) as m. clear n Hn.
    induction m as [|m IH]; intros lo; [split; constructor|].
    rewrite seqZ_cons by lia. rewrite bind_cons, fmap_app.
    replace (Z.pred (Z.of_nat (S m))) with (Z.of_nat m) by lia.
    destruct (IH (Z.succ lo)) as [Hs Hall].
    assert (Hrow : Forall (eq lo) ((fun t : Z * Z * T => t.1.1) <$>
              ((fun e => (lo, e.1, e.2)) <$> row_entries Ap Aj Ax lo))).
    { apply Forall_fmap, Forall_fmap, Forall_forall. by intros. }
    split.
    - apply StronglySorted_app_2; [| |done].
      + intros x y Hx Hy. rewrite Forall_forall in Hrow, Hall.
        rewrite <- (Hrow x Hx). specialize (Hall y Hy). lia.
      + clear -Hrow. induction Hrow as [|x l <- Hl IHl]; constructor; [done|].
        eapply Forall_impl; [exact Hl|]. intros y <-. lia.
    - apply Forall_app. split.
      + eapply Forall_impl; [exact Hrow|]. intros y <-. lia.
      + eapply Forall_impl; [exact Hall|]. intros y Hy. lia. }
  apply Hgen.
Qed.

End entries.


(** ** Buckets of a counting sort *)

Section buckets.
Context {T : Type} `{!Scalar T}.
Implicit Types (E P Q : list (Z * Z * T)) (c : Z).

Lemma bucket_app c P Q : bucket c (P ++ Q) = bucket c P ++ bucket c Q.
Proof. apply filter_app. Qed.

Lemma bucket_snoc c P t :
  bucket c (P ++ [t]) = bucket c P ++ (if decide (t.1.2 = c) then [t] else []).
Proof.
  rewrite bucket_app. by f_equal.
Qed.

Lemma length_before_succ c E :
  length (before (c + 1) E) = (length (before c E) + length (bucket c E))%nat.
Proof.
  unfold before, bucket. induction E as [|t E IH]; [done|].
  rewrite !filter_cons. repeat case_decide; simpl; lia.
Qed.

Lemma length_before_mono c c' E :
  c <= c' -> (length (before c E) <= length (before c' E))%nat.
Proof.
  intros Hc. unfold before. induction E as [|t E IH]; [done|].
  rewrite !filter_cons. repeat case_decide; simpl; lia.
Qed.

Lemma before_none E : (forall t, t ∈ E -> 0 <= t.1.2) -> before 0 E = [].
Proof. intros HE. apply filter_none. intros t Ht%HE. lia. Qed.

Lemma before_all n E : (forall t, t ∈ E -> t.1.2 < n) -> before n E = E.
Proof. intros HE. apply filter_all, Forall_forall. intros t Ht%HE. done. Qed.

Lemma before_succ_Permutation c E : before (c + 1) E ≡ₚ before c E ++ bucket c E.
Proof.
  unfold before, bucket. induction E as [|t E IH]; [done|].
  rewrite !filter_cons. repeat case_decide; try lia.
  - by rewrite IH.
  - rewrite IH. by rewrite <- Permutation_middle.
  - done.
Qed.

(** Concatenating the buckets [0 .. c-1] gives the triples below [c]. *)
Lemma buckets_before c E :
  0 <= c -> (forall t, t ∈ E -> 0 <= t.1.2) ->
  seqZ 0 c ≫= (fun c' => bucket c' E) ≡ₚ before c E.
Proof.
  intros Hc HE. rewrite <- (Z2Nat.id c) by done.
  generalize (Z.to_nat c) as m. clear c Hc.
  induction m as [|m IH].
  - change (Z.of_nat 0) with 0. rewrite seqZ_nil by lia. by rewrite before_none.
  - replace (Z.of_nat (S m)) with (Z.of_nat m + 1) by lia.
    rewrite bind_seqZ_succ by lia. by rewrite IH, before_succ_Permutation.
Qed.

Lemma length_buckets c E :
  0 <= c -> (forall t, t ∈ E -> 0 <= t.1.2) ->
  length (seqZ 0 c ≫= (fun c' => bucket c' E)) = length (before c E).
Proof. intros. apply Permutation_length. by apply buckets_before. Qed.

Lemma length_bucket_fmap c E :
  length (filter (fun k => k = c) ((fun t => t.1.2) <$> E)) = length (bucket c E).
Proof.
  unfold bucket. induction E as [|t E IH]; [done|].
  rewrite fmap_cons, !filter_cons. simpl. case_decide; simpl; by rewrite IH.
Qed.

End buckets.

(** ** The loops of the counting sort *)

Section counting.
Context {T : Type} `{!Scalar T}.

(** The counting loop adds to every slot the number of its occurrences. *)
Lemma count_loop_spec (n nnz : Z) (Aj temp : list Z) :
  Z.of_nat (length temp) = n ->
  (forall i, 0 <= i < nnz -> 0 <= idx Aj i < n) ->
  length (count_loop nnz Aj temp) = length temp
  /\ forall c, 0 <= c < n ->
       idx (count_loop nnz Aj temp) c
       = idx temp c
         + Z.of_nat (length (filter (fun k => k = c) (idx Aj <$> seqZ 0 nnz))).
Proof.
  intros Hlen Hrange. unfold count_loop, for_range. rewrite Z.sub_0_r.
  assert (Hl : forall i, i ∈ seqZ 0 nnz -> 0 <= idx Aj i < n).
  { intros i Hi%elem_of_seqZ. apply Hrange. lia. }
  revert Hl. generalize (seqZ 0 nnz) as l. clear Hrange.
  intros l. revert temp Hlen.
  induction l as [|i l IH]; intros temp Hlen Hl.
  - split; [done|]. intros c Hc. simpl. lia.
  - simpl foldl.
    assert (Hi : 0 <= idx Aj i < n) by (apply Hl; left).
    destruct (IH (aset temp (idx Aj i) (idx temp (idx Aj i) + 1))) as [IHl IHc].
    { by rewrite length_aset. }
    { intros i' Hi'. apply Hl. by right. }
    split; [by rewrite IHl, length_aset|].
    intros c Hc. rewrite IHc by done. rewrite fmap_cons, filter_cons.
    unfold idx at 1. case_decide as Heq.
    + rewrite Heq, aget_aset_eq by lia. fold (idx temp c). simpl length. lia.
    + rewrite aget_aset_ne by done. fold (idx temp c). lia.
Qed.

(** The prefix-sum loop stores the running sums [s 0 .. s (n-1)]. *)
Lemma cumsum_loop_spec (n : Z) (temp Bp : list Z) (s : Z -> Z) :
  0 <= n <= Z.of_nat (length Bp) ->
  s 0 = 0 ->
  (forall c, 0 <= c < n -> s (c + 1) = s c + idx temp c) ->
  exists Bp',
    cumsum_loop n temp Bp = (Bp', s n)
    /\ length Bp' = length Bp
    /\ (forall c, 0 <= c < n -> idx Bp' c = s c)
    /\ (forall c, n <= c -> idx Bp' c = idx Bp c).
Proof.
  intros Hn Hs0 Hs. unfold cumsum_loop.
  apply (for_range_ind (fun i st => 0 <= i <= n -> exists Bp',
    st = (Bp', s i) /\ length Bp' = length Bp
    /\ (forall c, 0 <= c < i -> idx Bp' c = s c)
    /\ (forall c, i <= c -> idx Bp' c = idx Bp c))); [lia| | |lia].
  - intros _. exists Bp. rewrite Hs0. split; [done|]. split; [done|].
    split; [lia|done].
  - intros i st Hi IH _. destruct IH as (Bp' & -> & Hlen & Hlo & Hhi); [lia|].
    eexists. rewrite Hs by lia. split; [reflexivity|].
    split; [by rewrite length_aset|]. split.
    + intros c Hc. unfold idx. destruct (decide (c = i)) as [->|Hne].
      * by rewrite aget_aset_eq by lia.
      * rewrite aget_aset_ne by done. apply Hlo. lia.
    + intros c Hc. unfold idx. rewrite aget_aset_ne by lia. apply Hhi. lia.
Qed.

Implicit Types (E P Q : list (Z * Z * T)).

(** The scatter loop as a fold over the triples in storage order. *)
Lemma scatter_fold (n_row : Z) (Ap Aj : list Z) (Ax : list T) st :
  for_range 0 n_row (fun st i =>
      let row_start := idx Ap i in
      let row_end := idx Ap (i + 1) in
      for_range row_start row_end (tocsc_place i Aj Ax) st) st
  = foldl scatter_step st (triples n_row Ap Aj Ax).
Proof.
  unfold triples, row_entries, for_range. rewrite Z.sub_0_r, foldl_bind.
  apply foldl_ext_in. intros st' i _. cbv zeta.
  rewrite !foldl_fmap. apply foldl_ext_in. by intros [[??]?] j _.
Qed.

(** After the scatter loop has placed the triples [P], a prefix of all
    triples [E], every cursor has advanced by the size of its bucket in
    [P], and every bucket of [P] is stored, in order, from the start
    position of its bucket. *)
Lemma scatter_spec (n : Z) E (temp0 Bi0 : list Z) (Bx0 : list T) :
  Z.of_nat (length temp0) = n ->
  (forall t, t ∈ E -> 0 <= t.1.2 < n) ->
  (forall c, 0 <= c < n -> idx temp0 c = Z.of_nat (length (before c E))) ->
  Z.of_nat (length (before n E)) <= Z.of_nat (length Bi0) ->
  Z.of_nat (length (before n E)) <= Z.of_nat (length Bx0) ->
  forall P Q, E = P ++ Q ->
  exists temp Bi Bx,
    foldl scatter_step (temp0, Bi0, Bx0) P = (temp, Bi, Bx)
    /\ length temp = length temp0 /\ length Bi = length Bi0 /\ length Bx = length Bx0
    /\ (forall c, 0 <= c < n ->
          idx temp c = Z.of_nat (length (before c E) + length (bucket c P)))
    /\ (forall c (m : nat) t, 0 <= c < n -> bucket c P !! m = Some t ->
          idx Bi (Z.of_nat (length (before c E) + m)) = t.1.1
          /\ val Bx (Z.of_nat (length (before c E) + m)) = t.2).
Proof.
  intros Hlen HE Htemp0 HBi HBx P.
  induction P as [|x P IH] using rev_ind; intros Q HPQ.
  - exists temp0, Bi0, Bx0. split; [done|]. split; [done|]. split; [done|].
    split; [done|]. split.
    + intros c Hc. rewrite Htemp0 by done. simpl. lia.
    + intros c m t _ Hm. unfold bucket in Hm. rewrite filter_nil in Hm.
      by rewrite lookup_nil in Hm.
  - destruct (IH ([x] ++ Q)) as (temp & Bi & Bx & Heq & Hlt & HlBi & HlBx & Hcur & Hst).
    { by rewrite HPQ, <- app_assoc. }
    rewrite foldl_app, Heq. simpl.
    set (c0 := x.1.2).
    assert (Hc0 : 0 <= c0 < n).
    { apply HE. rewrite HPQ. apply elem_of_app. left. apply elem_of_app. right. left. }
    assert (Hroom : (length (bucket c0 P) < length (bucket c0 E))%nat).
    { rewrite HPQ, bucket_app, bucket_snoc, !length_app.
      rewrite decide_True by done. simpl. lia. }
    pose proof (length_before_succ c0 E) as Hsucc.
    pose proof (length_before_mono (c0 + 1) n E ltac:(lia)) as Hmono.
    rewrite (Hcur c0 Hc0).
    set (k := Z.of_nat (length (before c0 E) + length (bucket c0 P))) in *.
    do 3 eexists. split; [reflexivity|].
    split; [by rewrite length_aset|]. split; [by rewrite length_aset|].
    split; [by rewrite length_aset|]. split.
    + intros c Hc. rewrite bucket_snoc. fold c0. unfold idx.
      case_decide as Heq0.
      * subst c. rewrite aget_aset_eq by lia. rewrite length_app. simpl. lia.
      * rewrite aget_aset_ne by done. fold (idx temp c).
        rewrite (Hcur c Hc), app_nil_r. done.
    + intros c m t Hc Hm. rewrite bucket_snoc in Hm. fold c0 in Hm.
      pose proof (length_before_succ c E) as Hsuccc.
      assert (Hsub : (length (bucket c P) <= length (bucket c E))%nat).
      { rewrite HPQ, !bucket_app, !length_app. lia. }
      unfold idx, val.
      destruct (decide (Z.of_nat (length (before c E) + m) = k)) as [Hk|Hk].
      * (* the position just written *)
        assert (c = c0) as ->.
        { destruct (decide (c = c0)) as [|Hne]; [done|exfalso].
          rewrite decide_False, app_nil_r in Hm by done.
          apply lookup_lt_Some in Hm.
          destruct (decide (c < c0)).
          - pose proof (length_before_mono (c + 1) c0 E ltac:(lia)). lia.
          - pose proof (length_before_mono (c0 + 1) c E ltac:(lia)). lia. }
        rewrite decide_True in Hm by done.
        assert (m = length (bucket c0 P)) as -> by lia.
        rewrite lookup_app_r, Nat.sub_diag in Hm by lia. simpl in Hm.
        injection Hm as <-. rewrite !aget_aset_eq by lia. done.
      * rewrite !aget_aset_ne by lia. apply Hst; [done|].
        case_decide as Heq0; [|by rewrite app_nil_r in Hm].
        subst c. apply lookup_app_Some in Hm as [Hm|[Hge Hm]]; [done|].
        apply list_lookup_singleton_Some in Hm as [Hm _]. lia.
Qed.

End counting.


(** ** [csr_tocsc]: the result *)

Section tocsc.
Context {T : Type} `{!Scalar T}.
Implicit Types (Ap Aj Bp Bi : list Z) (Ax Bx : list T).

(** On a well-formed matrix and preallocated output arrays, the pointer of
    every output slice is the number of triples with a smaller inner index,
    and slice [c] holds the triples with inner index [c] in storage order. *)
Lemma csr_tocsc_spec n_row n_col Ap Aj Ax Bp Bi Bx :
  csr_ok n_row n_col Ap Aj Ax ->
  Z.of_nat (length Bp) = n_col + 1 ->
  idx Ap n_row <= Z.of_nat (length Bi) ->
  idx Ap n_row <= Z.of_nat (length Bx) ->
  exists Bp' Bi' Bx',
    csr_tocsc n_row n_col Ap Aj Ax Bp Bi Bx = (Bp', Bi', Bx')
    /\ length Bp' = length Bp /\ length Bi' = length Bi /\ length Bx' = length Bx
    /\ (forall c, 0 <= c <= n_col ->
          idx Bp' c = Z.of_nat (length (before c (triples n_row Ap Aj Ax))))
    /\ (forall c, 0 <= c < n_col ->
          row_entries Bp' Bi' Bx' c
          = (fun t => (t.1.1, t.2)) <$> bucket c (triples n_row Ap Aj Ax)).
Proof.
  intros Hok HBp HBi HBx. unfold csr_tocsc.
  set (E := triples n_row Ap Aj Ax).
  pose proof (ok_cols _ _ _ _ _ Hok) as Hn.
  pose proof (length_triples n_row n_col Ap Aj Ax Hok) as HlE. fold E in HlE.
  assert (HE : forall t, t ∈ E -> 0 <= t.1.2 < n_col).
  { intros t Ht. by apply (triples_range n_row n_col Ap Aj Ax t Hok). }
  assert (Hall : before n_col E = E) by (apply before_all; intros t Ht%HE; lia).
  (* counting *)
  destruct (count_loop_spec n_col (idx Ap n_row) Aj (vec_new n_col 0))
    as [Hlc Hcount].
  { by apply length_vec_new. }
  { apply (ok_range _ _ _ _ _ Hok). }
  set (temp1 := count_loop (idx Ap n_row) Aj (vec_new n_col 0)) in *.
  assert (Htemp1 : forall c, 0 <= c < n_col ->
            idx temp1 c = Z.of_nat (length (bucket c E))).
  { intros c Hc. rewrite Hcount by done.
    rewrite <- (triples_inner n_row n_col Ap Aj Ax Hok). fold E.
    rewrite length_bucket_fmap. unfold idx. by rewrite aget_vec_new. }
  (* prefix sums *)
  destruct (cumsum_loop_spec n_col temp1 Bp
              (fun c => Z.of_nat (length (before c E))))
    as (Bp1 & -> & HlBp1 & HBp1 & _).
  { lia. }
  { rewrite before_none; [done|]. intros t Ht%HE. lia. }
  { intros c Hc. rewrite length_before_succ, Htemp1 by done. lia. }
  set (Bp2 := aset Bp1 n_col (idx Ap n_row)).
  assert (HBp2 : forall c, 0 <= c <= n_col ->
            idx Bp2 c = Z.of_nat (length (before c E))).
  { intros c Hc. unfold Bp2, idx. destruct (decide (c = n_col)) as [->|Hne].
    - rewrite aget_aset_eq by lia. by rewrite Hall.
    - rewrite aget_aset_ne by done. apply HBp1. lia. }
  assert (HlBp2 : length Bp2 = length Bp) by (unfold Bp2; by rewrite length_aset).
  (* the cursors *)
  set (temp2 := array_copy Bp2 n_col temp1).
  assert (Hltemp1 : Z.of_nat (length temp1) = n_col).
  { rewrite Hlc. by apply length_vec_new. }
  assert (Hltemp2 : Z.of_nat (length temp2) = n_col).
  { unfold temp2, array_copy. rewrite length_app, length_take, length_drop. lia. }
  assert (Htemp2 : forall c, 0 <= c < n_col ->
            idx temp2 c = Z.of_nat (length (before c E))).
  { intros c Hc. rewrite <- HBp2 by lia. unfold idx.
    rewrite (aget_lookup 0 temp2 c (aget 0 Bp2 c)); [done|lia|].
    unfold temp2, array_copy. rewrite lookup_app_l by (rewrite length_take; lia).
    rewrite lookup_take_lt by lia. apply lookup_aget. lia. }
  (* scattering *)
  rewrite scatter_fold. fold E.
  destruct (scatter_spec n_col E temp2 Bi Bx Hltemp2 HE Htemp2) with (P := E) (Q := @nil (Z * Z * T))
    as (temp & Bi' & Bx' & -> & _ & HlBi' & HlBx' & _ & Hst).
  { rewrite Hall. lia. }
  { rewrite Hall. lia. }
  { by rewrite app_nil_r. }
  exists Bp2, Bi', Bx'. split; [done|]. split; [done|]. split; [done|].
  split; [done|]. split; [done|].
  intros c Hc. unfold row_entries. rewrite !HBp2 by lia.
  rewrite length_before_succ.
  replace (Z.of_nat (length (before c E) + length (bucket c E))
           - Z.of_nat (length (before c E)))
    with (Z.of_nat (length (bucket c E))) by lia.
  apply list_eq. intros m. rewrite !list_lookup_fmap.
  destruct (decide (m < length (bucket c E))%nat) as [Hm|Hm].
  - rewrite lookup_seqZ_lt by lia. simpl.
    destruct (lookup_lt_is_Some_2 _ _ Hm) as [t Ht]. rewrite Ht. simpl.
    destruct (Hst c m t Hc Ht) as [HBi1 HBx1].
    replace (Z.of_nat (length (before c E)) + Z.of_nat m)
      with (Z.of_nat (length (before c E) + m)) by lia.
    by rewrite HBi1, HBx1.
  - rewrite lookup_seqZ_ge by lia. by rewrite lookup_ge_None_2 by lia.
Qed.

End tocsc.


(** ** [csr_tocsc]: consequences *)

Section tocsc_facts.
Context {T : Type} `{!Scalar T}.
Implicit Types (Ap Aj Bp Bi : list Z) (Ax Bx : list T) (E : list (Z * Z * T)).

Lemma filter_fmap_comm {A B : Type} (f : A -> B) (P : B -> Prop)
    `{!forall y, Decision (P y)} (l : list A) :
  filter P (f <$> l) = f <$> filter (fun x => P (f x)) l.
Proof.
  induction l as [|x l IH]; [done|].
  rewrite fmap_cons, !filter_cons. simpl. case_decide; by rewrite ?fmap_cons, IH.
Qed.

Lemma StronglySorted_fmap_filter {A : Type} (f : A -> Z) (P : A -> Prop)
    `{!forall x, Decision (P x)} (l : list A) :
  StronglySorted Z.le (f <$> l) -> StronglySorted Z.le (f <$> filter P l).
Proof.
  induction l as [|x l IH]; [done|].
  rewrite fmap_cons. intros [Hs Hall]%StronglySorted_inv.
  rewrite filter_cons. case_decide; [|by apply IH].
  rewrite fmap_cons. constructor; [by apply IH|].
  rewrite Forall_fmap in Hall |- *. rewrite Forall_forall in Hall |- *.
  intros y [_ Hy]%list_elem_of_filter. by apply Hall.
Qed.

(** In a block of consecutive buckets every position belongs to one. *)
Lemma bucket_of_position E (n : nat) (p : Z) :
  0 <= p < Z.of_nat (length (before (Z.of_nat n) E)) ->
  (forall t, t ∈ E -> 0 <= t.1.2) ->
  exists c, 0 <= c < Z.of_nat n
    /\ Z.of_nat (length (before c E)) <= p
       < Z.of_nat (length (before c E) + length (bucket c E)).
Proof.
  intros Hp HE. induction n as [|n IH].
  - change (Z.of_nat 0) with 0 in Hp. rewrite before_none in Hp by done.
    simpl in Hp. lia.
  - replace (Z.of_nat (S n)) with (Z.of_nat n + 1) in * by lia.
    rewrite length_before_succ in Hp.
    destruct (decide (p < Z.of_nat (length (before (Z.of_nat n) E)))) as [Hlt|Hge].
    + destruct IH as (c & Hc & Hpc); [lia|]. exists c. split; [lia|done].
    + exists (Z.of_nat n). split; lia.
Qed.

(** The result of [csr_tocsc] is a well-formed matrix of the transposed
    shape. *)
Lemma csr_tocsc_ok n_row n_col Ap Aj Ax Bp Bi Bx Bp' Bi' Bx' :
  csr_ok n_row n_col Ap Aj Ax ->
  Z.of_nat (length Bp) = n_col + 1 ->
  idx Ap n_row <= Z.of_nat (length Bi) ->
  idx Ap n_row <= Z.of_nat (length Bx) ->
  csr_tocsc n_row n_col Ap Aj Ax Bp Bi Bx = (Bp', Bi', Bx') ->
  csr_ok n_col n_row Bp' Bi' Bx' /\ idx Bp' n_col = idx Ap n_row.
Proof.
  intros Hok HBp HBi HBx Heq.
  destruct (csr_tocsc_spec n_row n_col Ap Aj Ax Bp Bi Bx Hok HBp HBi HBx)
    as (Bp1 & Bi1 & Bx1 & Heq1 & HlBp & HlBi & HlBx & Hptr & Hrows).
  rewrite Heq in Heq1. injection Heq1 as <- <- <-.
  set (E := triples n_row Ap Aj Ax) in *.
  pose proof (ok_cols _ _ _ _ _ Hok) as Hn.
  pose proof (length_triples n_row n_col Ap Aj Ax Hok) as HlE. fold E in HlE.
  assert (HE : forall t, t ∈ E -> 0 <= t.1.1 < n_row /\ 0 <= t.1.2 < n_col).
  { intros t Ht. by apply (triples_range n_row n_col Ap Aj Ax t Hok). }
  assert (Hall : before n_col E = E) by (apply before_all; intros t Ht%HE; lia).
  assert (Hnnz : idx Bp' n_col = idx Ap n_row).
  { rewrite Hptr by lia. by rewrite Hall. }
  split; [|done]. split.
  - done.
  - apply (ok_rows _ _ _ _ _ Hok).
  - lia.
  - rewrite Hptr by lia. rewrite before_none; [done|]. intros t Ht%HE. lia.
  - intros c Hc. rewrite !Hptr by lia.
    pose proof (length_before_mono c (c + 1) E ltac:(lia)). lia.
  - lia.
  - lia.
  - intros p Hp. rewrite Hnnz, <- HlE, <- Hall in Hp.
    rewrite <- (Z2Nat.id n_col) in Hp by done.
    destruct (bucket_of_position E (Z.to_nat n_col) p Hp) as (c & Hc & Hpc).
    { intros t Ht%HE. lia. }
    set (m := Z.to_nat (p - Z.of_nat (length (before c E)))).
    destruct (lookup_lt_is_Some_2 (bucket c E) m) as [t Ht]; [lia|].
    assert (Hrow : row_entries Bp' Bi' Bx' c !! m = Some (t.1.1, t.2)).
    { rewrite Hrows by lia. by rewrite list_lookup_fmap, Ht. }
    unfold row_entries in Hrow. rewrite list_lookup_fmap in Hrow.
    rewrite Hptr in Hrow by lia.
    rewrite lookup_seqZ_lt in Hrow.
    2: { rewrite Hptr by lia. rewrite length_before_succ. lia. }
    simpl in Hrow. injection Hrow as Hrow _.
    replace (Z.of_nat (length (before c E)) + Z.of_nat m) with p in Hrow by lia.
    rewrite Hrow. apply HE.
    apply list_elem_of_lookup_2 in Ht. by apply list_elem_of_filter in Ht as [_ Ht].
Qed.

(** The triples of the result are those of the input with the two indices
    exchanged, up to their order. *)
Lemma csr_tocsc_triples n_row n_col Ap Aj Ax Bp Bi Bx Bp' Bi' Bx' :
  csr_ok n_row n_col Ap Aj Ax ->
  Z.of_nat (length Bp) = n_col + 1 ->
  idx Ap n_row <= Z.of_nat (length Bi) ->
  idx Ap n_row <= Z.of_nat (length Bx) ->
  csr_tocsc n_row n_col Ap Aj Ax Bp Bi Bx = (Bp', Bi', Bx') ->
  triples n_col Bp' Bi' Bx' ≡ₚ transposed <$> triples n_row Ap Aj Ax.
Proof.
  intros Hok HBp HBi HBx Heq.
  destruct (csr_tocsc_spec n_row n_col Ap Aj Ax Bp Bi Bx Hok HBp HBi HBx)
    as (Bp1 & Bi1 & Bx1 & Heq1 & _ & _ & _ & _ & Hrows).
  rewrite Heq in Heq1. injection Heq1 as <- <- <-.
  set (E := triples n_row Ap Aj Ax) in *.
  pose proof (ok_cols _ _ _ _ _ Hok) as Hn.
  assert (HE : forall t, t ∈ E -> 0 <= t.1.1 < n_row /\ 0 <= t.1.2 < n_col).
  { intros t Ht. by apply (triples_range n_row n_col Ap Aj Ax t Hok). }
  rewrite (triples_rows _ _ _ _ _ Hrows).
  rewrite (bind_ext_in _ (fun c => transposed <$> bucket c E)).
  2: { intros c _. rewrite <- list_fmap_compose. apply list_fmap_ext.
       intros m t Ht%list_elem_of_lookup_2. apply list_elem_of_filter in Ht as [<- _].
       done. }
  rewrite <- fmap_bind_comm. apply fmap_Permutation.
  rewrite buckets_before; [|done|intros t Ht%HE; lia].
  rewrite before_all; [done|]. intros t Ht%HE. lia.
Qed.

(** Transposing twice gives every row of the input back, up to the order
    of its entries. *)
Lemma transpose_twice_rows n_row Ap Aj Ax (F : list (Z * Z * T)) r :
  0 <= r < n_row ->
  F ≡ₚ transposed <$> triples n_row Ap Aj Ax ->
  (fun t => (t.1.1, t.2)) <$> bucket r F ≡ₚ row_entries Ap Aj Ax r.
Proof.
  intros Hr HF. unfold bucket. rewrite HF. rewrite filter_fmap_comm.
  rewrite <- list_fmap_compose.
  rewrite (list_filter_iff _ (fun t => t.1.1 = r)) by done.
  rewrite triples_row by done. rewrite <- list_fmap_compose.
  rewrite (list_fmap_ext _ id (row_entries Ap Aj Ax r)); [by rewrite list_fmap_id|].
  by intros m [??] _.
Qed.

(** A well-formed row pointer is determined by the lengths of the rows. *)
Lemma row_pointer_unique n_row n_col n_col' Ap Aj Ax Bp Bj Bx :
  csr_ok n_row n_col Ap Aj Ax -> csr_ok n_row n_col' Bp Bj Bx ->
  (forall r, 0 <= r < n_row ->
     length (row_entries Ap Aj Ax r) = length (row_entries Bp Bj Bx r)) ->
  Ap = Bp.
Proof.
  intros HA HB Hrows.
  pose proof (ok_length _ _ _ _ _ HA). pose proof (ok_length _ _ _ _ _ HB).
  apply (array_ext 0); [lia|]. intros r Hr. fold (idx Ap r) (idx Bp r).
  assert (Hgen : forall m : nat, Z.of_nat m <= n_row ->
            idx Ap (Z.of_nat m) = idx Bp (Z.of_nat m)).
  { induction m as [|m IH]; intros Hm.
    - change (Z.of_nat 0) with 0.
      by rewrite (ok_first _ _ _ _ _ HA), (ok_first _ _ _ _ _ HB).
    - replace (Z.of_nat (S m)) with (Z.of_nat m + 1) by lia.
      specialize (Hrows (Z.of_nat m) ltac:(lia)).
      rewrite !length_row_entries in Hrows.
      pose proof (ok_mono _ _ _ _ _ HA (Z.of_nat m) ltac:(lia)).
      pose proof (ok_mono _ _ _ _ _ HB (Z.of_nat m) ltac:(lia)).
      specialize (IH ltac:(lia)). lia. }
  specialize (Hgen (Z.to_nat r) ltac:(lia)).
  by rewrite Z2Nat.id in Hgen by lia.
Qed.

End tocsc_facts.

(** ** What the accumulator emits, entry by entry *)

Section emitted.
Context {T : Type} `{!Scalar T}.
Implicit Types (es ea eb : list (Z * T)) (op : T -> T -> T).

Lemma elem_of_drained es e :
  e ∈ drained es
  <-> e.1 ∈ es.*1 /\ e.2 = colsum zero es e.1 /\ nonzero e.2 = true.
Proof.
  unfold drained. rewrite list_elem_of_filter, list_elem_of_fmap. split.
  - intros [Hnz (k & -> & Hk)]. simpl. split; [|done].
    apply elem_of_touch_order in Hk as [Hk|Hk]; [by apply elem_of_nil in Hk|done].
  - intros (Hk & Hv & Hnz). split; [done|]. exists e.1. split.
    + destruct e as [k v]. simpl in *. by subst v.
    + apply elem_of_touch_order. by right.
Qed.

Lemma elem_of_binop_drained op ea eb e :
  e ∈ binop_drained op ea eb
  <-> (e.1 ∈ ea.*1 \/ e.1 ∈ eb.*1)
      /\ e.2 = op (colsum zero ea e.1) (colsum zero eb e.1)
      /\ nonzero e.2 = true.
Proof.
  unfold binop_drained. rewrite list_elem_of_filter, list_elem_of_fmap. split.
  - intros [Hnz (k & -> & Hk)]. simpl. split; [|done].
    apply elem_of_touch_order in Hk as [Hk|Hk]; [by apply elem_of_nil in Hk|].
    by apply elem_of_app in Hk.
  - intros (Hk & Hv & Hnz). split; [done|]. exists e.1. split.
    + destruct e as [k v]. simpl in *. by subst v.
    + apply elem_of_touch_order. right. by apply elem_of_app.
Qed.

End emitted.

(** ** The emptying loop inside the row loop of [csr_binop_csr] *)

Section binop_link.
Context {T : Type} `{!Scalar T}.
Implicit Types (Ap Aj Bp Bj Cp Cj : list Z) (Ax Bx Cx : list T) (op : T -> T -> T).

(** Consecutive states of the emptying loop are one [binop_drain_step]
    apart. *)
Lemma binop_drain_at_succ op n_row n_col Ap Aj Ax Bp Bj Bx Cp Cj Cx i m :
  0 <= m ->
  binop_drain_at i (m + 1) n_row n_col Ap Aj Ax Bp Bj Bx Cp Cj Cx op
  = (binop_drain_step op
       (binop_drain_at i m n_row n_col Ap Aj Ax Bp Bj Bx Cp Cj Cx op).1,
     (binop_drain_at i m n_row n_col Ap Aj Ax Bp Bj Bx Cp Cj Cx op).2).
Proof.
  intros Hm. unfold binop_drain_at.
  destruct (csr_binop_rows i n_row n_col Ap Aj Ax Bp Bj Bx Cp Cj Cx op)
    as [[[[[next A_row] B_row] Cp0] Cj0] Cx0].
  destruct (binop_touch Ap Aj Ax Bp Bj Bx next A_row B_row i)
    as [[[[next1 A1] B1] head] len].
  by rewrite for_range_last by lia.
Qed.

(** The state of the row loop after row [i] is the state in which the
    emptying loop of row [i] ends, with the row pointer set. *)
Lemma csr_binop_rows_succ op n_row n_col Ap Aj Ax Bp Bj Bx Cp Cj Cx i :
  0 <= i ->
  csr_binop_rows (i + 1) n_row n_col Ap Aj Ax Bp Bj Bx Cp Cj Cx op
  = let '(_, _, _, Cp0, _, _) :=
      csr_binop_rows i n_row n_col Ap Aj Ax Bp Bj Bx Cp Cj Cx op in
    let '((next, A_row, B_row, _, Cj', Cx'), _) :=
      binop_drain_at i
        (binop_drain_at i 0 n_row n_col Ap Aj Ax Bp Bj Bx Cp Cj Cx op).2
        n_row n_col Ap Aj Ax Bp Bj Bx Cp Cj Cx op in
    (next, A_row, B_row, aset Cp0 (i + 1) (vec_size Cx'), Cj', Cx').
Proof.
  intros Hi. unfold csr_binop_rows at 1. rewrite for_range_last by lia.
  fold (csr_binop_rows i n_row n_col Ap Aj Ax Bp Bj Bx Cp Cj Cx op).
  unfold binop_drain_at.
  destruct (csr_binop_rows i n_row n_col Ap Aj Ax Bp Bj Bx Cp Cj Cx op)
    as [[[[[next A_row] B_row] Cp0] Cj0] Cx0].
  unfold csr_binop_row.
  destruct (binop_touch Ap Aj Ax Bp Bj Bx next A_row B_row i)
    as [[[[next1 A1] B1] head] len].
  simpl snd.
  by destruct (for_range 0 len (fun st (_ : Z) => binop_drain_step op st)
                 (next1, A1, B1, head, Cj0, Cx0))
    as [[[[[next2 A2] B2] head2] Cj2] Cx2].
Qed.

End binop_link.

(** * The properties of the kernels *)

(** ** Output order of [coo_tocsr] *)

(** C1. The header of [coo_tocsr] promises column indices in sorted order,
    but the conversion ends with [sum_csr_duplicates], which writes each row
    back in the reverse order of first occurrence: the well-formed 1 x 2
    input with the entries (0,0,1) and (0,1,1) comes back with the columns
    of row 0 stored as 1, 0. *)
Theorem coo_tocsr_row_not_sorted :
  valid_coo 1 2 2 [0; 0] [0; 1] [1; 1] = true
  /\ coo_tocsr 1 2 2 [0; 0] [0; 1] [1; 1] [0; 0] [0; 0] [0; 0]
     = Some ([0; 2], [1; 0], [1; 1])
  /\ (row_entries [0; 2] [1; 0] [1; 1] 0).*1 = [1; 0]
  /\ ~ Sorted Z.lt (row_entries [0; 2] [1; 0] [1; 1] 0).*1.
Proof.
  split; [reflexivity|]. split; [reflexivity|]. split; [reflexivity|].
  intros Hs.
  change (Sorted Z.lt [1; 0]) in Hs.
  apply Sorted_inv in Hs as [_ Hhd]. apply HdRel_inv in Hhd. lia.
Qed.

(** ** Repeated duplicate summation *)

(** C2, as stated, fails: summing the duplicates of the well-formed row
    with columns 0, 1 gives the columns 1, 0, and summing again gives back
    0, 1, so the second result differs from the first. *)
Lemma sum_csr_duplicates_twice_differs :
  valid_csr 1 2 [0; 2] [0; 1] [1; 1] = true
  /\ sum_csr_duplicates 1 2 [0; 2] [0; 1] [1; 1] = Some ([0; 2], [1; 0], [1; 1])
  /\ sum_csr_duplicates 1 2 [0; 2] [1; 0] [1; 1] = Some ([0; 2], [0; 1], [1; 1])
  /\ ~ (sum_csr_duplicates 1 2 [0; 2] [0; 1] [1; 1]
          ≫= (fun '(Ap, Aj, Ax) => sum_csr_duplicates 1 2 Ap Aj Ax)
        = sum_csr_duplicates 1 2 [0; 2] [0; 1] [1; 1]).
Proof.
  split; [reflexivity|]. split; [reflexivity|]. split; [reflexivity|].
  vm_compute. discriminate.
Qed.

(** C2, amended. On a well-formed matrix, and for a value type with
    [0 + x = x], both applications of [sum_csr_duplicates] return; the second
    one leaves the row pointer as the first one made it, and every row then
    holds the entries of the first result in reversed order. *)
Theorem sum_csr_duplicates_twice_reverses {T : Type} `{!Scalar T}
    (n_row n_col : Z) (Ap Aj : list Z) (Ax : list T) :
  (forall x : T, add zero x = x) ->
  valid_csr n_row n_col Ap Aj Ax = true ->
  exists Ap1 Aj1 Ax1 Ap2 Aj2 Ax2,
    sum_csr_duplicates n_row n_col Ap Aj Ax = Some (Ap1, Aj1, Ax1)
    /\ sum_csr_duplicates n_row n_col Ap1 Aj1 Ax1 = Some (Ap2, Aj2, Ax2)
    /\ Ap2 = Ap1
    /\ forall r, 0 <= r < n_row ->
         row_entries Ap2 Aj2 Ax2 r = reverse (row_entries Ap1 Aj1 Ax1 r).
Proof.
  intros Hadd Hok%valid_csr_ok.
  destruct (sum_csr_duplicates_spec n_row n_col Ap Aj Ax Hok)
    as (Ap1 & Aj1 & Ax1 & Heq1 & HlAp1 & _ & _ & Hptr1 & _ & _ & _ & Hrows1).
  pose proof (sum_csr_duplicates_ok _ _ _ _ _ _ _ _ Hok Heq1) as Hok1.
  destruct (sum_csr_duplicates_spec n_row n_col Ap1 Aj1 Ax1 Hok1)
    as (Ap2 & Aj2 & Ax2 & Heq2 & HlAp2 & _ & _ & Hptr2 & _ & _ & _ & Hrows2).
  exists Ap1, Aj1, Ax1, Ap2, Aj2, Ax2.
  split; [done|]. split; [done|].
  assert (Hrev : forall r, 0 <= r < n_row ->
            row_entries Ap2 Aj2 Ax2 r = reverse (row_entries Ap1 Aj1 Ax1 r)).
  { intros r Hr. rewrite Hrows2, Hrows1 by done. by apply drained_drained. }
  split; [|done].
  pose proof (ok_length _ _ _ _ _ Hok1) as Hlen.
  apply (array_ext 0); [done|]. intros r Hr. rewrite HlAp2 in Hr.
  fold (idx Ap2 r) (idx Ap1 r). rewrite Hptr2, Hptr1 by lia. f_equal.
  assert (Hgen : forall n : nat, Z.of_nat n <= n_row ->
            length (drained_rows Ap1 Aj1 Ax1 (Z.of_nat n))
            = length (drained_rows Ap Aj Ax (Z.of_nat n))).
  { induction n as [|n IH]; intros Hn; [done|].
    replace (Z.of_nat (S n)) with (Z.of_nat n + 1) by lia.
    rewrite !drained_rows_succ, !length_app by lia. rewrite IH by lia. f_equal.
    rewrite Hrows1 by lia. rewrite drained_drained by done.
    apply length_reverse. }
  specialize (Hgen (Z.to_nat r) ltac:(lia)).
  by rewrite Z2Nat.id in Hgen by lia.
Qed.

(** An instance: a 3 x 3 matrix with a duplicated column in row 0, an empty
    row 1 and two cancelling entries in row 2. *)
Lemma sum_csr_duplicates_twice_reverses_witness :
  valid_csr 3 3 [0; 3; 3; 5] [2; 0; 2; 1; 1] [1; 2; 3; 4; -4] = true
  /\ exists Ap1 Aj1 Ax1 Ap2 Aj2 Ax2,
       sum_csr_duplicates 3 3 [0; 3; 3; 5] [2; 0; 2; 1; 1] [1; 2; 3; 4; -4]
       = Some (Ap1, Aj1, Ax1)
       /\ sum_csr_duplicates 3 3 Ap1 Aj1 Ax1 = Some (Ap2, Aj2, Ax2)
       /\ Ap2 = Ap1
       /\ forall r, 0 <= r < 3 ->
            row_entries Ap2 Aj2 Ax2 r = reverse (row_entries Ap1 Aj1 Ax1 r).
Proof.
  split; [reflexivity|].
  apply (sum_csr_duplicates_twice_reverses 3 3 [0; 3; 3; 5] [2; 0; 2; 1; 1]
           [1; 2; 3; 4; -4]); [intros x; apply Z.add_0_l|reflexivity].
Defined.

(** ** Symbolic and numeric row counts of the matrix product *)

(** C3, as stated, fails: for the well-formed operands A = [1 1] (1 x 2)
    and B = [1; -1] (2 x 1) the symbolic pass counts one entry in row 0,
    while the numeric pass finds the sum 1*1 + 1*(-1) = 0 and writes none. *)
Lemma matmat_pass_counts_differ :
  valid_csr 1 2 [0; 2] [0; 1] [1; 1] = true
  /\ valid_csr 2 1 [0; 1; 2] [0; 0] [1; -1] = true
  /\ csr_matmat_pass1 1 1 [0; 2] [0; 1] [0; 1; 2] [0; 0] [0; 0] = [0; 1]
  /\ csr_matmat_pass2 1 1 [0; 2] [0; 1] [1; 1] [0; 1; 2] [0; 0] [1; -1]
       [0; 0] [7] [7] = ([0; 0], [7], [7])
  /\ ~ (idx [0; 1] (0 + 1) - idx [0; 1] 0 = idx [0; 0] (0 + 1) - idx [0; 0] 0).
Proof.
  split; [reflexivity|]. split; [reflexivity|]. split; [reflexivity|].
  split; [reflexivity|]. vm_compute. discriminate.
Qed.

(** C3, amended. For well-formed operands with matching inner dimension
    and row pointer arrays of [n_row + 1] entries, in every row [i] the
    count [Cp[i+1] - Cp[i]] of the symbolic pass is the number of distinct
    columns of the product row; the numeric pass advances its write cursor
    (stored in its own [Cp[i+1]]) by the number of those columns whose sum
    is nonzero. So the symbolic count is an upper bound on the number of
    entries the numeric pass writes, and the two are equal when no column
    of the row sums to zero. *)
Theorem matmat_pass1_bounds_pass2 {T : Type} `{!Scalar T}
    (n_row n_mid n_col : Z)
    (Ap Aj : list Z) (Ax : list T) (Bp Bj : list Z) (Bx : list T)
    (Cp1 Cp2 Cj : list Z) (Cx : list T) (i : Z) :
  valid_csr n_row n_mid Ap Aj Ax = true ->
  valid_csr n_mid n_col Bp Bj Bx = true ->
  Z.of_nat (length Cp1) = n_row + 1 ->
  Z.of_nat (length Cp2) = n_row + 1 ->
  0 <= i < n_row ->
  let es := product_entries Ap Aj Ax Bp Bj Bx i in
  let symbolic := csr_matmat_pass1 n_row n_col Ap Aj Bp Bj Cp1 in
  let numeric := (csr_matmat_pass2 n_row n_col Ap Aj Ax Bp Bj Bx Cp2 Cj Cx).1.1 in
  idx symbolic (i + 1) - idx symbolic i = Z.of_nat (length (touch_order [] es.*1))
  /\ idx numeric (i + 1) - idx numeric i = Z.of_nat (length (drained es))
  /\ idx numeric (i + 1) - idx numeric i <= idx symbolic (i + 1) - idx symbolic i
  /\ ((forall k, k ∈ es.*1 -> nonzero (colsum zero es k) = true) ->
      idx numeric (i + 1) - idx numeric i = idx symbolic (i + 1) - idx symbolic i).
Proof.
  intros HA%valid_csr_ok HB%valid_csr_ok H1 H2 Hi es symbolic numeric.
  pose proof (csr_matmat_pass1_spec n_row n_mid n_col Ap Aj Ax Bp Bj Bx Cp1
                HA HB H1 i Hi) as Hs.
  pose proof (csr_matmat_pass2_spec n_row n_mid n_col Ap Aj Ax Bp Bj Bx Cp2 Cj Cx
                HA HB H2 i Hi) as Hn.
  fold es symbolic in Hs. fold es numeric in Hn. rewrite Hs, Hn.
  split; [done|]. split; [done|]. unfold drained. split.
  - pose proof (length_filter (fun e : Z * T => nonzero e.2 = true)
                  ((fun k => (k, colsum zero es k)) <$> touch_order [] es.*1)) as Hle.
    rewrite length_fmap in Hle. lia.
  - intros Hnz. rewrite filter_all, length_fmap; [done|].
    apply Forall_fmap, Forall_forall. intros k Hk. simpl. apply Hnz.
    apply elem_of_touch_order in Hk as [Hk|Hk]; [by apply elem_of_nil in Hk|done].
Qed.

(** An instance: row 2 of the product of two 3 x 3 matrices, where the two
    entries of [A] cancel. *)
Lemma matmat_pass1_bounds_pass2_witness :
  valid_csr 3 3 [0; 3; 3; 5] [2; 0; 2; 1; 1] [1; 2; 3; 4; -4] = true
  /\ valid_csr 3 3 [0; 1; 3; 4] [1; 0; 2; 2] [5; 6; 7; -3] = true
  /\ (let symbolic :=
        csr_matmat_pass1 3 3 [0; 3; 3; 5] [2; 0; 2; 1; 1]
          [0; 1; 3; 4] [1; 0; 2; 2] [0; 0; 0; 0] in
      let numeric :=
        (csr_matmat_pass2 3 3 [0; 3; 3; 5] [2; 0; 2; 1; 1] [1; 2; 3; 4; -4]
           [0; 1; 3; 4] [1; 0; 2; 2] [5; 6; 7; -3]
           [0; 0; 0; 0] [0; 0; 0; 0; 0] [0; 0; 0; 0; 0]).1.1 in
      idx numeric (2 + 1) - idx numeric 2 <= idx symbolic (2 + 1) - idx symbolic 2).
Proof.
  split; [reflexivity|]. split; [reflexivity|].
  exact (proj1 (proj2 (proj2
    (matmat_pass1_bounds_pass2 3 3 3
       [0; 3; 3; 5] [2; 0; 2; 1; 1] [1; 2; 3; 4; -4]
       [0; 1; 3; 4] [1; 0; 2; 2] [5; 6; 7; -3]
       [0; 0; 0; 0] [0; 0; 0; 0] [0; 0; 0; 0; 0] [0; 0; 0; 0; 0] 2
       eq_refl eq_refl eq_refl eq_refl ltac:(lia))))).
Defined.

(** ** Zero suppression *)

(** C4. On well-formed operands, every value that [csrmucsr] and
    [csr_binop_csr] append to the value vector [Cx] is nonzero, and
    [sum_csr_duplicates] returns arrays in which every value of the stored
    prefix [0 .. Ap[n_row]-1] is nonzero. *)
Theorem kernels_store_no_zero {T : Type} `{!Scalar T}
    (n_row n_mid n_col : Z)
    (Ap Aj : list Z) (Ax : list T) (Bp Bj : list Z) (Bx : list T)
    (Dp Dj : list Z) (Dx : list T) (Ep Ej : list Z) (Ex : list T)
    (Cp Cj : list Z) (Cx : list T) (op : T -> T -> T) :
  valid_csr n_row n_mid Ap Aj Ax = true ->
  valid_csr n_mid n_col Bp Bj Bx = true ->
  valid_csr n_row n_col Dp Dj Dx = true ->
  valid_csr n_row n_col Ep Ej Ex = true ->
  (exists new,
     (csrmucsr n_row n_col Ap Aj Ax Bp Bj Bx Cp Cj Cx).2 = Cx ++ new
     /\ Forall (fun v => nonzero v = true) new)
  /\ (exists new,
        (csr_binop_csr n_row n_col Dp Dj Dx Ep Ej Ex Cp Cj Cx op).2 = Cx ++ new
        /\ Forall (fun v => nonzero v = true) new)
  /\ (exists Dp' Dj' Dx',
        sum_csr_duplicates n_row n_col Dp Dj Dx = Some (Dp', Dj', Dx')
        /\ forall jj, 0 <= jj < idx Dp' n_row -> nonzero (val Dx' jj) = true).
Proof.
  intros HA%valid_csr_ok HB%valid_csr_ok HD%valid_csr_ok HE%valid_csr_ok.
  pose proof (ok_rows _ _ _ _ _ HA) as Hrows.
  split; [|split].
  - unfold csrmucsr.
    destruct (csrmucsr_rows_spec n_row n_mid n_col Ap Aj Ax Bp Bj Bx Cp Cj Cx n_row HA HB)
      as [Cp' ->]; [lia|].
    eexists. split; [reflexivity|].
    apply Forall_fmap. apply Forall_bind_intro. intros r _. apply drained_nonzero.
  - unfold csr_binop_csr.
    destruct (csr_binop_rows_spec op n_row n_col Dp Dj Dx Ep Ej Ex Cp Cj Cx n_row HD HE)
      as (Cp' & -> & _); [lia|].
    eexists. split; [reflexivity|].
    apply Forall_fmap. apply Forall_bind_intro. intros r _. apply binop_drained_nonzero.
  - destruct (sum_csr_duplicates_spec n_row n_col Dp Dj Dx HD)
      as (Dp' & Dj' & Dx' & Heq & _ & _ & _ & Hptr & _ & _ & HtAx & _).
    exists Dp', Dj', Dx'. split; [done|].
    intros jj Hjj. rewrite Hptr in Hjj by lia.
    set (D := drained_rows Dp Dj Dx n_row) in *.
    destruct (lookup_lt_is_Some_2 D (Z.to_nat jj)) as [e He]; [lia|].
    assert (val Dx' jj = e.2) as ->.
    { unfold val. apply aget_lookup; [lia|].
      rewrite <- (lookup_take_lt Dx' (length D)) by lia.
      by rewrite HtAx, list_lookup_fmap, He. }
    assert (Hall : Forall (fun e => nonzero e.2 = true) D).
    { apply Forall_bind_intro. intros r _. apply drained_nonzero. }
    by apply (Forall_lookup_1 _ _ _ _ Hall He).
Qed.

(** An instance on two 3 x 3 matrices, with subtraction as the elementwise
    operator. *)
Lemma kernels_store_no_zero_witness :
  valid_csr 3 3 [0; 3; 3; 5] [2; 0; 2; 1; 1] [1; 2; 3; 4; -4] = true
  /\ valid_csr 3 3 [0; 1; 3; 4] [1; 0; 2; 2] [5; 6; 7; -3] = true
  /\ (exists new,
        (csrmucsr 3 3 [0; 3; 3; 5] [2; 0; 2; 1; 1] [1; 2; 3; 4; -4]
           [0; 1; 3; 4] [1; 0; 2; 2] [5; 6; 7; -3] [] [] []).2 = [] ++ new
        /\ Forall (fun v => nonzero v = true) new)
  /\ (exists new,
        (csr_binop_csr 3 3 [0; 3; 3; 5] [2; 0; 2; 1; 1] [1; 2; 3; 4; -4]
           [0; 1; 3; 4] [1; 0; 2; 2] [5; 6; 7; -3] [] [] [] Z.sub).2 = [] ++ new
        /\ Forall (fun v => nonzero v = true) new)
  /\ (exists Dp' Dj' Dx',
        sum_csr_duplicates 3 3 [0; 3; 3; 5] [2; 0; 2; 1; 1] [1; 2; 3; 4; -4]
        = Some (Dp', Dj', Dx')
        /\ forall jj, 0 <= jj < idx Dp' 3 -> nonzero (val Dx' jj) = true).
Proof.
  split; [reflexivity|]. split; [reflexivity|].
  apply (kernels_store_no_zero 3 3 3
           [0; 3; 3; 5] [2; 0; 2; 1; 1] [1; 2; 3; 4; -4]
           [0; 1; 3; 4] [1; 0; 2; 2] [5; 6; 7; -3]
           [0; 3; 3; 5] [2; 0; 2; 1; 1] [1; 2; 3; 4; -4]
           [0; 1; 3; 4] [1; 0; 2; 2] [5; 6; 7; -3] [] [] [] Z.sub);
    reflexivity.
Defined.

(** ** The accumulator between rows *)

(** C5. On well-formed operands, at the start of every row iteration [i] of
    [csrmucsr] and of [csr_binop_csr] the array [next] holds -1 in each of
    its [n_col] entries and the value arrays ([sums]; [A_row] and [B_row])
    hold 0 in each of theirs: the emptying loop of the previous row has put
    the accumulator back into its initial state. *)
Theorem accumulator_cleared_between_rows {T : Type} `{!Scalar T}
    (n_row n_mid n_col : Z)
    (Ap Aj : list Z) (Ax : list T) (Bp Bj : list Z) (Bx : list T)
    (Dp Dj : list Z) (Dx : list T) (Ep Ej : list Z) (Ex : list T)
    (Cp Cj : list Z) (Cx : list T) (op : T -> T -> T) (i : Z) :
  valid_csr n_row n_mid Ap Aj Ax = true ->
  valid_csr n_mid n_col Bp Bj Bx = true ->
  valid_csr n_row n_col Dp Dj Dx = true ->
  valid_csr n_row n_col Ep Ej Ex = true ->
  0 <= i <= n_row ->
  (let '(next, sums, _, _, _) :=
     csrmucsr_rows i n_row n_col Ap Aj Ax Bp Bj Bx Cp Cj Cx in
   next = vec_new n_col (-1) /\ sums = vec_new n_col zero)
  /\ (let '(next, A_row, B_row, _, _, _) :=
        csr_binop_rows i n_row n_col Dp Dj Dx Ep Ej Ex Cp Cj Cx op in
      next = vec_new n_col (-1)
      /\ A_row = vec_new n_col zero /\ B_row = vec_new n_col zero).
Proof.
  intros HA%valid_csr_ok HB%valid_csr_ok HD%valid_csr_ok HE%valid_csr_ok Hi.
  split.
  - by destruct (csrmucsr_rows_spec n_row n_mid n_col Ap Aj Ax Bp Bj Bx Cp Cj Cx i HA HB Hi)
      as [Cp' ->].
  - by destruct (csr_binop_rows_spec op n_row n_col Dp Dj Dx Ep Ej Ex Cp Cj Cx i HD HE Hi)
      as (Cp' & -> & _).
Qed.

(** An instance: the start of row 1, after a row that touched several
    columns. *)
Lemma accumulator_cleared_between_rows_witness :
  valid_csr 3 3 [0; 3; 3; 5] [2; 0; 2; 1; 1] [1; 2; 3; 4; -4] = true
  /\ valid_csr 3 3 [0; 1; 3; 4] [1; 0; 2; 2] [5; 6; 7; -3] = true
  /\ (let '(next, sums, _, _, _) :=
        csrmucsr_rows 1 3 3 [0; 3; 3; 5] [2; 0; 2; 1; 1] [1; 2; 3; 4; -4]
          [0; 1; 3; 4] [1; 0; 2; 2] [5; 6; 7; -3] [] [] [] in
      next = vec_new 3 (-1) /\ sums = vec_new 3 zero)
  /\ (let '(next, A_row, B_row, _, _, _) :=
        csr_binop_rows 1 3 3 [0; 3; 3; 5] [2; 0; 2; 1; 1] [1; 2; 3; 4; -4]
          [0; 1; 3; 4] [1; 0; 2; 2] [5; 6; 7; -3] [] [] [] Z.add in
      next = vec_new 3 (-1) /\ A_row = vec_new 3 zero /\ B_row = vec_new 3 zero).
Proof.
  split; [reflexivity|]. split; [reflexivity|].
  apply (accumulator_cleared_between_rows 3 3 3
           [0; 3; 3; 5] [2; 0; 2; 1; 1] [1; 2; 3; 4; -4]
           [0; 1; 3; 4] [1; 0; 2; 2] [5; 6; 7; -3]
           [0; 3; 3; 5] [2; 0; 2; 1; 1] [1; 2; 3; 4; -4]
           [0; 1; 3; 4] [1; 0; 2; 2] [5; 6; 7; -3] [] [] [] Z.add 1);
    [reflexivity..|lia].
Defined.

(** ** Transposing twice *)

(** C6. For a well-formed CSR matrix [A] and preallocated arrays of the
    right sizes, [csr_tocsc] followed by [csc_tocsr] gives a matrix with
    the row pointer of [A] whose (row, column, value) triples are those of
    [A] as a multiset; every row of the result holds the (column, value)
    entries of the same row of [A], possibly in another order. *)
Theorem transpose_twice_gives_back_rows {T : Type} `{!Scalar T}
    (n_row n_col : Z) (Ap Aj : list Z) (Ax : list T)
    (Bp Bi : list Z) (Bx : list T) (Cp Cj : list Z) (Cx : list T) :
  valid_csr n_row n_col Ap Aj Ax = true ->
  Z.of_nat (length Bp) = n_col + 1 ->
  idx Ap n_row <= Z.of_nat (length Bi) ->
  idx Ap n_row <= Z.of_nat (length Bx) ->
  Z.of_nat (length Cp) = n_row + 1 ->
  idx Ap n_row <= Z.of_nat (length Cj) ->
  idx Ap n_row <= Z.of_nat (length Cx) ->
  let '(Bp', Bi', Bx') := csr_tocsc n_row n_col Ap Aj Ax Bp Bi Bx in
  let '(Cp', Cj', Cx') := csc_tocsr n_row n_col Bp' Bi' Bx' Cp Cj Cx in
  Cp' = Ap
  /\ triples n_row Cp' Cj' Cx' ≡ₚ triples n_row Ap Aj Ax
  /\ forall r, 0 <= r < n_row ->
       row_entries Cp' Cj' Cx' r ≡ₚ row_entries Ap Aj Ax r.
Proof.
  intros Hok%valid_csr_ok HBp HBi HBx HCp HCj HCx.
  destruct (csr_tocsc_spec n_row n_col Ap Aj Ax Bp Bi Bx Hok HBp HBi HBx)
    as (Bp' & Bi' & Bx' & Heq & _).
  rewrite Heq.
  destruct (csr_tocsc_ok _ _ _ _ _ _ _ _ _ _ _ Hok HBp HBi HBx Heq) as [Hok' Hnnz].
  pose proof (csr_tocsc_triples _ _ _ _ _ _ _ _ _ _ _ Hok HBp HBi HBx Heq) as Hperm.
  unfold csc_tocsr.
  rewrite <- Hnnz in HCj, HCx.
  destruct (csr_tocsc_spec n_col n_row Bp' Bi' Bx' Cp Cj Cx Hok' HCp HCj HCx)
    as (Cp' & Cj' & Cx' & Heq' & _ & _ & _ & _ & Hrows').
  rewrite Heq'.
  destruct (csr_tocsc_ok _ _ _ _ _ _ _ _ _ _ _ Hok' HCp HCj HCx Heq') as [Hok'' _].
  assert (Hrows : forall r, 0 <= r < n_row ->
            row_entries Cp' Cj' Cx' r ≡ₚ row_entries Ap Aj Ax r).
  { intros r Hr. rewrite Hrows' by done.
    by apply (transpose_twice_rows n_row). }
  split; [|split; [|done]].
  - symmetry. apply (row_pointer_unique n_row n_col n_col _ Aj Ax _ Cj' Cx'); [done..|].
    intros r Hr. symmetry. by apply Permutation_length, Hrows.
  - unfold triples. apply bind_Permutation_in. intros r Hr%elem_of_seqZ.
    apply fmap_Permutation, Hrows. lia.
Qed.

(** An instance: a 3 x 3 matrix with unsorted columns, a duplicate, a stored
    zero and an empty row. *)
Lemma transpose_twice_gives_back_rows_witness :
  valid_csr 3 3 [0; 3; 3; 5] [2; 0; 2; 1; 1] [1; 2; 0; 4; -4] = true
  /\ (let '(Bp', Bi', Bx') :=
        csr_tocsc 3 3 [0; 3; 3; 5] [2; 0; 2; 1; 1] [1; 2; 0; 4; -4]
          [0; 0; 0; 0] [0; 0; 0; 0; 0] [0; 0; 0; 0; 0] in
      let '(Cp', Cj', Cx') :=
        csc_tocsr 3 3 Bp' Bi' Bx' [0; 0; 0; 0] [0; 0; 0; 0; 0] [0; 0; 0; 0; 0] in
      Cp' = [0; 3; 3; 5]
      /\ triples 3 Cp' Cj' Cx'
         ≡ₚ triples 3 [0; 3; 3; 5] [2; 0; 2; 1; 1] [1; 2; 0; 4; -4]
      /\ forall r, 0 <= r < 3 ->
           row_entries Cp' Cj' Cx' r
           ≡ₚ row_entries [0; 3; 3; 5] [2; 0; 2; 1; 1] [1; 2; 0; 4; -4] r).
Proof.
  split; [reflexivity|].
  exact (transpose_twice_gives_back_rows 3 3
           [0; 3; 3; 5] [2; 0; 2; 1; 1] [1; 2; 0; 4; -4]
           [0; 0; 0; 0] [0; 0; 0; 0; 0] [0; 0; 0; 0; 0]
           [0; 0; 0; 0] [0; 0; 0; 0; 0] [0; 0; 0; 0; 0]
           eq_refl eq_refl ltac:(vm_compute; discriminate)
           ltac:(vm_compute; discriminate) eq_refl
           ltac:(vm_compute; discriminate) ltac:(vm_compute; discriminate)).
Defined.

(** ** Exchanging the operands of a sum *)

(** C7. For well-formed operands [A] and [B] of the same shape, and a value
    type with commutative addition, [csr_plus_csr] applied to [A], [B] and
    to [B], [A] (on empty output vectors) gives the same row pointer and the
    same (row, column, value) triples, up to their order. *)
Theorem csr_plus_csr_commutes {T : Type} `{!Scalar T}
    (n_row n_col : Z)
    (Ap Aj : list Z) (Ax : list T) (Bp Bj : list Z) (Bx : list T) :
  (forall x y : T, add x y = add y x) ->
  valid_csr n_row n_col Ap Aj Ax = true ->
  valid_csr n_row n_col Bp Bj Bx = true ->
  let '(Cp1, Cj1, Cx1) := csr_plus_csr n_row n_col Ap Aj Ax Bp Bj Bx [] [] [] in
  let '(Cp2, Cj2, Cx2) := csr_plus_csr n_row n_col Bp Bj Bx Ap Aj Ax [] [] [] in
  Cp1 = Cp2 /\ triples n_row Cp1 Cj1 Cx1 ≡ₚ triples n_row Cp2 Cj2 Cx2.
Proof.
  intros Hcomm HA%valid_csr_ok HB%valid_csr_ok. unfold csr_plus_csr.
  destruct (csr_binop_csr_rows add n_row n_col Ap Aj Ax Bp Bj Bx HA HB)
    as (Cp1 & Cj1 & Cx1 & -> & _ & Hl1 & Hp1 & Hr1).
  destruct (csr_binop_csr_rows add n_row n_col Bp Bj Bx Ap Aj Ax HB HA)
    as (Cp2 & Cj2 & Cx2 & -> & _ & Hl2 & Hp2 & Hr2).
  split.
  - apply (array_ext 0); [lia|]. intros r Hr.
    fold (idx Cp1 r) (idx Cp2 r). rewrite Hp1, Hp2 by lia. f_equal.
    unfold binop_drained_rows. apply Permutation_length, bind_Permutation_in.
    intros r' _. by apply binop_drained_comm.
  - rewrite (triples_rows _ _ _ _ _ Hr1), (triples_rows _ _ _ _ _ Hr2).
    apply bind_Permutation_in. intros r _.
    apply fmap_Permutation. by apply binop_drained_comm.
Qed.

(** An instance in which the two results store row 0 in different orders. *)
Lemma csr_plus_csr_commutes_witness :
  valid_csr 3 3 [0; 3; 3; 5] [2; 0; 2; 1; 1] [1; 2; 3; 4; -4] = true
  /\ valid_csr 3 3 [0; 1; 3; 4] [1; 0; 2; 2] [5; 6; 7; -3] = true
  /\ [0; 3; 5; 6] = [0; 3; 5; 6]
  /\ triples 3 [0; 3; 5; 6] [1; 0; 2; 2; 0; 2] [5; 2; 4; 7; 6; -3]
     ≡ₚ triples 3 [0; 3; 5; 6] [0; 2; 1; 2; 0; 2] [2; 4; 5; 7; 6; -3].
Proof.
  split; [reflexivity|]. split; [reflexivity|].
  exact (csr_plus_csr_commutes 3 3
           [0; 3; 3; 5] [2; 0; 2; 1; 1] [1; 2; 3; 4; -4]
           [0; 1; 3; 4] [1; 0; 2; 2] [5; 6; 7; -3]
           Z.add_comm eq_refl eq_refl).
Defined.

(** ** The value substituted for a missing operand *)

(** C8. In row [i] of [csr_binop_csr] on well-formed operands, let [j] be a
    column stored in row [i] of exactly one operand. Some iteration [m] of
    the emptying loop has [head = j]; and in every iteration with
    [head = j] the candidate [result = op(A_row[head], B_row[head])] is
    [op a 0] if [j] is stored in [A] only, where [a] is the sum of the
    entries of column [j] in row [i] of [A], and [op 0 b] if [j] is stored
    in [B] only, with [b] the corresponding sum in [B]. These iterations are
    the ones the kernel runs: consecutive states are one step of the
    emptying loop apart, and the state of the row loop of [csr_binop_csr]
    after row [i] is the state in which the emptying loop of row [i] ends,
    with [Cp[i+1]] set. Accordingly row [i] of the matrix returned by
    [csr_binop_csr] stores the pair [(j, v)] exactly when [v] is this
    candidate and passes the test [!= 0]. *)
Theorem binop_missing_operand_is_zero {T : Type} `{!Scalar T}
    (n_row n_col : Z)
    (Ap Aj : list Z) (Ax : list T) (Bp Bj : list Z) (Bx : list T)
    (Cp Cj : list Z) (Cx : list T) (op : T -> T -> T) (i j : Z) :
  valid_csr n_row n_col Ap Aj Ax = true ->
  valid_csr n_row n_col Bp Bj Bx = true ->
  0 <= i < n_row ->
  let ea := row_entries Ap Aj Ax i in
  let eb := row_entries Bp Bj Bx i in
  let at_iteration m :=
    binop_drain_at i m n_row n_col Ap Aj Ax Bp Bj Bx Cp Cj Cx op in
  (j ∈ ea.*1 \/ j ∈ eb.*1 ->
   exists m, let '((_, _, _, head, _, _), len) := at_iteration m in
             0 <= m < len /\ head = j)
  /\ (forall m,
        let '((_, A_row, B_row, head, _, _), len) := at_iteration m in
        0 <= m < len -> head = j ->
        (j ∈ ea.*1 -> j ∉ eb.*1 ->
         binop_result op A_row B_row head = op (colsum zero ea j) zero)
        /\ (j ∉ ea.*1 -> j ∈ eb.*1 ->
            binop_result op A_row B_row head = op zero (colsum zero eb j)))
  /\ (forall m, 0 <= m ->
        at_iteration (m + 1)
        = (binop_drain_step op (at_iteration m).1, (at_iteration m).2))
  /\ (let '(_, _, _, Cp0, _, _) :=
        csr_binop_rows i n_row n_col Ap Aj Ax Bp Bj Bx Cp Cj Cx op in
      let '((next, A_row, B_row, _, Cj', Cx'), _) :=
        at_iteration (at_iteration 0).2 in
      csr_binop_rows (i + 1) n_row n_col Ap Aj Ax Bp Bj Bx Cp Cj Cx op
      = (next, A_row, B_row, aset Cp0 (i + 1) (vec_size Cx'), Cj', Cx'))
  /\ (let '(Rp, Rj, Rx) :=
        csr_binop_csr n_row n_col Ap Aj Ax Bp Bj Bx [] [] [] op in
      (j ∈ ea.*1 -> j ∉ eb.*1 ->
       forall v, (j, v) ∈ row_entries Rp Rj Rx i
                 <-> v = op (colsum zero ea j) zero /\ nonzero v = true)
      /\ (j ∉ ea.*1 -> j ∈ eb.*1 ->
          forall v, (j, v) ∈ row_entries Rp Rj Rx i
                    <-> v = op zero (colsum zero eb j) /\ nonzero v = true)).
Proof.
  intros HA%valid_csr_ok HB%valid_csr_ok Hi ea eb at_iteration.
  set (o := touch_order [] (ea.*1 ++ eb.*1)).
  assert (Hnd : NoDup o) by apply NoDup_touch_order, NoDup_nil_2.
  assert (Hat : forall m : nat, (m < length o)%nat ->
            exists next A_row B_row k Cj' Cx',
              at_iteration (Z.of_nat m)
              = ((next, A_row, B_row, k, Cj', Cx'), Z.of_nat (length o))
              /\ o !! m = Some k
              /\ val A_row k = colsum zero ea k /\ val B_row k = colsum zero eb k).
  { intros m Hm.
    destruct (binop_drain_at_spec op n_row n_col Ap Aj Ax Bp Bj Bx Cp Cj Cx i m HA HB Hi)
      as (next & A_row & B_row & head & Cj' & Cx' & Heq & Hch & Hval); [fold ea eb o; lia|].
    fold ea eb o in Heq, Hch, Hval.
    destruct (lookup_lt_is_Some_2 o m Hm) as [k Hk].
    rewrite (drop_S _ _ _ Hk) in Hch. destruct Hch as [-> _].
    exists next, A_row, B_row, k, Cj', Cx'. split; [done|]. split; [done|].
    apply Hval. intros Hin.
    rewrite <- (take_drop m o), (drop_S _ _ _ Hk) in Hnd.
    apply NoDup_app in Hnd as (_ & Hdisj & _). apply (Hdisj k Hin). left. }
  split; [|split; [|split; [|split]]].
  - intros Hj.
    assert (j ∈ o) as (m & Hm)%list_elem_of_lookup_1.
    { apply elem_of_touch_order. right. by apply elem_of_app. }
    pose proof (lookup_lt_Some _ _ _ Hm) as Hlt.
    destruct (Hat m Hlt) as (next & A_row & B_row & k & Cj' & Cx' & Heq & Hk & _).
    exists (Z.of_nat m). rewrite Heq. split; [lia|congruence].
  - intros m. destruct (decide (0 <= m < Z.of_nat (length o))) as [Hm|Hm].
    + destruct (Hat (Z.to_nat m) ltac:(lia))
        as (next & A_row & B_row & k & Cj' & Cx' & Heq & Hk & HvA & HvB).
      rewrite Z2Nat.id in Heq by lia. rewrite Heq.
      intros _ ->. unfold binop_result. rewrite HvA, HvB.
      split; intros Hja Hjb.
      * by rewrite (colsum_absent _ eb).
      * by rewrite (colsum_absent _ ea).
    + destruct (at_iteration m) as [[[[[[next A_row] B_row] head] Cj'] Cx'] len] eqn:Heq.
      intros Hlen. exfalso. apply Hm.
      unfold at_iteration, binop_drain_at in Heq.
      pose proof (ok_cols _ _ _ _ _ HB) as Hn.
      destruct (csr_binop_rows_spec op n_row n_col Ap Aj Ax Bp Bj Bx Cp Cj Cx i HA HB)
        as (Cp' & Heq' & _); [lia|]. rewrite Heq' in Heq.
      destruct (binop_touch_spec n_col Ap Aj Ax Bp Bj Bx i Hn)
        as (next0 & A0 & B0 & head0 & len0 & Heq0 & Hinv & _).
      { intros e. by apply (row_entries_range n_row n_col). }
      { intros e. by apply (row_entries_range n_row n_col). }
      rewrite Heq0 in Heq. injection Heq as _ <-.
      pose proof (acc_len _ _ _ _ _ Hinv) as Hl. fold ea eb o in Hl. lia.
  - intros m Hm. by apply binop_drain_at_succ.
  - pose proof (csr_binop_rows_succ op n_row n_col Ap Aj Ax Bp Bj Bx Cp Cj Cx i
                  ltac:(lia)) as Hlink.
    unfold at_iteration. revert Hlink.
    destruct (csr_binop_rows i n_row n_col Ap Aj Ax Bp Bj Bx Cp Cj Cx op)
      as [[[[[next0 A0] B0] Cp0] Cj0] Cx0].
    destruct (binop_drain_at i
                (binop_drain_at i 0 n_row n_col Ap Aj Ax Bp Bj Bx Cp Cj Cx op).2
                n_row n_col Ap Aj Ax Bp Bj Bx Cp Cj Cx op)
      as [[[[[[next1 A1] B1] head1] Cj1] Cx1] len1].
    by intros ->.
  - destruct (csr_binop_csr_rows op n_row n_col Ap Aj Ax Bp Bj Bx HA HB)
      as (Rp & Rj & Rx & -> & _ & _ & _ & Hrows).
    split; intros Hja Hjb v; rewrite Hrows by done; fold ea eb;
      rewrite (elem_of_binop_drained op ea eb (j, v)); simpl.
    + rewrite (colsum_absent _ eb) by done. split.
      * by intros (_ & -> & Hnz).
      * intros [-> Hnz]. split; [by left|done].
    + rewrite (colsum_absent _ ea) by done. split.
      * by intros (_ & -> & Hnz).
      * intros [-> Hnz]. split; [by right|done].
Qed.

(** An instance: column 1 of row 0 is stored in [B] only, with value 5; the
    first iteration of the emptying loop computes [0 - 5], and row 0 of the
    difference stores [(1, -5)]. *)
Lemma binop_missing_operand_is_zero_witness :
  valid_csr 3 3 [0; 3; 3; 5] [2; 0; 2; 1; 1] [1; 2; 3; 4; -4] = true
  /\ valid_csr 3 3 [0; 1; 3; 4] [1; 0; 2; 2] [5; 6; 7; -3] = true
  /\ (exists m,
        let '((_, _, _, head, _, _), len) :=
          binop_drain_at 0 m 3 3 [0; 3; 3; 5] [2; 0; 2; 1; 1] [1; 2; 3; 4; -4]
            [0; 1; 3; 4] [1; 0; 2; 2] [5; 6; 7; -3] [] [] [] Z.sub in
        0 <= m < len /\ head = 1)
  /\ (let '((_, A_row, B_row, head, _, _), len) :=
        binop_drain_at 0 0 3 3 [0; 3; 3; 5] [2; 0; 2; 1; 1] [1; 2; 3; 4; -4]
          [0; 1; 3; 4] [1; 0; 2; 2] [5; 6; 7; -3] [] [] [] Z.sub in
      binop_result Z.sub A_row B_row head = Z.sub 0 5)
  /\ (let '(Rp, Rj, Rx) :=
        csr_binop_csr 3 3 [0; 3; 3; 5] [2; 0; 2; 1; 1] [1; 2; 3; 4; -4]
          [0; 1; 3; 4] [1; 0; 2; 2] [5; 6; 7; -3] [] [] [] Z.sub in
      forall v, (1, v) ∈ row_entries Rp Rj Rx 0
                <-> v = Z.sub 0 5 /\ nonzero v = true).
Proof.
  split; [reflexivity|]. split; [reflexivity|].
  pose proof (binop_missing_operand_is_zero 3 3
                [0; 3; 3; 5] [2; 0; 2; 1; 1] [1; 2; 3; 4; -4]
                [0; 1; 3; 4] [1; 0; 2; 2] [5; 6; 7; -3] [] [] [] Z.sub 0 1
                eq_refl eq_refl ltac:(lia)) as (Hex & Hall & _ & _ & Hout).
  assert (Hnot : (1 : Z) ∉ [2; 0; 2]).
  { intros Hin. repeat (apply elem_of_cons in Hin as [Hin|Hin]; [discriminate|]).
    by apply elem_of_nil in Hin. }
  split; [|split].
  - apply Hex. right. vm_compute. apply list_elem_of_here.
  - specialize (Hall 0). vm_compute in Hall. vm_compute.
    destruct Hall as [_ Hb]; [split; [discriminate|reflexivity]|reflexivity|].
    apply Hb; [exact Hnot|apply list_elem_of_here].
  - destruct (csr_binop_csr 3 3 [0; 3; 3; 5] [2; 0; 2; 1; 1] [1; 2; 3; 4; -4]
                [0; 1; 3; 4] [1; 0; 2; 2] [5; 6; 7; -3] [] [] [] Z.sub)
      as [[Rp Rj] Rx].
    destruct Hout as [_ Hb]. apply Hb; [exact Hnot|apply list_elem_of_here].
Defined.

(** ** In-place compaction *)

(** C9. On a well-formed matrix, [sum_csr_duplicates] returns, and
    - whenever the body of the [while] loop of row [i] is entered (that is,
      before every write to [Aj[nnz]], [Ax[nnz]]), the cursor [nnz] is
      below the end [Ap[i+1]] of the input row, hence below the position of
      every entry not read yet (all of these are at [Ap[i+1]] or later);
    - at the start of row [i] the cursor is not beyond the read position
      [Ap[i]], and every entry from there on is still the one of the input:
      nothing has been overwritten before being read;
    - every updated pointer [Ap[i+1]] is at most its original value. *)
Theorem sum_csr_duplicates_compacts_safely {T : Type} `{!Scalar T}
    (n_row n_col : Z) (Ap Aj : list Z) (Ax : list T) :
  valid_csr n_row n_col Ap Aj Ax = true ->
  (forall i st, 0 <= i < n_row -> st ∈ scd_row_trace i n_col Ap Aj Ax ->
     let '(_, _, _, nnz, _, _) := st in
     0 <= nnz < idx Ap (i + 1) /\ forall jj, idx Ap (i + 1) <= jj -> nnz < jj)
  /\ (forall i, 0 <= i < n_row ->
        exists next sums nnz row_end Ap' Aj' Ax',
          scd_rows i n_col Ap Aj Ax = Some (next, sums, nnz, row_end, Ap', Aj', Ax')
          /\ row_end = idx Ap i /\ nnz <= row_end
          /\ forall jj, row_end <= jj ->
               idx Aj' jj = idx Aj jj /\ val Ax' jj = val Ax jj)
  /\ (exists Ap' Aj' Ax',
        sum_csr_duplicates n_row n_col Ap Aj Ax = Some (Ap', Aj', Ax')
        /\ forall i, 0 <= i < n_row -> idx Ap' (i + 1) <= idx Ap (i + 1)).
Proof.
  intros Hok%valid_csr_ok. split; [|split].
  - intros i st Hi Hst.
    pose proof (scd_row_trace_spec n_row n_col Ap Aj Ax i st Hok Hi Hst) as Hnnz.
    destruct st as [[[[[next sums] head] nnz] Aj'] Ax']. simpl in Hnnz.
    split; [done|]. intros jj Hjj. lia.
  - intros i Hi.
    destruct (scd_rows_spec n_row n_col Ap Aj Ax i Hok ltac:(lia)) as (st & Heq & Hinv).
    destruct st as [[[[[[next sums] nnz] row_end] Ap'] Aj'] Ax'].
    destruct Hinv as (_ & _ & _ & -> & Hle & _ & _ & _ & _ & _ & _ & _ & Hunread).
    by exists next, sums, nnz, (idx Ap i), Ap', Aj', Ax'.
  - destruct (sum_csr_duplicates_spec n_row n_col Ap Aj Ax Hok)
      as (Ap' & Aj' & Ax' & Heq & _ & _ & _ & Hptr & _).
    exists Ap', Aj', Ax'. split; [done|]. intros i Hi.
    destruct (scd_rows_spec n_row n_col Ap Aj Ax (i + 1) Hok ltac:(lia))
      as (st & _ & Hinv).
    destruct st as [[[[[[next sums] nnz] row_end] Ap1] Aj1] Ax1].
    destruct Hinv as (_ & _ & Hnnz & -> & Hle & _).
    rewrite Hptr by lia. lia.
Qed.

(** An instance: row 0 of a 3 x 3 matrix, whose [while] loop runs twice. *)
Lemma sum_csr_duplicates_compacts_safely_witness :
  valid_csr 3 3 [0; 3; 3; 5] [2; 0; 2; 1; 1] [1; 2; 3; 4; -4] = true
  /\ (forall st,
        st ∈ scd_row_trace 0 3 [0; 3; 3; 5] [2; 0; 2; 1; 1] [1; 2; 3; 4; -4] ->
        let '(_, _, _, nnz, _, _) := st in
        0 <= nnz < 3 /\ forall jj, 3 <= jj -> nnz < jj)
  /\ (exists Ap' Aj' Ax',
        sum_csr_duplicates 3 3 [0; 3; 3; 5] [2; 0; 2; 1; 1] [1; 2; 3; 4; -4]
        = Some (Ap', Aj', Ax')
        /\ forall i, 0 <= i < 3 ->
             idx Ap' (i + 1) <= idx [0; 3; 3; 5] (i + 1)).
Proof.
  split; [reflexivity|].
  pose proof (sum_csr_duplicates_compacts_safely 3 3
                [0; 3; 3; 5] [2; 0; 2; 1; 1] [1; 2; 3; 4; -4] eq_refl)
    as (Htrace & _ & Hptr).
  split; [|exact Hptr].
  intros st Hst. exact (Htrace 0 st ltac:(lia) Hst).
Defined.

(** ** Conversion to the transposed format *)

(** C10. For a well-formed CSR matrix and preallocated output arrays ([Bp]
    with [n_col + 1] entries, [Bi] and [Bx] with room for [nnz = Ap[n_row]]
    entries), the CSC result of [csr_tocsc] stores exactly [nnz] entries;
    its (column, row, value) triples are, as a multiset, the (row, column,
    value) triples of the input with the two indices exchanged, so that
    duplicates are kept apart and zeros are kept; and within every output
    column the row indices do not decrease. *)
Theorem csr_tocsc_keeps_all_entries {T : Type} `{!Scalar T}
    (n_row n_col : Z) (Ap Aj : list Z) (Ax : list T)
    (Bp Bi : list Z) (Bx : list T) :
  valid_csr n_row n_col Ap Aj Ax = true ->
  Z.of_nat (length Bp) = n_col + 1 ->
  idx Ap n_row <= Z.of_nat (length Bi) ->
  idx Ap n_row <= Z.of_nat (length Bx) ->
  let '(Bp', Bi', Bx') := csr_tocsc n_row n_col Ap Aj Ax Bp Bi Bx in
  idx Bp' n_col = idx Ap n_row
  /\ Z.of_nat (length (triples n_col Bp' Bi' Bx')) = idx Ap n_row
  /\ triples n_col Bp' Bi' Bx' ≡ₚ transposed <$> triples n_row Ap Aj Ax
  /\ forall c, 0 <= c < n_col -> Sorted Z.le (row_entries Bp' Bi' Bx' c).*1.
Proof.
  intros Hok%valid_csr_ok HBp HBi HBx.
  destruct (csr_tocsc_spec n_row n_col Ap Aj Ax Bp Bi Bx Hok HBp HBi HBx)
    as (Bp' & Bi' & Bx' & Heq & _ & _ & _ & _ & Hrows).
  rewrite Heq.
  destruct (csr_tocsc_ok _ _ _ _ _ _ _ _ _ _ _ Hok HBp HBi HBx Heq) as [Hok' Hnnz].
  pose proof (csr_tocsc_triples _ _ _ _ _ _ _ _ _ _ _ Hok HBp HBi HBx Heq) as Hperm.
  split; [done|]. split; [|split; [done|]].
  - rewrite (length_triples n_col n_row) by done. done.
  - intros c Hc. rewrite Hrows by done. rewrite <- list_fmap_compose.
    apply StronglySorted_Sorted.
    apply (StronglySorted_fmap_filter (fun t : Z * Z * T => t.1.1)).
    apply triples_outer_sorted.
Qed.

(** An instance: a 3 x 3 matrix with unsorted columns, a duplicate, a stored
    zero and an empty row. *)
Lemma csr_tocsc_keeps_all_entries_witness :
  valid_csr 3 3 [0; 3; 3; 5] [2; 0; 2; 1; 1] [1; 2; 0; 4; -4] = true
  /\ (let '(Bp', Bi', Bx') :=
        csr_tocsc 3 3 [0; 3; 3; 5] [2; 0; 2; 1; 1] [1; 2; 0; 4; -4]
          [0; 0; 0; 0] [0; 0; 0; 0; 0] [0; 0; 0; 0; 0] in
      idx Bp' 3 = 5
      /\ Z.of_nat (length (triples 3 Bp' Bi' Bx')) = 5
      /\ triples 3 Bp' Bi' Bx'
         ≡ₚ transposed <$> triples 3 [0; 3; 3; 5] [2; 0; 2; 1; 1] [1; 2; 0; 4; -4]
      /\ forall c, 0 <= c < 3 -> Sorted Z.le (row_entries Bp' Bi' Bx' c).*1).
Proof.
  split; [reflexivity|].
  exact (csr_tocsc_keeps_all_entries 3 3
           [0; 3; 3; 5] [2; 0; 2; 1; 1] [1; 2; 0; 4; -4]
           [0; 0; 0; 0] [0; 0; 0; 0; 0] [0; 0; 0; 0; 0]
           eq_refl eq_refl ltac:(vm_compute; discriminate)
           ltac:(vm_compute; discriminate)).
Defined.


(** * Further properties of the kernels *)

(** ** Matrices built row by row *)

Section built.
Context {T : Type} `{!Scalar T}.
Implicit Types (Cp Cj : list Z) (Cx : list T).

Lemma csr_ok_valid n_row n_col Cp Cj Cx :
  csr_ok n_row n_col Cp Cj Cx -> valid_csr n_row n_col Cp Cj Cx = true.
Proof.
  intros [H1 H2 H3 H4 H5 H6 H7 H8]. unfold valid_csr.
  rewrite !andb_true_iff, !forallb_seqZ.
  repeat split; try lia.
  - intros i Hi. specialize (H5 i ltac:(lia)). lia.
  - intros jj Hjj. specialize (H8 jj ltac:(lia)). lia.
Qed.

Lemma length_bind_le {A B : Type} (f : A -> list B) (l1 l2 : list A) :
  (length (l1 ≫= f) <= length ((l1 ++ l2) ≫= f))%nat.
Proof. rewrite bind_app, length_app. lia. Qed.

(** Arrays whose stored prefix is the concatenation of the rows [f 0],
    [f 1], ... and whose pointers count the entries of the rows before form
    a well-formed matrix with exactly these rows. *)
Lemma rows_built n_row n_col (f : Z -> list (Z * T)) Cp Cj Cx :
  0 <= n_row -> 0 <= n_col ->
  Z.of_nat (length Cp) = n_row + 1 ->
  (forall r, 0 <= r <= n_row -> idx Cp r = Z.of_nat (length (seqZ 0 r ≫= f))) ->
  take (length (seqZ 0 n_row ≫= f)) Cj = (seqZ 0 n_row ≫= f).*1 ->
  take (length (seqZ 0 n_row ≫= f)) Cx = (seqZ 0 n_row ≫= f).*2 ->
  (forall r e, 0 <= r < n_row -> e ∈ f r -> 0 <= e.1 < n_col) ->
  csr_ok n_row n_col Cp Cj Cx
  /\ forall r, 0 <= r < n_row -> row_entries Cp Cj Cx r = f r.
Proof.
  intros Hrows Hcols Hlen Hptr HCj HCx Hrange.
  assert (HlCj : (length (seqZ 0 n_row ≫= f) <= length Cj)%nat).
  { rewrite <- (length_fmap fst (seqZ 0 n_row ≫= f)), <- HCj, length_take. lia. }
  assert (HlCx : (length (seqZ 0 n_row ≫= f) <= length Cx)%nat).
  { rewrite <- (length_fmap snd (seqZ 0 n_row ≫= f)), <- HCx, length_take. lia. }
  split; [split|].
  - done.
  - done.
  - done.
  - rewrite Hptr by lia. by rewrite seqZ_nil by lia.
  - intros i Hi. rewrite !Hptr by lia.
    rewrite (bind_seqZ_succ f i) by lia. rewrite length_app. lia.
  - rewrite Hptr by lia.  lia.
  - rewrite Hptr by lia.  lia.
  - intros jj Hjj. rewrite Hptr in Hjj by lia. 
    destruct (lookup_lt_is_Some_2 (seqZ 0 n_row ≫= f) (Z.to_nat jj)) as [e He]; [lia|].
    assert (idx Cj jj = e.1) as ->.
    { unfold idx. apply aget_lookup; [lia|].
      rewrite <- (lookup_take_lt Cj (length (seqZ 0 n_row ≫= f))) by lia.
      by rewrite HCj, list_lookup_fmap, He. }
    apply list_elem_of_lookup_2 in He.
    apply list_elem_of_bind in He as (r & He & Hr%elem_of_seqZ).
    apply (Hrange r); [lia|done].
  - intros r Hr.
    assert (HD1 : (seqZ 0 (r + 1) ≫= f) = (seqZ 0 r ≫= f) ++ f r).
    { by rewrite bind_seqZ_succ by lia. }
    assert (HDn : exists rest, (seqZ 0 n_row ≫= f) = ((seqZ 0 r ≫= f) ++ f r) ++ rest).
    { rewrite (bind_seqZ_split _ n_row r) by lia.
      eexists. by rewrite app_assoc. }
    destruct HDn as [rest HDn].
    apply (row_entries_slice _ _ _ _ (seqZ 0 r ≫= f)).
    + apply Hptr. lia.
    + rewrite Hptr by lia. by rewrite HD1.
    + replace (take (length ((seqZ 0 r ≫= f) ++ f r)) Cj)
        with (take (length ((seqZ 0 r ≫= f) ++ f r)) (take (length (seqZ 0 n_row ≫= f)) Cj))
        by (rewrite take_take; f_equal; rewrite HDn, !length_app; lia).
      rewrite HCj, HDn, fmap_app.
      rewrite <- (length_fmap fst ((seqZ 0 r ≫= f) ++ f r)). by rewrite take_app_length.
    + replace (take (length ((seqZ 0 r ≫= f) ++ f r)) Cx)
        with (take (length ((seqZ 0 r ≫= f) ++ f r)) (take (length (seqZ 0 n_row ≫= f)) Cx))
        by (rewrite take_take; f_equal; rewrite HDn, !length_app; lia).
      rewrite HCx, HDn, fmap_app.
      rewrite <- (length_fmap snd ((seqZ 0 r ≫= f) ++ f r)). by rewrite take_app_length.
Qed.

End built.


(** ** [csrmucsr]: the row pointer *)

Section csrmucsr_ptr.
Context {T : Type} `{!Scalar T}.
Implicit Types (Ap Aj Bp Bj Cp Cj : list Z) (Ax Bx Cx : list T).

Lemma csrmucsr_rows_ptr n_row n_mid n_col Ap Aj Ax Bp Bj Bx Cp Cj Cx i :
  csr_ok n_row n_mid Ap Aj Ax -> csr_ok n_mid n_col Bp Bj Bx ->
  0 <= i <= n_row ->
  exists Cp',
    csrmucsr_rows i n_row n_col Ap Aj Ax Bp Bj Bx Cp Cj Cx
    = (vec_new n_col (-1), vec_new n_col zero, Cp',
       Cj ++ (product_drained Ap Aj Ax Bp Bj Bx i).*1,
       Cx ++ (product_drained Ap Aj Ax Bp Bj Bx i).*2)
    /\ Z.of_nat (length Cp') = n_row + 1
    /\ (forall r, 0 <= r < i ->
          idx Cp' (r + 1)
          = Z.of_nat (length Cx
                      + length (product_drained Ap Aj Ax Bp Bj Bx (r + 1))))
    /\ (forall r, ~ (1 <= r <= i) -> idx Cp' r = idx (vec_resize (n_row + 1) 0 Cp) r).
Proof.
  intros HA HB Hi. unfold csrmucsr_rows.
  pose proof (ok_cols _ _ _ _ _ HB) as Hn.
  pose proof (ok_rows _ _ _ _ _ HA) as Hrows.
  apply (for_range_ind (fun i st => 0 <= i <= n_row -> exists Cp',
    st = (vec_new n_col (-1), vec_new n_col zero, Cp',
          Cj ++ (product_drained Ap Aj Ax Bp Bj Bx i).*1,
          Cx ++ (product_drained Ap Aj Ax Bp Bj Bx i).*2)
    /\ Z.of_nat (length Cp') = n_row + 1
    /\ (forall r, 0 <= r < i ->
          idx Cp' (r + 1)
          = Z.of_nat (length Cx
                      + length (product_drained Ap Aj Ax Bp Bj Bx (r + 1))))
    /\ (forall r, ~ (1 <= r <= i) -> idx Cp' r = idx (vec_resize (n_row + 1) 0 Cp) r)));
    [lia| | |done].
  - intros _. eexists. unfold product_drained. rewrite seqZ_nil by lia.
    simpl. rewrite !app_nil_r. split; [reflexivity|].
    split; [apply length_vec_resize; lia|]. split; [lia|done].
  - intros r st Hr IH _. destruct IH as (Cp' & -> & Hlen & Hdone & Hrest); [lia|].
    rewrite csrmucsr_row_spec; [|done|].
    2: { intros e. apply (product_entries_range n_row n_mid n_col); [done|done|lia]. }
    cbv zeta.
    pose proof (product_drained_succ Ap Aj Ax Bp Bj Bx r ltac:(lia)) as HD.
    eexists. rewrite HD, !fmap_app, !app_assoc. split; [reflexivity|].
    split; [by rewrite length_aset|]. split.
    + intros r' Hr'. unfold idx. destruct (decide (r' = r)) as [->|Hne].
      * rewrite aget_aset_eq by lia. unfold vec_size.
        rewrite HD, !length_app, !length_fmap. lia.
      * rewrite aget_aset_ne by lia. apply Hdone. lia.
    + intros r' Hr'. unfold idx. rewrite aget_aset_ne by lia. apply Hrest. lia.
Qed.

(** The result of [csrmucsr] on empty output vectors. *)
Lemma csrmucsr_built n_row n_mid n_col Ap Aj Ax Bp Bj Bx :
  csr_ok n_row n_mid Ap Aj Ax -> csr_ok n_mid n_col Bp Bj Bx ->
  exists Cp Cj Cx,
    csrmucsr n_row n_col Ap Aj Ax Bp Bj Bx [] [] [] = (Cp, Cj, Cx)
    /\ Z.of_nat (length Cp) = n_row + 1
    /\ (forall r, 0 <= r <= n_row ->
          idx Cp r = Z.of_nat (length (product_drained Ap Aj Ax Bp Bj Bx r)))
    /\ Cj = (product_drained Ap Aj Ax Bp Bj Bx n_row).*1
    /\ Cx = (product_drained Ap Aj Ax Bp Bj Bx n_row).*2
    /\ csr_ok n_row n_col Cp Cj Cx
    /\ forall r, 0 <= r < n_row ->
         row_entries Cp Cj Cx r = drained (product_entries Ap Aj Ax Bp Bj Bx r).
Proof.
  intros HA HB. unfold csrmucsr.
  pose proof (ok_rows _ _ _ _ _ HA) as Hrows.
  pose proof (ok_cols _ _ _ _ _ HB) as Hcols.
  destruct (csrmucsr_rows_ptr n_row n_mid n_col Ap Aj Ax Bp Bj Bx [] [] [] n_row HA HB)
    as (Cp & -> & Hlen & Hdone & Hrest); [lia|].
  simpl app.
  assert (Hptr : forall r, 0 <= r <= n_row ->
            idx Cp r = Z.of_nat (length (product_drained Ap Aj Ax Bp Bj Bx r))).
  { intros r Hr. destruct (decide (r = 0)) as [->|Hne].
    - rewrite Hrest by lia. rewrite idx_vec_resize_nil.
      unfold product_drained. by rewrite seqZ_nil by lia.
    - specialize (Hdone (r - 1) ltac:(lia)).
      replace (r - 1 + 1) with r in Hdone by lia. rewrite Hdone. simpl. done. }
  do 3 eexists. split; [reflexivity|]. split; [done|]. split; [done|].
  split; [done|]. split; [done|].
  apply (rows_built n_row n_col
           (fun r => drained (product_entries Ap Aj Ax Bp Bj Bx r))); try done.
  - rewrite <- (length_fmap fst). apply take_ge. done.
  - rewrite <- (length_fmap snd). apply take_ge. done.
  - intros r e Hr He%drained_column.
    apply list_elem_of_fmap in He as (e' & -> & He').
    by apply (product_entries_range n_row n_mid n_col Ap Aj Ax Bp Bj Bx r e').
Qed.

End csrmucsr_ptr.


(** ** Canonical rows *)

Section canonical.
Context {T : Type} `{!Scalar T}.
Implicit Types (Ap Aj : list Z) (Ax : list T) (es : list (Z * T)).

Lemma distinct_columns_spec n_row Ap Aj Ax :
  distinct_columns n_row Ap Aj Ax = true
  <-> forall r, 0 <= r < n_row -> NoDup (row_entries Ap Aj Ax r).*1.
Proof.
  unfold distinct_columns. rewrite forallb_seqZ.
  split; intros Hr r Hlt; specialize (Hr r ltac:(lia)).
  - by apply bool_decide_eq_true in Hr.
  - by apply bool_decide_eq_true.
Qed.

Lemma no_stored_zero_spec n_row Ap Aj Ax :
  no_stored_zero n_row Ap Aj Ax = true
  <-> forall r, 0 <= r < n_row ->
        Forall (fun e => nonzero e.2 = true) (row_entries Ap Aj Ax r).
Proof.
  unfold no_stored_zero. rewrite forallb_seqZ.
  split; intros Hr r Hlt; specialize (Hr r ltac:(lia)).
  - apply Forall_forall. intros e He%list_elem_of_In.
    rewrite forallb_forall in Hr. by apply Hr.
  - apply forallb_forall. intros e He%list_elem_of_In.
    rewrite Forall_forall in Hr. by apply Hr.
Qed.

(** A row with pairwise distinct columns and no zero comes out of the
    accumulator reversed, provided [0 + x = x]. *)
Lemma drained_canonical es :
  (forall x : T, add zero x = x) ->
  NoDup es.*1 -> Forall (fun e => nonzero e.2 = true) es ->
  drained es = reverse es.
Proof.
  intros Hadd Hnd Hnz. unfold drained.
  rewrite touch_order_fresh; [|done|intros ? ?; apply not_elem_of_nil].
  rewrite app_nil_r, fmap_reverse, filter_reverse. f_equal.
  rewrite <- list_fmap_compose.
  rewrite (list_fmap_ext _ id es).
  - rewrite list_fmap_id. by apply filter_all.
  - intros i [k v] Hkv%list_elem_of_lookup_2. simpl.
    by rewrite (colsum_single _ _ _ v), Hadd.
Qed.

End canonical.

(** ** Results of the accumulator kernels *)

(** X1. On well-formed operands with matching inner dimension and empty
    output vectors, [csrmucsr] returns a well-formed [n_row] x [n_col]
    matrix. Row [r] stores pairwise distinct columns; it stores the pair
    [(k, v)] exactly when some product [A[r][j] * B[j][k]] is formed for
    column [k], [v] is the sum of these products in the order of the loops,
    and [v] is nonzero. *)
Theorem csrmucsr_result {T : Type} `{!Scalar T}
    (n_row n_mid n_col : Z)
    (Ap Aj : list Z) (Ax : list T) (Bp Bj : list Z) (Bx : list T) :
  valid_csr n_row n_mid Ap Aj Ax = true ->
  valid_csr n_mid n_col Bp Bj Bx = true ->
  let '(Cp, Cj, Cx) := csrmucsr n_row n_col Ap Aj Ax Bp Bj Bx [] [] [] in
  valid_csr n_row n_col Cp Cj Cx = true
  /\ distinct_columns n_row Cp Cj Cx = true
  /\ forall r k v, 0 <= r < n_row ->
       (k, v) ∈ row_entries Cp Cj Cx r
       <-> k ∈ (product_entries Ap Aj Ax Bp Bj Bx r).*1
           /\ v = colsum zero (product_entries Ap Aj Ax Bp Bj Bx r) k
           /\ nonzero v = true.
Proof.
  intros HA%valid_csr_ok HB%valid_csr_ok.
  destruct (csrmucsr_built n_row n_mid n_col Ap Aj Ax Bp Bj Bx HA HB)
    as (Cp & Cj & Cx & -> & _ & _ & _ & _ & Hok & Hrows).
  split; [by apply csr_ok_valid|]. split.
  - apply distinct_columns_spec. intros r Hr. rewrite Hrows by done.
    apply NoDup_drained.
  - intros r k v Hr. rewrite Hrows by done. apply (elem_of_drained _ (k, v)).
Qed.

(** An instance: the product of two 3 x 3 matrices with duplicates; in
    row 2 all products cancel. *)
Lemma csrmucsr_result_witness :
  valid_csr 3 3 [0; 3; 3; 5] [2; 0; 2; 1; 1] [1; 2; 3; 4; -4] = true
  /\ valid_csr 3 3 [0; 1; 3; 4] [1; 0; 2; 2] [5; 6; 7; -3] = true
  /\ (let '(Cp, Cj, Cx) :=
        csrmucsr 3 3 [0; 3; 3; 5] [2; 0; 2; 1; 1] [1; 2; 3; 4; -4]
          [0; 1; 3; 4] [1; 0; 2; 2] [5; 6; 7; -3] [] [] [] in
      valid_csr 3 3 Cp Cj Cx = true
      /\ distinct_columns 3 Cp Cj Cx = true
      /\ forall r k v, 0 <= r < 3 ->
           (k, v) ∈ row_entries Cp Cj Cx r
           <-> k ∈ (product_entries [0; 3; 3; 5] [2; 0; 2; 1; 1] [1; 2; 3; 4; -4]
                      [0; 1; 3; 4] [1; 0; 2; 2] [5; 6; 7; -3] r).*1
               /\ v = colsum zero
                        (product_entries [0; 3; 3; 5] [2; 0; 2; 1; 1] [1; 2; 3; 4; -4]
                           [0; 1; 3; 4] [1; 0; 2; 2] [5; 6; 7; -3] r) k
               /\ nonzero v = true).
Proof.
  split; [reflexivity|]. split; [reflexivity|].
  exact (csrmucsr_result 3 3 3 [0; 3; 3; 5] [2; 0; 2; 1; 1] [1; 2; 3; 4; -4]
           [0; 1; 3; 4] [1; 0; 2; 2] [5; 6; 7; -3] eq_refl eq_refl).
Defined.

(** X2. On well-formed operands of the same shape and empty output vectors,
    [csr_binop_csr] returns a well-formed matrix of that shape. Row [r]
    stores pairwise distinct columns; it stores [(k, v)] exactly when [k]
    is stored in row [r] of [A] or of [B], [v = op a b] for the sums [a] and
    [b] of the entries of column [k] in row [r] of [A] and of [B], and [v]
    is nonzero. *)
Theorem csr_binop_csr_result {T : Type} `{!Scalar T}
    (n_row n_col : Z)
    (Ap Aj : list Z) (Ax : list T) (Bp Bj : list Z) (Bx : list T)
    (op : T -> T -> T) :
  valid_csr n_row n_col Ap Aj Ax = true ->
  valid_csr n_row n_col Bp Bj Bx = true ->
  let '(Cp, Cj, Cx) := csr_binop_csr n_row n_col Ap Aj Ax Bp Bj Bx [] [] [] op in
  valid_csr n_row n_col Cp Cj Cx = true
  /\ distinct_columns n_row Cp Cj Cx = true
  /\ forall r k v, 0 <= r < n_row ->
       (k, v) ∈ row_entries Cp Cj Cx r
       <-> (k ∈ (row_entries Ap Aj Ax r).*1 \/ k ∈ (row_entries Bp Bj Bx r).*1)
           /\ v = op (colsum zero (row_entries Ap Aj Ax r) k)
                     (colsum zero (row_entries Bp Bj Bx r) k)
           /\ nonzero v = true.
Proof.
  intros HA%valid_csr_ok HB%valid_csr_ok.
  pose proof (ok_rows _ _ _ _ _ HA) as Hn. pose proof (ok_cols _ _ _ _ _ HA) as Hc.
  destruct (csr_binop_csr_rows op n_row n_col Ap Aj Ax Bp Bj Bx HA HB)
    as (Cp & Cj & Cx & Heq & HCx & Hlen & Hptr & Hrows).
  rewrite Heq.
  assert (HCj : Cj = (binop_drained_rows op Ap Aj Ax Bp Bj Bx n_row).*1).
  { unfold csr_binop_csr in Heq.
    destruct (csr_binop_rows_spec op n_row n_col Ap Aj Ax Bp Bj Bx [] [] [] n_row HA HB)
      as (Cp' & Heq' & _); [lia|].
    rewrite Heq' in Heq. by injection Heq as _ <- _. }
  split; [|split].
  - apply csr_ok_valid.
    apply (rows_built n_row n_col
             (fun r => binop_drained op (row_entries Ap Aj Ax r)
                         (row_entries Bp Bj Bx r))); try done.
    + rewrite HCj. rewrite <- (length_fmap fst). by apply take_ge.
    + rewrite HCx. rewrite <- (length_fmap snd). by apply take_ge.
    + intros r e Hr He. apply elem_of_binop_drained in He as ([He|He] & _).
      * apply list_elem_of_fmap in He as (e' & -> & He').
        by apply (row_entries_range n_row n_col Ap Aj Ax r e').
      * apply list_elem_of_fmap in He as (e' & -> & He').
        by apply (row_entries_range n_row n_col Bp Bj Bx r e').
  - apply distinct_columns_spec. intros r Hr. rewrite Hrows by done.
    apply NoDup_binop_drained.
  - intros r k v Hr. rewrite Hrows by done.
    apply (elem_of_binop_drained _ _ _ (k, v)).
Qed.

(** An instance: the difference of two 3 x 3 matrices. *)
Lemma csr_binop_csr_result_witness :
  valid_csr 3 3 [0; 3; 3; 5] [2; 0; 2; 1; 1] [1; 2; 3; 4; -4] = true
  /\ valid_csr 3 3 [0; 1; 3; 4] [1; 0; 2; 2] [5; 6; 7; -3] = true
  /\ (let '(Cp, Cj, Cx) :=
        csr_binop_csr 3 3 [0; 3; 3; 5] [2; 0; 2; 1; 1] [1; 2; 3; 4; -4]
          [0; 1; 3; 4] [1; 0; 2; 2] [5; 6; 7; -3] [] [] [] Z.sub in
      valid_csr 3 3 Cp Cj Cx = true /\ distinct_columns 3 Cp Cj Cx = true).
Proof.
  split; [reflexivity|]. split; [reflexivity|].
  pose proof (csr_binop_csr_result 3 3 [0; 3; 3; 5] [2; 0; 2; 1; 1] [1; 2; 3; 4; -4]
                [0; 1; 3; 4] [1; 0; 2; 2] [5; 6; 7; -3] Z.sub eq_refl eq_refl) as H.
  destruct (csr_binop_csr 3 3 [0; 3; 3; 5] [2; 0; 2; 1; 1] [1; 2; 3; 4; -4]
              [0; 1; 3; 4] [1; 0; 2; 2] [5; 6; 7; -3] [] [] [] Z.sub) as [[Cp Cj] Cx].
  destruct H as (H1 & H2 & _). by split.
Defined.

(** X3. On a well-formed matrix, [sum_csr_duplicates] returns a well-formed
    matrix of the same shape in arrays of unchanged length, with at most as
    many stored entries as before. Row [r] of the result stores pairwise
    distinct columns; it stores [(k, v)] exactly when [k] is stored in row
    [r] of the input, [v] is the sum of the entries of column [k] in that
    row, and [v] is nonzero. *)
Theorem sum_csr_duplicates_result {T : Type} `{!Scalar T}
    (n_row n_col : Z) (Ap Aj : list Z) (Ax : list T) :
  valid_csr n_row n_col Ap Aj Ax = true ->
  exists Ap' Aj' Ax',
    sum_csr_duplicates n_row n_col Ap Aj Ax = Some (Ap', Aj', Ax')
    /\ length Ap' = length Ap /\ length Aj' = length Aj /\ length Ax' = length Ax
    /\ valid_csr n_row n_col Ap' Aj' Ax' = true
    /\ idx Ap' n_row <= idx Ap n_row
    /\ distinct_columns n_row Ap' Aj' Ax' = true
    /\ forall r k v, 0 <= r < n_row ->
         (k, v) ∈ row_entries Ap' Aj' Ax' r
         <-> k ∈ (row_entries Ap Aj Ax r).*1
             /\ v = colsum zero (row_entries Ap Aj Ax r) k
             /\ nonzero v = true.
Proof.
  intros Hok%valid_csr_ok.
  destruct (sum_csr_duplicates_spec n_row n_col Ap Aj Ax Hok)
    as (Ap' & Aj' & Ax' & Heq & HlAp & HlAj & HlAx & Hptr & Hle & _ & _ & Hrows).
  exists Ap', Aj', Ax'. split; [done|]. split; [done|]. split; [done|].
  split; [done|]. split.
  { apply csr_ok_valid. by apply (sum_csr_duplicates_ok n_row n_col Ap Aj Ax). }
  split; [done|]. split.
  - apply distinct_columns_spec. intros r Hr. rewrite Hrows by done.
    apply NoDup_drained.
  - intros r k v Hr. rewrite Hrows by done. apply (elem_of_drained _ (k, v)).
Qed.

(** An instance: a duplicated column in row 0, two cancelling entries in
    row 2. *)
Lemma sum_csr_duplicates_result_witness :
  valid_csr 3 3 [0; 3; 3; 5] [2; 0; 2; 1; 1] [1; 2; 3; 4; -4] = true
  /\ exists Ap' Aj' Ax',
       sum_csr_duplicates 3 3 [0; 3; 3; 5] [2; 0; 2; 1; 1] [1; 2; 3; 4; -4]
       = Some (Ap', Aj', Ax')
       /\ length Ap' = 4%nat /\ length Aj' = 5%nat /\ length Ax' = 5%nat
       /\ valid_csr 3 3 Ap' Aj' Ax' = true
       /\ idx Ap' 3 <= 5
       /\ distinct_columns 3 Ap' Aj' Ax' = true
       /\ forall r k v, 0 <= r < 3 ->
            (k, v) ∈ row_entries Ap' Aj' Ax' r
            <-> k ∈ (row_entries [0; 3; 3; 5] [2; 0; 2; 1; 1] [1; 2; 3; 4; -4] r).*1
                /\ v = colsum zero
                         (row_entries [0; 3; 3; 5] [2; 0; 2; 1; 1] [1; 2; 3; 4; -4] r) k
                /\ nonzero v = true.
Proof.
  split; [reflexivity|].
  exact (sum_csr_duplicates_result 3 3 [0; 3; 3; 5] [2; 0; 2; 1; 1] [1; 2; 3; 4; -4]
           eq_refl).
Defined.

(** X4. On a well-formed matrix whose rows store pairwise distinct columns
    and no zero, and for a value type with [0 + x = x],
    [sum_csr_duplicates] changes neither the row pointer nor the content of
    any row, but reverses the storage order of every row. *)
Theorem sum_csr_duplicates_canonical_reverses {T : Type} `{!Scalar T}
    (n_row n_col : Z) (Ap Aj : list Z) (Ax : list T) :
  (forall x : T, add zero x = x) ->
  valid_csr n_row n_col Ap Aj Ax = true ->
  distinct_columns n_row Ap Aj Ax = true ->
  no_stored_zero n_row Ap Aj Ax = true ->
  exists Aj' Ax',
    sum_csr_duplicates n_row n_col Ap Aj Ax = Some (Ap, Aj', Ax')
    /\ forall r, 0 <= r < n_row ->
         row_entries Ap Aj' Ax' r = reverse (row_entries Ap Aj Ax r).
Proof.
  intros Hadd Hok%valid_csr_ok Hnd Hnz.
  rewrite distinct_columns_spec in Hnd. rewrite no_stored_zero_spec in Hnz.
  destruct (sum_csr_duplicates_spec n_row n_col Ap Aj Ax Hok)
    as (Ap' & Aj' & Ax' & Heq & HlAp & _ & _ & _ & _ & _ & _ & Hrows).
  pose proof (sum_csr_duplicates_ok _ _ _ _ _ _ _ _ Hok Heq) as Hok'.
  assert (Hrev : forall r, 0 <= r < n_row ->
            row_entries Ap' Aj' Ax' r = reverse (row_entries Ap Aj Ax r)).
  { intros r Hr. rewrite Hrows by done. apply drained_canonical; auto. }
  assert (Ap' = Ap) as ->.
  { apply (row_pointer_unique n_row n_col n_col Ap' Aj' Ax' Ap Aj Ax Hok' Hok).
    intros r Hr. rewrite Hrev by done. apply length_reverse. }
  by exists Aj', Ax'.
Qed.

(** An instance with an unsorted row of three entries. *)
Lemma sum_csr_duplicates_canonical_reverses_witness :
  valid_csr 2 3 [0; 3; 4] [2; 0; 1; 1] [1; 2; 3; 4] = true
  /\ distinct_columns 2 [0; 3; 4] [2; 0; 1; 1] [1; 2; 3; 4] = true
  /\ no_stored_zero 2 [0; 3; 4] [2; 0; 1; 1] [1; 2; 3; 4] = true
  /\ exists Aj' Ax',
       sum_csr_duplicates 2 3 [0; 3; 4] [2; 0; 1; 1] [1; 2; 3; 4]
       = Some ([0; 3; 4], Aj', Ax')
       /\ forall r, 0 <= r < 2 ->
            row_entries [0; 3; 4] Aj' Ax' r
            = reverse (row_entries [0; 3; 4] [2; 0; 1; 1] [1; 2; 3; 4] r).
Proof.
  split; [reflexivity|]. split; [reflexivity|]. split; [reflexivity|].
  exact (sum_csr_duplicates_canonical_reverses 2 3 [0; 3; 4] [2; 0; 1; 1] [1; 2; 3; 4]
           Z.add_0_l eq_refl eq_refl eq_refl).
Defined.

(** X5. For a value type in which a product with 0 is 0 and the test
    [0 != 0] fails, the elementwise product [csr_elmul_csr] of two
    well-formed matrices never stores a column that one of the operands
    does not store in the same row. *)
Theorem csr_elmul_csr_support {T : Type} `{!Scalar T}
    (n_row n_col : Z)
    (Ap Aj : list Z) (Ax : list T) (Bp Bj : list Z) (Bx : list T) :
  (forall x : T, mul x zero = zero) ->
  (forall x : T, mul zero x = zero) ->
  nonzero (zero : T) = false ->
  valid_csr n_row n_col Ap Aj Ax = true ->
  valid_csr n_row n_col Bp Bj Bx = true ->
  let '(Cp, Cj, Cx) := csr_elmul_csr n_row n_col Ap Aj Ax Bp Bj Bx [] [] [] in
  forall r k, 0 <= r < n_row -> k ∈ (row_entries Cp Cj Cx r).*1 ->
    k ∈ (row_entries Ap Aj Ax r).*1 /\ k ∈ (row_entries Bp Bj Bx r).*1.
Proof.
  intros Hr0 Hl0 Hz HA%valid_csr_ok HB%valid_csr_ok. unfold csr_elmul_csr.
  destruct (csr_binop_csr_rows mul n_row n_col Ap Aj Ax Bp Bj Bx HA HB)
    as (Cp & Cj & Cx & -> & _ & _ & _ & Hrows).
  intros r k Hr Hk. rewrite Hrows in Hk by done.
  apply list_elem_of_fmap in Hk as ([k' v] & -> & He). simpl.
  apply elem_of_binop_drained in He as (_ & Hv & Hnz). simpl in *.
  split.
  - destruct (decide (k' ∈ (row_entries Ap Aj Ax r).*1)) as [|Hno]; [done|].
    rewrite (colsum_absent _ (row_entries Ap Aj Ax r)), Hl0 in Hv by done.
    congruence.
  - destruct (decide (k' ∈ (row_entries Bp Bj Bx r).*1)) as [|Hno]; [done|].
    rewrite (colsum_absent _ (row_entries Bp Bj Bx r)), Hr0 in Hv by done.
    congruence.
Qed.

(** An instance: only column 2 of row 0 is stored in both operands. *)
Lemma csr_elmul_csr_support_witness :
  valid_csr 3 3 [0; 3; 3; 5] [2; 0; 2; 1; 1] [1; 2; 3; 4; -4] = true
  /\ valid_csr 3 3 [0; 2; 3; 4] [1; 2; 2; 2] [5; 6; 7; -3] = true
  /\ (let '(Cp, Cj, Cx) :=
        csr_elmul_csr 3 3 [0; 3; 3; 5] [2; 0; 2; 1; 1] [1; 2; 3; 4; -4]
          [0; 2; 3; 4] [1; 2; 2; 2] [5; 6; 7; -3] [] [] [] in
      forall r k, 0 <= r < 3 -> k ∈ (row_entries Cp Cj Cx r).*1 ->
        k ∈ (row_entries [0; 3; 3; 5] [2; 0; 2; 1; 1] [1; 2; 3; 4; -4] r).*1
        /\ k ∈ (row_entries [0; 2; 3; 4] [1; 2; 2; 2] [5; 6; 7; -3] r).*1).
Proof.
  split; [reflexivity|]. split; [reflexivity|].
  exact (csr_elmul_csr_support 3 3 [0; 3; 3; 5] [2; 0; 2; 1; 1] [1; 2; 3; 4; -4]
           [0; 2; 3; 4] [1; 2; 2; 2] [5; 6; 7; -3]
           Z.mul_0_r Z.mul_0_l eq_refl eq_refl eq_refl).
Defined.

(** X6. On a well-formed CSR matrix and preallocated output arrays,
    [csr_tocsc] returns arrays of unchanged length that form a well-formed
    matrix of the transposed shape, and the conversion is stable: slice [c]
    of the result lists the (row, value) pairs of the entries stored in
    column [c], in the order in which the input stores them. *)
Theorem csr_tocsc_stable {T : Type} `{!Scalar T}
    (n_row n_col : Z) (Ap Aj : list Z) (Ax : list T)
    (Bp Bi : list Z) (Bx : list T) :
  valid_csr n_row n_col Ap Aj Ax = true ->
  Z.of_nat (length Bp) = n_col + 1 ->
  idx Ap n_row <= Z.of_nat (length Bi) ->
  idx Ap n_row <= Z.of_nat (length Bx) ->
  let '(Bp', Bi', Bx') := csr_tocsc n_row n_col Ap Aj Ax Bp Bi Bx in
  length Bp' = length Bp /\ length Bi' = length Bi /\ length Bx' = length Bx
  /\ valid_csr n_col n_row Bp' Bi' Bx' = true
  /\ forall c, 0 <= c < n_col ->
       row_entries Bp' Bi' Bx' c
       = (fun t => (t.1.1, t.2))
           <$> filter (fun t => t.1.2 = c) (triples n_row Ap Aj Ax).
Proof.
  intros Hok%valid_csr_ok HBp HBi HBx.
  destruct (csr_tocsc_spec n_row n_col Ap Aj Ax Bp Bi Bx Hok HBp HBi HBx)
    as (Bp' & Bi' & Bx' & Heq & H1 & H2 & H3 & _ & Hrows).
  rewrite Heq.
  destruct (csr_tocsc_ok _ _ _ _ _ _ _ _ _ _ _ Hok HBp HBi HBx Heq) as [Hok' _].
  split; [done|]. split; [done|]. split; [done|].
  split; [by apply csr_ok_valid|]. apply Hrows.
Qed.

(** An instance: column 2 is stored twice in row 0, column 1 twice in
    row 2. *)
Lemma csr_tocsc_stable_witness :
  valid_csr 3 3 [0; 3; 3; 5] [2; 0; 2; 1; 1] [1; 2; 3; 4; -4] = true
  /\ (let '(Bp', Bi', Bx') :=
        csr_tocsc 3 3 [0; 3; 3; 5] [2; 0; 2; 1; 1] [1; 2; 3; 4; -4]
          [0; 0; 0; 0] [0; 0; 0; 0; 0] [0; 0; 0; 0; 0] in
      length Bp' = 4%nat /\ length Bi' = 5%nat /\ length Bx' = 5%nat
      /\ valid_csr 3 3 Bp' Bi' Bx' = true
      /\ forall c, 0 <= c < 3 ->
           row_entries Bp' Bi' Bx' c
           = (fun t => (t.1.1, t.2))
               <$> filter (fun t => t.1.2 = c)
                     (triples 3 [0; 3; 3; 5] [2; 0; 2; 1; 1] [1; 2; 3; 4; -4])).
Proof.
  split; [reflexivity|].
  exact (csr_tocsc_stable 3 3 [0; 3; 3; 5] [2; 0; 2; 1; 1] [1; 2; 3; 4; -4]
           [0; 0; 0; 0] [0; 0; 0; 0; 0] [0; 0; 0; 0; 0]
           eq_refl eq_refl ltac:(vm_compute; discriminate)
           ltac:(vm_compute; discriminate)).
Defined.


(** ** The two-pass product: what the numeric pass writes *)

Section matmat_content.
Context {T : Type} `{!Scalar T}.
Implicit Types (Ap Aj Bp Bj Cp Cj next : list Z) (Ax Bx Cx sums : list T).

Lemma length_bind_mono {A B C : Type} (f : A -> list B) (g : A -> list C) (l : list A) :
  (forall x, (length (f x) <= length (g x))%nat) ->
  (length (l ≫= f) <= length (l ≫= g))%nat.
Proof.
  intros Hfg. induction l as [|x l IH]; [done|].
  rewrite !bind_cons, !length_app. specialize (Hfg x). lia.
Qed.

Lemma length_drained_touch (es : list (Z * T)) :
  (length (drained es) <= length (touch_order [] es.*1))%nat.
Proof. unfold drained. etrans; [apply length_filter|]. by rewrite length_fmap. Qed.

Lemma length_product_drained_le Ap Aj Ax Bp Bj Bx r n :
  0 <= r <= n ->
  (length (product_drained Ap Aj Ax Bp Bj Bx r)
   <= length (product_drained Ap Aj Ax Bp Bj Bx n))%nat.
Proof.
  intros Hr. unfold product_drained.
  replace n with (r + (n - r)) at 1 by lia.
  rewrite seqZ_app, bind_app, length_app by lia. lia.
Qed.

(** The emptying loop of the numeric pass with room for what it emits:
    the seen columns with nonzero sums are written from the cursor on. *)
Lemma pass2_drain_content n o : forall next sums head len nnz Cj Cx,
  acc_inv n next head len o ->
  Z.of_nat (length sums) = n ->
  (forall k, 0 <= k < n -> k ∉ o -> val sums k = zero) ->
  0 <= nnz ->
  let d := filter (fun e => nonzero e.2 = true) ((fun k => (k, val sums k)) <$> o) in
  nnz + Z.of_nat (length d) <= Z.of_nat (length Cj) ->
  nnz + Z.of_nat (length d) <= Z.of_nat (length Cx) ->
  exists Cj' Cx',
    for_range 0 len (fun '(next, sums, head, nnz, Cj, Cx) (_ : Z) =>
        let '(nnz, Cj, Cx) :=
          if nonzero (val sums head)
          then (nnz + 1, aset Cj nnz head, aset Cx nnz (val sums head))
          else (nnz, Cj, Cx) in
        let temp := head in
        let head := idx next head in
        (aset next temp (-1), aset sums temp zero, head, nnz, Cj, Cx))
      (next, sums, head, nnz, Cj, Cx)
    = (vec_new n (-1), vec_new n zero, -2, nnz + Z.of_nat (length d), Cj', Cx')
    /\ length Cj' = length Cj /\ length Cx' = length Cx
    /\ take (Z.to_nat nnz + length d) Cj' = take (Z.to_nat nnz) Cj ++ d.*1
    /\ take (Z.to_nat nnz + length d) Cx' = take (Z.to_nat nnz) Cx ++ d.*2.
Proof.
  induction o as [|k o IH];
    intros next sums head len nnz Cj Cx Hinv Hlen Hclean Hnnz d HCj HCx.
  - apply acc_inv_empty in Hinv as (-> & -> & ->).
    rewrite for_range_nil by lia. subst d. simpl.
    rewrite Z.add_0_r, Nat.add_0_r, !app_nil_r.
    exists Cj, Cx. split; [|done]. do 5 f_equal. apply (array_all zero); [done|].
    intros i Hi. apply Hclean; [done|apply not_elem_of_nil].
  - pose proof (acc_len _ _ _ _ _ Hinv) as Hl. simpl in Hl.
    pose proof (acc_range _ _ _ _ _ Hinv k ltac:(left)) as Hk.
    pose proof (acc_nodup _ _ _ _ _ Hinv) as [Hko _]%NoDup_cons.
    apply acc_inv_unlink in Hinv as [-> Hinv].
    rewrite for_range_const_first; [|by intros [[[[[??]?]?]?]?] ??|lia].
    assert (Hmap : (fun k' => (k', val (aset sums k zero) k')) <$> o
                 = (fun k' => (k', val sums k')) <$> o).
    { apply list_fmap_ext. intros _ k' Hk'%list_elem_of_lookup_2.
      unfold val. rewrite aget_aset_ne; [done|by intros ->]. }
    assert (Hclean' : forall k', 0 <= k' < n -> k' ∉ o ->
              val (aset sums k zero) k' = zero).
    { intros k' Hk' Hno. unfold val. destruct (decide (k = k')) as [<-|Hne].
      - by rewrite aget_aset_eq by lia.
      - rewrite aget_aset_ne by done. apply Hclean; [done|].
        by apply not_elem_of_cons. }
    subst d. revert HCj HCx. rewrite fmap_cons, filter_cons.
    change ((k, val sums k).2) with (val sums k).
    cbv beta iota zeta. cbv beta iota zeta in IH.
    destruct (nonzero (val sums k)) eqn:Hnz; cbv beta iota.
    + rewrite decide_True by done. simpl length. intros HCj HCx.
      destruct (IH _ (aset sums k zero) _ _ (nnz + 1)
                  (aset Cj nnz k) (aset Cx nnz (val sums k)) Hinv)
        as (Cj' & Cx' & -> & HlCj & HlCx & HtCj & HtCx);
        [by rewrite length_aset|done|lia|rewrite Hmap, length_aset; lia..|].
      rewrite Hmap in *. rewrite !length_aset in *.
      set (d := filter (fun e => nonzero e.2 = true)
                  ((fun k' => (k', val sums k')) <$> o)) in *.
      exists Cj', Cx'.
      replace (nnz + 1 + Z.of_nat (length d)) with (nnz + Z.of_nat (S (length d)))
        in * by lia.
      replace (Z.to_nat (nnz + 1)) with (S (Z.to_nat nnz)) in * by lia.
      replace (Z.to_nat nnz + S (length d))%nat
        with (S (Z.to_nat nnz) + length d)%nat by lia.
      rewrite take_aset_snoc in HtCj by lia. rewrite take_aset_snoc in HtCx by lia.
      rewrite HtCj, HtCx, <- !app_assoc. done.
    + rewrite decide_False by done. intros HCj HCx.
      destruct (IH _ (aset sums k zero) _ _ nnz Cj Cx Hinv)
        as (Cj' & Cx' & -> & HlCj & HlCx & HtCj & HtCx);
        [by rewrite length_aset|done|lia|rewrite Hmap; lia..|].
      rewrite Hmap in *. by exists Cj', Cx'.
Qed.

(** One row of the numeric pass, started on a cleared accumulator, with
    room for the row. *)
Lemma pass2_row_content n_col Ap Aj Ax Bp Bj Bx nnz Cp Cj Cx i :
  0 <= n_col ->
  (forall e, e ∈ product_entries Ap Aj Ax Bp Bj Bx i -> 0 <= e.1 < n_col) ->
  0 <= nnz ->
  let d := drained (product_entries Ap Aj Ax Bp Bj Bx i) in
  nnz + Z.of_nat (length d) <= Z.of_nat (length Cj) ->
  nnz + Z.of_nat (length d) <= Z.of_nat (length Cx) ->
  exists Cj' Cx',
    pass2_row Ap Aj Ax Bp Bj Bx
      (vec_new n_col (-1), vec_new n_col zero, nnz, Cp, Cj, Cx) i
    = (vec_new n_col (-1), vec_new n_col zero, nnz + Z.of_nat (length d),
       aset Cp (i + 1) (nnz + Z.of_nat (length d)), Cj', Cx')
    /\ length Cj' = length Cj /\ length Cx' = length Cx
    /\ take (Z.to_nat nnz + length d) Cj' = take (Z.to_nat nnz) Cj ++ d.*1
    /\ take (Z.to_nat nnz + length d) Cx' = take (Z.to_nat nnz) Cx ++ d.*2.
Proof.
  intros Hn Hrange Hnnz d. unfold pass2_row.
  set (es := product_entries Ap Aj Ax Bp Bj Bx i) in *.
  match goal with
  | |- context [for_range (idx Ap i) (idx Ap (i + 1)) ?f ?s] =>
      assert (Htouch : for_range (idx Ap i) (idx Ap (i + 1)) f s = acc_fold s es)
  end.
  { unfold es, product_entries, acc_fold, for_range.
    rewrite foldl_bind. apply foldl_ext_in. intros st jj _.
    rewrite foldl_fmap. apply foldl_ext_in. by intros [[[??]?]?] kk _. }
  rewrite Htouch. clear Htouch.
  destruct (acc_fold_spec n_col es _ (vec_new n_col zero) _ _ _
              (acc_inv_init n_col Hn) (length_vec_new _ _ Hn) Hrange)
    as (next' & sums' & head' & len' & -> & Hinv & Hlen & Hsums).
  assert (Hsums' : forall k, val sums' k = colsum zero es k).
  { intros k. by rewrite Hsums, val_vec_new_zero. }
  assert (Hd : filter (fun e => nonzero e.2 = true)
                 ((fun k => (k, val sums' k)) <$> touch_order [] es.*1) = d).
  { unfold d, drained. f_equal. apply list_fmap_ext. intros; by rewrite Hsums'. }
  intros HCj HCx.
  destruct (pass2_drain_content n_col _ next' sums' head' len' nnz Cj Cx Hinv)
    as (Cj' & Cx' & Hdr & Hrest).
  - rewrite Hlen. by apply length_vec_new.
  - intros k Hk Hno. rewrite Hsums'. by apply colsum_unseen.
  - done.
  - by rewrite Hd.
  - by rewrite Hd.
  - rewrite Hd in Hdr, Hrest. cbv beta iota zeta in Hdr |- *. rewrite Hdr.
    by exists Cj', Cx'.
Qed.

(** The numeric pass on arrays with room for the product. *)
Lemma csr_matmat_pass2_content n_row n_mid n_col Ap Aj Ax Bp Bj Bx Cp Cj Cx :
  csr_ok n_row n_mid Ap Aj Ax -> csr_ok n_mid n_col Bp Bj Bx ->
  Z.of_nat (length Cp) = n_row + 1 ->
  (length (product_drained Ap Aj Ax Bp Bj Bx n_row) <= length Cj)%nat ->
  (length (product_drained Ap Aj Ax Bp Bj Bx n_row) <= length Cx)%nat ->
  exists Cp' Cj' Cx',
    csr_matmat_pass2 n_row n_col Ap Aj Ax Bp Bj Bx Cp Cj Cx = (Cp', Cj', Cx')
    /\ length Cp' = length Cp /\ length Cj' = length Cj /\ length Cx' = length Cx
    /\ (forall r, 0 <= r <= n_row ->
          idx Cp' r = Z.of_nat (length (product_drained Ap Aj Ax Bp Bj Bx r)))
    /\ take (length (product_drained Ap Aj Ax Bp Bj Bx n_row)) Cj'
       = (product_drained Ap Aj Ax Bp Bj Bx n_row).*1
    /\ take (length (product_drained Ap Aj Ax Bp Bj Bx n_row)) Cx'
       = (product_drained Ap Aj Ax Bp Bj Bx n_row).*2.
Proof.
  intros HA HB HCp HCj HCx. unfold csr_matmat_pass2.
  pose proof (ok_cols _ _ _ _ _ HB) as Hn.
  pose proof (ok_rows _ _ _ _ _ HA) as Hrows.
  assert (Hgen : exists Cp' Cj' Cx',
    for_range 0 n_row (pass2_row Ap Aj Ax Bp Bj Bx)
      (vec_new n_col (-1), vec_new n_col zero, 0, aset Cp 0 0, Cj, Cx)
    = (vec_new n_col (-1), vec_new n_col zero,
       Z.of_nat (length (product_drained Ap Aj Ax Bp Bj Bx n_row)), Cp', Cj', Cx')
    /\ length Cp' = length Cp /\ length Cj' = length Cj /\ length Cx' = length Cx
    /\ (forall r, 0 <= r <= n_row ->
          idx Cp' r = Z.of_nat (length (product_drained Ap Aj Ax Bp Bj Bx r)))
    /\ take (length (product_drained Ap Aj Ax Bp Bj Bx n_row)) Cj'
       = (product_drained Ap Aj Ax Bp Bj Bx n_row).*1
    /\ take (length (product_drained Ap Aj Ax Bp Bj Bx n_row)) Cx'
       = (product_drained Ap Aj Ax Bp Bj Bx n_row).*2).
  { apply (for_range_ind (fun m st => 0 <= m <= n_row -> exists Cp' Cj' Cx',
      st = (vec_new n_col (-1), vec_new n_col zero,
            Z.of_nat (length (product_drained Ap Aj Ax Bp Bj Bx m)), Cp', Cj', Cx')
      /\ length Cp' = length Cp /\ length Cj' = length Cj /\ length Cx' = length Cx
      /\ (forall r, 0 <= r <= m ->
            idx Cp' r = Z.of_nat (length (product_drained Ap Aj Ax Bp Bj Bx r)))
      /\ take (length (product_drained Ap Aj Ax Bp Bj Bx m)) Cj'
         = (product_drained Ap Aj Ax Bp Bj Bx m).*1
      /\ take (length (product_drained Ap Aj Ax Bp Bj Bx m)) Cx'
         = (product_drained Ap Aj Ax Bp Bj Bx m).*2));
      [lia| | |lia].
    - intros _. exists (aset Cp 0 0), Cj, Cx.
      unfold product_drained. rewrite seqZ_nil by lia. simpl.
      split; [done|]. split; [apply length_aset|]. split; [done|]. split; [done|].
      split; [|by rewrite !take_0].
      intros r Hr. replace r with 0 by lia. rewrite seqZ_nil by lia. simpl.
      unfold idx. apply aget_aset_eq. lia.
    - intros r st Hr IH _.
      destruct IH as (Cp' & Cj' & Cx' & -> & HlCp & HlCj & HlCx & Hptr & HtCj & HtCx);
        [lia|].
      pose proof (product_drained_succ Ap Aj Ax Bp Bj Bx r ltac:(lia)) as HD.
      pose proof (length_product_drained_le Ap Aj Ax Bp Bj Bx (r + 1) n_row ltac:(lia))
        as Hle.
      rewrite HD, length_app in Hle.
      destruct (pass2_row_content n_col Ap Aj Ax Bp Bj Bx
                  (Z.of_nat (length (product_drained Ap Aj Ax Bp Bj Bx r)))
                  Cp' Cj' Cx' r Hn)
        as (Cj2 & Cx2 & -> & HlCj2 & HlCx2 & HtCj2 & HtCx2); [|lia|lia|lia|].
      { intros e. apply (product_entries_range n_row n_mid n_col); [done|done|lia]. }
      rewrite Nat2Z.id in HtCj2, HtCx2.
      exists (aset Cp' (r + 1)
                (Z.of_nat (length (product_drained Ap Aj Ax Bp Bj Bx r))
                 + Z.of_nat (length (drained (product_entries Ap Aj Ax Bp Bj Bx r))))),
        Cj2, Cx2.
      rewrite HD, length_app, !fmap_app.
      split; [by rewrite Nat2Z.inj_add|].
      split; [by rewrite length_aset|]. split; [congruence|]. split; [congruence|].
      split; [|by rewrite HtCj2, HtCx2, HtCj, HtCx].
      intros r' Hr'. unfold idx. destruct (decide (r' = r + 1)) as [->|Hne].
      + rewrite aget_aset_eq by lia. rewrite HD, length_app. lia.
      + rewrite aget_aset_ne by lia. apply Hptr. lia. }
  destruct Hgen as (Cp' & Cj' & Cx' & -> & H1 & H2 & H3 & H4 & H5 & H6).
  by exists Cp', Cj', Cx'.
Qed.

(** The row pointer written by the symbolic pass. *)
Lemma csr_matmat_pass1_ptr n_row n_mid n_col Ap Aj Ax Bp Bj Bx Cp :
  csr_ok n_row n_mid Ap Aj Ax -> csr_ok n_mid n_col Bp Bj Bx ->
  Z.of_nat (length Cp) = n_row + 1 ->
  length (csr_matmat_pass1 n_row n_col Ap Aj Bp Bj Cp) = length Cp
  /\ forall r, 0 <= r <= n_row ->
       idx (csr_matmat_pass1 n_row n_col Ap Aj Bp Bj Cp) r
       = Z.of_nat (length (seqZ 0 r ≫= fun i =>
                     touch_order [] (product_entries Ap Aj Ax Bp Bj Bx i).*1)).
Proof.
  intros HA HB HCp. unfold csr_matmat_pass1.
  pose proof (ok_cols _ _ _ _ _ HB) as Hn.
  pose proof (ok_rows _ _ _ _ _ HA) as Hrows.
  set (f := fun i => touch_order [] (product_entries Ap Aj Ax Bp Bj Bx i).*1).
  assert (Hgen : exists Cp',
    for_range 0 n_row (pass1_row Ap Aj Bp Bj) (vec_new n_col (-1), aset Cp 0 0)
    = (vec_new n_col (-1), Cp')
    /\ length Cp' = length Cp
    /\ forall r, 0 <= r <= n_row -> idx Cp' r = Z.of_nat (length (seqZ 0 r ≫= f))).
  { apply (for_range_ind (fun m st => 0 <= m <= n_row -> exists Cp',
      st = (vec_new n_col (-1), Cp') /\ length Cp' = length Cp
      /\ forall r, 0 <= r <= m -> idx Cp' r = Z.of_nat (length (seqZ 0 r ≫= f))));
      [lia| | |lia].
    - intros _. eexists. split; [reflexivity|]. split; [apply length_aset|].
      intros r Hr. replace r with 0 by lia. rewrite seqZ_nil by lia. simpl.
      unfold idx. apply aget_aset_eq. lia.
    - intros r st Hr IH _. destruct IH as (Cp' & -> & Hlen & Hdone); [lia|].
      rewrite (pass1_row_spec n_col Ap Aj Ax Bp Bj Bx); [|done|].
      2: { intros e. apply (product_entries_range n_row n_mid n_col); [done|done|lia]. }
      eexists. split; [reflexivity|]. split; [by rewrite length_aset|].
      intros r' Hr'. unfold idx. destruct (decide (r' = r + 1)) as [->|Hne].
      + rewrite aget_aset_eq by lia. fold (idx Cp' r). rewrite Hdone by lia.
        rewrite (bind_seqZ_succ f r) by lia. rewrite length_app. unfold f. lia.
      + rewrite aget_aset_ne by lia. apply Hdone. lia. }
  destruct Hgen as (Cp' & -> & Hlen & Hptr). by split.
Qed.

End matmat_content.


(** X7. The two-pass product agrees with [csrmucsr]. On well-formed
    operands, when the row pointer of [csr_matmat_pass1] is handed to
    [csr_matmat_pass2] together with index and value arrays of at least the
    size the first pass counted, the second pass keeps the array lengths,
    returns a well-formed matrix, and its row pointer and the stored prefix
    of its index and value arrays are exactly the three vectors that
    [csrmucsr] builds from empty ones. *)
Theorem csr_matmat_two_pass_agrees {T : Type} `{!Scalar T}
    (n_row n_mid n_col : Z)
    (Ap Aj : list Z) (Ax : list T) (Bp Bj : list Z) (Bx : list T)
    (Cp Cj : list Z) (Cx : list T) :
  valid_csr n_row n_mid Ap Aj Ax = true ->
  valid_csr n_mid n_col Bp Bj Bx = true ->
  Z.of_nat (length Cp) = n_row + 1 ->
  idx (csr_matmat_pass1 n_row n_col Ap Aj Bp Bj Cp) n_row <= Z.of_nat (length Cj) ->
  idx (csr_matmat_pass1 n_row n_col Ap Aj Bp Bj Cp) n_row <= Z.of_nat (length Cx) ->
  let '(Cp2, Cj2, Cx2) :=
    csr_matmat_pass2 n_row n_col Ap Aj Ax Bp Bj Bx
      (csr_matmat_pass1 n_row n_col Ap Aj Bp Bj Cp) Cj Cx in
  let '(Mp, Mj, Mx) := csrmucsr n_row n_col Ap Aj Ax Bp Bj Bx [] [] [] in
  length Cj2 = length Cj /\ length Cx2 = length Cx
  /\ valid_csr n_row n_col Cp2 Cj2 Cx2 = true
  /\ Cp2 = Mp
  /\ take (Z.to_nat (idx Cp2 n_row)) Cj2 = Mj
  /\ take (Z.to_nat (idx Cp2 n_row)) Cx2 = Mx.
Proof.
  intros HA%valid_csr_ok HB%valid_csr_ok HCp HCj HCx.
  pose proof (ok_rows _ _ _ _ _ HA) as Hrows.
  pose proof (ok_cols _ _ _ _ _ HB) as Hcols.
  destruct (csr_matmat_pass1_ptr n_row n_mid n_col Ap Aj Ax Bp Bj Bx Cp HA HB HCp)
    as [Hl1 Hp1].
  rewrite (Hp1 n_row) in HCj, HCx by lia.
  assert (Hle : (length (product_drained Ap Aj Ax Bp Bj Bx n_row)
                 <= length (seqZ 0 n_row ≫= fun i =>
                      touch_order [] (product_entries Ap Aj Ax Bp Bj Bx i).*1))%nat).
  { apply length_bind_mono. intros i. apply length_drained_touch. }
  destruct (csr_matmat_pass2_content n_row n_mid n_col Ap Aj Ax Bp Bj Bx
              (csr_matmat_pass1 n_row n_col Ap Aj Bp Bj Cp) Cj Cx HA HB)
    as (Cp2 & Cj2 & Cx2 & -> & HlCp & HlCj & HlCx & Hptr & HtCj & HtCx);
    [by rewrite Hl1|lia|lia|].
  destruct (csrmucsr_built n_row n_mid n_col Ap Aj Ax Bp Bj Bx HA HB)
    as (Mp & Mj & Mx & -> & HlMp & HMptr & -> & -> & _ & _).
  split; [done|]. split; [done|]. split; [|split; [|split]].
  - apply csr_ok_valid.
    apply (rows_built n_row n_col
             (fun r => drained (product_entries Ap Aj Ax Bp Bj Bx r))); try done.
    + by rewrite HlCp, Hl1.
    + intros r e Hr He%drained_column.
      apply list_elem_of_fmap in He as (e' & -> & He').
      by apply (product_entries_range n_row n_mid n_col Ap Aj Ax Bp Bj Bx r e').
  - apply (array_ext 0); [rewrite HlCp, Hl1; lia|].
    intros r Hr. fold (idx Cp2 r) (idx Mp r).
    rewrite Hptr, HMptr by (rewrite HlCp, Hl1 in Hr; lia). done.
  - rewrite Hptr by lia. by rewrite Nat2Z.id.
  - rewrite Hptr by lia. by rewrite Nat2Z.id.
Qed.

(** An instance: the symbolic pass counts 3 entries, one more than the
    product stores, because the products of row 2 cancel. *)
Lemma csr_matmat_two_pass_agrees_witness :
  valid_csr 3 3 [0; 3; 3; 5] [2; 0; 2; 1; 1] [1; 2; 3; 4; -4] = true
  /\ valid_csr 3 3 [0; 1; 3; 4] [1; 0; 2; 2] [5; 6; 7; -3] = true
  /\ (let '(Cp2, Cj2, Cx2) :=
        csr_matmat_pass2 3 3 [0; 3; 3; 5] [2; 0; 2; 1; 1] [1; 2; 3; 4; -4]
          [0; 1; 3; 4] [1; 0; 2; 2] [5; 6; 7; -3]
          (csr_matmat_pass1 3 3 [0; 3; 3; 5] [2; 0; 2; 1; 1]
             [0; 1; 3; 4] [1; 0; 2; 2] [9; 9; 9; 9])
          [8; 8; 8; 8] [7; 7; 7; 7] in
      let '(Mp, Mj, Mx) :=
        csrmucsr 3 3 [0; 3; 3; 5] [2; 0; 2; 1; 1] [1; 2; 3; 4; -4]
          [0; 1; 3; 4] [1; 0; 2; 2] [5; 6; 7; -3] [] [] [] in
      length Cj2 = 4%nat /\ length Cx2 = 4%nat
      /\ valid_csr 3 3 Cp2 Cj2 Cx2 = true
      /\ Cp2 = Mp
      /\ take (Z.to_nat (idx Cp2 3)) Cj2 = Mj
      /\ take (Z.to_nat (idx Cp2 3)) Cx2 = Mx).
Proof.
  split; [reflexivity|]. split; [reflexivity|].
  exact (csr_matmat_two_pass_agrees 3 3 3 [0; 3; 3; 5] [2; 0; 2; 1; 1] [1; 2; 3; 4; -4]
           [0; 1; 3; 4] [1; 0; 2; 2] [5; 6; 7; -3] [9; 9; 9; 9]
           [8; 8; 8; 8] [7; 7; 7; 7] eq_refl eq_refl eq_refl
           ltac:(vm_compute; discriminate) ltac:(vm_compute; discriminate)).
Defined.


(** ** [coo_tocsr]: the result *)

Section coo.
Context {T : Type} `{!Scalar T}.
Implicit Types (Ai Aj Bp Bj : list Z) (Ax Bx : list T) (E : list (Z * Z * T)).

Lemma valid_coo_spec n_row n_col nnz Ai Aj Ax :
  valid_coo n_row n_col nnz Ai Aj Ax = true ->
  0 <= n_row /\ 0 <= n_col /\ 0 <= nnz
  /\ nnz <= Z.of_nat (length Ai) /\ nnz <= Z.of_nat (length Aj)
  /\ nnz <= Z.of_nat (length Ax)
  /\ forall i, 0 <= i < nnz -> 0 <= idx Ai i < n_row /\ 0 <= idx Aj i < n_col.
Proof.
  unfold valid_coo. rewrite !andb_true_iff, forallb_seqZ.
  intros [[[[[[H1 H2] H3] H4] H5] H6] H7].
  repeat split; try lia.
  all: specialize (H7 i ltac:(lia)); rewrite !andb_true_iff in H7; lia.
Qed.

(** Buckets stored one after the other, with pointers counting the triples
    of the buckets before, form a well-formed matrix. *)
Lemma buckets_ok (n m : Z) E Bp Bj Bx :
  0 <= n -> 0 <= m ->
  (forall t, t ∈ E -> 0 <= t.1.1 < m /\ 0 <= t.1.2 < n) ->
  Z.of_nat (length Bp) = n + 1 ->
  Z.of_nat (length E) <= Z.of_nat (length Bj) ->
  Z.of_nat (length E) <= Z.of_nat (length Bx) ->
  (forall c, 0 <= c <= n -> idx Bp c = Z.of_nat (length (before c E))) ->
  (forall c, 0 <= c < n ->
     row_entries Bp Bj Bx c = (fun t => (t.1.1, t.2)) <$> bucket c E) ->
  csr_ok n m Bp Bj Bx.
Proof.
  intros Hn Hm HE HBp HBj HBx Hptr Hrows.
  assert (Hall : before n E = E) by (apply before_all; intros t Ht%HE; lia).
  assert (Hnnz : idx Bp n = Z.of_nat (length E)).
  { rewrite Hptr by lia. by rewrite Hall. }
  split.
  - done.
  - done.
  - done.
  - rewrite Hptr by lia. rewrite before_none; [done|]. intros t Ht%HE. lia.
  - intros c Hc. rewrite !Hptr by lia.
    pose proof (length_before_mono c (c + 1) E ltac:(lia)). lia.
  - lia.
  - lia.
  - intros p Hp. rewrite Hnnz, <- Hall in Hp.
    rewrite <- (Z2Nat.id n) in Hp by done.
    destruct (bucket_of_position E (Z.to_nat n) p Hp) as (c & Hc & Hpc).
    { intros t Ht%HE. lia. }
    set (k := Z.to_nat (p - Z.of_nat (length (before c E)))).
    destruct (lookup_lt_is_Some_2 (bucket c E) k) as [t Ht]; [lia|].
    assert (Hrow : row_entries Bp Bj Bx c !! k = Some (t.1.1, t.2)).
    { rewrite Hrows by lia. by rewrite list_lookup_fmap, Ht. }
    unfold row_entries in Hrow. rewrite list_lookup_fmap in Hrow.
    rewrite Hptr in Hrow by lia.
    rewrite lookup_seqZ_lt in Hrow.
    2: { rewrite Hptr by lia. rewrite length_before_succ. lia. }
    simpl in Hrow. injection Hrow as Hrow _.
    replace (Z.of_nat (length (before c E)) + Z.of_nat k) with p in Hrow by lia.
    rewrite Hrow. apply HE.
    apply list_elem_of_lookup_2 in Ht. by apply list_elem_of_filter in Ht as [_ Ht].
Qed.

(** The bucket of row [r] of the exchanged coordinate entries. *)
Lemma bucket_coo nnz Ai Aj Ax r :
  (fun t => (t.1.1, t.2)) <$> bucket r (transposed <$> coo_entries nnz Ai Aj Ax)
  = coo_row nnz Ai Aj Ax r.
Proof.
  unfold bucket, coo_row. rewrite filter_fmap_comm, <- list_fmap_compose.
  rewrite (list_filter_iff _ (fun t => t.1.1 = r)) by done.
  by apply list_fmap_ext.
Qed.

(** The counting sort of [coo_tocsr]: before duplicates are summed, row [r]
    holds the entries of row [r] in input order. *)
Lemma coo_scatter_spec n_row n_col nnz Ai Aj Ax Bp Bj Bx :
  valid_coo n_row n_col nnz Ai Aj Ax = true ->
  Z.of_nat (length Bp) = n_row + 1 ->
  nnz <= Z.of_nat (length Bj) ->
  nnz <= Z.of_nat (length Bx) ->
  exists Bp' Bj' Bx',
    coo_tocsr n_row n_col nnz Ai Aj Ax Bp Bj Bx
    = sum_csr_duplicates n_row n_col Bp' Bj' Bx'
    /\ length Bp' = length Bp /\ length Bj' = length Bj /\ length Bx' = length Bx
    /\ idx Bp' n_row = nnz
    /\ csr_ok n_row n_col Bp' Bj' Bx'
    /\ forall r, 0 <= r < n_row ->
         row_entries Bp' Bj' Bx' r = coo_row nnz Ai Aj Ax r.
Proof.
  intros (Hn & Hm & Hnnz & HAi & HAj & HAx & Hrange)%valid_coo_spec HBp HBj HBx.
  unfold coo_tocsr.
  set (E := transposed <$> coo_entries nnz Ai Aj Ax).
  assert (HlE : Z.of_nat (length E) = nnz).
  { unfold E, coo_entries. rewrite !length_fmap, length_seqZ. lia. }
  assert (HE : forall t, t ∈ E -> 0 <= t.1.1 < n_col /\ 0 <= t.1.2 < n_row).
  { intros t (t' & -> & Ht)%list_elem_of_fmap.
    apply list_elem_of_fmap in Ht as (i & -> & Hi%elem_of_seqZ). simpl.
    destruct (Hrange i ltac:(lia)). lia. }
  assert (Hall : before n_row E = E) by (apply before_all; intros t Ht%HE; lia).
  (* counting *)
  destruct (count_loop_spec n_row nnz Ai (vec_new n_row 0)) as [Hlc Hcount].
  { by apply length_vec_new. }
  { intros i Hi. by apply Hrange. }
  set (temp1 := count_loop nnz Ai (vec_new n_row 0)) in *.
  assert (Htemp1 : forall c, 0 <= c < n_row ->
            idx temp1 c = Z.of_nat (length (bucket c E))).
  { intros c Hc. rewrite Hcount by done.
    rewrite <- length_bucket_fmap. unfold E, coo_entries.
    rewrite <- !list_fmap_compose. unfold idx at 1. rewrite aget_vec_new by done.
    simpl. do 3 f_equal. }
  (* prefix sums *)
  destruct (cumsum_loop_spec n_row temp1 Bp
              (fun c => Z.of_nat (length (before c E))))
    as (Bp1 & -> & HlBp1 & HBp1 & _).
  { lia. }
  { rewrite before_none; [done|]. intros t Ht%HE. lia. }
  { intros c Hc. rewrite length_before_succ, Htemp1 by done. lia. }
  set (Bp2 := aset Bp1 n_row nnz).
  assert (HBp2 : forall c, 0 <= c <= n_row ->
            idx Bp2 c = Z.of_nat (length (before c E))).
  { intros c Hc. unfold Bp2, idx. destruct (decide (c = n_row)) as [->|Hne].
    - rewrite aget_aset_eq by lia. by rewrite Hall.
    - rewrite aget_aset_ne by done. apply HBp1. lia. }
  assert (HlBp2 : length Bp2 = length Bp) by (unfold Bp2; by rewrite length_aset).
  (* the cursors *)
  set (temp2 := array_copy Bp2 n_row temp1).
  assert (Hltemp1 : Z.of_nat (length temp1) = n_row).
  { rewrite Hlc. by apply length_vec_new. }
  assert (Hltemp2 : Z.of_nat (length temp2) = n_row).
  { unfold temp2, array_copy. rewrite length_app, length_take, length_drop. lia. }
  assert (Htemp2 : forall c, 0 <= c < n_row ->
            idx temp2 c = Z.of_nat (length (before c E))).
  { intros c Hc. rewrite <- HBp2 by lia. unfold idx.
    rewrite (aget_lookup 0 temp2 c (aget 0 Bp2 c)); [done|lia|].
    unfold temp2, array_copy. rewrite lookup_app_l by (rewrite length_take; lia).
    rewrite lookup_take_lt by lia. apply lookup_aget. lia. }
  (* scattering *)
  match goal with
  | |- context [for_range 0 nnz ?f ?s] =>
      assert (Hfold : for_range 0 nnz f s = foldl scatter_step s E)
  end.
  { unfold for_range, E, coo_entries. rewrite Z.sub_0_r, !foldl_fmap.
    apply foldl_ext_in. by intros [[??]?] i _. }
  rewrite Hfold. clear Hfold.
  destruct (scatter_spec n_row E temp2 Bj Bx Hltemp2) with (P := E) (Q := @nil (Z * Z * T))
    as (temp & Bj' & Bx' & -> & _ & HlBj' & HlBx' & _ & Hst).
  { intros t Ht%HE. lia. }
  { done. }
  { rewrite Hall. lia. }
  { rewrite Hall. lia. }
  { by rewrite app_nil_r. }
  assert (Hrows : forall c, 0 <= c < n_row ->
            row_entries Bp2 Bj' Bx' c = (fun t => (t.1.1, t.2)) <$> bucket c E).
  { intros c Hc. unfold row_entries. rewrite !HBp2 by lia.
    rewrite length_before_succ.
    replace (Z.of_nat (length (before c E) + length (bucket c E))
             - Z.of_nat (length (before c E)))
      with (Z.of_nat (length (bucket c E))) by lia.
    apply list_eq. intros k. rewrite !list_lookup_fmap.
    destruct (decide (k < length (bucket c E))%nat) as [Hk|Hk].
    - rewrite lookup_seqZ_lt by lia. simpl.
      destruct (lookup_lt_is_Some_2 _ _ Hk) as [t Ht]. rewrite Ht. simpl.
      destruct (Hst c k t Hc Ht) as [HBi1 HBx1].
      replace (Z.of_nat (length (before c E)) + Z.of_nat k)
        with (Z.of_nat (length (before c E) + k)) by lia.
      by rewrite HBi1, HBx1.
    - rewrite lookup_seqZ_ge by lia. by rewrite lookup_ge_None_2 by lia. }
  exists Bp2, Bj', Bx'. split; [done|]. split; [done|]. split; [done|].
  split; [done|]. split.
  { rewrite HBp2 by lia. by rewrite Hall. }
  split.
  - apply (buckets_ok n_row n_col E); try done; [lia..].
  - intros r Hr. rewrite Hrows by done. apply bucket_coo.
Qed.

End coo.

(** X8. On coordinate input with indices in range and preallocated output
    arrays, [coo_tocsr] returns a well-formed matrix in arrays of unchanged
    length. Row [r] of the result stores pairwise distinct columns; it
    stores [(k, v)] exactly when some input entry has row [r] and column
    [k], [v] is the sum of the values of these entries in input order, and
    [v] is nonzero. *)
Theorem coo_tocsr_result {T : Type} `{!Scalar T}
    (n_row n_col nnz : Z) (Ai Aj : list Z) (Ax : list T)
    (Bp Bj : list Z) (Bx : list T) :
  valid_coo n_row n_col nnz Ai Aj Ax = true ->
  Z.of_nat (length Bp) = n_row + 1 ->
  nnz <= Z.of_nat (length Bj) ->
  nnz <= Z.of_nat (length Bx) ->
  exists Bp' Bj' Bx',
    coo_tocsr n_row n_col nnz Ai Aj Ax Bp Bj Bx = Some (Bp', Bj', Bx')
    /\ length Bp' = length Bp /\ length Bj' = length Bj /\ length Bx' = length Bx
    /\ valid_csr n_row n_col Bp' Bj' Bx' = true
    /\ idx Bp' n_row <= nnz
    /\ distinct_columns n_row Bp' Bj' Bx' = true
    /\ forall r k v, 0 <= r < n_row ->
         (k, v) ∈ row_entries Bp' Bj' Bx' r
         <-> k ∈ (coo_row nnz Ai Aj Ax r).*1
             /\ v = colsum zero (coo_row nnz Ai Aj Ax r) k
             /\ nonzero v = true.
Proof.
  intros Hcoo HBp HBj HBx.
  destruct (coo_scatter_spec n_row n_col nnz Ai Aj Ax Bp Bj Bx Hcoo HBp HBj HBx)
    as (Bp1 & Bj1 & Bx1 & -> & Hl1 & Hl2 & Hl3 & Hnnz & Hok & Hrows1).
  destruct (sum_csr_duplicates_spec n_row n_col Bp1 Bj1 Bx1 Hok)
    as (Bp' & Bj' & Bx' & Heq & HlAp & HlAj & HlAx & Hptr & Hle & _ & _ & Hrows).
  exists Bp', Bj', Bx'. split; [done|].
  split; [congruence|]. split; [congruence|]. split; [congruence|]. split.
  { apply csr_ok_valid. by apply (sum_csr_duplicates_ok n_row n_col Bp1 Bj1 Bx1). }
  split; [lia|]. split.
  - apply distinct_columns_spec. intros r Hr. rewrite Hrows by done.
    apply NoDup_drained.
  - intros r k v Hr. rewrite Hrows, Hrows1 by done.
    apply (elem_of_drained _ (k, v)).
Qed.

(** An instance: four entries, two of them at position (1, 2). *)
Lemma coo_tocsr_result_witness :
  valid_coo 2 3 4 [1; 0; 1; 1] [2; 1; 0; 2] [5; 6; 7; 8] = true
  /\ exists Bp' Bj' Bx',
       coo_tocsr 2 3 4 [1; 0; 1; 1] [2; 1; 0; 2] [5; 6; 7; 8]
         [0; 0; 0] [0; 0; 0; 0] [0; 0; 0; 0] = Some (Bp', Bj', Bx')
       /\ length Bp' = 3%nat /\ length Bj' = 4%nat /\ length Bx' = 4%nat
       /\ valid_csr 2 3 Bp' Bj' Bx' = true
       /\ idx Bp' 2 <= 4
       /\ distinct_columns 2 Bp' Bj' Bx' = true
       /\ forall r k v, 0 <= r < 2 ->
            (k, v) ∈ row_entries Bp' Bj' Bx' r
            <-> k ∈ (coo_row 4 [1; 0; 1; 1] [2; 1; 0; 2] [5; 6; 7; 8] r).*1
                /\ v = colsum zero (coo_row 4 [1; 0; 1; 1] [2; 1; 0; 2] [5; 6; 7; 8] r) k
                /\ nonzero v = true.
Proof.
  split; [reflexivity|].
  exact (coo_tocsr_result 2 3 4 [1; 0; 1; 1] [2; 1; 0; 2] [5; 6; 7; 8]
           [0; 0; 0] [0; 0; 0; 0] [0; 0; 0; 0] eq_refl eq_refl
           ltac:(vm_compute; discriminate) ltac:(vm_compute; discriminate)).
Defined.


(** ** [csr_tocoo] *)

Section tocoo.
Context {T : Type} `{!Scalar T}.
Implicit Types (Ap Aj Bi Bj : list Z) (Ax Bx : list T) (E : list (Z * Z * T)).

Lemma push_triples E : forall Bi Bj Bx,
  foldl (fun '(Bi, Bj, Bx) t => (Bi ++ [t.1.1], Bj ++ [t.1.2], Bx ++ [t.2]))
    (Bi, Bj, Bx) E
  = (Bi ++ E.*1.*1, Bj ++ E.*1.*2, Bx ++ E.*2).
Proof.
  induction E as [|t E IH]; intros Bi Bj Bx; simpl.
  - by rewrite !app_nil_r.
  - rewrite IH, <- !app_assoc. done.
Qed.

(** [csr_tocoo] appends the triples of the matrix in storage order. *)
Lemma csr_tocoo_spec n_row n_col Ap Aj Ax Bi Bj Bx :
  csr_tocoo n_row n_col Ap Aj Ax Bi Bj Bx
  = (Bi ++ (triples n_row Ap Aj Ax).*1.*1,
     Bj ++ (triples n_row Ap Aj Ax).*1.*2,
     Bx ++ (triples n_row Ap Aj Ax).*2).
Proof.
  rewrite <- push_triples. unfold csr_tocoo, triples, row_entries, for_range.
  rewrite Z.sub_0_r, foldl_bind. apply foldl_ext_in. intros st i _. cbv zeta.
  rewrite !foldl_fmap. apply foldl_ext_in. by intros [[??]?] j _.
Qed.

(** Reading three parallel arrays back gives the list they were made of. *)
Lemma coo_entries_of_list E :
  coo_entries (Z.of_nat (length E)) E.*1.*1 E.*1.*2 E.*2 = E.
Proof.
  unfold coo_entries. apply list_eq. intros k. rewrite list_lookup_fmap.
  destruct (decide (k < length E)%nat) as [Hk|Hk].
  - rewrite lookup_seqZ_lt by lia. simpl.
    destruct (lookup_lt_is_Some_2 _ _ Hk) as [t Ht]. rewrite Ht. f_equal.
    change (0 + Z.of_nat k) with (Z.of_nat k).
    unfold idx, val.
    rewrite (aget_lookup _ _ _ t.1.1), (aget_lookup _ _ _ t.1.2), (aget_lookup _ _ _ t.2).
    + by destruct t as [[??]?].
    + lia.
    + rewrite Nat2Z.id. by rewrite list_lookup_fmap, Ht.
    + lia.
    + rewrite Nat2Z.id. by rewrite !list_lookup_fmap, Ht.
    + lia.
    + rewrite Nat2Z.id. by rewrite !list_lookup_fmap, Ht.
  - rewrite lookup_seqZ_ge by lia. by rewrite lookup_ge_None_2 by lia.
Qed.

Lemma valid_coo_intro n_row n_col nnz Ai Aj Ax :
  0 <= n_row -> 0 <= n_col -> 0 <= nnz ->
  nnz <= Z.of_nat (length Ai) -> nnz <= Z.of_nat (length Aj) ->
  nnz <= Z.of_nat (length Ax) ->
  (forall t, t ∈ coo_entries nnz Ai Aj Ax -> 0 <= t.1.1 < n_row /\ 0 <= t.1.2 < n_col) ->
  valid_coo n_row n_col nnz Ai Aj Ax = true.
Proof.
  intros H1 H2 H3 H4 H5 H6 H7. unfold valid_coo.
  rewrite !andb_true_iff, forallb_seqZ. repeat split; try lia.
  intros i Hi. rewrite !andb_true_iff.
  specialize (H7 (idx Ai i, idx Aj i, val Ax i)). simpl in H7.
  destruct H7; [|lia].
  unfold coo_entries. apply list_elem_of_fmap. exists i. split; [done|].
  apply elem_of_seqZ. lia.
Qed.

(** The entries of row [r] among the triples of a matrix. *)
Lemma coo_row_triples n_row Ap Aj Ax r :
  0 <= r < n_row ->
  (fun t => (t.1.2, t.2)) <$> filter (fun t => t.1.1 = r) (triples n_row Ap Aj Ax)
  = row_entries Ap Aj Ax r.
Proof.
  intros Hr. rewrite triples_row by done. rewrite <- list_fmap_compose.
  rewrite (list_fmap_ext _ id (row_entries Ap Aj Ax r)); [by rewrite list_fmap_id|].
  by intros m [??] _.
Qed.

(** What [csr_tocoo] makes of a well-formed matrix and empty vectors. *)
Lemma csr_tocoo_built n_row n_col Ap Aj Ax :
  csr_ok n_row n_col Ap Aj Ax ->
  exists Bi Bj Bx,
    csr_tocoo n_row n_col Ap Aj Ax [] [] [] = (Bi, Bj, Bx)
    /\ Z.of_nat (length Bi) = idx Ap n_row
    /\ Z.of_nat (length Bj) = idx Ap n_row
    /\ Z.of_nat (length Bx) = idx Ap n_row
    /\ coo_entries (idx Ap n_row) Bi Bj Bx = triples n_row Ap Aj Ax
    /\ valid_coo n_row n_col (idx Ap n_row) Bi Bj Bx = true.
Proof.
  intros Hok. rewrite csr_tocoo_spec. simpl app.
  pose proof (length_triples n_row n_col Ap Aj Ax Hok) as HlE.
  pose proof (coo_entries_of_list (triples n_row Ap Aj Ax)) as HE.
  rewrite HlE in HE.
  do 3 eexists. split; [reflexivity|].
  split; [by rewrite !length_fmap|]. split; [by rewrite !length_fmap|].
  split; [by rewrite !length_fmap|]. split; [done|].
  apply valid_coo_intro.
  - apply (ok_rows _ _ _ _ _ Hok).
  - apply (ok_cols _ _ _ _ _ Hok).
  - lia.
  - rewrite !length_fmap. lia.
  - rewrite !length_fmap. lia.
  - rewrite !length_fmap. lia.
  - rewrite HE. intros t Ht. by apply (triples_range n_row n_col Ap Aj Ax t Hok).
Qed.

End tocoo.

(** X9. Started on empty vectors, [csr_tocoo] returns three vectors of
    [Ap[n_row]] entries each that list the (row, column, value) triples of a
    well-formed matrix row by row and, within a row, in storage order; they
    are coordinate input with all indices in range. *)
Theorem csr_tocoo_lists_entries {T : Type} `{!Scalar T}
    (n_row n_col : Z) (Ap Aj : list Z) (Ax : list T) :
  valid_csr n_row n_col Ap Aj Ax = true ->
  let '(Bi, Bj, Bx) := csr_tocoo n_row n_col Ap Aj Ax [] [] [] in
  Z.of_nat (length Bi) = idx Ap n_row
  /\ Z.of_nat (length Bj) = idx Ap n_row
  /\ Z.of_nat (length Bx) = idx Ap n_row
  /\ coo_entries (idx Ap n_row) Bi Bj Bx = triples n_row Ap Aj Ax
  /\ valid_coo n_row n_col (idx Ap n_row) Bi Bj Bx = true.
Proof.
  intros Hok%valid_csr_ok.
  destruct (csr_tocoo_built n_row n_col Ap Aj Ax Hok)
    as (Bi & Bj & Bx & -> & H1 & H2 & H3 & H4 & H5).
  done.
Qed.

(** An instance with an empty row and duplicates. *)
Lemma csr_tocoo_lists_entries_witness :
  valid_csr 3 3 [0; 3; 3; 5] [2; 0; 2; 1; 1] [1; 2; 3; 4; -4] = true
  /\ (let '(Bi, Bj, Bx) :=
        csr_tocoo 3 3 [0; 3; 3; 5] [2; 0; 2; 1; 1] [1; 2; 3; 4; -4] [] [] [] in
      Z.of_nat (length Bi) = 5 /\ Z.of_nat (length Bj) = 5 /\ Z.of_nat (length Bx) = 5
      /\ coo_entries 5 Bi Bj Bx
         = triples 3 [0; 3; 3; 5] [2; 0; 2; 1; 1] [1; 2; 3; 4; -4]
      /\ valid_coo 3 3 5 Bi Bj Bx = true).
Proof.
  split; [reflexivity|].
  exact (csr_tocoo_lists_entries 3 3 [0; 3; 3; 5] [2; 0; 2; 1; 1] [1; 2; 3; 4; -4]
           eq_refl).
Defined.

(** X10. Converting a well-formed CSR matrix to coordinate form with
    [csr_tocoo] and back with [coo_tocsr] gives the matrix that
    [sum_csr_duplicates] makes of it: the same row pointer and, row by row,
    the same entries in the same order. *)
Theorem coo_tocsr_of_csr_tocoo {T : Type} `{!Scalar T}
    (n_row n_col : Z) (Ap Aj : list Z) (Ax : list T)
    (Cp Cj : list Z) (Cx : list T) :
  valid_csr n_row n_col Ap Aj Ax = true ->
  Z.of_nat (length Cp) = n_row + 1 ->
  idx Ap n_row <= Z.of_nat (length Cj) ->
  idx Ap n_row <= Z.of_nat (length Cx) ->
  let '(Bi, Bj, Bx) := csr_tocoo n_row n_col Ap Aj Ax [] [] [] in
  exists Cp' Cj' Cx' Sp Sj Sx,
    coo_tocsr n_row n_col (idx Ap n_row) Bi Bj Bx Cp Cj Cx = Some (Cp', Cj', Cx')
    /\ sum_csr_duplicates n_row n_col Ap Aj Ax = Some (Sp, Sj, Sx)
    /\ Cp' = Sp
    /\ forall r, 0 <= r < n_row ->
         row_entries Cp' Cj' Cx' r = row_entries Sp Sj Sx r.
Proof.
  intros Hv HCp HCj HCx. pose proof Hv as Hok%valid_csr_ok.
  destruct (csr_tocoo_built n_row n_col Ap Aj Ax Hok)
    as (Bi & Bj & Bx & -> & _ & _ & _ & HE & Hvc).
  destruct (coo_scatter_spec n_row n_col (idx Ap n_row) Bi Bj Bx Cp Cj Cx Hvc HCp HCj HCx)
    as (Bp1 & Bj1 & Bx1 & -> & Hl1 & _ & _ & _ & Hok1 & Hrows1).
  destruct (sum_csr_duplicates_spec n_row n_col Bp1 Bj1 Bx1 Hok1)
    as (Cp' & Cj' & Cx' & HeqC & HlCp & _ & _ & _ & _ & _ & _ & HrowsC).
  destruct (sum_csr_duplicates_spec n_row n_col Ap Aj Ax Hok)
    as (Sp & Sj & Sx & HeqS & HlSp & _ & _ & _ & _ & _ & _ & HrowsS).
  assert (Hrows : forall r, 0 <= r < n_row ->
            row_entries Cp' Cj' Cx' r = row_entries Sp Sj Sx r).
  { intros r Hr. rewrite HrowsC, HrowsS, Hrows1 by done.
    unfold coo_row. rewrite HE. by rewrite coo_row_triples. }
  exists Cp', Cj', Cx', Sp, Sj, Sx. split; [done|]. split; [done|].
  split; [|done].
  apply (row_pointer_unique n_row n_col n_col Cp' Cj' Cx' Sp Sj Sx).
  - by apply (sum_csr_duplicates_ok n_row n_col Bp1 Bj1 Bx1).
  - by apply (sum_csr_duplicates_ok n_row n_col Ap Aj Ax).
  - intros r Hr. by rewrite Hrows.
Qed.

(** An instance with an empty row and duplicates. *)
Lemma coo_tocsr_of_csr_tocoo_witness :
  valid_csr 3 3 [0; 3; 3; 5] [2; 0; 2; 1; 1] [1; 2; 3; 4; -4] = true
  /\ (let '(Bi, Bj, Bx) :=
        csr_tocoo 3 3 [0; 3; 3; 5] [2; 0; 2; 1; 1] [1; 2; 3; 4; -4] [] [] [] in
      exists Cp' Cj' Cx' Sp Sj Sx,
        coo_tocsr 3 3 5 Bi Bj Bx [0; 0; 0; 0] [0; 0; 0; 0; 0] [0; 0; 0; 0; 0]
        = Some (Cp', Cj', Cx')
        /\ sum_csr_duplicates 3 3 [0; 3; 3; 5] [2; 0; 2; 1; 1] [1; 2; 3; 4; -4]
           = Some (Sp, Sj, Sx)
        /\ Cp' = Sp
        /\ forall r, 0 <= r < 3 ->
             row_entries Cp' Cj' Cx' r = row_entries Sp Sj Sx r).
Proof.
  split; [reflexivity|].
  exact (coo_tocsr_of_csr_tocoo 3 3 [0; 3; 3; 5] [2; 0; 2; 1; 1] [1; 2; 3; 4; -4]
           [0; 0; 0; 0] [0; 0; 0; 0; 0] [0; 0; 0; 0; 0] eq_refl eq_refl
           ltac:(vm_compute; discriminate) ltac:(vm_compute; discriminate)).
Defined.

(** X11. Listing the transpose made by [csr_tocsc] with [csc_tocoo] gives
    the same coordinate entries as listing the matrix itself with
    [csr_tocoo], in another order: the same (row, column, value) triples,
    each as often. *)
Theorem csc_tocoo_of_csr_tocsc {T : Type} `{!Scalar T}
    (n_row n_col : Z) (Ap Aj : list Z) (Ax : list T)
    (Bp Bi : list Z) (Bx : list T) :
  valid_csr n_row n_col Ap Aj Ax = true ->
  Z.of_nat (length Bp) = n_col + 1 ->
  idx Ap n_row <= Z.of_nat (length Bi) ->
  idx Ap n_row <= Z.of_nat (length Bx) ->
  let '(Bp', Bi', Bx') := csr_tocsc n_row n_col Ap Aj Ax Bp Bi Bx in
  let '(Ci, Cj, Cx) := csc_tocoo n_row n_col Bp' Bi' Bx' [] [] [] in
  let '(Di, Dj, Dx) := csr_tocoo n_row n_col Ap Aj Ax [] [] [] in
  coo_entries (idx Ap n_row) Ci Cj Cx ≡ₚ coo_entries (idx Ap n_row) Di Dj Dx.
Proof.
  intros Hv HBp HBi HBx. pose proof Hv as Hok%valid_csr_ok.
  destruct (csr_tocsc n_row n_col Ap Aj Ax Bp Bi Bx) as [[Bp' Bi'] Bx'] eqn:Heq.
  destruct (csr_tocsc_ok _ _ _ _ _ _ _ _ _ _ _ Hok HBp HBi HBx Heq) as [Hok' Hnnz].
  pose proof (csr_tocsc_triples _ _ _ _ _ _ _ _ _ _ _ Hok HBp HBi HBx Heq) as Hperm.
  unfold csc_tocoo. rewrite !csr_tocoo_spec. simpl app.
  pose proof (length_triples n_row n_col Ap Aj Ax Hok) as HlE.
  pose proof (length_triples n_col n_row Bp' Bi' Bx' Hok') as HlF.
  pose proof (coo_entries_of_list (triples n_row Ap Aj Ax)) as HE.
  rewrite HlE in HE. rewrite HE.
  pose proof (coo_entries_of_list (transposed <$> triples n_col Bp' Bi' Bx')) as HF.
  rewrite length_fmap, HlF, Hnnz in HF.
  rewrite <- !list_fmap_compose in HF.
  rewrite <- !list_fmap_compose.
  transitivity (transposed <$> triples n_col Bp' Bi' Bx').
  - rewrite <- HF. reflexivity.
  - rewrite Hperm, <- list_fmap_compose.
    rewrite (list_fmap_ext _ id (triples n_row Ap Aj Ax)); [by rewrite list_fmap_id|].
    by intros m [[??]?] _.
Qed.

(** An instance with an empty row and duplicates. *)
Lemma csc_tocoo_of_csr_tocsc_witness :
  valid_csr 3 3 [0; 3; 3; 5] [2; 0; 2; 1; 1] [1; 2; 3; 4; -4] = true
  /\ (let '(Bp', Bi', Bx') :=
        csr_tocsc 3 3 [0; 3; 3; 5] [2; 0; 2; 1; 1] [1; 2; 3; 4; -4]
          [0; 0; 0; 0] [0; 0; 0; 0; 0] [0; 0; 0; 0; 0] in
      let '(Ci, Cj, Cx) := csc_tocoo 3 3 Bp' Bi' Bx' [] [] [] in
      let '(Di, Dj, Dx) :=
        csr_tocoo 3 3 [0; 3; 3; 5] [2; 0; 2; 1; 1] [1; 2; 3; 4; -4] [] [] [] in
      coo_entries 5 Ci Cj Cx ≡ₚ coo_entries 5 Di Dj Dx).
Proof.
  split; [reflexivity|].
  exact (csc_tocoo_of_csr_tocsc 3 3 [0; 3; 3; 5] [2; 0; 2; 1; 1] [1; 2; 3; 4; -4]
           [0; 0; 0; 0] [0; 0; 0; 0; 0] [0; 0; 0; 0; 0] eq_refl eq_refl
           ltac:(vm_compute; discriminate) ltac:(vm_compute; discriminate)).
Defined.


(** ** [expandptr] *)

Section expand.
Context {T : Type} `{!Scalar T}.
Implicit Types (Ap Aj Bi : list Z) (Ax : list T).

(** Writing one value to the positions [lo .. hi-1]. *)
Lemma fill_range_take {A : Type} (lo hi : Z) (v : A) (a : list A) :
  0 <= lo <= hi -> hi <= Z.of_nat (length a) ->
  length (for_range lo hi (fun a jj => aset a jj v) a) = length a
  /\ take (Z.to_nat hi) (for_range lo hi (fun a jj => aset a jj v) a)
     = take (Z.to_nat lo) a ++ replicate (Z.to_nat (hi - lo)) v
  /\ forall d jj, hi <= jj ->
       aget d (for_range lo hi (fun a jj => aset a jj v) a) jj = aget d a jj.
Proof.
  intros Hlo Hhi.
  apply (for_range_ind (fun h a' => lo <= h <= hi ->
    length a' = length a
    /\ take (Z.to_nat h) a' = take (Z.to_nat lo) a ++ replicate (Z.to_nat (h - lo)) v
    /\ forall d jj, h <= jj -> aget d a' jj = aget d a jj)); [lia| | |lia].
  - intros _. rewrite Z.sub_diag. simpl. by rewrite app_nil_r.
  - intros h a' Hh IH _. destruct IH as (Hl & Ht & Hrest); [lia|].
    split; [by rewrite length_aset|]. split.
    + replace (Z.to_nat (h + 1)) with (S (Z.to_nat h)) by lia.
      rewrite take_aset_snoc by lia. rewrite Ht, <- app_assoc. f_equal.
      replace (Z.to_nat (h + 1 - lo)) with (S (Z.to_nat (h - lo))) by lia.
      by rewrite replicate_S_end.
    + intros d jj Hjj. rewrite aget_aset_ne by lia. apply Hrest. lia.
Qed.

(** The row indices of the triples, row by row. *)
Lemma triples_rows_indices n_row Ap Aj Ax :
  (triples n_row Ap Aj Ax).*1.*1
  = seqZ 0 n_row ≫= fun r => replicate (Z.to_nat (idx Ap (r + 1) - idx Ap r)) r.
Proof.
  unfold triples. rewrite !fmap_bind_comm. apply bind_ext_in. intros r _.
  rewrite <- !list_fmap_compose, <- (length_row_entries Ap Aj Ax r).
  by apply const_fmap.
Qed.

Lemma expandptr_spec n_row n_col Ap Aj Ax Bi :
  csr_ok n_row n_col Ap Aj Ax ->
  idx Ap n_row <= Z.of_nat (length Bi) ->
  length (expandptr n_row Ap Bi) = length Bi
  /\ take (Z.to_nat (idx Ap n_row)) (expandptr n_row Ap Bi)
     = (triples n_row Ap Aj Ax).*1.*1
  /\ forall jj, idx Ap n_row <= jj -> idx (expandptr n_row Ap Bi) jj = idx Bi jj.
Proof.
  intros Hok HBi. rewrite triples_rows_indices. unfold expandptr.
  pose proof (ok_rows _ _ _ _ _ Hok) as Hrows.
  set (f := fun r => replicate (Z.to_nat (idx Ap (r + 1) - idx Ap r)) r).
  apply (for_range_ind (fun i Bi' => 0 <= i <= n_row ->
    length Bi' = length Bi
    /\ take (Z.to_nat (idx Ap i)) Bi' = (seqZ 0 i ≫= f)
    /\ forall jj, idx Ap i <= jj -> idx Bi' jj = idx Bi jj)); [lia| | |lia].
  - intros _. rewrite (ok_first _ _ _ _ _ Hok). by rewrite seqZ_nil by lia.
  - intros i Bi' Hi IH _. destruct IH as (Hl & Ht & Hrest); [lia|].
    pose proof (csr_ok_ptr_le _ _ _ _ _ 0 i Hok ltac:(lia) ltac:(lia) ltac:(lia)) as H0.
    rewrite (ok_first _ _ _ _ _ Hok) in H0.
    pose proof (ok_mono _ _ _ _ _ Hok i ltac:(lia)) as H1.
    pose proof (csr_ok_ptr_le _ _ _ _ _ (i + 1) n_row Hok
                  ltac:(lia) ltac:(lia) ltac:(lia)) as H2.
    cbv zeta.
    destruct (fill_range_take (idx Ap i) (idx Ap (i + 1)) i Bi')
      as (Hl' & Ht' & Hrest'); [lia|lia|].
    split; [congruence|]. split.
    + rewrite Ht', Ht. by rewrite (bind_seqZ_succ f i) by lia.
    + intros jj Hjj. unfold idx. rewrite Hrest' by done. apply Hrest. lia.
Qed.

End expand.

(** X12. For the row pointer of a well-formed matrix and an index array
    with room for its entries, [expandptr] keeps the length of the array,
    writes into its first [Ap[n_row]] slots exactly the row vector that
    [csr_tocoo] returns for the matrix, and leaves every later slot as it
    was. *)
Theorem expandptr_gives_coo_rows {T : Type} `{!Scalar T}
    (n_row n_col : Z) (Ap Aj : list Z) (Ax : list T) (Bi : list Z) :
  valid_csr n_row n_col Ap Aj Ax = true ->
  idx Ap n_row <= Z.of_nat (length Bi) ->
  length (expandptr n_row Ap Bi) = length Bi
  /\ take (Z.to_nat (idx Ap n_row)) (expandptr n_row Ap Bi)
     = (csr_tocoo n_row n_col Ap Aj Ax [] [] []).1.1
  /\ forall jj, idx Ap n_row <= jj -> idx (expandptr n_row Ap Bi) jj = idx Bi jj.
Proof.
  intros Hok%valid_csr_ok HBi. rewrite csr_tocoo_spec. simpl.
  by apply (expandptr_spec n_row n_col).
Qed.

(** An instance: an empty row in the middle, one slot beyond the entries. *)
Lemma expandptr_gives_coo_rows_witness :
  valid_csr 3 3 [0; 3; 3; 5] [2; 0; 2; 1; 1] [1; 2; 3; 4; -4] = true
  /\ length (expandptr 3 [0; 3; 3; 5] [9; 9; 9; 9; 9; 9]) = 6%nat
  /\ take (Z.to_nat 5) (expandptr 3 [0; 3; 3; 5] [9; 9; 9; 9; 9; 9])
     = (csr_tocoo 3 3 [0; 3; 3; 5] [2; 0; 2; 1; 1] [1; 2; 3; 4; -4] [] [] []).1.1
  /\ forall jj, 5 <= jj ->
       idx (expandptr 3 [0; 3; 3; 5] [9; 9; 9; 9; 9; 9]) jj
       = idx [9; 9; 9; 9; 9; 9] jj.
Proof.
  split; [reflexivity|].
  exact (expandptr_gives_coo_rows 3 3 [0; 3; 3; 5] [2; 0; 2; 1; 1] [1; 2; 3; 4; -4]
           [9; 9; 9; 9; 9; 9] eq_refl ltac:(vm_compute; discriminate)).
Defined.

(** ** [csr_diagonal] *)

Section diagonal.
Context {T : Type} `{!Scalar T}.
Implicit Types (Ap Aj : list Z) (Ax Yx : list T) (es : list (Z * T)).

(** The inner loop of [csr_diagonal] is the column sum of the row. *)
Lemma diagonal_loop Ap Aj Ax i :
  for_range (idx Ap i) (idx Ap (i + 1)) (fun diag jj =>
    if idx Aj jj =? i then add diag (val Ax jj) else diag) zero
  = colsum zero (row_entries Ap Aj Ax i) i.
Proof. unfold for_range, colsum, row_entries. by rewrite foldl_fmap. Qed.

(** Summing the duplicates of a row does not change its column sums,
    provided [0 + x = x] and only 0 fails the test [x != 0]. *)
Lemma colsum_drained es k :
  (forall x : T, add zero x = x) ->
  (forall x : T, nonzero x = false -> x = zero) ->
  colsum zero (drained es) k = colsum zero es k.
Proof.
  intros Hadd Hz.
  destruct (nonzero (colsum zero es k)) eqn:Hnz.
  - destruct (decide (k ∈ es.*1)) as [Hk|Hk].
    + rewrite (colsum_single _ _ _ (colsum zero es k)); [apply Hadd|apply NoDup_drained|].
      by apply (elem_of_drained es (k, colsum zero es k)).
    + rewrite (colsum_absent _ es) by done. apply colsum_absent.
      intros (e & -> & He%drained_column)%list_elem_of_fmap. done.
  - rewrite (Hz _ Hnz). apply colsum_absent.
    intros ([k' v] & -> & He)%list_elem_of_fmap.
    apply elem_of_drained in He as (_ & Hv & Hv'). simpl in *. congruence.
Qed.

End diagonal.

(** X13. [csr_diagonal] needs no sorted or duplicate-free rows: given
    room for [min(n_row, n_col)] values, it keeps the length of [Yx], sets
    [Yx[i]] for [i < min(n_row, n_col)] to the sum, from 0 and in storage
    order, of all entries of row [i] stored in column [i], and leaves every
    other slot as it was. *)
Theorem csr_diagonal_sums_row {T : Type} `{!Scalar T}
    (n_row n_col : Z) (Ap Aj : list Z) (Ax Yx : list T) :
  Z.min n_row n_col <= Z.of_nat (length Yx) ->
  length (csr_diagonal n_row n_col Ap Aj Ax Yx) = length Yx
  /\ (forall i, 0 <= i < Z.min n_row n_col ->
        val (csr_diagonal n_row n_col Ap Aj Ax Yx) i
        = colsum zero (row_entries Ap Aj Ax i) i)
  /\ (forall i, ~ (0 <= i < Z.min n_row n_col) ->
        val (csr_diagonal n_row n_col Ap Aj Ax Yx) i = val Yx i).
Proof.
  intros HY. unfold csr_diagonal.
  destruct (decide (0 <= Z.min n_row n_col)) as [HN|HN].
  2: { rewrite for_range_nil by lia. split; [done|]. split; [lia|done]. }
  apply (for_range_ind (fun m Y' => 0 <= m <= Z.min n_row n_col ->
    length Y' = length Yx
    /\ (forall i, 0 <= i < m -> val Y' i = colsum zero (row_entries Ap Aj Ax i) i)
    /\ (forall i, ~ (0 <= i < m) -> val Y' i = val Yx i))); [lia| | |lia].
  - intros _. split; [done|]. split; [lia|done].
  - intros m Y' Hm IH _. destruct IH as (Hl & Hdone & Hrest); [lia|].
    cbv zeta. rewrite diagonal_loop.
    split; [by rewrite length_aset|]. split.
    + intros i Hi. unfold val. destruct (decide (i = m)) as [->|Hne].
      * by rewrite aget_aset_eq by lia.
      * rewrite aget_aset_ne by done. apply Hdone. lia.
    + intros i Hi. unfold val. rewrite aget_aset_ne by lia. apply Hrest. lia.
Qed.

(** An instance: a 2 x 3 matrix whose row 1 stores column 1 twice. *)
Lemma csr_diagonal_sums_row_witness :
  Z.min 2 3 <= Z.of_nat (length [9; 9; 9])
  /\ length (csr_diagonal 2 3 [0; 1; 4] [2; 1; 0; 1] [5; 6; 7; 8] [9; 9; 9]) = 3%nat
  /\ (forall i, 0 <= i < Z.min 2 3 ->
        val (csr_diagonal 2 3 [0; 1; 4] [2; 1; 0; 1] [5; 6; 7; 8] [9; 9; 9]) i
        = colsum zero (row_entries [0; 1; 4] [2; 1; 0; 1] [5; 6; 7; 8] i) i)
  /\ (forall i, ~ (0 <= i < Z.min 2 3) ->
        val (csr_diagonal 2 3 [0; 1; 4] [2; 1; 0; 1] [5; 6; 7; 8] [9; 9; 9]) i
        = val [9; 9; 9] i).
Proof.
  split; [vm_compute; discriminate|].
  exact (csr_diagonal_sums_row 2 3 [0; 1; 4] [2; 1; 0; 1] [5; 6; 7; 8] [9; 9; 9]
           ltac:(vm_compute; discriminate)).
Defined.

(** X14. For a value type with [0 + x = x] in which only 0 fails the test
    [x != 0], [sum_csr_duplicates] does not change the diagonal:
    [csr_diagonal] writes the same values for the compacted matrix as for
    the well-formed input. *)
Theorem csr_diagonal_after_sum_duplicates {T : Type} `{!Scalar T}
    (n_row n_col : Z) (Ap Aj : list Z) (Ax Yx : list T) :
  (forall x : T, add zero x = x) ->
  (forall x : T, nonzero x = false -> x = zero) ->
  valid_csr n_row n_col Ap Aj Ax = true ->
  exists Ap' Aj' Ax',
    sum_csr_duplicates n_row n_col Ap Aj Ax = Some (Ap', Aj', Ax')
    /\ csr_diagonal n_row n_col Ap' Aj' Ax' Yx = csr_diagonal n_row n_col Ap Aj Ax Yx.
Proof.
  intros Hadd Hz Hok%valid_csr_ok.
  destruct (sum_csr_duplicates_spec n_row n_col Ap Aj Ax Hok)
    as (Ap' & Aj' & Ax' & Heq & _ & _ & _ & _ & _ & _ & _ & Hrows).
  exists Ap', Aj', Ax'. split; [done|].
  unfold csr_diagonal. unfold for_range at 1 3. apply foldl_ext_in.
  intros Y i Hi%elem_of_seqZ. cbv zeta. rewrite !diagonal_loop.
  rewrite Hrows by lia. by rewrite colsum_drained.
Qed.

(** An instance: the diagonal entry of row 0 is stored in two parts, the
    two parts of that of row 2 cancel. *)
Lemma csr_diagonal_after_sum_duplicates_witness :
  valid_csr 3 3 [0; 3; 3; 5] [0; 2; 0; 2; 2] [1; 2; 3; 4; -4] = true
  /\ exists Ap' Aj' Ax',
       sum_csr_duplicates 3 3 [0; 3; 3; 5] [0; 2; 0; 2; 2] [1; 2; 3; 4; -4]
       = Some (Ap', Aj', Ax')
       /\ csr_diagonal 3 3 Ap' Aj' Ax' [9; 9; 9]
          = csr_diagonal 3 3 [0; 3; 3; 5] [0; 2; 0; 2; 2] [1; 2; 3; 4; -4] [9; 9; 9].
Proof.
  split; [reflexivity|].
  exact (csr_diagonal_after_sum_duplicates 3 3 [0; 3; 3; 5] [0; 2; 0; 2; 2]
           [1; 2; 3; 4; -4] [9; 9; 9] Z.add_0_l
           ltac:(intros x Hx; simpl in Hx;
                  destruct (Z.eqb_spec x 0) as [E|E]; [exact E|discriminate Hx])
           eq_refl).
Defined.


(** ** Matrix-vector products *)

Section matvec.
Context {T : Type} `{!Scalar T}.
Implicit Types (Ap Aj Ai : list Z) (Ax Xx Yx : list T) (F : list (Z * Z * T)).

Lemma matvec_loop Ap Aj Ax Xx i :
  for_range (idx Ap i) (idx Ap (i + 1)) (fun sum jj =>
    add sum (mul (val Ax jj) (val Xx (idx Aj jj)))) zero
  = row_dot Xx (row_entries Ap Aj Ax i).
Proof. unfold for_range, row_dot, row_entries. by rewrite foldl_fmap. Qed.

Lemma csr_matvec_spec n_row n_col Ap Aj Ax Xx Yx :
  n_row <= Z.of_nat (length Yx) ->
  length (csr_matvec n_row n_col Ap Aj Ax Xx Yx) = length Yx
  /\ (forall i, 0 <= i < n_row ->
        val (csr_matvec n_row n_col Ap Aj Ax Xx Yx) i
        = row_dot Xx (row_entries Ap Aj Ax i))
  /\ (forall i, ~ (0 <= i < n_row) ->
        val (csr_matvec n_row n_col Ap Aj Ax Xx Yx) i = val Yx i).
Proof.
  intros HY. unfold csr_matvec.
  destruct (decide (0 <= n_row)) as [HN|HN].
  2: { rewrite for_range_nil by lia. split; [done|]. split; [lia|done]. }
  apply (for_range_ind (fun m Y' => 0 <= m <= n_row ->
    length Y' = length Yx
    /\ (forall i, 0 <= i < m -> val Y' i = row_dot Xx (row_entries Ap Aj Ax i))
    /\ (forall i, ~ (0 <= i < m) -> val Y' i = val Yx i))); [lia| | |lia].
  - intros _. split; [done|]. split; [lia|done].
  - intros m Y' Hm IH _. destruct IH as (Hl & Hdone & Hrest); [lia|].
    cbv zeta. rewrite matvec_loop.
    split; [by rewrite length_aset|]. split.
    + intros i Hi. unfold val. destruct (decide (i = m)) as [->|Hne].
      * by rewrite aget_aset_eq by lia.
      * rewrite aget_aset_ne by done. apply Hdone. lia.
    + intros i Hi. unfold val. rewrite aget_aset_ne by lia. apply Hrest. lia.
Qed.

(** Zeroing the first [n] slots. *)
Lemma zero_range n Yx :
  n <= Z.of_nat (length Yx) ->
  length (for_range 0 n (fun Yx i => aset Yx i zero) Yx) = length Yx
  /\ (forall i, 0 <= i < n ->
        val (for_range 0 n (fun Yx i => aset Yx i zero) Yx) i = zero)
  /\ (forall i, ~ (0 <= i < n) ->
        val (for_range 0 n (fun Yx i => aset Yx i zero) Yx) i = val Yx i).
Proof.
  intros HY.
  destruct (decide (0 <= n)) as [HN|HN].
  2: { rewrite for_range_nil by lia. split; [done|]. split; [lia|done]. }
  apply (for_range_ind (fun m Y' => 0 <= m <= n ->
    length Y' = length Yx
    /\ (forall i, 0 <= i < m -> val Y' i = zero)
    /\ (forall i, ~ (0 <= i < m) -> val Y' i = val Yx i))); [lia| | |lia].
  - intros _. split; [done|]. split; [lia|done].
  - intros m Y' Hm IH _. destruct IH as (Hl & Hdone & Hrest); [lia|].
    split; [by rewrite length_aset|]. split.
    + intros i Hi. unfold val. destruct (decide (i = m)) as [->|Hne].
      * by rewrite aget_aset_eq by lia.
      * rewrite aget_aset_ne by done. apply Hdone. lia.
    + intros i Hi. unfold val. rewrite aget_aset_ne by lia. apply Hrest. lia.
Qed.

(** Adding the contributions of the triples [F] into the slots named by
    their inner index. *)
Lemma scatter_add Xx F : forall Yx,
  (forall t, t ∈ F -> 0 <= t.1.2 < Z.of_nat (length Yx)) ->
  length (foldl (fun Yx t =>
            aset Yx t.1.2 (add (val Yx t.1.2) (mul t.2 (val Xx t.1.1)))) Yx F)
  = length Yx
  /\ forall r,
       val (foldl (fun Yx t =>
              aset Yx t.1.2 (add (val Yx t.1.2) (mul t.2 (val Xx t.1.1)))) Yx F) r
       = foldl (fun s t => add s (mul t.2 (val Xx t.1.1))) (val Yx r) (bucket r F).
Proof.
  induction F as [|t F IH]; intros Yx HF; [done|].
  simpl foldl at 1 2.
  destruct (IH (aset Yx t.1.2 (add (val Yx t.1.2) (mul t.2 (val Xx t.1.1)))))
    as [IHl IHv].
  { intros t' Ht'. rewrite length_aset. apply HF. by right. }
  split; [by rewrite IHl, length_aset|].
  intros r. rewrite IHv. unfold bucket. rewrite filter_cons.
  specialize (HF t ltac:(left)).
  set (v := add (val Yx t.1.2) (mul t.2 (val Xx t.1.1))).
  case_decide as Hr.
  - subst r.
    assert (val (aset Yx t.1.2 v) t.1.2 = v) as ->
      by (unfold val; apply aget_aset_eq; lia).
    done.
  - assert (val (aset Yx t.1.2 v) r = val Yx r) as ->
      by (unfold val; by apply aget_aset_ne).
    done.
Qed.

(** The column loops of [csc_matvec] as a fold over the triples. *)
Lemma csc_matvec_fold n_col Ap Ai Ax Xx Yx :
  for_range 0 n_col (fun Yx j =>
    let col_start := idx Ap j in
    let col_end := idx Ap (j + 1) in
    for_range col_start col_end (fun Yx ii =>
      let row := idx Ai ii in
      aset Yx row (add (val Yx row) (mul (val Ax ii) (val Xx j)))) Yx) Yx
  = foldl (fun Yx t =>
      aset Yx t.1.2 (add (val Yx t.1.2) (mul t.2 (val Xx t.1.1)))) Yx
      (triples n_col Ap Ai Ax).
Proof.
  unfold triples, row_entries, for_range. rewrite Z.sub_0_r, foldl_bind.
  apply foldl_ext_in. intros st j _. cbv zeta.
  by rewrite !foldl_fmap.
Qed.

Lemma csc_matvec_spec n_row n_col Ap Ai Ax Xx Yx :
  csr_ok n_col n_row Ap Ai Ax ->
  n_row <= Z.of_nat (length Yx) ->
  length (csc_matvec n_row n_col Ap Ai Ax Xx Yx) = length Yx
  /\ (forall i, 0 <= i < n_row ->
        val (csc_matvec n_row n_col Ap Ai Ax Xx Yx) i
        = row_dot Xx ((fun t => (t.1.1, t.2)) <$> bucket i (triples n_col Ap Ai Ax)))
  /\ (forall i, ~ (0 <= i < n_row) ->
        val (csc_matvec n_row n_col Ap Ai Ax Xx Yx) i = val Yx i).
Proof.
  intros Hok HY. unfold csc_matvec. rewrite csc_matvec_fold.
  destruct (zero_range n_row Yx HY) as (Hl0 & Hz & Hrest).
  set (Y0 := for_range 0 n_row (fun Yx i => aset Yx i zero) Yx) in *.
  assert (HF : forall t, t ∈ triples n_col Ap Ai Ax -> 0 <= t.1.2 < n_row).
  { intros t Ht. by apply (triples_range n_col n_row Ap Ai Ax t Hok). }
  destruct (scatter_add Xx (triples n_col Ap Ai Ax) Y0) as [Hl Hv].
  { intros t Ht%HF. lia. }
  split; [congruence|]. split.
  - intros i Hi. rewrite Hv, Hz by done. unfold row_dot. by rewrite foldl_fmap.
  - intros i Hi. rewrite Hv, Hrest by done.
    unfold bucket. rewrite filter_none; [done|]. intros t Ht%HF. lia.
Qed.

(** A sum does not depend on the order of its terms when the addition is
    associative and commutative. *)
Lemma row_dot_Permutation Xx (es es' : list (Z * T)) :
  (forall x y : T, add x y = add y x) ->
  (forall x y z : T, add x (add y z) = add (add x y) z) ->
  es ≡ₚ es' -> row_dot Xx es = row_dot Xx es'.
Proof.
  intros Hcomm Hassoc Hperm. unfold row_dot. generalize (zero : T) as s.
  induction Hperm as [|e l l' _ IH|e e' l|l l' l'' _ IH1 _ IH2]; intros s.
  - done.
  - simpl. apply IH.
  - simpl. f_equal. rewrite <- !Hassoc. f_equal. apply Hcomm.
  - by rewrite IH1.
Qed.

End matvec.

(** X15. Given room for [n_row] values, [csr_matvec] keeps the length of
    [Yx], overwrites [Yx[i]] for [i < n_row] with the sum, from 0 and in
    storage order, of the products [Ax[jj] * Xx[Aj[jj]]] over the entries of
    row [i], and leaves every other slot as it was; what [Yx] held before
    does not matter. *)
Theorem csr_matvec_rows {T : Type} `{!Scalar T}
    (n_row n_col : Z) (Ap Aj : list Z) (Ax Xx Yx : list T) :
  n_row <= Z.of_nat (length Yx) ->
  length (csr_matvec n_row n_col Ap Aj Ax Xx Yx) = length Yx
  /\ (forall i, 0 <= i < n_row ->
        val (csr_matvec n_row n_col Ap Aj Ax Xx Yx) i
        = row_dot Xx (row_entries Ap Aj Ax i))
  /\ (forall i, ~ (0 <= i < n_row) ->
        val (csr_matvec n_row n_col Ap Aj Ax Xx Yx) i = val Yx i).
Proof. apply csr_matvec_spec. Qed.

(** An instance: three rows, an output array with a fourth slot. *)
Lemma csr_matvec_rows_witness :
  3 <= Z.of_nat (length [9; 9; 9; 9])
  /\ length (csr_matvec 3 3 [0; 3; 3; 5] [2; 0; 2; 1; 1] [1; 2; 3; 4; -4]
               [1; 10; 100] [9; 9; 9; 9]) = 4%nat
  /\ (forall i, 0 <= i < 3 ->
        val (csr_matvec 3 3 [0; 3; 3; 5] [2; 0; 2; 1; 1] [1; 2; 3; 4; -4]
               [1; 10; 100] [9; 9; 9; 9]) i
        = row_dot [1; 10; 100]
            (row_entries [0; 3; 3; 5] [2; 0; 2; 1; 1] [1; 2; 3; 4; -4] i))
  /\ (forall i, ~ (0 <= i < 3) ->
        val (csr_matvec 3 3 [0; 3; 3; 5] [2; 0; 2; 1; 1] [1; 2; 3; 4; -4]
               [1; 10; 100] [9; 9; 9; 9]) i
        = val [9; 9; 9; 9] i).
Proof.
  split; [vm_compute; discriminate|].
  exact (csr_matvec_rows 3 3 [0; 3; 3; 5] [2; 0; 2; 1; 1] [1; 2; 3; 4; -4]
           [1; 10; 100] [9; 9; 9; 9] ltac:(vm_compute; discriminate)).
Defined.

(** X16. For a value type with an associative and commutative addition,
    the column-major product agrees with the row-major one: [csc_matvec] on
    the transpose that [csr_tocsc] makes of a well-formed matrix returns the
    same array as [csr_matvec] on the matrix itself, whatever the output
    array held before. *)
Theorem csc_matvec_of_csr_tocsc {T : Type} `{!Scalar T}
    (n_row n_col : Z) (Ap Aj : list Z) (Ax : list T)
    (Bp Bi : list Z) (Bx Xx Yx : list T) :
  (forall x y : T, add x y = add y x) ->
  (forall x y z : T, add x (add y z) = add (add x y) z) ->
  valid_csr n_row n_col Ap Aj Ax = true ->
  Z.of_nat (length Bp) = n_col + 1 ->
  idx Ap n_row <= Z.of_nat (length Bi) ->
  idx Ap n_row <= Z.of_nat (length Bx) ->
  n_row <= Z.of_nat (length Yx) ->
  let '(Bp', Bi', Bx') := csr_tocsc n_row n_col Ap Aj Ax Bp Bi Bx in
  csc_matvec n_row n_col Bp' Bi' Bx' Xx Yx = csr_matvec n_row n_col Ap Aj Ax Xx Yx.
Proof.
  intros Hcomm Hassoc Hok%valid_csr_ok HBp HBi HBx HY.
  destruct (csr_tocsc n_row n_col Ap Aj Ax Bp Bi Bx) as [[Bp' Bi'] Bx'] eqn:Heq.
  destruct (csr_tocsc_ok _ _ _ _ _ _ _ _ _ _ _ Hok HBp HBi HBx Heq) as [Hok' _].
  pose proof (csr_tocsc_triples _ _ _ _ _ _ _ _ _ _ _ Hok HBp HBi HBx Heq) as Hperm.
  destruct (csc_matvec_spec n_row n_col Bp' Bi' Bx' Xx Yx Hok' HY) as (Hl1 & Hv1 & Hr1).
  destruct (csr_matvec_spec n_row n_col Ap Aj Ax Xx Yx HY) as (Hl2 & Hv2 & Hr2).
  apply (array_ext zero); [congruence|].
  intros i Hi.
  fold (val (csc_matvec n_row n_col Bp' Bi' Bx' Xx Yx) i).
  fold (val (csr_matvec n_row n_col Ap Aj Ax Xx Yx) i).
  destruct (decide (0 <= i < n_row)) as [Hin|Hout].
  - rewrite Hv1, Hv2 by done. apply row_dot_Permutation; [done|done|].
    by apply (transpose_twice_rows n_row).
  - by rewrite Hr1, Hr2.
Qed.

(** An instance: row 0 stores column 2 twice, so the two products add its
    terms in different orders. *)
Lemma csc_matvec_of_csr_tocsc_witness :
  valid_csr 3 3 [0; 3; 3; 5] [2; 0; 2; 1; 1] [1; 2; 3; 4; -4] = true
  /\ (let '(Bp', Bi', Bx') :=
        csr_tocsc 3 3 [0; 3; 3; 5] [2; 0; 2; 1; 1] [1; 2; 3; 4; -4]
          [0; 0; 0; 0] [0; 0; 0; 0; 0] [0; 0; 0; 0; 0] in
      csc_matvec 3 3 Bp' Bi' Bx' [1; 10; 100] [9; 9; 9; 9]
      = csr_matvec 3 3 [0; 3; 3; 5] [2; 0; 2; 1; 1] [1; 2; 3; 4; -4]
          [1; 10; 100] [9; 9; 9; 9]).
Proof.
  split; [reflexivity|].
  exact (csc_matvec_of_csr_tocsc 3 3 [0; 3; 3; 5] [2; 0; 2; 1; 1] [1; 2; 3; 4; -4]
           [0; 0; 0; 0] [0; 0; 0; 0; 0] [0; 0; 0; 0; 0] [1; 10; 100] [9; 9; 9; 9]
           Z.add_comm Z.add_assoc eq_refl eq_refl
           ltac:(vm_compute; discriminate) ltac:(vm_compute; discriminate)
           ltac:(vm_compute; discriminate)).
Defined.


(** ** Dense arrays: [dense_tocsr] and [csr_todense] *)

Section dense.
Context {T : Type} `{!Scalar T}.
Implicit Types (Ap Aj : list Z) (Ax Mx : list T).

(** The scan of one dense row from offset [x]. *)
Lemma dense_scan n_col Mx x Aj Ax :
  0 <= n_col ->
  for_range 0 n_col (fun '(x, Aj, Ax) j =>
    let '(Aj, Ax) :=
      if nonzero (val Mx x) then (Aj ++ [j], Ax ++ [val Mx x]) else (Aj, Ax) in
    (x + 1, Aj, Ax)) (x, Aj, Ax)
  = let d := filter (fun e => nonzero e.2 = true)
               ((fun j => (j, val Mx (x + j))) <$> seqZ 0 n_col) in
    (x + n_col, Aj ++ d.*1, Ax ++ d.*2).
Proof.
  intros Hn. cbv zeta.
  apply (for_range_ind (fun m st => 0 <= m <= n_col ->
    st = (x + m,
          Aj ++ (filter (fun e => nonzero e.2 = true)
                   ((fun j => (j, val Mx (x + j))) <$> seqZ 0 m)).*1,
          Ax ++ (filter (fun e => nonzero e.2 = true)
                   ((fun j => (j, val Mx (x + j))) <$> seqZ 0 m)).*2)));
    [lia| | |lia].
  - intros _. rewrite seqZ_nil by lia. simpl. by rewrite Z.add_0_r, !app_nil_r.
  - intros m st Hm IH _. rewrite IH by lia.
    rewrite seqZ_snoc by lia. rewrite fmap_app, filter_app, !fmap_app, !app_assoc.
    simpl. rewrite filter_cons, filter_nil. simpl.
    destruct (nonzero (val Mx (x + m))) eqn:Hnz.
    + rewrite decide_True by done. simpl. do 2 f_equal. lia.
    + rewrite decide_False by done. simpl. rewrite !app_nil_r.
      do 2 f_equal. lia.
Qed.

Lemma dense_row_range n_col Mx r e :
  e ∈ dense_row n_col Mx r -> 0 <= e.1 < n_col.
Proof.
  unfold dense_row. intros [_ He]%list_elem_of_filter.
  apply list_elem_of_fmap in He as (j & -> & Hj%elem_of_seqZ). simpl. lia.
Qed.

Lemma NoDup_dense_row n_col Mx r : NoDup (dense_row n_col Mx r).*1.
Proof. unfold dense_row. apply NoDup_filter_columns, NoDup_seqZ. Qed.

(** What [dense_tocsr] builds from empty vectors. *)
Lemma dense_tocsr_built n_row n_col Mx :
  0 <= n_row -> 0 <= n_col ->
  exists Ap Aj Ax,
    dense_tocsr n_row n_col Mx [] [] [] = (Ap, Aj, Ax)
    /\ Aj = (seqZ 0 n_row ≫= dense_row n_col Mx).*1
    /\ Ax = (seqZ 0 n_row ≫= dense_row n_col Mx).*2
    /\ idx Ap n_row = Z.of_nat (length (seqZ 0 n_row ≫= dense_row n_col Mx))
    /\ csr_ok n_row n_col Ap Aj Ax
    /\ forall r, 0 <= r < n_row -> row_entries Ap Aj Ax r = dense_row n_col Mx r.
Proof.
  intros Hrows Hcols. unfold dense_tocsr.
  set (f := dense_row n_col Mx).
  assert (Hgen : exists Ap,
    for_range 0 n_row (fun '(x, Ap, Aj, Ax) (i : Z) =>
      let '(x, Aj, Ax) :=
        for_range 0 n_col (fun '(x, Aj, Ax) j =>
          let '(Aj, Ax) :=
            if nonzero (val Mx x) then (Aj ++ [j], Ax ++ [val Mx x]) else (Aj, Ax) in
          (x + 1, Aj, Ax)) (x, Aj, Ax) in
      (x, Ap ++ [vec_size Aj], Aj, Ax)) (0, [] ++ [0], [], [])
    = (n_row * n_col, Ap, (seqZ 0 n_row ≫= f).*1, (seqZ 0 n_row ≫= f).*2)
    /\ Z.of_nat (length Ap) = n_row + 1
    /\ forall r, 0 <= r <= n_row -> idx Ap r = Z.of_nat (length (seqZ 0 r ≫= f))).
  { apply (for_range_ind (fun i st => 0 <= i <= n_row -> exists Ap,
      st = (i * n_col, Ap, (seqZ 0 i ≫= f).*1, (seqZ 0 i ≫= f).*2)
      /\ Z.of_nat (length Ap) = i + 1
      /\ forall r, 0 <= r <= i -> idx Ap r = Z.of_nat (length (seqZ 0 r ≫= f))));
      [lia| | |lia].
    - intros _. exists [0]. split; [done|]. split; [done|].
      intros r Hr. replace r with 0 by lia. done.
    - intros i st Hi IH _. destruct IH as (Ap & -> & Hl & Hptr); [lia|].
      pose proof (dense_scan n_col Mx (i * n_col) (seqZ 0 i ≫= f).*1
                    (seqZ 0 i ≫= f).*2 Hcols) as Hscan.
      cbv beta iota zeta in Hscan |- *. rewrite Hscan. clear Hscan.
      fold (dense_row n_col Mx i). fold f.
      rewrite (bind_seqZ_succ f i) by lia. rewrite !fmap_app.
      exists (Ap ++ [vec_size ((seqZ 0 i ≫= f).*1 ++ (f i).*1)]).
      split; [do 3 f_equal; lia|].
      split; [rewrite length_app; simpl; lia|].
      intros r Hr. unfold idx. destruct (decide (r = i + 1)) as [->|Hne].
      + apply aget_lookup; [lia|].
        replace (Z.to_nat (i + 1)) with (length Ap) by lia.
        rewrite list_lookup_middle by done. f_equal. unfold vec_size.
        rewrite (bind_seqZ_succ f i) by lia.
        by rewrite <- fmap_app, length_fmap.
      + rewrite <- (Hptr r) by lia. unfold idx, aget. destruct (0 <=? r); [|done].
        by rewrite lookup_app_l by lia. }
  destruct Hgen as (Ap & -> & Hl & Hptr).
  exists Ap, (seqZ 0 n_row ≫= f).*1, (seqZ 0 n_row ≫= f).*2.
  split; [done|]. split; [done|]. split; [done|]. split; [apply Hptr; lia|].
  apply (rows_built n_row n_col f); try done.
  - rewrite <- (length_fmap fst). by apply take_ge.
  - rewrite <- (length_fmap snd). by apply take_ge.
  - intros r e _ He. by apply (dense_row_range n_col Mx r).
Qed.

(** A sequence of assignments: every slot holds the last value written to
    it, or what it held before. *)
Lemma assign_last (ws : list (Z * T)) Mx :
  (forall w, w ∈ ws -> 0 <= w.1 < Z.of_nat (length Mx)) ->
  length (foldl (fun Mx w => aset Mx w.1 w.2) Mx ws) = length Mx
  /\ forall p,
       val (foldl (fun Mx w => aset Mx w.1 w.2) Mx ws) p
       = default (val Mx p) (last (filter (fun w => w.1 = p) ws).*2).
Proof.
  induction ws as [|w ws IH] using rev_ind; intros Hws; [done|].
  destruct IH as [IHl IHv].
  { intros w' Hw'. apply Hws. apply elem_of_app. by left. }
  rewrite foldl_app. simpl. split; [by rewrite length_aset|].
  intros p. rewrite filter_app, fmap_app, filter_cons, filter_nil.
  specialize (Hws w ltac:(apply elem_of_app; right; left)).
  unfold val at 1. case_decide as Hp.
  - subst p. rewrite aget_aset_eq by lia. simpl. by rewrite last_snoc.
  - rewrite aget_aset_ne by done. simpl. rewrite app_nil_r. apply IHv.
Qed.

(** The loops of [csr_todense] as a sequence of assignments. *)
Lemma csr_todense_fold n_row n_col Ap Aj Ax Mx :
  0 <= n_row ->
  csr_todense n_row n_col Ap Aj Ax Mx
  = foldl (fun Mx w => aset Mx w.1 w.2) Mx
      ((fun t => (t.1.1 * n_col + t.1.2, t.2)) <$> triples n_row Ap Aj Ax).
Proof.
  intros Hrows. unfold csr_todense.
  set (g := fun t : Z * Z * T => (t.1.1 * n_col + t.1.2, t.2)).
  set (f := fun i => (fun e => (i, e.1, e.2)) <$> row_entries Ap Aj Ax i).
  assert (Hgen :
    for_range 0 n_row (fun '(Mx, row_base) i =>
      let row_start := idx Ap i in
      let row_end := idx Ap (i + 1) in
      let Mx :=
        for_range row_start row_end (fun Mx jj =>
          let j := idx Aj jj in
          aset Mx (row_base + j) (val Ax jj)) Mx in
      (Mx, row_base + n_col)) (Mx, 0)
    = (foldl (fun Mx w => aset Mx w.1 w.2) Mx (g <$> (seqZ 0 n_row ≫= f)),
       n_row * n_col)).
  { apply (for_range_ind (fun i st => 0 <= i <= n_row ->
      st = (foldl (fun Mx w => aset Mx w.1 w.2) Mx (g <$> (seqZ 0 i ≫= f)),
            i * n_col))); [lia| | |lia].
    - intros _. by rewrite seqZ_nil by lia.
    - intros i st Hi IH _. rewrite IH by lia. cbv zeta.
      rewrite (bind_seqZ_succ f i) by lia. rewrite fmap_app, foldl_app.
      f_equal; [|lia].
      unfold f, row_entries, for_range. by rewrite !foldl_fmap. }
  cbv beta iota zeta in Hgen |- *. by rewrite Hgen.
Qed.

Lemma filter_ext_in {A : Type} (P Q : A -> Prop)
    `{!forall x, Decision (P x), !forall x, Decision (Q x)} (l : list A) :
  (forall x, x ∈ l -> P x <-> Q x) -> filter P l = filter Q l.
Proof.
  induction l as [|x l IH]; intros Hl; [done|].
  rewrite !filter_cons.
  rewrite IH by (intros y Hy; apply Hl; by right).
  specialize (Hl x ltac:(left)).
  destruct (decide (P x)), (decide (Q x)); tauto || done.
Qed.

(** Positions of a row-major array name their row and column. *)
Lemma row_major_inj n_col r j r' j' :
  0 <= j < n_col -> 0 <= j' < n_col ->
  r * n_col + j = r' * n_col + j' -> r = r' /\ j = j'.
Proof.
  intros Hj Hj' Heq.
  destruct (decide (r = r')) as [->|Hne]; [split; [done|lia]|]. exfalso.
  destruct (decide (r < r')).
  - assert ((r + 1) * n_col <= r' * n_col) by (apply Z.mul_le_mono_nonneg_r; lia).
    lia.
  - assert ((r' + 1) * n_col <= r * n_col) by (apply Z.mul_le_mono_nonneg_r; lia).
    lia.
Qed.

Lemma csr_todense_spec n_row n_col Ap Aj Ax Mx :
  csr_ok n_row n_col Ap Aj Ax ->
  Z.of_nat (length Mx) = n_row * n_col ->
  length (csr_todense n_row n_col Ap Aj Ax Mx) = length Mx
  /\ forall r j, 0 <= r < n_row -> 0 <= j < n_col ->
       val (csr_todense n_row n_col Ap Aj Ax Mx) (r * n_col + j)
       = default (val Mx (r * n_col + j))
           (last (filter (fun e => e.1 = j) (row_entries Ap Aj Ax r)).*2).
Proof.
  intros Hok HM. pose proof (ok_rows _ _ _ _ _ Hok) as Hrows.
  rewrite csr_todense_fold by done.
  assert (HE : forall t, t ∈ triples n_row Ap Aj Ax ->
            0 <= t.1.1 < n_row /\ 0 <= t.1.2 < n_col).
  { intros t Ht. by apply (triples_range n_row n_col Ap Aj Ax t Hok). }
  destruct (assign_last
              ((fun t => (t.1.1 * n_col + t.1.2, t.2)) <$> triples n_row Ap Aj Ax) Mx)
    as [Hl Hv].
  { intros w (t & -> & Ht%HE)%list_elem_of_fmap. simpl. nia. }
  split; [done|]. intros r j Hr Hj. rewrite Hv. do 2 f_equal.
  rewrite filter_fmap_comm, <- list_fmap_compose.
  rewrite (filter_ext_in _ (fun t : Z * Z * T => t.1.2 = j /\ t.1.1 = r)).
  2: { intros t Ht%HE. simpl. split.
       - intros Heq. apply row_major_inj in Heq; [|lia|lia]. tauto.
       - by intros [-> ->]. }
  rewrite <- list_filter_filter, triples_row by done.
  rewrite (filter_fmap_comm _ (fun t : Z * Z * T => t.1.2 = j)).
  by rewrite <- list_fmap_compose.
Qed.

Lemma filter_eq_seqZ (n j : Z) :
  0 <= j < n -> filter (fun k => k = j) (seqZ 0 n) = [j].
Proof.
  intros Hj. replace n with (j + (1 + (n - j - 1))) by lia.
  rewrite seqZ_app, filter_app by lia.
  rewrite seqZ_app, filter_app by lia.
  rewrite (filter_none _ (seqZ 0 j)) by (intros k Hk%elem_of_seqZ; lia).
  rewrite (filter_none _ (seqZ (0 + j + 1) _)) by (intros k Hk%elem_of_seqZ; lia).
  replace (seqZ (0 + j) 1) with [j] by (unfold seqZ; simpl; f_equal; lia).
  rewrite filter_cons, filter_nil. by rewrite decide_True by lia.
Qed.

(** The entry of column [j] in row [r] of the dense array, if stored. *)
Lemma dense_row_column n_col Mx r j :
  0 <= j < n_col ->
  filter (fun e => e.1 = j) (dense_row n_col Mx r)
  = if nonzero (val Mx (r * n_col + j)) then [(j, val Mx (r * n_col + j))] else [].
Proof.
  intros Hj. unfold dense_row.
  rewrite list_filter_filter.
  rewrite (list_filter_iff _ (fun e => nonzero e.2 = true /\ e.1 = j)) by (intros; tauto).
  rewrite <- list_filter_filter.
  rewrite (filter_fmap_comm _ (fun e : Z * T => e.1 = j)). simpl.
  rewrite filter_eq_seqZ by done. simpl.
  rewrite filter_cons, filter_nil. simpl.
  destruct (nonzero (val Mx (r * n_col + j))) eqn:Hnz.
  - by rewrite decide_True by done.
  - by rewrite decide_False by done.
Qed.

End dense.

(** X17. From empty vectors, [dense_tocsr] builds a well-formed
    [n_row] x [n_col] matrix whose index and value vectors hold exactly the
    stored entries; row [r] lists, by increasing column, the pairs
    [(j, Mx[r * n_col + j])] whose value passes the test [!= 0], so rows
    store pairwise distinct columns and no zero. *)
Theorem dense_tocsr_result {T : Type} `{!Scalar T}
    (n_row n_col : Z) (Mx : list T) :
  0 <= n_row -> 0 <= n_col ->
  let '(Ap, Aj, Ax) := dense_tocsr n_row n_col Mx [] [] [] in
  valid_csr n_row n_col Ap Aj Ax = true
  /\ Z.of_nat (length Aj) = idx Ap n_row
  /\ Z.of_nat (length Ax) = idx Ap n_row
  /\ distinct_columns n_row Ap Aj Ax = true
  /\ no_stored_zero n_row Ap Aj Ax = true
  /\ forall r, 0 <= r < n_row -> row_entries Ap Aj Ax r = dense_row n_col Mx r.
Proof.
  intros Hrows Hcols.
  destruct (dense_tocsr_built n_row n_col Mx Hrows Hcols)
    as (Ap & Aj & Ax & -> & HAj & HAx & Hnnz & Hok & Hr).
  split; [by apply csr_ok_valid|].
  split; [by rewrite HAj, length_fmap|]. split; [by rewrite HAx, length_fmap|].
  split; [|split; [|done]].
  - apply distinct_columns_spec. intros r Hlt. rewrite Hr by done.
    apply NoDup_dense_row.
  - apply no_stored_zero_spec. intros r Hlt. rewrite Hr by done.
    apply Forall_forall. intros e He. unfold dense_row in He.
    by apply list_elem_of_filter in He as [He _].
Qed.

(** An instance: a 2 x 3 array with three nonzero cells. *)
Lemma dense_tocsr_result_witness :
  0 <= 2 /\ 0 <= 3
  /\ (let '(Ap, Aj, Ax) := dense_tocsr 2 3 [0; 5; 0; 7; 0; 8] [] [] [] in
      valid_csr 2 3 Ap Aj Ax = true
      /\ Z.of_nat (length Aj) = idx Ap 2
      /\ Z.of_nat (length Ax) = idx Ap 2
      /\ distinct_columns 2 Ap Aj Ax = true
      /\ no_stored_zero 2 Ap Aj Ax = true
      /\ forall r, 0 <= r < 2 ->
           row_entries Ap Aj Ax r = dense_row 3 [0; 5; 0; 7; 0; 8] r).
Proof.
  split; [lia|]. split; [lia|].
  exact (dense_tocsr_result 2 3 [0; 5; 0; 7; 0; 8] ltac:(lia) ltac:(lia)).
Defined.

(** X18. [csr_todense] assigns, it does not add: for a well-formed matrix
    and a row-major array of [n_row * n_col] cells, the length of the array
    is kept, and cell [(r, j)] ends up with the value of the last entry of
    row [r] stored in column [j], or with what it held before if the row
    stores no such entry. *)
Theorem csr_todense_last_wins {T : Type} `{!Scalar T}
    (n_row n_col : Z) (Ap Aj : list Z) (Ax Mx : list T) :
  valid_csr n_row n_col Ap Aj Ax = true ->
  Z.of_nat (length Mx) = n_row * n_col ->
  length (csr_todense n_row n_col Ap Aj Ax Mx) = length Mx
  /\ forall r j, 0 <= r < n_row -> 0 <= j < n_col ->
       val (csr_todense n_row n_col Ap Aj Ax Mx) (r * n_col + j)
       = default (val Mx (r * n_col + j))
           (last (filter (fun e => e.1 = j) (row_entries Ap Aj Ax r)).*2).
Proof. intros Hok%valid_csr_ok HM. by apply csr_todense_spec. Qed.

(** An instance: row 0 stores column 2 twice, row 2 column 1 twice. *)
Lemma csr_todense_last_wins_witness :
  valid_csr 3 3 [0; 3; 3; 5] [2; 0; 2; 1; 1] [1; 2; 3; 4; -4] = true
  /\ length (csr_todense 3 3 [0; 3; 3; 5] [2; 0; 2; 1; 1] [1; 2; 3; 4; -4]
               [0; 0; 0; 0; 0; 0; 0; 0; 0]) = 9%nat
  /\ forall r j, 0 <= r < 3 -> 0 <= j < 3 ->
       val (csr_todense 3 3 [0; 3; 3; 5] [2; 0; 2; 1; 1] [1; 2; 3; 4; -4]
              [0; 0; 0; 0; 0; 0; 0; 0; 0]) (r * 3 + j)
       = default (val [0; 0; 0; 0; 0; 0; 0; 0; 0] (r * 3 + j))
           (last (filter (fun e => e.1 = j)
                    (row_entries [0; 3; 3; 5] [2; 0; 2; 1; 1] [1; 2; 3; 4; -4] r)).*2).
Proof.
  split; [reflexivity|].
  exact (csr_todense_last_wins 3 3 [0; 3; 3; 5] [2; 0; 2; 1; 1] [1; 2; 3; 4; -4]
           [0; 0; 0; 0; 0; 0; 0; 0; 0] eq_refl eq_refl).
Defined.

(** X19. For a value type in which only 0 fails the test [x != 0],
    [csr_todense] undoes [dense_tocsr]: writing the matrix built from a
    row-major array of [n_row * n_col] cells into an array of as many zeros
    gives the array back. *)
Theorem csr_todense_of_dense_tocsr {T : Type} `{!Scalar T}
    (n_row n_col : Z) (Mx : list T) :
  (forall x : T, nonzero x = false -> x = zero) ->
  0 <= n_row -> 0 <= n_col ->
  Z.of_nat (length Mx) = n_row * n_col ->
  let '(Ap, Aj, Ax) := dense_tocsr n_row n_col Mx [] [] [] in
  csr_todense n_row n_col Ap Aj Ax (vec_new (n_row * n_col) zero) = Mx.
Proof.
  intros Hz Hrows Hcols HM.
  destruct (dense_tocsr_built n_row n_col Mx Hrows Hcols)
    as (Ap & Aj & Ax & -> & _ & _ & _ & Hok & Hr).
  assert (Hlen : Z.of_nat (length (vec_new (n_row * n_col) (zero : T))) = n_row * n_col).
  { apply length_vec_new. nia. }
  destruct (csr_todense_spec n_row n_col Ap Aj Ax _ Hok Hlen) as [Hl Hv].
  apply (array_ext zero); [lia|].
  intros p Hp. rewrite Hl, Hlen in Hp.
  assert (Hpos : 0 < n_col) by nia.
  set (r := p / n_col). set (j := p mod n_col).
  assert (Hrj : p = r * n_col + j).
  { unfold r, j. rewrite (Z.div_mod p n_col) at 1 by lia. lia. }
  assert (Hj : 0 <= j < n_col) by (apply Z.mod_pos_bound; lia).
  assert (Hrr : 0 <= r < n_row).
  { split; [apply Z.div_pos; lia|].
    apply Z.div_lt_upper_bound; [lia|]. nia. }
  fold (val (csr_todense n_row n_col Ap Aj Ax (vec_new (n_row * n_col) zero)) p).
  fold (val Mx p).
  rewrite Hrj, Hv by done. rewrite Hr by done. rewrite dense_row_column by done.
  rewrite val_vec_new_zero.
  destruct (nonzero (val Mx (r * n_col + j))) eqn:Hnz; [done|].
  simpl. symmetry. by apply Hz.
Qed.

(** An instance: a 2 x 3 array with three nonzero cells. *)
Lemma csr_todense_of_dense_tocsr_witness :
  0 <= 2 /\ 0 <= 3 /\ Z.of_nat (length [0; 5; 0; 7; 0; 8]) = 2 * 3
  /\ (let '(Ap, Aj, Ax) := dense_tocsr 2 3 [0; 5; 0; 7; 0; 8] [] [] [] in
      csr_todense 2 3 Ap Aj Ax (vec_new (2 * 3) zero) = [0; 5; 0; 7; 0; 8]).
Proof.
  split; [lia|]. split; [lia|]. split; [reflexivity|].
  exact (@csr_todense_of_dense_tocsr Z Z_Scalar 2 3 [0; 5; 0; 7; 0; 8]
           ltac:(intros x Hx; simpl in Hx;
                 destruct (Z.eqb_spec x 0) as [E|E]; [exact E|discriminate Hx])
           ltac:(lia) ltac:(lia) eq_refl).
Defined.


(** ** [get_csr_submatrix] *)

Section submatrix.
Context {T : Type} `{!Scalar T}.
Implicit Types (Ap Aj Bp Bj : list Z) (Ax Bx : list T) (es : list (Z * T)).

Lemma length_bind_seqZ_le {B : Type} (f : Z -> list B) (r n : Z) :
  0 <= r <= n -> (length (seqZ 0 r ≫= f) <= length (seqZ 0 n ≫= f))%nat.
Proof.
  intros Hr. replace n with (r + (n - r)) by lia.
  rewrite seqZ_app, bind_app, length_app by lia. lia.
Qed.

Lemma length_submatrix_row ic0 ic1 es :
  length (submatrix_row ic0 ic1 es)
  = length (filter (fun e : Z * T => ic0 <= e.1 < ic1) es).
Proof. unfold submatrix_row. by rewrite length_fmap. Qed.

Lemma submatrix_row_cons ic0 ic1 e es :
  submatrix_row ic0 ic1 (e :: es)
  = (if (ic0 <=? e.1) && (e.1 <? ic1) then [(e.1 - ic0, e.2)] else [])
    ++ submatrix_row ic0 ic1 es.
Proof.
  unfold submatrix_row. rewrite filter_cons.
  destruct (Z.leb_spec ic0 e.1), (Z.ltb_spec e.1 ic1); simpl.
  - by rewrite decide_True by lia.
  - by rewrite decide_False by lia.
  - by rewrite decide_False by lia.
  - by rewrite decide_False by lia.
Qed.

(** The counting loop over one row. *)
Lemma submatrix_count_row Ap Aj Ax ic0 ic1 i c :
  for_range (idx Ap i) (idx Ap (i + 1)) (fun new_nnz jj =>
    if (ic0 <=? idx Aj jj) && (idx Aj jj <? ic1) then new_nnz + 1 else new_nnz) c
  = c + Z.of_nat (length (submatrix_row ic0 ic1 (row_entries Ap Aj Ax i))).
Proof.
  unfold for_range, row_entries.
  generalize (seqZ (idx Ap i) (idx Ap (i + 1) - idx Ap i)) as l. intros l. revert c.
  induction l as [|jj l IH]; intros c; [simpl; lia|].
  rewrite fmap_cons, submatrix_row_cons, length_app. simpl foldl. rewrite IH. simpl.
  destruct ((ic0 <=? idx Aj jj) && (idx Aj jj <? ic1)); simpl; lia.
Qed.

(** The counting pass counts what the rows of the submatrix hold. *)
Lemma submatrix_count_spec Ap Aj Ax ir0 ir1 ic0 ic1 :
  submatrix_count Ap Aj ir0 ir1 ic0 ic1
  = Z.of_nat (length (seqZ 0 (ir1 - ir0) ≫= fun i =>
                submatrix_row ic0 ic1 (row_entries Ap Aj Ax (ir0 + i)))).
Proof.
  unfold submatrix_count. cbv zeta. unfold for_range at 1. rewrite Z.sub_0_r.
  set (f := fun i => submatrix_row ic0 ic1 (row_entries Ap Aj Ax (ir0 + i))).
  assert (Hgen : forall l c,
    foldl (fun new_nnz i =>
      for_range (idx Ap (ir0 + i)) (idx Ap (ir0 + i + 1)) (fun new_nnz jj =>
        if (ic0 <=? idx Aj jj) && (idx Aj jj <? ic1) then new_nnz + 1 else new_nnz)
        new_nnz) c l
    = c + Z.of_nat (length (l ≫= f))).
  { induction l as [|i l IH]; intros c; [simpl; lia|].
    simpl foldl. rewrite (submatrix_count_row Ap Aj Ax), IH.
    rewrite bind_cons, length_app. unfold f. lia. }
  by rewrite Hgen.
Qed.

(** The assigning loop over one row, with room for what it keeps. *)
Lemma submatrix_assign_row ic0 ic1 es : forall kk Bj Bx,
  0 <= kk ->
  kk + Z.of_nat (length (submatrix_row ic0 ic1 es)) <= Z.of_nat (length Bj) ->
  kk + Z.of_nat (length (submatrix_row ic0 ic1 es)) <= Z.of_nat (length Bx) ->
  exists Bj' Bx',
    foldl (fun '(kk, Bj, Bx) e =>
      if (ic0 <=? e.1) && (e.1 <? ic1)
      then (kk + 1, aset Bj kk (e.1 - ic0), aset Bx kk e.2)
      else (kk, Bj, Bx)) (kk, Bj, Bx) es
    = (kk + Z.of_nat (length (submatrix_row ic0 ic1 es)), Bj', Bx')
    /\ length Bj' = length Bj /\ length Bx' = length Bx
    /\ take (Z.to_nat kk + length (submatrix_row ic0 ic1 es)) Bj'
       = take (Z.to_nat kk) Bj ++ (submatrix_row ic0 ic1 es).*1
    /\ take (Z.to_nat kk + length (submatrix_row ic0 ic1 es)) Bx'
       = take (Z.to_nat kk) Bx ++ (submatrix_row ic0 ic1 es).*2.
Proof.
  induction es as [|e es IH]; intros kk Bj Bx Hkk HBj HBx.
  - exists Bj, Bx. simpl. by rewrite Z.add_0_r, Nat.add_0_r, !app_nil_r.
  - rewrite submatrix_row_cons in *. simpl foldl.
    destruct ((ic0 <=? e.1) && (e.1 <? ic1)).
    + rewrite length_app in HBj, HBx. simpl in HBj, HBx.
      destruct (IH (kk + 1) (aset Bj kk (e.1 - ic0)) (aset Bx kk e.2))
        as (Bj' & Bx' & -> & HlBj & HlBx & HtBj & HtBx);
        [lia|rewrite length_aset; lia..|].
      rewrite !length_aset in *.
      exists Bj', Bx'. simpl app. simpl length.
      replace (Z.to_nat (kk + 1)) with (S (Z.to_nat kk)) in * by lia.
      rewrite take_aset_snoc in HtBj by lia. rewrite take_aset_snoc in HtBx by lia.
      replace (Z.to_nat kk + S (length (submatrix_row ic0 ic1 es)))%nat
        with (S (Z.to_nat kk) + length (submatrix_row ic0 ic1 es))%nat by lia.
      rewrite HtBj, HtBx, <- !app_assoc.
      split; [do 2 f_equal; lia|]. done.
    + simpl app in *. by apply IH.
Qed.

(** What [get_csr_submatrix] returns. *)
Lemma get_csr_submatrix_built n_row n_col Ap Aj Ax ir0 ir1 ic0 ic1 Bp Bj Bx :
  ir0 <= ir1 -> ic0 <= ic1 ->
  let f := fun i => submatrix_row ic0 ic1 (row_entries Ap Aj Ax (ir0 + i)) in
  exists Bp' Bj' Bx',
    get_csr_submatrix n_row n_col Ap Aj Ax ir0 ir1 ic0 ic1 Bp Bj Bx = (Bp', Bj', Bx')
    /\ Z.of_nat (length Bj') = submatrix_count Ap Aj ir0 ir1 ic0 ic1
    /\ Z.of_nat (length Bx') = submatrix_count Ap Aj ir0 ir1 ic0 ic1
    /\ idx Bp' (ir1 - ir0) = submatrix_count Ap Aj ir0 ir1 ic0 ic1
    /\ csr_ok (ir1 - ir0) (ic1 - ic0) Bp' Bj' Bx'
    /\ forall i, 0 <= i < ir1 - ir0 -> row_entries Bp' Bj' Bx' i = f i.
Proof.
  intros Hir Hic f. unfold get_csr_submatrix. cbv zeta.
  rewrite (submatrix_count_spec Ap Aj Ax). fold f.
  set (n := ir1 - ir0) in *.
  assert (Hn : 0 <= n) by (unfold n; lia).
  set (nnz := Z.of_nat (length (seqZ 0 n ≫= f))).
  set (Bp0 := aset (vec_resize (n + 1) 0 Bp) 0 0).
  set (Bj0 := vec_resize nnz 0 Bj). set (Bx0 := vec_resize nnz zero Bx).
  assert (HlBp0 : Z.of_nat (length Bp0) = n + 1).
  { unfold Bp0. rewrite length_aset. apply length_vec_resize. lia. }
  assert (HlBj0 : Z.of_nat (length Bj0) = nnz) by (apply length_vec_resize; lia).
  assert (HlBx0 : Z.of_nat (length Bx0) = nnz) by (apply length_vec_resize; lia).
  assert (Hgen : exists Bp' Bj' Bx',
    submatrix_assign Ap Aj Ax ir0 ir1 ic0 ic1 Bp0 Bj0 Bx0 = (nnz, Bp', Bj', Bx')
    /\ length Bp' = length Bp0 /\ length Bj' = length Bj0 /\ length Bx' = length Bx0
    /\ (forall r, 0 <= r <= n -> idx Bp' r = Z.of_nat (length (seqZ 0 r ≫= f)))
    /\ take (length (seqZ 0 n ≫= f)) Bj' = (seqZ 0 n ≫= f).*1
    /\ take (length (seqZ 0 n ≫= f)) Bx' = (seqZ 0 n ≫= f).*2).
  { unfold submatrix_assign. cbv zeta. fold n.
    apply (for_range_ind (fun i st => 0 <= i <= n -> exists Bp' Bj' Bx',
      st = (Z.of_nat (length (seqZ 0 i ≫= f)), Bp', Bj', Bx')
      /\ length Bp' = length Bp0 /\ length Bj' = length Bj0 /\ length Bx' = length Bx0
      /\ (forall r, 0 <= r <= i -> idx Bp' r = Z.of_nat (length (seqZ 0 r ≫= f)))
      /\ take (length (seqZ 0 i ≫= f)) Bj' = (seqZ 0 i ≫= f).*1
      /\ take (length (seqZ 0 i ≫= f)) Bx' = (seqZ 0 i ≫= f).*2)); [lia| | |lia].
    - intros _. exists Bp0, Bj0, Bx0. rewrite seqZ_nil by lia. simpl.
      split; [done|]. split; [done|]. split; [done|]. split; [done|].
      split; [|by rewrite !take_0].
      intros r Hr. replace r with 0 by lia. rewrite seqZ_nil by lia. simpl.
      unfold Bp0, idx. apply aget_aset_eq. rewrite length_vec_resize; lia.
    - intros i st Hi IH _.
      destruct IH as (Bp' & Bj' & Bx' & -> & HlBp & HlBj & HlBx & Hptr & HtBj & HtBx);
        [lia|].
      assert (Hle : (length (seqZ 0 (i + 1) ≫= f) <= length (seqZ 0 n ≫= f))%nat).
      { apply length_bind_seqZ_le. lia. }
      rewrite (bind_seqZ_succ f i) in Hle by lia. rewrite length_app in Hle.
      destruct (submatrix_assign_row ic0 ic1 (row_entries Ap Aj Ax (ir0 + i))
                  (Z.of_nat (length (seqZ 0 i ≫= f))) Bj' Bx')
        as (Bj2 & Bx2 & Hrow & HlBj2 & HlBx2 & HtBj2 & HtBx2).
      { lia. }
      { fold (f i). unfold nnz in *. lia. }
      { fold (f i). unfold nnz in *. lia. }
      fold (f i) in Hrow, HtBj2, HtBx2. rewrite Nat2Z.id in HtBj2, HtBx2.
      match goal with
      | |- context [for_range (idx Ap (ir0 + i)) (idx Ap (ir0 + i + 1)) ?g ?s] =>
          assert (Hfold : for_range (idx Ap (ir0 + i)) (idx Ap (ir0 + i + 1)) g s
                          = (Z.of_nat (length (seqZ 0 i ≫= f))
                             + Z.of_nat (length (f i)), Bj2, Bx2))
      end.
      { rewrite <- Hrow. unfold for_range, row_entries. rewrite foldl_fmap.
        apply foldl_ext_in. by intros [[??]?] jj _. }
      rewrite Hfold. clear Hfold.
      rewrite (bind_seqZ_succ f i) by lia. rewrite length_app, !fmap_app.
      eexists _, Bj2, Bx2. split; [do 3 f_equal; lia|].
      split; [by rewrite length_aset|]. split; [congruence|]. split; [congruence|].
      split; [|by rewrite HtBj2, HtBx2, HtBj, HtBx].
      intros r Hr. unfold idx. destruct (decide (r = i + 1)) as [->|Hne].
      + rewrite aget_aset_eq by lia.
        rewrite (bind_seqZ_succ f i) by lia. rewrite length_app. lia.
      + rewrite aget_aset_ne by lia. apply Hptr. lia. }
  destruct Hgen as (Bp' & Bj' & Bx' & -> & HlBp & HlBj & HlBx & Hptr & HtBj & HtBx).
  exists Bp', Bj', Bx'. split; [done|].
  split; [unfold nnz in *; lia|]. split; [unfold nnz in *; lia|].
  split; [apply Hptr; lia|].
  apply (rows_built n (ic1 - ic0) f); try done; [lia..| |].
  - lia.
  - intros r e _ (e' & -> & He')%list_elem_of_fmap.
    apply list_elem_of_filter in He' as [He' _]. simpl. lia.
Qed.

(** A filter that keeps every column and shifts by 0 changes nothing. *)
Lemma submatrix_row_all n_col es :
  (forall e, e ∈ es -> 0 <= e.1 < n_col) -> submatrix_row 0 n_col es = es.
Proof.
  intros Hes. unfold submatrix_row.
  rewrite filter_all by (apply Forall_forall; intros e He%Hes; lia).
  rewrite (list_fmap_ext _ id es); [by rewrite list_fmap_id|].
  intros k [c v] _. simpl. f_equal. lia.
Qed.

End submatrix.

(** X20. For a well-formed matrix and a window [ir0, ir1) x [ic0, ic1)
    inside it, [get_csr_submatrix] returns, whatever the output vectors
    held, a well-formed matrix of the shape of the window. Its index and
    value vectors have exactly the size the counting pass computed, which
    is the number of entries the assigning pass wrote. Row [i] lists the
    entries of row [ir0 + i] with a column in the window, in storage order,
    with columns counted from [ic0]. *)
Theorem get_csr_submatrix_result {T : Type} `{!Scalar T}
    (n_row n_col : Z) (Ap Aj : list Z) (Ax : list T)
    (ir0 ir1 ic0 ic1 : Z) (Bp Bj : list Z) (Bx : list T) :
  valid_csr n_row n_col Ap Aj Ax = true ->
  0 <= ir0 <= ir1 -> ir1 <= n_row ->
  0 <= ic0 <= ic1 -> ic1 <= n_col ->
  let '(Bp', Bj', Bx') :=
    get_csr_submatrix n_row n_col Ap Aj Ax ir0 ir1 ic0 ic1 Bp Bj Bx in
  valid_csr (ir1 - ir0) (ic1 - ic0) Bp' Bj' Bx' = true
  /\ Z.of_nat (length Bj') = submatrix_count Ap Aj ir0 ir1 ic0 ic1
  /\ Z.of_nat (length Bx') = submatrix_count Ap Aj ir0 ir1 ic0 ic1
  /\ idx Bp' (ir1 - ir0) = submatrix_count Ap Aj ir0 ir1 ic0 ic1
  /\ forall i, 0 <= i < ir1 - ir0 ->
       row_entries Bp' Bj' Bx' i
       = submatrix_row ic0 ic1 (row_entries Ap Aj Ax (ir0 + i)).
Proof.
  intros _ Hir _ Hic _.
  destruct (get_csr_submatrix_built n_row n_col Ap Aj Ax ir0 ir1 ic0 ic1 Bp Bj Bx)
    as (Bp' & Bj' & Bx' & -> & H1 & H2 & H3 & Hok & Hrows); [lia|lia|].
  split; [by apply csr_ok_valid|]. done.
Qed.

(** An instance: rows 0 and 1 and columns 1 and 2 of a 3 x 3 matrix. *)
Lemma get_csr_submatrix_result_witness :
  valid_csr 3 3 [0; 3; 3; 5] [2; 0; 2; 1; 1] [1; 2; 3; 4; -4] = true
  /\ 0 <= 0 <= 2 /\ 2 <= 3 /\ 0 <= 1 <= 3 /\ 3 <= 3
  /\ (let '(Bp', Bj', Bx') :=
        get_csr_submatrix 3 3 [0; 3; 3; 5] [2; 0; 2; 1; 1] [1; 2; 3; 4; -4]
          0 2 1 3 [7] [7; 7; 7] [] in
      valid_csr (2 - 0) (3 - 1) Bp' Bj' Bx' = true
      /\ Z.of_nat (length Bj') = submatrix_count [0; 3; 3; 5] [2; 0; 2; 1; 1] 0 2 1 3
      /\ Z.of_nat (length Bx') = submatrix_count [0; 3; 3; 5] [2; 0; 2; 1; 1] 0 2 1 3
      /\ idx Bp' (2 - 0) = submatrix_count [0; 3; 3; 5] [2; 0; 2; 1; 1] 0 2 1 3
      /\ forall i, 0 <= i < 2 - 0 ->
           row_entries Bp' Bj' Bx' i
           = submatrix_row 1 3
               (row_entries [0; 3; 3; 5] [2; 0; 2; 1; 1] [1; 2; 3; 4; -4] (0 + i))).
Proof.
  split; [reflexivity|]. split; [lia|]. split; [lia|]. split; [lia|]. split; [lia|].
  exact (get_csr_submatrix_result 3 3 [0; 3; 3; 5] [2; 0; 2; 1; 1] [1; 2; 3; 4; -4]
           0 2 1 3 [7] [7; 7; 7] [] eq_refl ltac:(lia) ltac:(lia) ltac:(lia) ltac:(lia)).
Defined.

(** X21. Extracting the whole matrix changes nothing: on a well-formed
    matrix, [get_csr_submatrix] with the window [0, n_row) x [0, n_col)
    returns the same row pointer and, row by row, the same entries in the
    same order. *)
Theorem get_csr_submatrix_whole {T : Type} `{!Scalar T}
    (n_row n_col : Z) (Ap Aj : list Z) (Ax : list T)
    (Bp Bj : list Z) (Bx : list T) :
  valid_csr n_row n_col Ap Aj Ax = true ->
  let '(Bp', Bj', Bx') :=
    get_csr_submatrix n_row n_col Ap Aj Ax 0 n_row 0 n_col Bp Bj Bx in
  Bp' = Ap
  /\ forall r, 0 <= r < n_row -> row_entries Bp' Bj' Bx' r = row_entries Ap Aj Ax r.
Proof.
  intros Hok%valid_csr_ok.
  pose proof (ok_rows _ _ _ _ _ Hok) as Hrows.
  pose proof (ok_cols _ _ _ _ _ Hok) as Hcols.
  destruct (get_csr_submatrix_built n_row n_col Ap Aj Ax 0 n_row 0 n_col Bp Bj Bx)
    as (Bp' & Bj' & Bx' & -> & _ & _ & _ & Hok' & Hr); [lia|lia|].
  rewrite !Z.sub_0_r in *.
  assert (Hsame : forall r, 0 <= r < n_row ->
            row_entries Bp' Bj' Bx' r = row_entries Ap Aj Ax r).
  { intros r Hlt. rewrite Hr by done. rewrite Z.add_0_l.
    apply submatrix_row_all. intros e He.
    by apply (row_entries_range n_row n_col Ap Aj Ax r e). }
  split; [|done].
  apply (row_pointer_unique n_row n_col n_col Bp' Bj' Bx' Ap Aj Ax Hok' Hok).
  intros r Hlt. by rewrite Hsame.
Qed.

(** An instance with an empty row and duplicates. *)
Lemma get_csr_submatrix_whole_witness :
  valid_csr 3 3 [0; 3; 3; 5] [2; 0; 2; 1; 1] [1; 2; 3; 4; -4] = true
  /\ (let '(Bp', Bj', Bx') :=
        get_csr_submatrix 3 3 [0; 3; 3; 5] [2; 0; 2; 1; 1] [1; 2; 3; 4; -4]
          0 3 0 3 [] [] [] in
      Bp' = [0; 3; 3; 5]
      /\ forall r, 0 <= r < 3 ->
           row_entries Bp' Bj' Bx' r
           = row_entries [0; 3; 3; 5] [2; 0; 2; 1; 1] [1; 2; 3; 4; -4] r).
Proof.
  split; [reflexivity|].
  exact (get_csr_submatrix_whole 3 3 [0; 3; 3; 5] [2; 0; 2; 1; 1] [1; 2; 3; 4; -4]
           [] [] [] eq_refl).
Defined.


(** ** [spdiags] *)

Section spdiags.
Context {T : Type} `{!Scalar T}.
Implicit Types (Ap Ai offsets : list Z) (Ax diags : list T).

(** The loop over the diagonals for column [i]. *)
Lemma spdiags_column n_row n_col n_diag offsets diags i Ai Ax :
  0 <= i ->
  for_range 0 n_diag (fun '(Ai, Ax) j =>
    if idx offsets j <=? 0 then
      let row := i - idx offsets j in
      if n_row <=? row then (Ai, Ax)
      else (Ai ++ [row], Ax ++ [val diags (j * Z.min n_row n_col + i)])
    else
      let row := i - idx offsets j in
      if (row <? 0) || (n_row <=? row) then (Ai, Ax)
      else (Ai ++ [row], Ax ++ [val diags (j * Z.min n_row n_col + row)]))
    (Ai, Ax)
  = (Ai ++ (spdiags_col n_row n_col n_diag offsets diags i).*1,
     Ax ++ (spdiags_col n_row n_col n_diag offsets diags i).*2).
Proof.
  intros Hi. unfold for_range, spdiags_col. rewrite Z.sub_0_r.
  set (g := fun j : Z =>
    let row := i - idx offsets j in
    if (0 <=? row) && (row <? n_row)
    then [(row, val diags (j * Z.min n_row n_col + Z.min i row))]
    else []).
  match goal with |- foldl ?b _ _ = _ => set (body := b) end.
  assert (Hstep : forall Ai Ax j,
            body (Ai, Ax) j = (Ai ++ (g j).*1, Ax ++ (g j).*2)).
  { intros Ai' Ax' j. unfold body, g. cbv zeta.
    destruct (Z.leb_spec (idx offsets j) 0) as [Hoff|Hoff].
    - destruct (Z.leb_spec 0 (i - idx offsets j)); [|lia].
      destruct (Z.leb_spec n_row (i - idx offsets j)) as [Hrow|Hrow];
        destruct (Z.ltb_spec (i - idx offsets j) n_row); try lia.
      + simpl. by rewrite !app_nil_r.
      + rewrite (Z.min_l i) by lia. done.
    - destruct (Z.ltb_spec (i - idx offsets j) 0) as [Hneg|Hneg];
        destruct (Z.leb_spec 0 (i - idx offsets j)); try lia.
      + simpl. by rewrite !app_nil_r.
      + destruct (Z.leb_spec n_row (i - idx offsets j)) as [Hrow|Hrow];
          destruct (Z.ltb_spec (i - idx offsets j) n_row); try lia.
        * simpl. by rewrite !app_nil_r.
        * rewrite (Z.min_r i) by lia. done. }
  clearbody body.
  generalize (seqZ 0 n_diag) as l. intros l. revert Ai Ax.
  induction l as [|j l IH]; intros Ai Ax.
  - simpl. by rewrite !app_nil_r.
  - rewrite bind_cons, !fmap_app, !app_assoc. simpl foldl.
    by rewrite Hstep, IH.
Qed.

Lemma elem_of_spdiags_col n_row n_col n_diag offsets diags i e :
  e ∈ spdiags_col n_row n_col n_diag offsets diags i
  <-> exists j, 0 <= j < n_diag
        /\ e.1 = i - idx offsets j /\ 0 <= e.1 < n_row
        /\ e.2 = val diags (j * Z.min n_row n_col + Z.min i e.1).
Proof.
  unfold spdiags_col. rewrite list_elem_of_bind. split.
  - intros (j & He & Hj%elem_of_seqZ). exists j. cbv zeta in He.
    destruct (Z.leb_spec 0 (i - idx offsets j)); simpl in He;
      [|by apply elem_of_nil in He].
    destruct (Z.ltb_spec (i - idx offsets j) n_row); simpl in He;
      [|by apply elem_of_nil in He].
    apply list_elem_of_singleton in He as ->. simpl. repeat split; lia.
  - intros (j & Hj & H1 & H2 & H3). exists j. split; [|apply elem_of_seqZ; lia].
    cbv zeta. rewrite <- H1.
    destruct (Z.leb_spec 0 e.1); [|lia]. destruct (Z.ltb_spec e.1 n_row); [|lia].
    simpl. apply list_elem_of_singleton. destruct e as [r v]. simpl in *. by subst v.
Qed.

Lemma length_spdiags_col n_row n_col n_diag offsets diags i :
  0 <= n_diag ->
  Z.of_nat (length (spdiags_col n_row n_col n_diag offsets diags i)) <= n_diag.
Proof.
  intros Hn. unfold spdiags_col.
  rewrite <- (Z2Nat.id n_diag) at 2 by done.
  rewrite <- (length_seqZ 0 n_diag) .
  generalize (seqZ 0 n_diag) as l. intros l.
  induction l as [|j l IH]; [done|].
  rewrite bind_cons, length_app. cbv zeta.
  destruct ((0 <=? i - idx offsets j) && (i - idx offsets j <? n_row));
    simpl length; lia.
Qed.

(** What [spdiags] builds from empty vectors. *)
Lemma spdiags_built n_row n_col n_diag offsets diags :
  0 <= n_row -> 0 <= n_col ->
  let f := spdiags_col n_row n_col n_diag offsets diags in
  exists Ap Ai Ax,
    spdiags n_row n_col n_diag offsets diags [] [] [] = (Ap, Ai, Ax)
    /\ Ai = (seqZ 0 n_col ≫= f).*1
    /\ Ax = (seqZ 0 n_col ≫= f).*2
    /\ idx Ap n_col = Z.of_nat (length (seqZ 0 n_col ≫= f))
    /\ csr_ok n_col n_row Ap Ai Ax
    /\ forall i, 0 <= i < n_col -> row_entries Ap Ai Ax i = f i.
Proof.
  intros Hrows Hcols f. unfold spdiags. cbv zeta.
  assert (Hgen : exists Ap,
    for_range 0 n_col (fun '(Ap, Ai, Ax) (i : Z) =>
      let '(Ai, Ax) :=
        for_range 0 n_diag (fun '(Ai, Ax) j =>
          if idx offsets j <=? 0 then
            let row := i - idx offsets j in
            if n_row <=? row then (Ai, Ax)
            else (Ai ++ [row], Ax ++ [val diags (j * Z.min n_row n_col + i)])
          else
            let row := i - idx offsets j in
            if (row <? 0) || (n_row <=? row) then (Ai, Ax)
            else (Ai ++ [row], Ax ++ [val diags (j * Z.min n_row n_col + row)]))
          (Ai, Ax) in
      (Ap ++ [vec_size Ai], Ai, Ax)) ([] ++ [0], [], [])
    = (Ap, (seqZ 0 n_col ≫= f).*1, (seqZ 0 n_col ≫= f).*2)
    /\ Z.of_nat (length Ap) = n_col + 1
    /\ forall r, 0 <= r <= n_col -> idx Ap r = Z.of_nat (length (seqZ 0 r ≫= f))).
  { apply (for_range_ind (fun i st => 0 <= i <= n_col -> exists Ap,
      st = (Ap, (seqZ 0 i ≫= f).*1, (seqZ 0 i ≫= f).*2)
      /\ Z.of_nat (length Ap) = i + 1
      /\ forall r, 0 <= r <= i -> idx Ap r = Z.of_nat (length (seqZ 0 r ≫= f))));
      [lia| | |lia].
    - intros _. exists [0]. split; [done|]. split; [done|].
      intros r Hr. replace r with 0 by lia. done.
    - intros i st Hi IH _. destruct IH as (Ap & -> & Hl & Hptr); [lia|].
      pose proof (spdiags_column n_row n_col n_diag offsets diags i
                    (seqZ 0 i ≫= f).*1 (seqZ 0 i ≫= f).*2 ltac:(lia)) as Hcol.
      cbv beta iota zeta in Hcol |- *. rewrite Hcol. clear Hcol.
      fold (f i). rewrite (bind_seqZ_succ f i) by lia. rewrite !fmap_app.
      exists (Ap ++ [vec_size ((seqZ 0 i ≫= f).*1 ++ (f i).*1)]).
      split; [done|]. split; [rewrite length_app; simpl; lia|].
      intros r Hr. unfold idx. destruct (decide (r = i + 1)) as [->|Hne].
      + apply aget_lookup; [lia|].
        replace (Z.to_nat (i + 1)) with (length Ap) by lia.
        rewrite list_lookup_middle by done. f_equal. unfold vec_size.
        rewrite (bind_seqZ_succ f i) by lia.
        by rewrite <- fmap_app, length_fmap.
      + rewrite <- (Hptr r) by lia. unfold idx, aget. destruct (0 <=? r); [|done].
        by rewrite lookup_app_l by lia. }
  destruct Hgen as (Ap & Heq & Hl & Hptr).
  cbv beta iota zeta in Heq |- *. rewrite Heq.
  exists Ap, (seqZ 0 n_col ≫= f).*1, (seqZ 0 n_col ≫= f).*2.
  split; [done|]. split; [done|]. split; [done|]. split; [apply Hptr; lia|].
  apply (rows_built n_col n_row f); try done.
  - rewrite <- (length_fmap fst). by apply take_ge.
  - rewrite <- (length_fmap snd). by apply take_ge.
  - intros r e _ He. apply elem_of_spdiags_col in He as (j & _ & _ & He & _). done.
Qed.

End spdiags.

(** X22. From empty vectors, [spdiags] builds a well-formed column-major
    matrix with [n_col] columns and row indices below [n_row], in vectors
    that hold exactly its entries. Column [i] holds at most [n_diag]
    entries; it stores [(row, v)] exactly when some diagonal [j] has
    [offsets[j] = i - row] with [0 <= row < n_row], and then [v] is read
    from [diags] at [j * min(n_row, n_col) + min(i, row)]. *)
Theorem spdiags_result {T : Type} `{!Scalar T}
    (n_row n_col n_diag : Z) (offsets : list Z) (diags : list T) :
  0 <= n_row -> 0 <= n_col -> 0 <= n_diag ->
  let '(Ap, Ai, Ax) := spdiags n_row n_col n_diag offsets diags [] [] [] in
  valid_csr n_col n_row Ap Ai Ax = true
  /\ Z.of_nat (length Ai) = idx Ap n_col
  /\ Z.of_nat (length Ax) = idx Ap n_col
  /\ forall i, 0 <= i < n_col ->
       idx Ap (i + 1) - idx Ap i <= n_diag
       /\ forall row v,
            (row, v) ∈ row_entries Ap Ai Ax i
            <-> exists j, 0 <= j < n_diag
                  /\ row = i - idx offsets j /\ 0 <= row < n_row
                  /\ v = val diags (j * Z.min n_row n_col + Z.min i row).
Proof.
  intros Hrows Hcols Hdiag.
  destruct (spdiags_built n_row n_col n_diag offsets diags Hrows Hcols)
    as (Ap & Ai & Ax & -> & HAi & HAx & Hnnz & Hok & Hr).
  split; [by apply csr_ok_valid|].
  split; [by rewrite HAi, length_fmap|]. split; [by rewrite HAx, length_fmap|].
  intros i Hi. split.
  - pose proof (length_row_entries Ap Ai Ax i) as Hl. rewrite Hr in Hl by done.
    pose proof (length_spdiags_col n_row n_col n_diag offsets diags i Hdiag).
    pose proof (ok_mono _ _ _ _ _ Hok i Hi). lia.
  - intros row v. rewrite Hr by done.
    apply (elem_of_spdiags_col n_row n_col n_diag offsets diags i (row, v)).
Qed.

(** An instance: the main diagonal and the first superdiagonal of a 3 x 4
    matrix. *)
Lemma spdiags_result_witness :
  0 <= 3 /\ 0 <= 4 /\ 0 <= 2
  /\ (let '(Ap, Ai, Ax) := spdiags 3 4 2 [0; 1] [1; 2; 3; 4; 5; 6] [] [] [] in
      valid_csr 4 3 Ap Ai Ax = true
      /\ Z.of_nat (length Ai) = idx Ap 4
      /\ Z.of_nat (length Ax) = idx Ap 4
      /\ forall i, 0 <= i < 4 ->
           idx Ap (i + 1) - idx Ap i <= 2
           /\ forall row v,
                (row, v) ∈ row_entries Ap Ai Ax i
                <-> exists j, 0 <= j < 2
                      /\ row = i - idx [0; 1] j /\ 0 <= row < 3
                      /\ v = val [1; 2; 3; 4; 5; 6] (j * Z.min 3 4 + Z.min i row)).
Proof.
  split; [lia|]. split; [lia|]. split; [lia|].
  exact (spdiags_result 3 4 2 [0; 1] [1; 2; 3; 4; 5; 6]
           ltac:(lia) ltac:(lia) ltac:(lia)).
Defined.


(** ** [csr_sort_indices] *)

Section sort_indices.
Context {T : Type} `{!Scalar T}.
Implicit Types (Ap Aj : list Z) (Ax : list T) (ws : list (Z * T)).

(** Merge sort on the keys meets the promise of [std::sort]. *)
Lemma key_merge_sort_sorts : sorts_by_key (@key_merge_sort T).
Proof.
  intros l. split; [apply merge_sort_Permutation|].
  apply StronglySorted_merge_sort.
  - intros x y z. unfold not_after, kv_pair_less. rewrite !Z.ltb_ge. lia.
  - intros x y. unfold not_after, kv_pair_less. rewrite !Z.ltb_ge. lia.
Qed.

Lemma collect_row Aj Ax lo hi :
  for_range lo hi (fun temp jj => temp ++ [(idx Aj jj, val Ax jj)]) []
  = (fun jj => (idx Aj jj, val Ax jj)) <$> seqZ lo (hi - lo).
Proof.
  unfold for_range.
  assert (Hgen : forall (l : list Z) (t : list (Z * T)),
            foldl (fun temp jj => temp ++ [(idx Aj jj, val Ax jj)]) t l
            = t ++ ((fun jj => (idx Aj jj, val Ax jj)) <$> l)).
  { induction l as [|jj l IH]; intros t; simpl.
    - by rewrite app_nil_r.
    - by rewrite IH, <- app_assoc. }
  by rewrite Hgen.
Qed.

(** The loop that writes the sorted pairs back into the row. *)
Lemma write_back ws lo hi Aj Ax :
  0 <= lo -> hi - lo = Z.of_nat (length ws) ->
  hi <= Z.of_nat (length Aj) -> hi <= Z.of_nat (length Ax) ->
  exists Aj' Ax' n,
    for_range lo hi (fun '(Aj, Ax, n) jj =>
      (aset Aj jj (aget (0, zero) ws n).1,
       aset Ax jj (aget (0, zero) ws n).2,
       n + 1)) (Aj, Ax, 0)
    = (Aj', Ax', n)
    /\ length Aj' = length Aj /\ length Ax' = length Ax
    /\ (forall jj, lo <= jj < hi ->
          idx Aj' jj = (aget (0, zero) ws (jj - lo)).1
          /\ val Ax' jj = (aget (0, zero) ws (jj - lo)).2)
    /\ (forall jj, ~ (lo <= jj < hi) ->
          idx Aj' jj = idx Aj jj /\ val Ax' jj = val Ax jj).
Proof.
  intros Hlo Hlen HAj HAx.
  assert (Hgen : lo <= hi <= hi -> exists Aj' Ax',
    for_range lo hi (fun '(Aj, Ax, n) jj =>
      (aset Aj jj (aget (0, zero) ws n).1,
       aset Ax jj (aget (0, zero) ws n).2,
       n + 1)) (Aj, Ax, 0)
    = (Aj', Ax', hi - lo)
    /\ length Aj' = length Aj /\ length Ax' = length Ax
    /\ (forall jj, lo <= jj < hi ->
          idx Aj' jj = (aget (0, zero) ws (jj - lo)).1
          /\ val Ax' jj = (aget (0, zero) ws (jj - lo)).2)
    /\ (forall jj, ~ (lo <= jj < hi) ->
          idx Aj' jj = idx Aj jj /\ val Ax' jj = val Ax jj)).
  { apply (for_range_ind (fun h st => lo <= h <= hi -> exists Aj' Ax',
      st = (Aj', Ax', h - lo)
      /\ length Aj' = length Aj /\ length Ax' = length Ax
      /\ (forall jj, lo <= jj < h ->
            idx Aj' jj = (aget (0, zero) ws (jj - lo)).1
            /\ val Ax' jj = (aget (0, zero) ws (jj - lo)).2)
      /\ (forall jj, ~ (lo <= jj < h) ->
            idx Aj' jj = idx Aj jj /\ val Ax' jj = val Ax jj))); [lia| |].
    - intros _. exists Aj, Ax. rewrite Z.sub_diag.
      split; [done|]. split; [done|]. split; [done|]. split; [lia|done].
    - intros h st Hh IH _.
      destruct IH as (Aj' & Ax' & -> & HlAj & HlAx & Hin & Hout); [lia|].
      eexists _, _. split; [f_equal; lia|].
      split; [by rewrite length_aset|]. split; [by rewrite length_aset|]. split.
      + intros jj Hjj. unfold idx, val. destruct (decide (jj = h)) as [->|Hne].
        * by rewrite !aget_aset_eq by lia.
        * rewrite !aget_aset_ne by done. apply Hin. lia.
      + intros jj Hjj. unfold idx, val. rewrite !aget_aset_ne by lia.
        apply Hout. lia. }
  destruct Hgen as (Aj' & Ax' & H0 & H1 & H2 & H3 & H4); [lia|].
  by exists Aj', Ax', (hi - lo).
Qed.

Lemma fmap_aget_seqZ {A : Type} (d : A) (l : list A) (lo : Z) :
  (fun jj => aget d l (jj - lo)) <$> seqZ lo (Z.of_nat (length l)) = l.
Proof.
  apply list_eq. intros k. rewrite list_lookup_fmap.
  destruct (decide (k < length l)%nat) as [Hk|Hk].
  - rewrite lookup_seqZ_lt by lia. simpl.
    destruct (lookup_lt_is_Some_2 _ _ Hk) as [x Hx]. rewrite Hx. f_equal.
    apply aget_lookup; [lia|].
    by replace (Z.to_nat (lo + Z.of_nat k - lo)) with k by lia.
  - rewrite lookup_seqZ_ge by lia. by rewrite lookup_ge_None_2 by lia.
Qed.

Lemma row_entries_ext Ap Aj Ax Aj' Ax' r :
  (forall jj, idx Ap r <= jj < idx Ap (r + 1) ->
     idx Aj' jj = idx Aj jj /\ val Ax' jj = val Ax jj) ->
  row_entries Ap Aj' Ax' r = row_entries Ap Aj Ax r.
Proof.
  intros Hext. unfold row_entries. apply list_fmap_ext.
  intros k jj Hjj%list_elem_of_lookup_2%elem_of_seqZ.
  destruct (Hext jj ltac:(lia)) as [-> ->]. done.
Qed.

(** Every stored position belongs to a row. *)
Lemma row_of_position n_row n_col Ap Aj Ax jj :
  csr_ok n_row n_col Ap Aj Ax -> 0 <= jj < idx Ap n_row ->
  exists r, 0 <= r < n_row /\ idx Ap r <= jj < idx Ap (r + 1).
Proof.
  intros Hok Hjj. pose proof (ok_rows _ _ _ _ _ Hok) as Hrows.
  assert (Hgen : forall m : nat, Z.of_nat m <= n_row -> jj < idx Ap (Z.of_nat m) ->
            exists r, 0 <= r < Z.of_nat m /\ idx Ap r <= jj < idx Ap (r + 1)).
  { induction m as [|m IH]; intros Hm Hlt.
    - change (Z.of_nat 0) with 0 in Hlt. rewrite (ok_first _ _ _ _ _ Hok) in Hlt. lia.
    - replace (Z.of_nat (S m)) with (Z.of_nat m + 1) in * by lia.
      destruct (decide (jj < idx Ap (Z.of_nat m))) as [Hlo|Hhi].
      + destruct IH as (r & Hr & Hin); [lia|done|]. exists r. split; [lia|done].
      + exists (Z.of_nat m). split; lia. }
  destruct (Hgen (Z.to_nat n_row)) as (r & Hr & Hin); [lia|rewrite Z2Nat.id by lia; lia|].
  exists r. split; [lia|done].
Qed.

(** [csr_sort_indices] replaces every row by what the sort makes of it. *)
Lemma csr_sort_indices_spec sort n_row n_col Ap Aj Ax :
  (forall l, length (sort l) = length l) ->
  csr_ok n_row n_col Ap Aj Ax ->
  exists Aj' Ax',
    csr_sort_indices sort n_row n_col Ap Aj Ax = (Aj', Ax')
    /\ length Aj' = length Aj /\ length Ax' = length Ax
    /\ (forall r, 0 <= r < n_row ->
          row_entries Ap Aj' Ax' r = sort (row_entries Ap Aj Ax r))
    /\ (forall jj, idx Ap n_row <= jj ->
          idx Aj' jj = idx Aj jj /\ val Ax' jj = val Ax jj).
Proof.
  intros Hsort Hok. unfold csr_sort_indices.
  pose proof (ok_rows _ _ _ _ _ Hok) as Hrows.
  apply (for_range_ind (fun i st => 0 <= i <= n_row -> exists Aj' Ax',
    st = (Aj', Ax')
    /\ length Aj' = length Aj /\ length Ax' = length Ax
    /\ (forall r, 0 <= r < i ->
          row_entries Ap Aj' Ax' r = sort (row_entries Ap Aj Ax r))
    /\ (forall jj, idx Ap i <= jj ->
          idx Aj' jj = idx Aj jj /\ val Ax' jj = val Ax jj))); [lia| | |lia].
  - intros _. exists Aj, Ax. split; [done|]. split; [done|]. split; [done|].
    split; [lia|done].
  - intros i st Hi IH _.
    destruct IH as (Aj' & Ax' & -> & HlAj & HlAx & Hdone & Hrest); [lia|].
    cbv zeta. rewrite collect_row.
    fold (row_entries Ap Aj' Ax' i).
    rewrite (row_entries_ext Ap Aj Ax Aj' Ax' i) by (intros jj Hjj; apply Hrest; lia).
    set (ws := sort (row_entries Ap Aj Ax i)).
    pose proof (csr_ok_ptr_le _ _ _ _ _ 0 i Hok ltac:(lia) ltac:(lia) ltac:(lia)) as H0.
    rewrite (ok_first _ _ _ _ _ Hok) in H0.
    pose proof (ok_mono _ _ _ _ _ Hok i ltac:(lia)) as H1.
    pose proof (csr_ok_ptr_le _ _ _ _ _ (i + 1) n_row Hok
                  ltac:(lia) ltac:(lia) ltac:(lia)) as H2.
    pose proof (ok_Aj _ _ _ _ _ Hok) as HAj. pose proof (ok_Ax _ _ _ _ _ Hok) as HAx.
    assert (Hlws : idx Ap (i + 1) - idx Ap i = Z.of_nat (length ws)).
    { unfold ws. rewrite Hsort, length_row_entries. lia. }
    destruct (write_back ws (idx Ap i) (idx Ap (i + 1)) Aj' Ax')
      as (Aj2 & Ax2 & n & Hwb & HlAj2 & HlAx2 & Hin & Hout); [lia|done|lia|lia|].
    cbv beta iota zeta in Hwb |- *. rewrite Hwb.
    exists Aj2, Ax2. split; [done|]. split; [congruence|]. split; [congruence|]. split.
    + intros r Hr. destruct (decide (r = i)) as [->|Hne].
      * change (row_entries Ap Aj2 Ax2 i = ws).
        rewrite <- (fmap_aget_seqZ (0, zero) ws (idx Ap i)), <- Hlws.
        unfold row_entries. apply list_fmap_ext. intros k jj Hjj%list_elem_of_lookup_2%elem_of_seqZ.
        destruct (Hin jj ltac:(lia)) as [-> ->]. by destruct (aget _ _ _).
      * rewrite <- Hdone by lia. apply row_entries_ext. intros jj Hjj.
        apply Hout.
        pose proof (csr_ok_ptr_le _ _ _ _ _ (r + 1) i Hok
                      ltac:(lia) ltac:(lia) ltac:(lia)).
        lia.
    + intros jj Hjj. destruct (Hout jj ltac:(lia)) as [-> ->]. apply Hrest. lia.
Qed.

Lemma sorted_columns ws :
  StronglySorted not_after ws ->
  StronglySorted Z.le ws.*1.
Proof.
  induction 1 as [|x l _ IH Hall]; [constructor|].
  rewrite fmap_cons. constructor; [done|].
  rewrite Forall_fmap. eapply Forall_impl; [exact Hall|].
  intros y Hy. unfold not_after, kv_pair_less in Hy. apply Z.ltb_ge in Hy. done.
Qed.

Lemma strictly_sorted (l : list Z) :
  StronglySorted Z.le l -> NoDup l -> StronglySorted Z.lt l.
Proof.
  induction 1 as [|x l _ IH Hall]; intros Hnd; [constructor|].
  apply NoDup_cons in Hnd as [Hx Hnd]. constructor; [by apply IH|].
  rewrite Forall_forall in Hall |- *. intros y Hy.
  specialize (Hall y Hy). assert (x <> y) by (by intros ->). lia.
Qed.

(** Sorting the rows keeps the matrix well formed. *)
Lemma csr_sort_indices_ok sort n_row n_col Ap Aj Ax Aj' Ax' :
  sorts_by_key sort ->
  csr_ok n_row n_col Ap Aj Ax ->
  csr_sort_indices sort n_row n_col Ap Aj Ax = (Aj', Ax') ->
  csr_ok n_row n_col Ap Aj' Ax'
  /\ forall r, 0 <= r < n_row ->
       row_entries Ap Aj' Ax' r = sort (row_entries Ap Aj Ax r).
Proof.
  intros Hsort Hok Heq.
  destruct (csr_sort_indices_spec sort n_row n_col Ap Aj Ax)
    as (Aj1 & Ax1 & Heq1 & HlAj & HlAx & Hrows & _); [|done|].
  { intros l. apply Permutation_length, Hsort. }
  rewrite Heq in Heq1. injection Heq1 as <- <-.
  split; [|done]. destruct Hok as [H1 H2 H3 H4 H5 H6 H7 H8].
  split; try done; try lia.
  intros jj Hjj.
  destruct (row_of_position n_row n_col Ap Aj Ax jj) as (r & Hr & Hin);
    [by split|done|].
  assert (Hmem : (idx Aj' jj, val Ax' jj) ∈ row_entries Ap Aj' Ax' r).
  { unfold row_entries. apply list_elem_of_fmap. exists jj. split; [done|].
    apply elem_of_seqZ. lia. }
  rewrite Hrows in Hmem by done.
  destruct (Hsort (row_entries Ap Aj Ax r)) as [Hperm _].
  rewrite Hperm in Hmem.
  by apply (row_entries_range n_row n_col Ap Aj Ax r _ ltac:(by split)) in Hmem.
Qed.

End sort_indices.

(** X23. For any sort that keeps what [std::sort] promises for the
    comparison [kv_pair_less], [csr_sort_indices] on a well-formed matrix
    keeps the array lengths and the well-formedness under the unchanged row
    pointer; every row of the result is a rearrangement of the row of the
    input, with non-decreasing column indices. Duplicates are kept. *)
Theorem csr_sort_indices_sorts_rows {T : Type} `{!Scalar T}
    (sort : list (Z * T) -> list (Z * T))
    (n_row n_col : Z) (Ap Aj : list Z) (Ax : list T) :
  sorts_by_key sort ->
  valid_csr n_row n_col Ap Aj Ax = true ->
  let '(Aj', Ax') := csr_sort_indices sort n_row n_col Ap Aj Ax in
  length Aj' = length Aj /\ length Ax' = length Ax
  /\ valid_csr n_row n_col Ap Aj' Ax' = true
  /\ forall r, 0 <= r < n_row ->
       row_entries Ap Aj' Ax' r ≡ₚ row_entries Ap Aj Ax r
       /\ StronglySorted Z.le (row_entries Ap Aj' Ax' r).*1.
Proof.
  intros Hsort Hok%valid_csr_ok.
  destruct (csr_sort_indices_spec sort n_row n_col Ap Aj Ax)
    as (Aj' & Ax' & Heq & HlAj & HlAx & Hrows & _); [|done|].
  { intros l. apply Permutation_length, Hsort. }
  rewrite Heq. split; [done|]. split; [done|]. split.
  { apply csr_ok_valid. by apply (csr_sort_indices_ok sort n_row n_col Ap Aj Ax). }
  intros r Hr. rewrite Hrows by done.
  destruct (Hsort (row_entries Ap Aj Ax r)) as [Hperm Hsorted].
  split; [done|]. by apply sorted_columns.
Qed.

(** An instance, with merge sort on the keys as the sort. *)
Lemma csr_sort_indices_sorts_rows_witness :
  sorts_by_key (@key_merge_sort Z)
  /\ valid_csr 3 3 [0; 3; 3; 5] [2; 0; 2; 1; 1] [1; 2; 3; 4; -4] = true
  /\ (let '(Aj', Ax') :=
        csr_sort_indices key_merge_sort
          3 3 [0; 3; 3; 5] [2; 0; 2; 1; 1] [1; 2; 3; 4; -4] in
      length Aj' = 5%nat /\ length Ax' = 5%nat
      /\ valid_csr 3 3 [0; 3; 3; 5] Aj' Ax' = true
      /\ forall r, 0 <= r < 3 ->
           row_entries [0; 3; 3; 5] Aj' Ax' r
           ≡ₚ row_entries [0; 3; 3; 5] [2; 0; 2; 1; 1] [1; 2; 3; 4; -4] r
           /\ StronglySorted Z.le (row_entries [0; 3; 3; 5] Aj' Ax' r).*1).
Proof.
  split; [exact key_merge_sort_sorts|]. split; [reflexivity|].
  exact (csr_sort_indices_sorts_rows
           key_merge_sort
           3 3 [0; 3; 3; 5] [2; 0; 2; 1; 1] [1; 2; 3; 4; -4]
           key_merge_sort_sorts eq_refl).
Defined.

(** X24. [sum_csr_duplicates] followed by [csr_sort_indices] gives the
    canonical form: for any sort that keeps the promise of [std::sort] and
    any well-formed matrix, the result is well formed, every row has
    strictly increasing column indices, and it holds exactly the entries
    that [sum_csr_duplicates] left in the row. *)
Theorem sorted_after_sum_duplicates {T : Type} `{!Scalar T}
    (sort : list (Z * T) -> list (Z * T))
    (n_row n_col : Z) (Ap Aj : list Z) (Ax : list T) :
  sorts_by_key sort ->
  valid_csr n_row n_col Ap Aj Ax = true ->
  exists Ap1 Aj1 Ax1,
    sum_csr_duplicates n_row n_col Ap Aj Ax = Some (Ap1, Aj1, Ax1)
    /\ let '(Aj2, Ax2) := csr_sort_indices sort n_row n_col Ap1 Aj1 Ax1 in
       valid_csr n_row n_col Ap1 Aj2 Ax2 = true
       /\ forall r, 0 <= r < n_row ->
            StronglySorted Z.lt (row_entries Ap1 Aj2 Ax2 r).*1
            /\ row_entries Ap1 Aj2 Ax2 r ≡ₚ row_entries Ap1 Aj1 Ax1 r.
Proof.
  intros Hsort Hok%valid_csr_ok.
  destruct (sum_csr_duplicates_spec n_row n_col Ap Aj Ax Hok)
    as (Ap1 & Aj1 & Ax1 & Heq & _ & _ & _ & _ & _ & _ & _ & Hrows1).
  pose proof (sum_csr_duplicates_ok _ _ _ _ _ _ _ _ Hok Heq) as Hok1.
  exists Ap1, Aj1, Ax1. split; [done|].
  destruct (csr_sort_indices sort n_row n_col Ap1 Aj1 Ax1) as [Aj2 Ax2] eqn:Heq2.
  destruct (csr_sort_indices_ok sort n_row n_col Ap1 Aj1 Ax1 Aj2 Ax2 Hsort Hok1 Heq2)
    as [Hok2 Hrows2].
  split; [by apply csr_ok_valid|].
  intros r Hr. rewrite Hrows2 by done.
  destruct (Hsort (row_entries Ap1 Aj1 Ax1 r)) as [Hperm Hsorted].
  split; [|done].
  apply strictly_sorted; [by apply sorted_columns|].
  rewrite Hperm, Hrows1 by done. apply NoDup_drained.
Qed.

(** An instance, with merge sort on the keys as the sort. *)
Lemma sorted_after_sum_duplicates_witness :
  sorts_by_key (@key_merge_sort Z)
  /\ valid_csr 3 3 [0; 3; 3; 5] [2; 0; 2; 1; 1] [1; 2; 3; 4; -4] = true
  /\ exists Ap1 Aj1 Ax1,
       sum_csr_duplicates 3 3 [0; 3; 3; 5] [2; 0; 2; 1; 1] [1; 2; 3; 4; -4]
       = Some (Ap1, Aj1, Ax1)
       /\ let '(Aj2, Ax2) :=
            csr_sort_indices key_merge_sort
              3 3 Ap1 Aj1 Ax1 in
          valid_csr 3 3 Ap1 Aj2 Ax2 = true
          /\ forall r, 0 <= r < 3 ->
               StronglySorted Z.lt (row_entries Ap1 Aj2 Ax2 r).*1
               /\ row_entries Ap1 Aj2 Ax2 r ≡ₚ row_entries Ap1 Aj1 Ax1 r.
Proof.
  split; [exact key_merge_sort_sorts|]. split; [reflexivity|].
  exact (sorted_after_sum_duplicates
           key_merge_sort
           3 3 [0; 3; 3; 5] [2; 0; 2; 1; 1] [1; 2; 3; 4; -4]
           key_merge_sort_sorts eq_refl).
Defined.


(** ** [csc_diagonal] *)

Section csc_diagonal.
Context {T : Type} `{!Scalar T}.
Implicit Types (Ap Aj Bp Bi : list Z) (Ax Bx Yx : list T).

(** A column sum only reads the entries of its column. *)
Lemma colsum_filter (s : T) (es : list (Z * T)) k :
  colsum s es k = foldl add s (filter (fun e => e.1 = k) es).*2.
Proof.
  unfold colsum. revert s. induction es as [|e es IH]; intros s; [done|].
  rewrite filter_cons. simpl. destruct (Z.eqb_spec e.1 k).
  - rewrite decide_True by done. simpl. apply IH.
  - rewrite decide_False by done. apply IH.
Qed.

(** The diagonal entries of row [i] and of column [i] are the same, in the
    same order, because the conversion is stable. *)
Lemma diagonal_entries n_row Ap Aj Ax i :
  0 <= i < n_row ->
  (filter (fun e => e.1 = i)
     ((fun t => (t.1.1, t.2)) <$> bucket i (triples n_row Ap Aj Ax))).*2
  = (filter (fun e => e.1 = i) (row_entries Ap Aj Ax i)).*2.
Proof.
  intros Hi. unfold bucket.
  rewrite (filter_fmap_comm _ (fun e : Z * T => e.1 = i)), <- list_fmap_compose.
  rewrite list_filter_filter.
  rewrite (list_filter_iff _ (fun t : Z * Z * T => t.1.2 = i /\ t.1.1 = i))
    by (intros; simpl; tauto).
  rewrite <- list_filter_filter, triples_row by done.
  rewrite (filter_fmap_comm _ (fun t : Z * Z * T => t.1.2 = i)).
  by rewrite <- list_fmap_compose.
Qed.

End csc_diagonal.

(** X25. The transpose has the same diagonal: [csc_diagonal] on what
    [csr_tocsc] makes of a well-formed matrix returns the same array as
    [csr_diagonal] on the matrix itself. No law of the addition is needed,
    because the conversion keeps the order of the entries of a column. *)
Theorem csc_diagonal_of_csr_tocsc {T : Type} `{!Scalar T}
    (n_row n_col : Z) (Ap Aj : list Z) (Ax : list T)
    (Bp Bi : list Z) (Bx Yx : list T) :
  valid_csr n_row n_col Ap Aj Ax = true ->
  Z.of_nat (length Bp) = n_col + 1 ->
  idx Ap n_row <= Z.of_nat (length Bi) ->
  idx Ap n_row <= Z.of_nat (length Bx) ->
  let '(Bp', Bi', Bx') := csr_tocsc n_row n_col Ap Aj Ax Bp Bi Bx in
  csc_diagonal n_row n_col Bp' Bi' Bx' Yx = csr_diagonal n_row n_col Ap Aj Ax Yx.
Proof.
  intros Hok%valid_csr_ok HBp HBi HBx.
  destruct (csr_tocsc_spec n_row n_col Ap Aj Ax Bp Bi Bx Hok HBp HBi HBx)
    as (Bp' & Bi' & Bx' & -> & _ & _ & _ & _ & Hrows).
  unfold csc_diagonal, csr_diagonal. rewrite (Z.min_comm n_col n_row).
  unfold for_range at 1 3.
  apply foldl_ext_in. intros Y i Hi%elem_of_seqZ. cbv zeta.
  rewrite !diagonal_loop. rewrite Hrows by lia.
  rewrite !colsum_filter. by rewrite (diagonal_entries n_row) by lia.
Qed.

(** An instance: the diagonal entry of row 0 is stored in two parts. *)
Lemma csc_diagonal_of_csr_tocsc_witness :
  valid_csr 3 3 [0; 3; 3; 5] [0; 2; 0; 2; 2] [1; 2; 3; 4; -4] = true
  /\ (let '(Bp', Bi', Bx') :=
        csr_tocsc 3 3 [0; 3; 3; 5] [0; 2; 0; 2; 2] [1; 2; 3; 4; -4]
          [0; 0; 0; 0] [0; 0; 0; 0; 0] [0; 0; 0; 0; 0] in
      csc_diagonal 3 3 Bp' Bi' Bx' [9; 9; 9]
      = csr_diagonal 3 3 [0; 3; 3; 5] [0; 2; 0; 2; 2] [1; 2; 3; 4; -4] [9; 9; 9]).
Proof.
  split; [reflexivity|].
  exact (csc_diagonal_of_csr_tocsc 3 3 [0; 3; 3; 5] [0; 2; 0; 2; 2] [1; 2; 3; 4; -4]
           [0; 0; 0; 0] [0; 0; 0; 0; 0] [0; 0; 0; 0; 0] [9; 9; 9] eq_refl eq_refl
           ltac:(vm_compute; discriminate) ltac:(vm_compute; discriminate)).
Defined.
